(** * python-property-bag: indentation trees, property bags and the bag parser

    A shallow embedding of [property_bag/indentation_tree.py],
    [property_bag/property_bag.py] and [property_bag/property_bag_parser.py],
    and the properties of the three that the specification states.

    Conventions of the embedding.
    - A Python [str] is a [string]; its characters are read as the code
      points 0..255.
    - A Python object that is mutated after it has been shared (a tree node,
      a bag) lives in a store and is named by its index; a new object takes
      the next free index.
    - A Python list that is used as a stack is kept with its last element at
      the head: [stack[-1]] is the head, [append] conses, [pop] takes the
      tail, and [stack[::-1]] is the list as it stands.
    - A call either returns or raises: [Res]. *)

From Stdlib Require Import List String Ascii ZArith Lia Bool Arith PeanoNat.
From Stdlib Require Import DecimalString Sorted.
Import ListNotations.
Set Warnings "-register-all".
Open Scope string_scope.
Open Scope list_scope.

(** ** Outcomes of a call *)

(** The exceptions the three modules can raise on well-typed arguments.
    [Dangling] is not a Python exception: it is the outcome of following an
    index that the store does not hold, which no execution does. *)
Inductive exn : Type :=
| TypeError
| IndexError
| AttributeError
| RecursionError
| Dangling.

Inductive Res (A : Type) : Type :=
| Ok (a : A)
| Raise (e : exn).
Arguments Ok {A} a.
Arguments Raise {A} e.

(** [for x in xs: a = f(x, a)], left at the first exception. *)
Fixpoint for_each {X A : Type} (f : X -> A -> Res A) (xs : list X) (a : A)
    {struct xs} : Res A :=
  match xs with
  | [] => Ok a
  | x :: xs' =>
      match f x a with
      | Ok a' => for_each f xs' a'
      | Raise e => Raise e
      end
  end.

(** [[f(x) for x in xs]], left at the first exception. *)
Fixpoint map_res {X Y : Type} (f : X -> Res Y) (xs : list X) {struct xs}
    : Res (list Y) :=
  match xs with
  | [] => Ok []
  | x :: xs' =>
      match f x with
      | Raise e => Raise e
      | Ok y =>
          match map_res f xs' with
          | Raise e => Raise e
          | Ok ys => Ok (y :: ys)
          end
      end
  end.

(** Calls that read and change the shared state [S]. *)
Definition M (S A : Type) : Type := S -> Res (A * S).

Definition ret {S A : Type} (a : A) : M S A := fun st => Ok (a, st).

Definition raise {S A : Type} (e : exn) : M S A := fun _ => Raise e.

Definition bind {S A B : Type} (m : M S A) (f : A -> M S B) : M S B :=
  fun st =>
    match m st with
    | Ok (a, st') => f a st'
    | Raise e => Raise e
    end.

(** The result of a call that returned. *)
Definition result {S A : Type} (r : Res (A * S)) : option A :=
  match r with
  | Ok (a, _) => Some a
  | Raise _ => None
  end.

Declare Scope call_scope.
Delimit Scope call_scope with call.
Notation "x <- c1 ;; c2" := (bind c1 (fun x => c2))
  (at level 61, c1 at next level, right associativity) : call_scope.
Notation "c1 ;;; c2" := (bind c1 (fun _ => c2))
  (at level 61, right associativity) : call_scope.

(** ** Objects in a store *)

(** The store with the object at index [i], which it holds, replaced. *)
Definition update {A : Type} (i : nat) (x : A) (l : list A) : list A :=
  firstn i l ++ x :: skipn (S i) l.

(** ** Characters and strings *)

Definition LF : ascii := ascii_of_nat 10.

Definition code (a : ascii) : nat := nat_of_ascii a.

(** [str.isspace] on one character, for the code points below 256. *)
Definition isspace (a : ascii) : bool :=
  let n := code a in
  (((9 <=? n) && (n <=? 13)) || ((28 <=? n) && (n <=? 32))
   || (n =? 133) || (n =? 160))%nat.

Fixpoint lstrip (s : string) : string :=
  match s with
  | String a s' => if isspace a then lstrip s' else s
  | EmptyString => EmptyString
  end.

Fixpoint rstrip (s : string) : string :=
  match s with
  | String a s' =>
      match rstrip s' with
      | EmptyString => if isspace a then EmptyString else String a EmptyString
      | r => String a r
      end
  | EmptyString => EmptyString
  end.

(** [str.strip()] *)
Definition strip (s : string) : string := rstrip (lstrip s).

(** Truth value of a [str]: the empty string is false. *)
Definition truthy (s : string) : bool :=
  match s with EmptyString => false | _ => true end.

(** [str(n)] for a non-negative [int]. *)
Definition str_of_nat (n : nat) : string :=
  NilZero.string_of_uint (Nat.to_uint n).

(** ** Regular expressions

    The three modules match lines with the [regex] package.  The patterns
    are embedded as terms of [re] and run by a backtracking matcher that
    tries the alternatives in the order the package does: the left branch of
    [|] first, one more round of a greedy [*] before leaving it, leaving a
    lazy [*?] before one more round.  [match] starts at the first character,
    where [^] holds, so [^] has no constructor. *)
Module Regex.

Inductive re : Type :=
| Eps
| Chr (cls : ascii -> bool)
| Cat (r1 r2 : re)
| Alt (r1 r2 : re)
| Star (greedy : bool) (r : re)
| Grp (g : string) (r : re)
| Eol.

(** [r?] *)
Definition Opt (r : re) : re := Alt r Eps.

(** [.] matches any character but the line feed. *)
Definition dot (a : ascii) : bool := negb (Ascii.eqb a LF).

(** [\s]: the characters with the White_Space property, below 256. *)
Definition space (a : ascii) : bool :=
  let n := code a in
  (((9 <=? n) && (n <=? 13)) || (n =? 32) || (n =? 133) || (n =? 160))%nat.

(** A literal character. *)
Definition lit (c : ascii) (a : ascii) : bool := Ascii.eqb a c.

(** The captures of a match, in the order the groups were closed. *)
Definition captures : Type := list (string * string).

(** [$] holds at the end of the string and before a line feed that ends it. *)
Definition at_eol (s : string) : bool :=
  match s with
  | EmptyString => true
  | String a EmptyString => Ascii.eqb a LF
  | _ => false
  end.

(** The rounds of [r*] and [r*?]: [step] matches [r] once, and a round
    that takes no character is not repeated; [n] bounds the rounds, and
    the length of the string is enough. *)
Fixpoint rounds
    (step : string -> captures ->
            (string -> captures -> option captures) -> option captures)
    (greedy : bool) (k : string -> captures -> option captures)
    (n : nat) (s : string) (caps : captures) {struct n} : option captures :=
  match n with
  | 0 => k s caps
  | S n' =>
      let more (_ : unit) :=
        step s caps
          (fun s1 c1 =>
             if (String.length s1 <? String.length s)%nat
             then rounds step greedy k n' s1 c1 else None) in
      if greedy then
        match more tt with
        | Some c => Some c
        | None => k s caps
        end
      else
        match k s caps with
        | Some c => Some c
        | None => more tt
        end
  end.

Fixpoint run (r : re) (s : string) (caps : captures)
    (k : string -> captures -> option captures) {struct r} : option captures :=
  match r with
  | Eps => k s caps
  | Chr cls =>
      match s with
      | String a s' => if cls a then k s' caps else None
      | EmptyString => None
      end
  | Cat r1 r2 => run r1 s caps (fun s1 c1 => run r2 s1 c1 k)
  | Alt r1 r2 =>
      match run r1 s caps k with
      | Some c => Some c
      | None => run r2 s caps k
      end
  | Star greedy r1 => rounds (run r1) greedy k (String.length s) s caps
  | Grp g r1 =>
      run r1 s caps
        (fun s1 c1 =>
           k s1 (c1 ++ [(g, substring 0 (String.length s - String.length s1) s)]))
  | Eol => if at_eol s then k s caps else None
  end.

(** [pattern.match(s)] *)
Definition rmatch (r : re) (s : string) : option captures :=
  run r s [] (fun _ c => Some c).

(** [m.captures(g)]: every capture of the group, in order. *)
Definition all_captures (g : string) (m : captures) : list string :=
  map snd (filter (fun p => String.eqb (fst p) g) m).

(** [m[g]]: the last capture of the group, [None] when it took no part. *)
Definition group (g : string) (m : captures) : option string :=
  match rev (all_captures g m) with
  | c :: _ => Some c
  | [] => None
  end.

End Regex.

(** ** [indentation_tree.py] *)
Module IndentationTree.
Import Regex.

(** [INDENT_REGEX_PATTERN]: at [^], the group [indent] holds a greedy run
    of [\s], the group [text] a greedy run of [.], and [$] follows. *)
Definition INDENT_REGEX_PATTERN : re :=
  Cat (Grp "indent" (Star true (Chr space)))
      (Cat (Grp "text" (Star true (Chr dot))) Eol).

(** An [IndentationTree] object.  [_children] holds the indices of the
    child objects. *)
Record t : Type := mk {
  indent : Z;
  text : string;
  children : list nat
}.

Definition store : Type := list t.

Definition set_indent (self : nat) (i : Z) (s : store) : store :=
  match nth_error s self with
  | Some nd => update self (mk i (text nd) (children nd)) s
  | None => s
  end.

(** [self._children.append(tree)] *)
Definition append_child (self : nat) (tree : nat) (s : store) : store :=
  match nth_error s self with
  | Some nd => update self (mk (indent nd) (text nd) (children nd ++ [tree])) s
  | None => s
  end.

(** [normalize_indentation].  The recursion follows [_children]; [fuel]
    bounds its depth, and running out of it is the [RecursionError] of a
    recursion that does not end. *)
Fixpoint normalize_indentation (fuel : nat) (self : nat) (current_indent : Z)
    (s : store) {struct fuel} : Res store :=
  match fuel with
  | 0 => Raise RecursionError
  | S fuel' =>
      match nth_error s self with
      | None => Raise Dangling
      | Some nd =>
          for_each
            (fun child s =>
               normalize_indentation fuel' child (current_indent + 1) s)
            (children nd) (set_indent self current_indent s)
      end
  end.

(** The two groups of a line: [len(matches['indent'])] and
    [matches['text']].  Subscripting the [None] of a failed match is a
    [TypeError]. *)
Definition split_line (line : string) : Res (Z * string) :=
  match rmatch INDENT_REGEX_PATTERN line with
  | None => Raise TypeError
  | Some m =>
      match group "indent" m, group "text" m with
      | Some i, Some tx => Ok (Z.of_nat (String.length i), tx)
      | _, _ => Raise TypeError
      end
  end.

(** [while stack[-1].indent >= indent: stack.pop()] *)
Fixpoint find_parent (s : store) (ind : Z) (stack : list nat) {struct stack}
    : Res (list nat) :=
  match stack with
  | [] => Raise IndexError
  | top :: rest =>
      match nth_error s top with
      | None => Raise Dangling
      | Some nd =>
          if (indent nd >=? ind)%Z then find_parent s ind rest else Ok stack
      end
  end.

(** One round of [for line in lines]. *)
Definition add_line (line : string) (st : store * list nat)
    : Res (store * list nat) :=
  let (s, stack) := st in
  match split_line line with
  | Raise e => Raise e
  | Ok (ind, tx) =>
      let tree := List.length s in
      let s1 := s ++ [mk ind tx []] in
      match find_parent s1 ind stack with
      | Raise e => Raise e
      | Ok [] => Raise IndexError
      | Ok (top :: rest) => Ok (append_child top tree s1, tree :: top :: rest)
      end
  end.

Fixpoint add_lines (lines : list string) (st : store * list nat)
    : Res (store * list nat) :=
  match lines with
  | [] => Ok st
  | line :: lines' =>
      match add_line line st with
      | Ok st' => add_lines lines' st'
      | Raise e => Raise e
      end
  end.

(** [IndentationTree.parse(lines)].  The root is the object at index 0. *)
Definition parse (lines : list string) : Res store :=
  match add_lines lines ([mk (-1) "" []], [0]) with
  | Raise e => Raise e
  | Ok (s, _) => normalize_indentation (List.length s) 0 (-1) s
  end.

(** [IndentationTree.parse(lines)] in an interpreter that allows [limit]
    nested calls of [normalize_indentation] and raises [RecursionError] on
    the next; [parse] above is the call when the limit is out of reach. *)
Definition parse_within (limit : nat) (lines : list string) : Res store :=
  match add_lines lines ([mk (-1) "" []], [0]) with
  | Raise e => Raise e
  | Ok (s, _) => normalize_indentation limit 0 (-1) s
  end.

(** The finished tree as a value: what a reader of [text] and [children]
    sees from a node on. *)
Inductive tree : Type :=
| Node (indent : Z) (text : string) (children : list tree).

Fixpoint tree_of (fuel : nat) (s : store) (self : nat) {struct fuel}
    : Res tree :=
  match fuel with
  | 0 => Raise RecursionError
  | S fuel' =>
      match nth_error s self with
      | None => Raise Dangling
      | Some nd =>
          match map_res (tree_of fuel' s) (children nd) with
          | Ok ts => Ok (Node (indent nd) (text nd) ts)
          | Raise e => Raise e
          end
      end
  end.

(** [build_string], read off the finished tree.  A child is given the
    string built so far and returns it with its own part added, and what it
    returns is added to the string built so far; [indent += ''] leaves
    [indent] as it was. *)
Fixpoint build_string (self : tree) (sb indent : string) {struct self}
    : string :=
  match self with
  | Node i tx cs =>
      fold_left
        (fun sb child => (sb ++ build_string child sb indent)%string)
        cs
        (if (i >? -1)%Z then (sb ++ indent ++ tx)%string else sb)
  end.

(** [__str__] *)
Definition __str__ (self : tree) : string := build_string self "" "".

End IndentationTree.

(** ** Python dictionaries

    A [dict] keeps its keys in the order of their first insertion; storing
    under a key it already holds replaces the value in place. *)
Definition dict (V : Type) : Type := list (string * V).

Fixpoint dict_get {V : Type} (k : string) (d : dict V) : option V :=
  match d with
  | [] => None
  | (k', v) :: d' => if String.eqb k' k then Some v else dict_get k d'
  end.

(** [k in d] *)
Definition dict_mem {V : Type} (k : string) (d : dict V) : bool :=
  match dict_get k d with Some _ => true | None => false end.

(** [d[k] = v] *)
Fixpoint dict_set {V : Type} (k : string) (v : V) (d : dict V) : dict V :=
  match d with
  | [] => [(k, v)]
  | (k', v') :: d' =>
      if String.eqb k' k then (k', v) :: d' else (k', v') :: dict_set k v d'
  end.

(** [for name, child in items.items(): properties[name] = child] *)
Definition dict_update {V : Type} (properties items : dict V) : dict V :=
  fold_left (fun p kv => dict_set (fst kv) (snd kv) p) items properties.

(** ** [property_bag.py] *)
Module PropertyBag.

(** A reference to a [PropertyBag] object. *)
Definition ref : Type := nat.

Record t : Type := mk {
  name : string;
  value : string;
  bases : list ref;
  children : dict ref
}.

(** The arguments of a cached method call: [self] and [item]. *)
Definition key : Type := (ref * string)%type.

Definition key_eqb (k1 k2 : key) : bool :=
  Nat.eqb (fst k1) (fst k2) && String.eqb (snd k1) (snd k2).

(** The entries of an [lru_cache], the least recently used first. *)
Definition lru (V : Type) : Type := list (key * V).

(** The objects and the two caches, which [lru_cache] keeps per function,
    for all bags together; [warnings] holds what [logger.warning] was
    given. *)
Record state : Type := mkState {
  heap : list t;
  contains_cache : lru bool;
  getitem_cache : lru (option ref);
  warnings : list string
}.

Definition empty : state := mkState [] [] [] [].

Definition set_heap (h : list t) (st : state) : state :=
  mkState h (contains_cache st) (getitem_cache st) (warnings st).

Definition set_contains_cache (c : lru bool) (st : state) : state :=
  mkState (heap st) c (getitem_cache st) (warnings st).

Definition set_getitem_cache (c : lru (option ref)) (st : state) : state :=
  mkState (heap st) (contains_cache st) c (warnings st).

Definition warn (msg : string) : M state unit :=
  fun st =>
    Ok (tt, mkState (heap st) (contains_cache st) (getitem_cache st)
              (warnings st ++ [msg])).

(** *** [functools.lru_cache] *)

Fixpoint lru_find {V : Type} (k : key) (c : lru V) : option V :=
  match c with
  | [] => None
  | (k', v) :: c' => if key_eqb k' k then Some v else lru_find k c'
  end.

Definition lru_remove {V : Type} (k : key) (c : lru V) : lru V :=
  filter (fun e => negb (key_eqb (fst e) k)) c.

(** A hit moves the entry to the most recently used end. *)
Definition lru_hit {V : Type} (k : key) (v : V) (c : lru V) : lru V :=
  lru_remove k c ++ [(k, v)].

(** A new entry goes to the most recently used end; a full cache first
    gives up its least recently used entry. *)
Definition lru_store {V : Type} (maxsize : nat) (k : key) (v : V) (c : lru V)
    : lru V :=
  if (List.length c <? maxsize)%nat then c ++ [(k, v)] else tl c ++ [(k, v)].

(** The wrapper that [@lru_cache(maxsize)] puts around [func].  A call
    whose key is cached returns the cached result and [func] does not run.
    Otherwise [func] runs; its result is cached unless the call itself
    cached the same key meanwhile; an exception caches nothing. *)
Definition lru_cache {V : Type} (maxsize : nat)
    (cache : state -> lru V) (set_cache : lru V -> state -> state)
    (func : key -> M state V) (k : key) : M state V :=
  fun st =>
    match lru_find k (cache st) with
    | Some v => Ok (v, set_cache (lru_hit k v (cache st)) st)
    | None =>
        match func k st with
        | Raise e => Raise e
        | Ok (v, st1) =>
            match lru_find k (cache st1) with
            | Some _ => Ok (v, st1)
            | None => Ok (v, set_cache (lru_store maxsize k v (cache st1)) st1)
            end
        end
    end.

(** *** The class *)

(** [PropertyBag(name, value, base_props)]: the new object takes the next
    free index, and [_bases] is a list of its own. *)
Definition new (name value : string) (base_props : list ref) : M state ref :=
  fun st =>
    Ok (List.length (heap st),
        set_heap (heap st ++ [mk name value base_props []]) st).

Definition set_children (self : ref) (d : dict ref) (h : list t) : list t :=
  match nth_error h self with
  | Some b => update self (mk (name b) (value b) (bases b) d) h
  | None => h
  end.

(** [add]: [self._children[prop.name] = prop] *)
Definition add (self prop : ref) : M state unit :=
  fun st =>
    match nth_error (heap st) self, nth_error (heap st) prop with
    | Some b, Some p =>
        Ok (tt, set_heap
                  (set_children self (dict_set (name p) prop (children b))
                     (heap st)) st)
    | _, _ => Raise Dangling
    end.

(** [bases]: the property returns the list [_bases] itself, which its
    reader can change in place; [bs] is what the list holds afterwards. *)
Definition set_bases (self : ref) (bs : list ref) : M state unit :=
  fun st =>
    match nth_error (heap st) self with
    | Some b =>
        Ok (tt, set_heap
                  (update self (mk (name b) (value b) bs (children b))
                     (heap st)) st)
    | None => Raise Dangling
    end.

(** [flatten_properties].  The recursion follows [_bases]; [fuel] bounds
    its depth, and running out of it is the [RecursionError] of a recursion
    that does not end. *)
Fixpoint flatten_properties (fuel : nat) (h : list t) (self : ref)
    {struct fuel} : Res (dict ref) :=
  match fuel with
  | 0 => Raise RecursionError
  | S fuel' =>
      match nth_error h self with
      | None => Raise Dangling
      | Some b =>
          match
            for_each
              (fun base_prop properties =>
                 match flatten_properties fuel' h base_prop with
                 | Raise e => Raise e
                 | Ok items => Ok (dict_update properties items)
                 end)
              (bases b) []
          with
          | Raise e => Raise e
          | Ok properties => Ok (dict_update properties (children b))
          end
      end
  end.

(** The property, read in a state: a chain of bases without a cycle is no
    longer than the number of objects. *)
Definition flattened (self : ref) : M state (dict ref) :=
  fun st =>
    match flatten_properties (List.length (heap st)) (heap st) self with
    | Ok d => Ok (d, st)
    | Raise e => Raise e
    end.

(** [count] *)
Definition count (self : ref) : M state nat :=
  (d <- flattened self ;; ret (List.length d))%call.

(** [__contains__], under [@lru_cache(maxsize=16)] *)
Definition __contains__ (self : ref) (item : string) : M state bool :=
  lru_cache 16 contains_cache set_contains_cache
    (fun k => d <- flattened (fst k) ;; ret (dict_mem (snd k) d))%call
    (self, item).

(** [for base in self._bases[::-1]: if item in base: return base[item]],
    and [return None] after the loop; [bs] is the reversed list and
    [lookup] stands for [base[item]]. *)
Fixpoint from_bases (lookup : key -> M state (option ref)) (item : string)
    (bs : list ref) {struct bs} : M state (option ref) :=
  match bs with
  | [] => ret None
  | base :: bs' =>
      (found <- __contains__ base item ;;
       if (found : bool) then lookup (base, item)
       else from_bases lookup item bs')%call
  end.

(** [__getitem__], under [@lru_cache(maxsize=32)].  [base[item]] is a
    cached call again; [fuel] bounds the depth of the calls. *)
Fixpoint getitem (fuel : nat) (k : key) {struct fuel} : M state (option ref) :=
  lru_cache 32 getitem_cache set_getitem_cache
    (fun k st =>
       match fuel with
       | 0 => Raise RecursionError
       | S fuel' =>
           match nth_error (heap st) (fst k) with
           | None => Raise Dangling
           | Some b =>
               match dict_get (snd k) (children b) with
               | Some c => Ok (Some c, st)
               | None => from_bases (getitem fuel') (snd k) (rev (bases b)) st
               end
           end
       end) k.

Definition __getitem__ (self : ref) (item : string) : M state (option ref) :=
  fun st => getitem (List.length (heap st)) (self, item) st.

(** [self[name].value]: [None], which the indexer returns for a name it
    does not find, has no attribute [value]. *)
Definition value_of_item (item : option ref) : M state string :=
  fun st =>
    match item with
    | None => Raise AttributeError
    | Some c =>
        match nth_error (heap st) c with
        | Some b => Ok (value b, st)
        | None => Raise Dangling
        end
    end.

(** [get]: the value of the named bag, or [default], which is of any
    type. *)
Definition get {D : Type} (self : ref) (name : string) (default : D)
    : M state (string + D) :=
  (found <- __contains__ self name ;;
   if (found : bool) then
     item <- __getitem__ self name ;;
     v <- value_of_item item ;;
     ret (inl v)
   else ret (inr default))%call.

(** [getint]: [int] stands for the built-in, a function from a string to
    its outcome, a number or an exception; it is called last, so its outcome
    is the outcome of the call. *)
Definition getint {A D : Type} (int : string -> A) (self : ref)
    (name : string) (default : D) : M state (A + D) :=
  (found <- __contains__ self name ;;
   if (found : bool) then
     item <- __getitem__ self name ;;
     v <- value_of_item item ;;
     ret (inl (int v))
   else ret (inr default))%call.

(** [convert]: [convertor] is called last, on the value, and its outcome
    is the outcome of the call. *)
Definition convert {A D : Type} (self : ref) (name : string)
    (convertor : string -> A) (default : D) : M state (A + D) :=
  (found <- __contains__ self name ;;
   if (found : bool) then
     item <- __getitem__ self name ;;
     v <- value_of_item item ;;
     ret (inl (convertor v))
   else ret (inr default))%call.

End PropertyBag.

(** ** [property_bag_parser.py] *)
Module PropertyBagParser.
Import Regex.
Import PropertyBag.

Definition tree : Type := IndentationTree.tree.

(** [::] *)
Definition colons : re := Cat (Chr (lit ":")) (Chr (lit ":")).

(** [..*?]: one character and a lazy run of more. *)
Definition some_lazy : re := Cat (Chr dot) (Star false (Chr dot)).

(** [LINE_REGEX_PATTERN], compiled with [regex.VERBOSE]: an optional group
    [abstract] holding [::]; the group [name], [..*?]; then either the group
    [equals] holding [=] and an optional group [value], [..*?], or any
    number of [::] each followed by a group [inherits] holding a lazy run,
    or nothing; and [$]. *)
Definition LINE_REGEX_PATTERN : re :=
  Cat (Opt (Grp "abstract" colons))
    (Cat (Grp "name" some_lazy)
       (Cat
          (Alt (Cat (Grp "equals" (Chr (lit "="))) (Opt (Grp "value" some_lazy)))
             (Alt (Star true (Cat colons (Grp "inherits" (Star false (Chr dot)))))
                Eps))
          Eol)).

(** [bool(matches[g])] *)
Definition group_bool (g : string) (matches : captures) : bool :=
  match group g matches with
  | Some c => truthy c
  | None => false
  end.

(** What [_parse_tree] reads off one line before it branches. *)
Record line : Type := mkLine {
  is_abstract : bool;
  name : string;
  inherits : list string;
  has_equals : bool;
  has_value : bool;
  value : string
}.

(** [inherit.strip()], or [name] when that is empty. *)
Definition inherit_name (name inherit : string) : string :=
  if truthy (strip inherit) then strip inherit else name.

Definition read_line (text : string) (parent_prop : ref) : M state line :=
  match rmatch LINE_REGEX_PATTERN text with
  | None => raise TypeError
  | Some matches =>
      match group "name" matches with
      | None => raise AttributeError
      | Some n =>
          (name <- (if truthy (strip n) then ret (strip n)
                    else c <- count parent_prop ;; ret (str_of_nat c)) ;;
           ret (mkLine
                  (group_bool "abstract" matches)
                  name
                  (map (inherit_name name) (all_captures "inherits" matches))
                  (group_bool "equals" matches)
                  (group_bool "value" matches)
                  (if group_bool "value" matches
                   then match group "value" matches with
                        | Some v => strip v
                        | None => ""
                        end
                   else "")))%call
      end
  end.

(** The value of a multi-line text property: the loop over
    [child.children]. *)
Definition join_children (value : string) (text_children : list tree)
    : string :=
  fold_left
    (fun value text_child =>
       match text_child with
       | IndentationTree.Node _ tx _ =>
           ((if truthy value then value ++ " " else value) ++ tx)%string
       end)
    text_children value.

(** [for p in props[::-1]: if base_name in p: base_prop = p[base_name]; break] *)
Fixpoint search (base_name : string) (props : list ref)
    : M state (option ref) :=
  match props with
  | [] => ret None
  | p :: rest =>
      (found <- __contains__ p base_name ;;
       if (found : bool) then __getitem__ p base_name
       else search base_name rest)%call
  end.

(** The base of one inheritance clause: the concrete stack first, then the
    abstract one. *)
Definition find_base (base_name : string) (parents abstract_props : list ref)
    : M state (option ref) :=
  (base_prop <- search base_name parents ;;
   match base_prop with
   | Some b => ret (Some b)
   | None => search base_name abstract_props
   end)%call.

Definition dq : string := String (ascii_of_nat 34) "".

Definition could_not_find (base_name name : string) : string :=
  ("Could not find base " ++ dq ++ base_name ++ dq
     ++ " for prop " ++ dq ++ name ++ dq)%string.

(** [for base_name in inherits: ...] *)
Fixpoint find_bases (inherits : list string) (name : string)
    (parents abstract_props : list ref) : M state (list ref) :=
  match inherits with
  | [] => ret []
  | base_name :: rest =>
      (base_prop <- find_base base_name parents abstract_props ;;
       match base_prop with
       | Some b =>
           bases <- find_bases rest name parents abstract_props ;;
           ret (b :: bases)
       | None =>
           warn (could_not_find base_name name) ;;;
           find_bases rest name parents abstract_props
       end)%call
  end.

(** The body of [for child in tree.children] up to the recursive call: the
    result is the new collection bag to descend into, if the line declares
    one. *)
Definition declare (child : tree) (parents abstract_props : list ref)
    : M state (option ref) :=
  match child with
  | IndentationTree.Node _ text text_children =>
      match parents with
      | [] => raise IndexError
      | parent_prop :: _ =>
          (l <- read_line text parent_prop ;;
           if has_equals l && has_value l then
             prop <- new (name l) (value l) [] ;;
             add parent_prop prop ;;;
             ret None
           else if has_equals l then
             prop <- new (name l) (join_children (value l) text_children) [] ;;
             add parent_prop prop ;;;
             ret None
           else
             bases <- find_bases (inherits l) (name l) parents abstract_props ;;
             prop <- new (name l) "" bases ;;
             match abstract_props with
             | [] => if is_abstract l then raise IndexError
                     else add parent_prop prop ;;; ret (Some prop)
             | holder :: _ =>
                 add (if is_abstract l then holder else parent_prop) prop ;;;
                 ret (Some prop)
             end)%call
      end
  end.

(** [for child in tree.children: ...], then [parents.pop()] and
    [abstract_props.pop()]; [descend] stands for the recursive call.  The
    two lists are changed in place by the caller and the callee; the
    result is their contents at the end. *)
Fixpoint each_child
    (descend : tree -> list ref -> list ref -> M state (list ref * list ref))
    (cs : list tree) (parents abstract_props : list ref) {struct cs}
    : M state (list ref * list ref) :=
  match cs with
  | [] =>
      match parents, abstract_props with
      | _ :: ps, _ :: abs => ret (ps, abs)
      | _, _ => raise IndexError
      end
  | child :: cs' =>
      (prop <- declare child parents abstract_props ;;
       match prop with
       | None => each_child descend cs' parents abstract_props
       | Some prop =>
           stacks <- descend child (prop :: parents) abstract_props ;;
           each_child descend cs' (fst stacks) (snd stacks)
       end)%call
  end.

(** [_parse_tree(tree, parents, abstract_props)] *)
Fixpoint _parse_tree (t : tree) (parents abstract_props : list ref)
    {struct t} : M state (list ref * list ref) :=
  match t with
  | IndentationTree.Node _ _ cs =>
      (holder <- new "abstract" "" [] ;;
       each_child _parse_tree cs parents (holder :: abstract_props))%call
  end.

(** [PropertyBagParser.parse(tree)] *)
Definition parse (t : tree) : M state ref :=
  (root <- new "root" "" [] ;;
   _parse_tree t [root] [] ;;;
   ret root)%call.

(** [//] *)
Definition slashes : re := Cat (Chr (lit "/")) (Chr (lit "/")).

(** [COMMENT_REGEX_PATTERN], compiled with [regex.VERBOSE]: the group
    [content], a lazy run of [.]; an optional group [comment] holding [//]
    and a greedy run of [.]; and [$]. *)
Definition COMMENT_REGEX_PATTERN : re :=
  Cat (Grp "content" (Star false (Chr dot)))
    (Cat (Opt (Grp "comment" (Cat slashes (Star true (Chr dot))))) Eol).

(** [strip_empty_lines]: the lines that the generator yields,
    [filter(lambda l: len(l.strip()) > 0, lines)]. *)
Definition strip_empty_lines (lines : list string) : list string :=
  filter (fun l => (0 <? String.length (strip l))%nat) lines.

(** The names of the groups of a pattern. *)
Fixpoint group_names (r : re) : list string :=
  match r with
  | Eps | Chr _ | Eol => []
  | Cat r1 r2 | Alt r1 r2 => group_names r1 ++ group_names r2
  | Star _ r1 => group_names r1
  | Grp g r1 => g :: group_names r1
  end.

(** [m[g]] on a match [m] of the pattern [r]: a name that is no group of
    the pattern is an [IndexError]; a group that took no part gives
    [None]. *)
Definition subscript (r : re) (g : string) (m : captures)
    : Res (option string) :=
  if existsb (String.eqb g) (group_names r) then Ok (group g m)
  else Raise IndexError.

(** [_get_line_content]: [m['content'] if m else ''], where [m] is a match
    of [line_regex]. *)
Definition _get_line_content (line : string) : Res (option string) :=
  match rmatch LINE_REGEX_PATTERN line with
  | Some m => subscript LINE_REGEX_PATTERN "content" m
  | None => Ok (Some "")
  end.

(** [comment_regex.match(l)['content']]; subscripting the [None] of a
    failed match is a [TypeError]. *)
Definition comment_content (l : string) : Res (option string) :=
  match rmatch COMMENT_REGEX_PATTERN l with
  | Some m => subscript COMMENT_REGEX_PATTERN "content" m
  | None => Raise TypeError
  end.

(** [strip_comments]: what the generator yields when it is run to its
    end, or the exception that it raises on the way. *)
Definition strip_comments (lines : list string) : Res (list (option string)) :=
  map_res comment_content lines.

(** *** Includes and files

    The calls below read files.  What they have of the file system is
    given as [files]: the answers of [os.path.isdir], [os.path.isfile],
    [os.listdir] and [open(...).readlines()], the last two with the
    exception that they raise where they fail.  The file system is read
    only, and is taken not to change while a call runs. *)

(** The exceptions of these calls: those above, [ValueError] and
    [OSError]. *)
Inductive failure : Type :=
| ValueError
| OSError
| Raised (e : exn).

Record files : Type := mkFiles {
  isdir : string -> bool;
  isfile : string -> bool;
  listdir : string -> failure + list string;
  readlines : string -> failure + list string
}.

(** A generator that is run to its end: the lines that it yields, what it
    gives [logger.error], and the exception that ends it, if one does. *)
Record stream : Type := mkStream {
  yielded : list string;
  logged : list string;
  raised : option failure
}.

Definition nothing : stream := mkStream [] [] None.

Definition yield (l : string) : stream := mkStream [l] [] None.

Definition fail (e : failure) : stream := mkStream [] [] (Some e).

Definition log_error (msg : string) : stream := mkStream [] [msg] None.

(** One part of a generator and the part after it, which runs when the
    first ends without an exception. *)
Definition and_then (r1 r2 : stream) : stream :=
  match raised r1 with
  | Some _ => r1
  | None =>
      mkStream (yielded r1 ++ yielded r2) (logged r1 ++ logged r2) (raised r2)
  end.

(** [for x in xs: ...] in a generator. *)
Fixpoint for_yield {X : Type} (f : X -> stream) (xs : list X) : stream :=
  match xs with
  | [] => nothing
  | x :: xs' => and_then (f x) (for_yield f xs')
  end.

(** The characters of a word, one after the other. *)
Fixpoint word (w : string) : re :=
  match w with
  | String a w' => Cat (Chr (lit a)) (word w')
  | EmptyString => Eps
  end.

(** [INCLUDE_REGEX_PATTERN], compiled with [regex.VERBOSE]: a greedy run of
    [\s], [#include], a greedy run of [\s], a double quote, the group
    [path] holding a greedy run of [.], a double quote, and [$]. *)
Definition INCLUDE_REGEX_PATTERN : re :=
  Cat (Star true (Chr space))
    (Cat (word "#include")
       (Cat (Star true (Chr space))
          (Cat (word dq)
             (Cat (Grp "path" (Star true (Chr dot)))
                (Cat (word dq) Eol))))).

(** The argument [base_path]: a [str], or the [Path] that [from_file]
    passes, which is true whatever it holds. *)
Inductive base : Type :=
| Str (s : string)
| Path (s : string).

Definition base_bool (b : base) : bool :=
  match b with
  | Str s => truthy s
  | Path _ => true
  end.

(** [f'{base_path}'] *)
Definition base_str (b : base) : string :=
  match b with
  | Str s => s
  | Path s => s
  end.

Definition could_not_find_include (path : string) : string :=
  ("Could not find include " ++ dq ++ path ++ dq)%string.

(** [parse_includes].  A file that is included is read and its lines are
    given to a call of the generator again; [depth] bounds the depth of
    these calls, and running out of it is the [RecursionError] of includes
    that do not end. *)
Fixpoint parse_includes (depth : nat) (fs : files) (base_path : base)
    (lines : list string) {struct depth} : stream :=
  match depth with
  | 0 => fail (Raised RecursionError)
  | S depth' =>
      if negb (base_bool base_path) then fail ValueError
      else
        for_yield
          (fun line =>
             match rmatch INCLUDE_REGEX_PATTERN line with
             | None => yield (rstrip line)
             | Some matches =>
                 let path :=
                   match group "path" matches with
                   | Some p => p
                   | None => "None"
                   end in
                 let full_path := (base_str base_path ++ "/" ++ path)%string in
                 if isdir fs full_path then
                   match listdir fs full_path with
                   | inl e => fail e
                   | inr names =>
                       for_yield
                         (fun file_name =>
                            match readlines fs file_name with
                            | inl e => fail e
                            | inr lines' =>
                                parse_includes depth' fs
                                  (Str match group "path" matches with
                                       | Some p => p
                                       | None => ""
                                       end)
                                  lines'
                            end)
                         (map (fun f => (full_path ++ "/" ++ f)%string)
                            (filter
                               (fun f =>
                                  isfile fs (full_path ++ "/" ++ f)%string)
                               names))
                   end
                 else if isfile fs full_path then
                   match readlines fs full_path with
                   | inl e => fail e
                   | inr lines' => parse_includes depth' fs base_path lines'
                   end
                 else log_error (could_not_find_include path)
             end)
          lines
  end.


End PropertyBagParser.

(** [PropertyBagParser.parse(IndentationTree.parse(lines))] *)
Definition parse_lines (lines : list string) : M PropertyBag.state PropertyBag.ref :=
  fun st =>
    match IndentationTree.parse lines with
    | Raise e => Raise e
    | Ok s =>
        match IndentationTree.tree_of (List.length s) s 0 with
        | Raise e => Raise e
        | Ok t => PropertyBagParser.parse t st
        end
    end.

(** ** The parser under a recursion limit

    The definitions above give the recursions over the bases and over the
    tree all the depth that the objects can need.  The interpreter allows
    a number of nested calls only and raises [RecursionError] on the next.
    Below, the calls that recurse are given that number, [limit], and
    everything else is as above. *)
Module Limited.
Import Regex.
Import PropertyBag.
Import PropertyBagParser.

Section Limit.

(** The nested calls of one function that the interpreter allows. *)
Variable limit : nat.

(** [flatten_properties] *)
Definition flattened (self : ref) : M state (dict ref) :=
  fun st =>
    match flatten_properties limit (heap st) self with
    | Ok d => Ok (d, st)
    | Raise e => Raise e
    end.

(** [count] *)
Definition count (self : ref) : M state nat :=
  (d <- flattened self ;; ret (List.length d))%call.

(** [__contains__], under [@lru_cache(maxsize=16)] *)
Definition __contains__ (self : ref) (item : string) : M state bool :=
  lru_cache 16 contains_cache set_contains_cache
    (fun k => d <- flattened (fst k) ;; ret (dict_mem (snd k) d))%call
    (self, item).

Fixpoint from_bases (lookup : key -> M state (option ref)) (item : string)
    (bs : list ref) {struct bs} : M state (option ref) :=
  match bs with
  | [] => ret None
  | base :: bs' =>
      (found <- __contains__ base item ;;
       if (found : bool) then lookup (base, item)
       else from_bases lookup item bs')%call
  end.

(** [__getitem__], under [@lru_cache(maxsize=32)] *)
Fixpoint getitem (fuel : nat) (k : key) {struct fuel} : M state (option ref) :=
  lru_cache 32 getitem_cache set_getitem_cache
    (fun k st =>
       match fuel with
       | 0 => Raise RecursionError
       | S fuel' =>
           match nth_error (heap st) (fst k) with
           | None => Raise Dangling
           | Some b =>
               match dict_get (snd k) (children b) with
               | Some c => Ok (Some c, st)
               | None => from_bases (getitem fuel') (snd k) (rev (bases b)) st
               end
           end
       end) k.

Definition __getitem__ (self : ref) (item : string) : M state (option ref) :=
  getitem limit (self, item).

Definition read_line (text : string) (parent_prop : ref) : M state line :=
  match rmatch LINE_REGEX_PATTERN text with
  | None => raise TypeError
  | Some matches =>
      match group "name" matches with
      | None => raise AttributeError
      | Some n =>
          (name <- (if truthy (strip n) then ret (strip n)
                    else c <- count parent_prop ;; ret (str_of_nat c)) ;;
           ret (mkLine
                  (group_bool "abstract" matches)
                  name
                  (map (inherit_name name) (all_captures "inherits" matches))
                  (group_bool "equals" matches)
                  (group_bool "value" matches)
                  (if group_bool "value" matches
                   then match group "value" matches with
                        | Some v => strip v
                        | None => ""
                        end
                   else "")))%call
      end
  end.

Fixpoint search (base_name : string) (props : list ref)
    : M state (option ref) :=
  match props with
  | [] => ret None
  | p :: rest =>
      (found <- __contains__ p base_name ;;
       if (found : bool) then __getitem__ p base_name
       else search base_name rest)%call
  end.

Definition find_base (base_name : string) (parents abstract_props : list ref)
    : M state (option ref) :=
  (base_prop <- search base_name parents ;;
   match base_prop with
   | Some b => ret (Some b)
   | None => search base_name abstract_props
   end)%call.

Fixpoint find_bases (inherits : list string) (name : string)
    (parents abstract_props : list ref) : M state (list ref) :=
  match inherits with
  | [] => ret []
  | base_name :: rest =>
      (base_prop <- find_base base_name parents abstract_props ;;
       match base_prop with
       | Some b =>
           bases <- find_bases rest name parents abstract_props ;;
           ret (b :: bases)
       | None =>
           warn (could_not_find base_name name) ;;;
           find_bases rest name parents abstract_props
       end)%call
  end.

Definition declare (child : tree) (parents abstract_props : list ref)
    : M state (option ref) :=
  match child with
  | IndentationTree.Node _ text text_children =>
      match parents with
      | [] => raise IndexError
      | parent_prop :: _ =>
          (l <- read_line text parent_prop ;;
           if has_equals l && has_value l then
             prop <- new (name l) (value l) [] ;;
             add parent_prop prop ;;;
             ret None
           else if has_equals l then
             prop <- new (name l) (join_children (value l) text_children) [] ;;
             add parent_prop prop ;;;
             ret None
           else
             bases <- find_bases (inherits l) (name l) parents abstract_props ;;
             prop <- new (name l) "" bases ;;
             match abstract_props with
             | [] => if is_abstract l then raise IndexError
                     else add parent_prop prop ;;; ret (Some prop)
             | holder :: _ =>
                 add (if is_abstract l then holder else parent_prop) prop ;;;
                 ret (Some prop)
             end)%call
      end
  end.

Fixpoint each_child
    (descend : tree -> list ref -> list ref -> M state (list ref * list ref))
    (cs : list tree) (parents abstract_props : list ref) {struct cs}
    : M state (list ref * list ref) :=
  match cs with
  | [] =>
      match parents, abstract_props with
      | _ :: ps, _ :: abs => ret (ps, abs)
      | _, _ => raise IndexError
      end
  | child :: cs' =>
      (prop <- declare child parents abstract_props ;;
       match prop with
       | None => each_child descend cs' parents abstract_props
       | Some prop =>
           stacks <- descend child (prop :: parents) abstract_props ;;
           each_child descend cs' (fst stacks) (snd stacks)
       end)%call
  end.

(** [_parse_tree]: a call for each level of the tree, [fuel] of them at
    most. *)
Fixpoint _parse_tree (fuel : nat) (t : tree) (parents abstract_props : list ref)
    {struct fuel} : M state (list ref * list ref) :=
  match fuel with
  | 0 => raise RecursionError
  | S fuel' =>
      match t with
      | IndentationTree.Node _ _ cs =>
          (holder <- new "abstract" "" [] ;;
           each_child (_parse_tree fuel') cs parents
             (holder :: abstract_props))%call
      end
  end.

(** [PropertyBagParser.parse(tree)] *)
Definition parse (t : tree) : M state ref :=
  (root <- new "root" "" [] ;;
   _parse_tree limit t [root] [] ;;;
   ret root)%call.

(** [PropertyBagParser.parse(IndentationTree.parse(lines))] *)
Definition parse_lines (lines : list string) : M state ref :=
  fun st =>
    match IndentationTree.parse_within limit lines with
    | Raise e => Raise e
    | Ok s =>
        match IndentationTree.tree_of (List.length s) s 0 with
        | Raise e => Raise e
        | Ok t => parse t st
        end
    end.


End Limit.

End Limited.

(** * Properties *)

(** ** Stores *)
Section Update.
Context {A : Type}.

Lemma update_length (i : nat) (x : A) (l : list A) :
  i < List.length l -> List.length (update i x l) = List.length l.
Proof.
  intros H. unfold update.
  rewrite length_app. cbn [List.length].
  rewrite length_firstn, length_skipn. lia.
Qed.

Lemma nth_error_update_eq (i : nat) (x : A) (l : list A) :
  i < List.length l -> nth_error (update i x l) i = Some x.
Proof.
  intros H. unfold update.
  rewrite nth_error_app2; rewrite length_firstn; [|lia].
  replace (i - Nat.min i (List.length l)) with 0 by lia. reflexivity.
Qed.

Lemma nth_error_update_neq (i j : nat) (x : A) (l : list A) :
  i < List.length l -> i <> j -> nth_error (update i x l) j = nth_error l j.
Proof.
  intros Hi Hij. unfold update.
  destruct (Nat.lt_ge_cases j i) as [Hj|Hj].
  - rewrite nth_error_app1 by (rewrite length_firstn; lia).
    rewrite nth_error_firstn.
    now apply Nat.ltb_lt in Hj as ->.
  - rewrite nth_error_app2 by (rewrite length_firstn; lia).
    rewrite length_firstn.
    replace (j - Nat.min i (List.length l)) with (S (j - S i)) by lia.
    cbn [nth_error]. rewrite nth_error_skipn. f_equal. lia.
Qed.

Lemma map_update {B : Type} (f : A -> B) (i : nat) (x : A) (l : list A) :
  map f (update i x l) = update i (f x) (map f l).
Proof.
  unfold update. rewrite map_app. cbn [map].
  now rewrite firstn_map, skipn_map.
Qed.

Lemma update_same (i : nat) (x : A) (l : list A) :
  nth_error l i = Some x -> update i x l = l.
Proof.
  intros H. unfold update.
  revert i H; induction l as [|y l IH]; intros [|i] H; cbn in *;
    try discriminate.
  - now inversion H.
  - f_equal. now apply IH.
Qed.

End Update.

(** ** The matcher on the indent pattern *)
Module RegexFacts.
Import Regex.

(** What is left of [s] after its longest run of characters of a class. *)
Fixpoint skip (cls : ascii -> bool) (s : string) : string :=
  match s with
  | String a s' => if cls a then skip cls s' else s
  | EmptyString => EmptyString
  end.

Lemma run_cat (r1 r2 : re) (s : string) (caps : captures)
    (k : string -> captures -> option captures) :
  run (Cat r1 r2) s caps k = run r1 s caps (fun s1 c1 => run r2 s1 c1 k).
Proof. reflexivity. Qed.

Lemma run_grp (g : string) (r : re) (s : string) (caps : captures)
    (k : string -> captures -> option captures) :
  run (Grp g r) s caps k =
  run r s caps
    (fun s1 c1 =>
       k s1 (c1 ++ [(g, substring 0 (String.length s - String.length s1) s)])).
Proof. reflexivity. Qed.

Lemma run_eol (s : string) (caps : captures)
    (k : string -> captures -> option captures) :
  run Eol s caps k = if at_eol s then k s caps else None.
Proof. reflexivity. Qed.

Lemma run_star_greedy_chr (cls : ascii -> bool) (s : string) (caps : captures)
    (k : string -> captures -> option captures) :
  run (Star true (Chr cls)) s caps k =
  match s with
  | String a s' =>
      if cls a then
        match run (Star true (Chr cls)) s' caps k with
        | Some c => Some c
        | None => k s caps
        end
      else k s caps
  | EmptyString => k s caps
  end.
Proof.
  destruct s as [|a s']; [reflexivity|].
  cbn [run String.length rounds].
  destruct (cls a); [|reflexivity].
  assert (Hlt : (String.length s' <? S (String.length s'))%nat = true)
    by (apply Nat.ltb_lt; lia).
  rewrite Hlt. reflexivity.
Qed.

(** A greedy run that can stop after its longest match does so. *)
Lemma run_star_greedy_skip (cls : ascii -> bool) (s : string) (caps : captures)
    (k : string -> captures -> option captures) :
  k (skip cls s) caps <> None ->
  run (Star true (Chr cls)) s caps k = k (skip cls s) caps.
Proof.
  induction s as [|a s' IH]; intros Hk.
  - reflexivity.
  - rewrite run_star_greedy_chr. cbn [skip] in *.
    destruct (cls a); [|reflexivity].
    rewrite (IH Hk).
    destruct (k (skip cls s') caps); [reflexivity|congruence].
Qed.

Lemma skip_length (cls : ascii -> bool) (s : string) :
  (String.length (skip cls s) <= String.length s)%nat.
Proof.
  induction s as [|a s' IH]; cbn; [lia|].
  destruct (cls a); cbn; lia.
Qed.

Lemma substring_all (s : string) : substring 0 (String.length s) s = s.
Proof. induction s as [|a s' IH]; cbn; [reflexivity|now rewrite IH]. Qed.

Lemma substring_length (n : nat) (s : string) :
  (n <= String.length s)%nat -> String.length (substring 0 n s) = n.
Proof.
  revert n; induction s as [|a s' IH]; intros [|n] H; cbn in *;
    try reflexivity; try lia.
  rewrite IH; lia.
Qed.

(** No line feed in the string. *)
Fixpoint lf_free (s : string) : bool :=
  match s with
  | String a s' => dot a && lf_free s'
  | EmptyString => true
  end.

Lemma lf_free_skip_dot (s : string) : lf_free s = true -> skip dot s = "".
Proof.
  induction s as [|a s' IH]; cbn; [reflexivity|].
  intros H. apply andb_prop in H as [Ha Hs]. rewrite Ha. auto.
Qed.

Lemma lf_free_skip (cls : ascii -> bool) (s : string) :
  lf_free s = true -> lf_free (skip cls s) = true.
Proof.
  induction s as [|a s' IH]; cbn; [reflexivity|].
  intros H. destruct (cls a).
  - apply andb_prop in H as [_ Hs]. auto.
  - exact H.
Qed.

(** A match hands its continuation the captures it was given and those
    it made. *)
Lemma run_grows (r : re) :
  forall (s : string) (caps m : captures)
         (k : string -> captures -> option captures),
    run r s caps k = Some m ->
    exists s' more, k s' (caps ++ more) = Some m.
Proof.
  induction r as [|cls|r1 IH1 r2 IH2|r1 IH1 r2 IH2|greedy r1 IH1|g r1 IH1|];
    intros s caps m k H.
  - exists s, []. now rewrite app_nil_r.
  - cbn in H. destruct s as [|a s']; [discriminate|].
    destruct (cls a); [|discriminate].
    exists s', []. now rewrite app_nil_r.
  - rewrite run_cat in H. apply IH1 in H as (s1 & more1 & H).
    apply IH2 in H as (s2 & more2 & H).
    exists s2, (more1 ++ more2). now rewrite app_assoc.
  - cbn [run] in H. destruct (run r1 s caps k) eqn:E.
    + inversion H; subst. now apply IH1 in E.
    + now apply IH2 in H.
  - cbn [run] in H. revert H. generalize (String.length s). intros n.
    revert s caps. induction n as [|n IHn]; intros s caps H.
    + exists s, []. now rewrite app_nil_r.
    + assert (Hmore :
        run r1 s caps
          (fun s1 c1 =>
             if (String.length s1 <? String.length s)%nat
             then rounds (run r1) greedy k n s1 c1 else None) = Some m ->
        exists s' more, k s' (caps ++ more) = Some m).
      { intros Hm. apply IH1 in Hm as (s1 & more1 & Hm).
        destruct (String.length s1 <? String.length s)%nat; [|discriminate].
        apply IHn in Hm as (s2 & more2 & Hm).
        exists s2, (more1 ++ more2). now rewrite app_assoc. }
      cbn [rounds] in H. cbv zeta in H. destruct greedy.
      * match type of H with
        | match ?x with _ => _ end = _ => destruct x eqn:E
        end.
        -- inversion H; subst. now apply Hmore.
        -- exists s, []. now rewrite app_nil_r.
      * destruct (k s caps) eqn:E.
        -- inversion H; subst. exists s, []. now rewrite app_nil_r.
        -- now apply Hmore.
  - rewrite run_grp in H. apply IH1 in H as (s1 & more1 & H).
    eexists s1, (more1 ++ [_]). rewrite app_assoc. exact H.
  - rewrite run_eol in H. destruct (at_eol s); [|discriminate].
    exists s, []. now rewrite app_nil_r.
Qed.

Lemma group_set (g c : string) (m : captures) :
  In (g, c) m -> exists c', group g m = Some c'.
Proof.
  intros Hin. unfold group.
  assert (Hc : In c (all_captures g m)).
  { unfold all_captures. apply in_map_iff. exists (g, c). split; [reflexivity|].
    apply filter_In. split; [exact Hin|]. apply String.eqb_refl. }
  apply in_rev in Hc. destruct (rev (all_captures g m)) as [|c' l];
    [destruct Hc|now exists c'].
Qed.

End RegexFacts.

(** ** Indentation trees *)
Module IndentationTreeFacts.
Import Regex RegexFacts IndentationTree.

(** A string the indent pattern matches: past its leading whitespace it
    holds no line feed, but for one that ends it. *)
Definition single_line (line : string) : bool :=
  at_eol (skip dot (skip space line)).

Lemma lf_free_single_line (line : string) :
  lf_free line = true -> single_line line = true.
Proof.
  intros H. unfold single_line.
  rewrite (lf_free_skip_dot _ (lf_free_skip space _ H)). reflexivity.
Qed.

(** The raw indent and the text of a line the pattern matches. *)
Definition raw_indent (line : string) : Z :=
  Z.of_nat (String.length line - String.length (skip space line)).

Definition raw_text (line : string) : string :=
  let r := skip space line in
  substring 0 (String.length r - String.length (skip dot r)) r.

Lemma match_single (line : string) :
  single_line line = true ->
  rmatch INDENT_REGEX_PATTERN line =
  Some [("indent",
         substring 0 (String.length line - String.length (skip space line)) line);
        ("text", raw_text line)].
Proof.
  intros H. unfold single_line in H.
  unfold rmatch, INDENT_REGEX_PATTERN.
  assert (Hin : forall c,
    run (Cat (Grp "text" (Star true (Chr dot))) Eol) (skip space line) c
      (fun _ c0 => Some c0) = Some (c ++ [("text", raw_text line)])).
  { intros c. rewrite run_cat, run_grp.
    rewrite run_star_greedy_skip; rewrite run_eol, H; [reflexivity|discriminate]. }
  rewrite run_cat, run_grp.
  rewrite run_star_greedy_skip; rewrite Hin; [reflexivity|discriminate].
Qed.

Lemma split_line_single (line : string) :
  single_line line = true ->
  split_line line = Ok (raw_indent line, raw_text line).
Proof.
  intros H. unfold split_line. rewrite (match_single _ H). cbn.
  unfold raw_indent. rewrite substring_length; [reflexivity|lia].
Qed.

Lemma split_line_cases (line : string) :
  split_line line = Raise TypeError
  \/ exists (n : nat) (tx : string), split_line line = Ok (Z.of_nat n, tx).
Proof.
  unfold split_line.
  destruct (rmatch INDENT_REGEX_PATTERN line) as [m|]; [|now left].
  destruct (group "indent" m) as [i|]; [|now left].
  destruct (group "text" m) as [tx|]; [|now left].
  right. now exists (String.length i), tx.
Qed.

(** *** The tree as it is built *)

(** The children of the object at [p]. *)
Definition kids (s : store) (p : nat) : list nat :=
  match nth_error s p with
  | Some nd => children nd
  | None => []
  end.

(** The indent and the text that [parse] reads off a line. *)
Definition item (line : string) : Z * string :=
  match split_line line with
  | Ok it => it
  | Raise _ => (0%Z, "")
  end.

(** The raw indents of the nodes in the order of their creation: the root,
    then one node a line. *)
Definition raws (lines : list string) : list Z :=
  (-1)%Z :: map (fun l => fst (item l)) lines.

Definition texts (lines : list string) : list string :=
  "" :: map (fun l => snd (item l)) lines.

Definition rawi (rs : list Z) (x : nat) : Z := nth x rs 0%Z.

(** [p] is the nearest node before [c] with a strictly smaller raw indent:
    every node between the two is indented at least as far as [c]. *)
Definition nearest (rs : list Z) (p c : nat) : Prop :=
  p < c /\ (rawi rs p < rawi rs c)%Z
  /\ forall x, p < x < c -> (rawi rs c <= rawi rs x)%Z.

Lemma nearest_unique (rs : list Z) (p p' c : nat) :
  nearest rs p c -> nearest rs p' c -> p = p'.
Proof.
  intros (Hp & Hlt & Hbetween) (Hp' & Hlt' & Hbetween').
  destruct (Nat.lt_trichotomy p p') as [H|[H|H]]; [|exact H|].
  - specialize (Hbetween p'). lia.
  - specialize (Hbetween' p). lia.
Qed.

Lemma rawi_app (rs more : list Z) (x : nat) :
  x < List.length rs -> rawi (rs ++ more) x = rawi rs x.
Proof. intros H. unfold rawi. now apply app_nth1. Qed.

Lemma nearest_app (rs more : list Z) (p c : nat) :
  c < List.length rs -> nearest (rs ++ more) p c <-> nearest rs p c.
Proof.
  intros Hc. unfold nearest. split; intros (Hp & Hlt & Hb).
  - rewrite !rawi_app in Hlt by lia. repeat split; [lia|lia|].
    intros x Hx. specialize (Hb x Hx). now rewrite !rawi_app in Hb by lia.
  - rewrite !rawi_app by lia. repeat split; [lia|lia|].
    intros x Hx. rewrite !rawi_app by lia. now apply Hb.
Qed.

(** The stack of [parse]: each entry is the nearest smaller-indented node
    before the entry above it, down to the root. *)
Inductive open_chain (rs : list Z) : list nat -> Prop :=
| oc_root : open_chain rs [0]
| oc_push (t t' : nat) (rest : list nat) :
    open_chain rs (t' :: rest) -> nearest rs t' t ->
    open_chain rs (t :: t' :: rest).

Lemma open_chain_app (rs more : list Z) (stack : list nat) (n : nat) :
  open_chain rs stack -> hd 0 stack < List.length rs ->
  open_chain (rs ++ more) stack.
Proof.
  induction 1 as [|t t' rest Hc IH Hn]; intros Hlen; cbn in *.
  - constructor.
  - constructor.
    + apply IH. destruct Hn. cbn. lia.
    + now apply nearest_app.
Qed.

Definition raws_ok (rs : list Z) : Prop :=
  rawi rs 0 = (-1)%Z
  /\ forall x, 0 < x < List.length rs -> (0 <= rawi rs x)%Z.

Record built (rs : list Z) (ts : list string) (s : store) (stack : list nat)
    : Prop := {
  b_indent : map indent s = rs;
  b_text : map text s = ts;
  b_kids : forall p c,
      In c (kids s p) <-> c < List.length s /\ nearest rs p c;
  b_nodup : forall p, NoDup (kids s p);
  b_sorted : forall p, StronglySorted lt (kids s p);
  b_parent : forall c, 0 < c < List.length s -> exists p, In c (kids s p);
  b_chain : open_chain rs stack;
  b_top : S (hd 0 stack) = List.length s;
  b_raws : raws_ok rs
}.

Lemma indent_rawi (s : store) (x : nat) (nd : t) :
  nth_error s x = Some nd -> rawi (map indent s) x = indent nd.
Proof.
  intros H. unfold rawi.
  erewrite nth_error_nth; [reflexivity|].
  now rewrite nth_error_map, H.
Qed.

Lemma kids_app_new (s : store) (nd : t) (p : nat) :
  children nd = [] -> kids (s ++ [nd]) p = kids s p.
Proof.
  intros Hnd. unfold kids.
  destruct (Nat.lt_trichotomy p (List.length s)) as [H|[H|H]].
  - now rewrite nth_error_app1.
  - subst p. rewrite nth_error_app2 by lia. rewrite Nat.sub_diag. cbn.
    rewrite Hnd.
    now replace (nth_error s (List.length s)) with (@None t)
      by (symmetry; apply nth_error_None; lia).
  - replace (nth_error s p) with (@None t)
      by (symmetry; apply nth_error_None; lia).
    now replace (nth_error (s ++ [nd]) p) with (@None t)
      by (symmetry; apply nth_error_None; rewrite length_app; cbn; lia).
Qed.

Lemma append_child_length (top n : nat) (s : store) :
  List.length (append_child top n s) = List.length s.
Proof.
  unfold append_child. destruct (nth_error s top) eqn:E; [|reflexivity].
  apply update_length. apply nth_error_Some. congruence.
Qed.

Lemma append_child_indent (top n : nat) (s : store) :
  map indent (append_child top n s) = map indent s.
Proof.
  unfold append_child. destruct (nth_error s top) as [nd|] eqn:E; [|reflexivity].
  rewrite map_update. apply update_same. now rewrite nth_error_map, E.
Qed.

Lemma append_child_text (top n : nat) (s : store) :
  map text (append_child top n s) = map text s.
Proof.
  unfold append_child. destruct (nth_error s top) as [nd|] eqn:E; [|reflexivity].
  rewrite map_update. apply update_same. now rewrite nth_error_map, E.
Qed.

Lemma kids_append_child (top n : nat) (s : store) (p : nat) :
  top < List.length s ->
  kids (append_child top n s) p =
  if Nat.eqb p top then kids s top ++ [n] else kids s p.
Proof.
  intros Htop. unfold append_child, kids.
  destruct (nth_error s top) as [nd|] eqn:E.
  - destruct (Nat.eqb_spec p top) as [->|Hne].
    + now rewrite nth_error_update_eq.
    + now rewrite nth_error_update_neq by congruence.
  - apply nth_error_None in E. lia.
Qed.

Lemma sorted_snoc (l : list nat) (n : nat) :
  StronglySorted lt l -> (forall c, In c l -> c < n) ->
  StronglySorted lt (l ++ [n]).
Proof.
  induction 1 as [|a l Hs IH Ha]; intros Hlt; cbn.
  - repeat constructor.
  - constructor.
    + apply IH. intros c Hc. apply Hlt. now right.
    + apply Forall_app. split; [exact Ha|].
      constructor; [|constructor]. apply Hlt. now left.
Qed.

(** The loop that pops the stack stops at the nearest smaller-indented
    node, at the root at the latest. *)
Lemma find_parent_spec (s : store) (n : nat) (i : Z) (stack : list nat) :
  raws_ok (map indent s) -> (0 <= i)%Z -> rawi (map indent s) n = i ->
  open_chain (map indent s) stack ->
  hd 0 stack < n -> n < List.length s ->
  (forall x, hd 0 stack < x < n -> (i <= rawi (map indent s) x)%Z) ->
  exists p rest,
    find_parent s i stack = Ok (p :: rest)
    /\ open_chain (map indent s) (p :: rest)
    /\ nearest (map indent s) p n.
Proof.
  intros [Hroot Hpos] Hi Hn Hchain. subst i.
  induction Hchain as [|t t' rest Hc IH Hnear]; intros Htop Hlen Hafter;
    cbn [hd] in *.
  - cbn [find_parent].
    destruct (nth_error s 0) as [nd|] eqn:E;
      [|apply nth_error_None in E; lia].
    rewrite <- (indent_rawi _ _ _ E), Hroot.
    replace (-1 >=? rawi (map indent s) n)%Z with false
      by (rewrite Z.geb_leb; symmetry; apply Z.leb_gt; lia).
    exists 0, []. repeat split; try constructor; try lia.
    exact Hafter.
  - cbn [find_parent].
    destruct (nth_error s t) as [nd|] eqn:E;
      [|apply nth_error_None in E; lia].
    rewrite <- (indent_rawi _ _ _ E).
    destruct (rawi (map indent s) t >=? rawi (map indent s) n)%Z eqn:Hge.
    + apply Z.geb_le in Hge.
      destruct Hnear as (Hlt & Hsm & Hbetween).
      apply IH; [lia|lia|].
      intros x Hx.
      destruct (Nat.lt_trichotomy x t) as [H|[H|H]].
      * specialize (Hbetween x). lia.
      * subst x. lia.
      * apply Hafter. lia.
    + rewrite Z.geb_leb in Hge. apply Z.leb_gt in Hge.
      exists t, (t' :: rest). repeat split; try lia.
      * now constructor.
      * exact Hafter.
Qed.

Lemma raws_ok_app (rs : list Z) (i : Z) :
  0 < List.length rs -> raws_ok rs -> (0 <= i)%Z -> raws_ok (rs ++ [i]).
Proof.
  intros Hlen [Hroot Hpos] Hi. split.
  - now rewrite rawi_app.
  - intros x Hx. rewrite length_app in Hx. cbn in Hx.
    destruct (Nat.eq_dec x (List.length rs)) as [->|Hne].
    + unfold rawi. rewrite app_nth2 by lia. now rewrite Nat.sub_diag.
    + rewrite rawi_app by lia. apply Hpos. lia.
Qed.

(** One line more: the new node hangs under the nearest smaller-indented
    node before it. *)
Lemma add_line_built (rs : list Z) (ts : list string) (s : store)
    (stack : list nat) (line : string) (n : nat) (tx : string) :
  built rs ts s stack ->
  split_line line = Ok (Z.of_nat n, tx) ->
  exists s' stack',
    add_line line (s, stack) = Ok (s', stack')
    /\ built (rs ++ [Z.of_nat n]) (ts ++ [tx]) s' stack'.
Proof.
  intros [Hind Htext Hkids Hnodup Hsorted Hparent Hchain Htop Hraws] Hsplit.
  unfold add_line. rewrite Hsplit.
  set (i := Z.of_nat n). set (new := mk i tx []).
  assert (Hlen : List.length rs = List.length s)
    by (rewrite <- Hind; apply length_map).
  assert (Hind1 : map indent (s ++ [new]) = rs ++ [i])
    by (rewrite map_app, Hind; reflexivity).
  destruct (find_parent_spec (s ++ [new]) (List.length s) i stack)
    as (p & rest & Hfind & Hchain' & Hnear).
  - rewrite Hind1. apply raws_ok_app; [lia|exact Hraws|lia].
  - lia.
  - rewrite Hind1. unfold rawi. rewrite app_nth2 by lia.
    now rewrite Hlen, Nat.sub_diag.
  - rewrite Hind1. apply open_chain_app; [exact (List.length s)|exact Hchain|lia].
  - lia.
  - rewrite length_app. cbn. lia.
  - intros x Hx. lia.
  - rewrite Hfind. rewrite Hind1 in Hchain', Hnear.
    assert (Hp : p < List.length s) by (destruct Hnear; lia).
    assert (Hp1 : p < List.length (s ++ [new]))
      by (rewrite length_app; cbn; lia).
    eexists _, _. split; [reflexivity|]. constructor.
    + now rewrite append_child_indent.
    + now rewrite append_child_text, map_app, Htext.
    + intros q c. rewrite append_child_length, length_app. cbn [List.length].
      rewrite kids_append_child by exact Hp1.
      rewrite !kids_app_new by reflexivity.
      destruct (Nat.eqb_spec q p) as [->|Hne].
      * rewrite in_app_iff, Hkids. cbn [In]. split.
        -- intros [[Hc Hn]|[<-|[]]].
           ++ split; [lia|]. apply nearest_app; [lia|exact Hn].
           ++ split; [lia|exact Hnear].
        -- intros [Hc Hn].
           destruct (Nat.eq_dec c (List.length s)) as [->|Hcn]; [now right; left|].
           left. split; [lia|].
           apply (proj1 (nearest_app rs [i] p c ltac:(lia))). exact Hn.
      * rewrite Hkids. split.
        -- intros [Hc Hn]. split; [lia|]. apply nearest_app; [lia|exact Hn].
        -- intros [Hc Hn].
           destruct (Nat.eq_dec c (List.length s)) as [->|Hcn].
           ++ exfalso. apply Hne. eapply nearest_unique; eassumption.
           ++ split; [lia|].
              apply (proj1 (nearest_app rs [i] q c ltac:(lia))). exact Hn.
    + intros q. rewrite kids_append_child by exact Hp1.
      rewrite !kids_app_new by reflexivity.
      destruct (Nat.eqb_spec q p) as [->|Hne]; [|apply Hnodup].
      apply NoDup_app; [apply Hnodup|repeat constructor; intros []|].
      intros c Hc [<-|[]]. apply Hkids in Hc. lia.
    + intros q. rewrite kids_append_child by exact Hp1.
      rewrite !kids_app_new by reflexivity.
      destruct (Nat.eqb_spec q p) as [->|Hne]; [|apply Hsorted].
      apply sorted_snoc; [apply Hsorted|].
      intros c Hc. apply Hkids in Hc. lia.
    + intros c. rewrite append_child_length, length_app. cbn [List.length].
      intros Hc.
      destruct (Nat.eq_dec c (List.length s)) as [->|Hcn].
      * exists p. rewrite kids_append_child by exact Hp1.
        rewrite Nat.eqb_refl. apply in_or_app. right. now left.
      * destruct (Hparent c ltac:(lia)) as (q & Hq). exists q.
        rewrite kids_append_child by exact Hp1.
        rewrite !kids_app_new by reflexivity.
        destruct (Nat.eqb_spec q p) as [->|Hne]; [|exact Hq].
        apply in_or_app. now left.
    + constructor; assumption.
    + cbn [hd]. rewrite append_child_length, length_app. cbn. lia.
    + apply raws_ok_app; [lia|exact Hraws|lia].
Qed.

Lemma built_initial : built (raws []) (texts []) [mk (-1) "" []] [0].
Proof.
  constructor; try reflexivity.
  - intros p c. unfold kids. split.
    + destruct p as [|[|p]]; cbn; intros [].
    + intros [Hc (Hp & _)]. cbn in Hc. lia.
  - intros p. unfold kids. destruct p as [|[|p]]; cbn; constructor.
  - intros p. unfold kids. destruct p as [|[|p]]; cbn; constructor.
  - cbn. intros c Hc. lia.
  - constructor.
  - split; [reflexivity|]. cbn. intros x Hx. lia.
Qed.

Lemma raws_snoc (done : list string) (line : string) :
  raws (done ++ [line]) = raws done ++ [fst (item line)].
Proof. unfold raws. now rewrite map_app. Qed.

Lemma texts_snoc (done : list string) (line : string) :
  texts (done ++ [line]) = texts done ++ [snd (item line)].
Proof. unfold texts. now rewrite map_app. Qed.

Lemma add_lines_built (lines done : list string) (s : store)
    (stack : list nat) :
  built (raws done) (texts done) s stack ->
  (forall l, In l lines -> split_line l <> Raise TypeError) ->
  exists s' stack',
    add_lines lines (s, stack) = Ok (s', stack')
    /\ built (raws (done ++ lines)) (texts (done ++ lines)) s' stack'.
Proof.
  revert done s stack.
  induction lines as [|line lines IH]; intros done s stack Hb Hall.
  - exists s, stack. now rewrite app_nil_r.
  - destruct (split_line_cases line) as [Hr|(n & tx & Hok)].
    + exfalso. apply (Hall line); [now left|exact Hr].
    + destruct (add_line_built _ _ _ _ _ _ _ Hb Hok) as (s1 & stack1 & Hadd & Hb1).
      cbn [add_lines]. rewrite Hadd.
      replace (done ++ line :: lines) with ((done ++ [line]) ++ lines)
        by (now rewrite <- app_assoc).
      apply IH.
      * rewrite raws_snoc, texts_snoc. unfold item. now rewrite Hok.
      * intros l Hl. apply Hall. now right.
Qed.

(** The loop over the lines fails on a line that the pattern does not
    match, and on nothing else. *)
Lemma add_lines_raise (lines done : list string) (s : store)
    (stack : list nat) (e : exn) :
  built (raws done) (texts done) s stack ->
  add_lines lines (s, stack) = Raise e ->
  e = TypeError /\ exists l, In l lines /\ split_line l = Raise TypeError.
Proof.
  revert done s stack.
  induction lines as [|line lines IH]; intros done s stack Hb Hr.
  - discriminate.
  - destruct (split_line_cases line) as [Hs|(n & tx & Hok)].
    + cbn [add_lines] in Hr. unfold add_line in Hr. rewrite Hs in Hr.
      inversion Hr. split; [reflexivity|]. exists line. split; [now left|exact Hs].
    + destruct (add_line_built _ _ _ _ _ _ _ Hb Hok) as (s1 & stack1 & Hadd & Hb1).
      cbn [add_lines] in Hr. rewrite Hadd in Hr.
      destruct (IH (done ++ [line]) s1 stack1) as (He & l & Hl & Hsl).
      * rewrite raws_snoc, texts_snoc. unfold item. now rewrite Hok.
      * exact Hr.
      * split; [exact He|]. exists l. split; [now right|exact Hsl].
Qed.

Lemma add_lines_ok_matched (lines done : list string) (s : store)
    (stack : list nat) (r : store * list nat) :
  built (raws done) (texts done) s stack ->
  add_lines lines (s, stack) = Ok r ->
  forall l, In l lines -> split_line l <> Raise TypeError.
Proof.
  revert done s stack.
  induction lines as [|line lines IH]; intros done s stack Hb Hadd l Hl Hn;
    [contradiction|].
  cbn [add_lines] in Hadd.
  destruct (split_line_cases line) as [Hs|(n & tx & Hok)].
  - unfold add_line in Hadd. rewrite Hs in Hadd. discriminate.
  - destruct Hl as [->|Hl]; [congruence|].
    destruct (add_line_built _ _ _ _ _ _ _ Hb Hok) as (s2 & st2 & Hadd2 & Hb2).
    rewrite Hadd2 in Hadd.
    apply (IH (done ++ [line]) s2 st2) with (l := l); auto.
    rewrite raws_snoc, texts_snoc. unfold item. now rewrite Hok.
Qed.

(** *** Normalization *)

Section Normalize.

(** The children of every node and the number of nodes, which
    [normalize_indentation] leaves as they are. *)
Variable K : nat -> list nat.
Variable L : nat.

Hypothesis K_lt : forall p c, In c (K p) -> p < c < L.
Hypothesis K_parent : forall p p' c, In c (K p) -> In c (K p') -> p = p'.
Hypothesis K_nodup : forall p, NoDup (K p).

(** [d] is [a] or below it. *)
Inductive desc : nat -> nat -> Prop :=
| desc_refl (a : nat) : desc a a
| desc_step (a c d : nat) : In c (K a) -> desc c d -> desc a d.

Lemma desc_le (a d : nat) : desc a d -> a <= d.
Proof.
  induction 1 as [|a c d Hc _ IH]; [lia|].
  apply K_lt in Hc. lia.
Qed.

Lemma desc_child (a p x : nat) : desc a p -> In x (K p) -> desc a x.
Proof.
  induction 1 as [a|a c d Hc _ IH]; intros Hx.
  - eapply desc_step; [exact Hx|constructor].
  - eapply desc_step; [exact Hc|auto].
Qed.

Lemma desc_parent (a x : nat) :
  desc a x -> a <> x -> exists p, desc a p /\ In x (K p).
Proof.
  induction 1 as [a|a c d Hc Hd IH]; intros Hne; [congruence|].
  destruct (Nat.eq_dec c d) as [->|Hcd].
  - exists a. split; [constructor|exact Hc].
  - destruct (IH Hcd) as (p & Hp & Hx).
    exists p. split; [|exact Hx]. eapply desc_step; eassumption.
Qed.

(** Two children of a node have no node below both. *)
Lemma siblings_disjoint (a c1 c2 : nat) :
  In c1 (K a) -> In c2 (K a) -> c1 <> c2 ->
  forall x, desc c1 x -> desc c2 x -> False.
Proof.
  intros H1 H2 Hne x. induction x as [x IH] using lt_wf_ind.
  intros Hx1 Hx2.
  destruct (Nat.eq_dec c1 x) as [->|Hn1].
  - destruct (desc_parent _ _ Hx2 ltac:(congruence)) as (p & Hp & Hin).
    assert (p = a) by (eapply K_parent; eassumption). subst p.
    apply desc_le in Hp. apply K_lt in H2. lia.
  - destruct (Nat.eq_dec c2 x) as [->|Hn2].
    + destruct (desc_parent _ _ Hx1 Hn1) as (p & Hp & Hin).
      assert (p = a) by (eapply K_parent; eassumption). subst p.
      apply desc_le in Hp. apply K_lt in H1. lia.
    + destruct (desc_parent _ _ Hx1 Hn1) as (p1 & Hp1 & Hin1).
      destruct (desc_parent _ _ Hx2 Hn2) as (p2 & Hp2 & Hin2).
      assert (p1 = p2) by (eapply K_parent; eassumption). subst p2.
      apply (IH p1); [|assumption|assumption].
      apply K_lt in Hin1. lia.
Qed.

Definition shaped (s : store) : Prop :=
  List.length s = L /\ forall p, kids s p = K p.

(** The indent of the node at [x]. *)
Definition ind (s : store) (x : nat) : Z := rawi (map indent s) x.

(** Below [a], every child is one level deeper than its parent. *)
Definition normalized_from (s : store) (a : nat) : Prop :=
  forall p c, desc a p -> In c (K p) -> ind s c = (ind s p + 1)%Z.

Lemma set_indent_shaped (self : nat) (i : Z) (s : store) :
  shaped s -> shaped (set_indent self i s).
Proof.
  intros [Hlen Hk]. unfold set_indent.
  destruct (nth_error s self) as [nd|] eqn:E; [|now split].
  assert (Hself : self < List.length s) by (apply nth_error_Some; congruence).
  split.
  - now rewrite update_length.
  - intros p. rewrite <- Hk. unfold kids.
    destruct (Nat.eq_dec self p) as [<-|Hne].
    + now rewrite nth_error_update_eq, E.
    + now rewrite nth_error_update_neq.
Qed.

Lemma set_indent_text (self : nat) (i : Z) (s : store) :
  map text (set_indent self i s) = map text s.
Proof.
  unfold set_indent. destruct (nth_error s self) as [nd|] eqn:E; [|reflexivity].
  rewrite map_update. apply update_same. now rewrite nth_error_map, E.
Qed.

Lemma set_indent_ind (self : nat) (i : Z) (s : store) (x : nat) :
  self < List.length s ->
  ind (set_indent self i s) x = if Nat.eqb x self then i else ind s x.
Proof.
  intros Hself. unfold ind, rawi, set_indent.
  destruct (nth_error s self) as [nd|] eqn:E;
    [|apply nth_error_None in E; lia].
  rewrite map_update. cbn [indent].
  destruct (Nat.eqb_spec x self) as [->|Hne].
  - apply nth_error_nth. apply nth_error_update_eq. now rewrite length_map.
  - assert (Hnth : nth_error (update self i (map indent s)) x
                   = nth_error (map indent s) x)
      by (apply nth_error_update_neq; [now rewrite length_map|congruence]).
    destruct (nth_error (map indent s) x) as [z|] eqn:Ex.
    + rewrite (nth_error_nth _ _ _ Hnth). symmetry. now apply nth_error_nth.
    + rewrite !nth_overflow; [reflexivity| |].
      * now apply nth_error_None.
      * now apply nth_error_None.
Qed.

Lemma normalize_spec (fuel : nat) :
  forall (self : nat) (cur : Z) (s : store),
    shaped s -> self < L -> L - self <= fuel ->
    exists s',
      normalize_indentation fuel self cur s = Ok s'
      /\ shaped s'
      /\ map text s' = map text s
      /\ (forall x, ~ desc self x -> ind s' x = ind s x)
      /\ ind s' self = cur
      /\ normalized_from s' self.
Proof.
  induction fuel as [|fuel IH]; intros self cur s Hs Hself Hfuel; [lia|].
  cbn [normalize_indentation].
  destruct Hs as [Hlen Hk].
  destruct (nth_error s self) as [nd|] eqn:E;
    [|apply nth_error_None in E; lia].
  assert (Hch : children nd = K self)
    by (rewrite <- Hk; unfold kids; now rewrite E).
  rewrite Hch.
  set (s1 := set_indent self cur s).
  assert (Hs1 : shaped s1) by (apply set_indent_shaped; now split).
  assert (Ht1 : map text s1 = map text s) by apply set_indent_text.
  assert (Hi1 : forall x, ind s1 x = if Nat.eqb x self then cur else ind s x)
    by (intros x; apply set_indent_ind; lia).
  (* the loop over the children *)
  assert (Hloop : forall cs s0,
    (forall c, In c cs -> In c (K self)) -> NoDup cs -> shaped s0 ->
    exists s2,
      for_each (fun child s => normalize_indentation fuel child (cur + 1) s)
        cs s0 = Ok s2
      /\ shaped s2
      /\ map text s2 = map text s0
      /\ (forall x, (forall c, In c cs -> ~ desc c x) -> ind s2 x = ind s0 x)
      /\ (forall c, In c cs ->
            ind s2 c = (cur + 1)%Z /\ normalized_from s2 c)).
  { induction cs as [|c cs IHcs]; intros s0 Hin Hnd Hs0.
    - exists s0. split; [reflexivity|]. split; [exact Hs0|].
      split; [reflexivity|]. split; [reflexivity|]. intros c [].
    - cbn [for_each].
      assert (HcK : In c (K self)) by (apply Hin; now left).
      destruct (IH c (cur + 1)%Z s0 Hs0) as (sa & Hrun & Hsa & Hta & Hout & Hc & Hnorm).
      { apply K_lt in HcK. lia. }
      { apply K_lt in HcK. lia. }
      rewrite Hrun.
      inversion Hnd as [|? ? Hnotin Hnd']; subst.
      destruct (IHcs sa) as (s2 & Hrun2 & Hs2 & Ht2 & Hout2 & Hcs2).
      { intros c' Hc'. apply Hin. now right. }
      { exact Hnd'. }
      { exact Hsa. }
      exists s2. split; [exact Hrun2|]. split; [exact Hs2|].
      split; [congruence|]. split.
      + intros x Hx. rewrite Hout2.
        * apply Hout. apply Hx. now left.
        * intros c' Hc'. apply Hx. now right.
      + assert (Hkeep : forall x, desc c x -> ind s2 x = ind sa x).
        { intros x Hx. apply Hout2. intros c' Hc' Hd.
          eapply (siblings_disjoint self c c'); [| | |exact Hx|exact Hd].
          - exact HcK.
          - apply Hin. now right.
          - intros ->. contradiction. }
        intros c' [<-|Hc'].
        * split.
          -- rewrite Hkeep by constructor. exact Hc.
          -- intros p x Hp Hx.
             rewrite (Hkeep x) by (eapply desc_child; eassumption).
             rewrite (Hkeep p) by exact Hp. now apply Hnorm.
        * now apply Hcs2. }
  destruct (Hloop (K self) s1) as (s2 & Hrun & Hs2 & Ht2 & Hout & Hcs);
    [auto|apply K_nodup|exact Hs1|].
  exists s2. split; [exact Hrun|]. split; [exact Hs2|].
  split; [congruence|].
  assert (Hnotself : forall c, In c (K self) -> ~ desc c self).
  { intros c Hc Hd. apply desc_le in Hd. apply K_lt in Hc. lia. }
  split; [|split].
  - intros x Hx. rewrite Hout.
    + rewrite Hi1. destruct (Nat.eqb_spec x self) as [->|_]; [|reflexivity].
      exfalso. apply Hx. constructor.
    + intros c Hc Hd. apply Hx. eapply desc_step; eassumption.
  - rewrite Hout by exact Hnotself. rewrite Hi1. now rewrite Nat.eqb_refl.
  - intros p c Hp Hc.
    destruct (Nat.eq_dec self p) as [<-|Hne].
    + destruct (Hcs c Hc) as [-> _].
      rewrite (Hout self) by exact Hnotself.
      rewrite Hi1. now rewrite Nat.eqb_refl.
    + inversion Hp as [|? c0 ? Hc0 Hd]; subst; [congruence|].
      destruct (Hcs c0 Hc0) as [_ Hnorm]. now apply Hnorm.
Qed.

(** [d] levels below [a]. *)
Inductive below : nat -> nat -> nat -> Prop :=
| below_refl (a : nat) : below a a 0
| below_step (a c x d : nat) : In c (K a) -> below c x d -> below a x (S d).

Lemma below_desc (a x d : nat) : below a x d -> desc a x.
Proof.
  induction 1 as [a|a c x d Hc _ IH]; [constructor|].
  eapply desc_step; eassumption.
Qed.

Lemma desc_below (a x : nat) : desc a x -> exists d, below a x d.
Proof.
  induction 1 as [a|a c x Hc _ (d & IH)].
  - exists 0. constructor.
  - exists (S d). eapply below_step; eassumption.
Qed.

Lemma below_lt (a x d : nat) : a < L -> below a x d -> x < L.
Proof.
  intros Ha Hb. induction Hb as [a|a c x d Hc _ IH]; [exact Ha|].
  apply IH. apply K_lt in Hc. lia.
Qed.

Lemma normalized_below (s : store) (a x d : nat) :
  normalized_from s a -> below a x d -> ind s x = (ind s a + Z.of_nat d)%Z.
Proof.
  intros Hn Hb. induction Hb as [a|a c x d Hc Hb IH]; [lia|].
  rewrite IH.
  - rewrite (Hn a c (desc_refl a) Hc). lia.
  - intros p c' Hp Hc'. apply Hn; [|exact Hc'].
    eapply desc_step; eassumption.
Qed.

(** With any fuel, [normalize_indentation] on a node of the tree returns
    a store of the same shape or runs out of fuel. *)
Lemma normalize_outcome (fuel : nat) :
  forall (self : nat) (cur : Z) (s : store),
    shaped s -> self < L ->
    (exists s', normalize_indentation fuel self cur s = Ok s' /\ shaped s')
    \/ normalize_indentation fuel self cur s = Raise RecursionError.
Proof.
  induction fuel as [|fuel IH]; intros self cur s Hs Hself; [now right|].
  cbn [normalize_indentation].
  destruct (nth_error s self) as [nd|] eqn:E;
    [|apply nth_error_None in E; destruct Hs; lia].
  assert (Hch : children nd = K self)
    by (destruct Hs as [_ Hk]; rewrite <- Hk; unfold kids; now rewrite E).
  rewrite Hch.
  assert (Hs1 : shaped (set_indent self cur s))
    by now apply set_indent_shaped.
  assert (Hloop : forall cs s0,
    (forall c, In c cs -> In c (K self)) -> shaped s0 ->
    (exists s',
       for_each (fun child s => normalize_indentation fuel child (cur + 1) s)
         cs s0 = Ok s' /\ shaped s')
    \/ for_each (fun child s => normalize_indentation fuel child (cur + 1) s)
         cs s0 = Raise RecursionError).
  { induction cs as [|c cs IHcs]; intros s0 Hin Hs0.
    - left. now exists s0.
    - cbn [for_each].
      destruct (IH c (cur + 1)%Z s0 Hs0) as [(sa & Hrun & Hsa)|Hrun].
      { assert (Hc : In c (K self)) by (apply Hin; now left).
        apply K_lt in Hc. lia. }
      + rewrite Hrun. apply IHcs; [|exact Hsa].
        intros c' Hc'. apply Hin. now right.
      + rewrite Hrun. now right. }
  apply Hloop; auto.
Qed.

(** It returns when no node is [fuel] levels below the node. *)
Lemma normalize_returns (fuel : nat) :
  forall (self : nat) (cur : Z) (s : store),
    shaped s -> self < L ->
    (forall x d, below self x d -> d < fuel) ->
    exists s', normalize_indentation fuel self cur s = Ok s' /\ shaped s'.
Proof.
  induction fuel as [|fuel IH]; intros self cur s Hs Hself Hd.
  - specialize (Hd self 0 (below_refl self)). lia.
  - cbn [normalize_indentation].
    destruct (nth_error s self) as [nd|] eqn:E;
      [|apply nth_error_None in E; destruct Hs; lia].
    assert (Hch : children nd = K self)
      by (destruct Hs as [_ Hk]; rewrite <- Hk; unfold kids; now rewrite E).
    rewrite Hch.
    assert (Hs1 : shaped (set_indent self cur s))
      by now apply set_indent_shaped.
    assert (Hloop : forall cs s0,
      (forall c, In c cs -> In c (K self)) -> shaped s0 ->
      exists s',
        for_each (fun child s => normalize_indentation fuel child (cur + 1) s)
          cs s0 = Ok s' /\ shaped s').
    { induction cs as [|c cs IHcs]; intros s0 Hin Hs0.
      - now exists s0.
      - cbn [for_each].
        assert (Hc : In c (K self)) by (apply Hin; now left).
        destruct (IH c (cur + 1)%Z s0 Hs0) as (sa & Hrun & Hsa).
        { apply K_lt in Hc. lia. }
        { intros x d Hx.
          assert (S d < S fuel)
            by (apply (Hd x); eapply below_step; eassumption).
          lia. }
        rewrite Hrun. apply IHcs; [|exact Hsa].
        intros c' Hc'. apply Hin. now right. }
    apply Hloop; auto.
Qed.

(** It raises [RecursionError] when a node is [fuel] levels below the
    node, or more. *)
Lemma normalize_raises (fuel : nat) :
  forall (self : nat) (cur : Z) (s : store) (x d : nat),
    shaped s -> self < L ->
    below self x d -> fuel <= d ->
    normalize_indentation fuel self cur s = Raise RecursionError.
Proof.
  induction fuel as [|fuel IH]; intros self cur s x d Hs Hself Hx Hd;
    [reflexivity|].
  cbn [normalize_indentation].
  destruct (nth_error s self) as [nd|] eqn:E;
    [|apply nth_error_None in E; destruct Hs; lia].
  assert (Hch : children nd = K self)
    by (destruct Hs as [_ Hk]; rewrite <- Hk; unfold kids; now rewrite E).
  rewrite Hch.
  inversion Hx as [|? c ? d' Hc Hb]; subst; [lia|].
  assert (Hs1 : shaped (set_indent self cur s))
    by now apply set_indent_shaped.
  assert (Hloop : forall cs s0,
    In c cs -> (forall c', In c' cs -> In c' (K self)) -> shaped s0 ->
    for_each (fun child s => normalize_indentation fuel child (cur + 1) s)
      cs s0 = Raise RecursionError).
  { induction cs as [|c0 cs IHcs]; intros s0 Hin0 Hin Hs0; [destruct Hin0|].
    cbn [for_each].
    assert (Hc0 : c0 < L).
    { assert (H0 : In c0 (K self)) by (apply Hin; now left).
      apply K_lt in H0. lia. }
    destruct (Nat.eq_dec c0 c) as [->|Hne].
    - rewrite (IH c (cur + 1)%Z s0 x d' Hs0 Hc0 Hb); [reflexivity|lia].
    - destruct Hin0 as [->|Hin0]; [congruence|].
      destruct (normalize_outcome fuel c0 (cur + 1)%Z s0 Hs0 Hc0)
        as [(sa & Hrun & Hsa)|Hrun]; rewrite Hrun; [|reflexivity].
      apply IHcs; [exact Hin0| |exact Hsa].
      intros c' Hc'. apply Hin. now right. }
  apply Hloop; auto.
Qed.

End Normalize.

(** More fuel changes nothing but a [RecursionError]. *)
Lemma for_each_limit {X A : Type} (f g : X -> A -> Res A) :
  (forall x a, f x a = Raise RecursionError \/ f x a = g x a) ->
  forall xs a,
    for_each f xs a = Raise RecursionError
    \/ for_each f xs a = for_each g xs a.
Proof.
  intros H. induction xs as [|x xs IH]; intros a; cbn [for_each];
    [now right|].
  destruct (H x a) as [E|E]; rewrite E; [now left|].
  destruct (g x a) as [a'|e]; [apply IH|now right].
Qed.

Lemma normalize_limit (fuel : nat) :
  forall (more self : nat) (cur : Z) (s : store),
    fuel <= more ->
    normalize_indentation fuel self cur s = Raise RecursionError
    \/ normalize_indentation fuel self cur s
       = normalize_indentation more self cur s.
Proof.
  induction fuel as [|fuel IH]; intros more self cur s Hle; [now left|].
  destruct more as [|more]; [lia|]. cbn [normalize_indentation].
  destruct (nth_error s self) as [nd|]; [|now right].
  apply for_each_limit. intros c s0. apply IH. lia.
Qed.

(** The pattern leaves both groups set. *)
Lemma run_star_chr_some (cls : ascii -> bool) (s : string) (caps m : captures)
    (k : string -> captures -> option captures) :
  run (Star true (Chr cls)) s caps k = Some m ->
  exists s', k s' caps = Some m.
Proof.
  induction s as [|a s' IH]; rewrite run_star_greedy_chr.
  - intros H. now exists "".
  - destruct (cls a).
    + destruct (run (Star true (Chr cls)) s' caps k) as [c|] eqn:E.
      * intros H. inversion H; subst. now apply IH.
      * intros H. now exists (String a s').
    + intros H. now exists (String a s').
Qed.

Lemma match_groups (line : string) (m : captures) :
  rmatch INDENT_REGEX_PATTERN line = Some m ->
  exists i tx, m = [("indent", i); ("text", tx)].
Proof.
  unfold rmatch, INDENT_REGEX_PATTERN. rewrite run_cat, run_grp.
  intros H. apply run_star_chr_some in H as (s1 & H).
  rewrite run_cat, run_grp in H.
  apply run_star_chr_some in H as (s2 & H).
  rewrite run_eol in H. destruct (at_eol s2); [|discriminate].
  inversion H. eexists _, _. reflexivity.
Qed.

Lemma split_line_raise (line : string) :
  split_line line = Raise TypeError <->
  rmatch INDENT_REGEX_PATTERN line = None.
Proof.
  unfold split_line.
  destruct (rmatch INDENT_REGEX_PATTERN line) as [m|] eqn:E.
  - destruct (match_groups _ _ E) as (i & tx & ->). cbn.
    split; discriminate.
  - split; reflexivity.
Qed.

Lemma built_tree (rs : list Z) (ts : list string) (s : store)
    (stack : list nat) :
  built rs ts s stack ->
  (forall p c, In c (kids s p) -> p < c < List.length s)
  /\ (forall p p' c, In c (kids s p) -> In c (kids s p') -> p = p')
  /\ (forall p, p < List.length s -> desc (kids s) 0 p).
Proof.
  intros Hb. split; [|split].
  - intros p c Hc. apply (b_kids _ _ _ _ Hb) in Hc as [Hc (Hp & _)]. lia.
  - intros p p' c Hc Hc'.
    apply (b_kids _ _ _ _ Hb) in Hc as [_ Hn].
    apply (b_kids _ _ _ _ Hb) in Hc' as [_ Hn'].
    eapply nearest_unique; eassumption.
  - intros p. induction p as [p IH] using lt_wf_ind. intros Hp.
    destruct (Nat.eq_dec p 0) as [->|Hne]; [constructor|].
    destruct (b_parent _ _ _ _ Hb p ltac:(lia)) as (q & Hq).
    pose proof Hq as Hq'.
    apply (b_kids _ _ _ _ Hb) in Hq' as [_ (Hlt & _)].
    eapply desc_child; [|exact Hq]. apply IH; lia.
Qed.

(** What [parse] returns when the pattern matches every line. *)
Lemma parse_built (lines : list string) :
  (forall l, In l lines -> rmatch INDENT_REGEX_PATTERN l <> None) ->
  exists s,
    parse lines = Ok s
    /\ List.length s = S (List.length lines)
    /\ map text s = texts lines
    /\ (forall p c,
          In c (kids s p) <->
          c <= List.length lines /\ nearest (raws lines) p c)
    /\ (forall p, StronglySorted lt (kids s p))
    /\ ind s 0 = (-1)%Z
    /\ (forall p c, In c (kids s p) -> ind s c = (ind s p + 1)%Z).
Proof.
  intros Hall.
  destruct (add_lines_built lines [] _ _ built_initial) as (s0 & stack & Hadd & Hb).
  { intros l Hl Hr. apply (Hall l Hl). now apply split_line_raise. }
  cbn [app] in Hb.
  unfold parse, store in *. rewrite Hadd.
  destruct (built_tree _ _ _ _ Hb) as (Hlt & Hpar & Hreach).
  assert (Hlen0 : List.length s0 = S (List.length lines)).
  { rewrite <- (length_map indent), (b_indent _ _ _ _ Hb).
    unfold raws. cbn. now rewrite length_map. }
  destruct (normalize_spec (kids s0) (List.length s0) Hlt Hpar
              (b_nodup _ _ _ _ Hb) (List.length s0) 0 (-1)%Z s0)
    as (s & Hrun & [Hlen Hk] & Htext & _ & Hroot & Hnorm).
  { now split. }
  { lia. }
  { lia. }
  exists s. split; [exact Hrun|]. split; [congruence|].
  split; [rewrite Htext; apply (b_text _ _ _ _ Hb)|].
  split; [|split; [|split]].
  - intros p c. rewrite Hk, (b_kids _ _ _ _ Hb), Hlen0. split.
    + intros [Hc Hn]. split; [lia|exact Hn].
    + intros [Hc Hn]. split; [lia|exact Hn].
  - intros p. rewrite Hk. apply (b_sorted _ _ _ _ Hb).
  - exact Hroot.
  - intros p c Hc. rewrite Hk in Hc. apply Hnorm; [|exact Hc].
    apply Hreach. apply Hlt in Hc. lia.
Qed.

Lemma raws_single (lines : list string) :
  Forall (fun l => single_line l = true) lines ->
  raws lines = (-1)%Z :: map raw_indent lines
  /\ texts lines = "" :: map raw_text lines.
Proof.
  intros H. unfold raws, texts. split; f_equal; apply map_ext_in;
    intros l Hl; rewrite Forall_forall in H; unfold item;
    now rewrite (split_line_single _ (H l Hl)).
Qed.

Lemma single_line_matches (line : string) :
  single_line line = true -> rmatch INDENT_REGEX_PATTERN line <> None.
Proof. intros H. now rewrite (match_single _ H). Qed.

Definition two_lines : string := String "a" (String LF "b").

(** C7: when the pattern matches every line (no line feed past the
    leading whitespace, but for one that ends the string), [parse] returns
    the tree in which the node of each line is a child of the nearest
    earlier node with a strictly smaller raw indent (every node between the
    two is indented at least as far, so lines of equal indent are siblings
    and the root, of indent -1, takes the rest), the children of a node are
    in the order of their lines, the root has depth -1 and every child has
    the depth of its parent plus one, whatever the raw indents were. *)
Theorem parse_nests_by_indent (lines : list string) :
  Forall (fun l => single_line l = true) lines ->
  exists s,
    parse lines = Ok s
    /\ List.length s = S (List.length lines)
    /\ map text s = "" :: map raw_text lines
    /\ (forall p c,
          In c (kids s p) <->
          c <= List.length lines
          /\ nearest ((-1)%Z :: map raw_indent lines) p c)
    /\ (forall p, StronglySorted lt (kids s p))
    /\ (forall root, nth_error s 0 = Some root -> indent root = (-1)%Z)
    /\ (forall p c np nc,
          nth_error s p = Some np -> In c (children np) ->
          nth_error s c = Some nc -> indent nc = (indent np + 1)%Z).
Proof.
  intros Hall.
  destruct (raws_single _ Hall) as [Hraws Htexts].
  destruct (parse_built lines) as (s & Hp & Hlen & Ht & Hk & Hs & Hr & Hd).
  { intros l Hl. apply single_line_matches.
    rewrite Forall_forall in Hall. now apply Hall. }
  exists s. rewrite <- Hraws, <- Htexts.
  split; [exact Hp|]. split; [exact Hlen|]. split; [exact Ht|].
  split; [exact Hk|]. split; [exact Hs|]. split.
  - intros root E. now rewrite <- (indent_rawi _ _ _ E).
  - intros p c np nc Ep Hc Ec.
    rewrite <- (indent_rawi _ _ _ Ep), <- (indent_rawi _ _ _ Ec).
    apply Hd. unfold kids. now rewrite Ep.
Qed.

Lemma parse_nests_by_indent_witness :
  exists s,
    parse ["a"; "    b"; "  c"; "  d"; "e"] = Ok s
    /\ List.length s = 6
    /\ kids s 0 = [1; 5] /\ kids s 1 = [2; 3; 4]
    /\ map indent s = [-1; 0; 1; 1; 1; 0]%Z.
Proof.
  destruct (parse_nests_by_indent ["a"; "    b"; "  c"; "  d"; "e"])
    as (s & Hp & Hlen & _).
  - repeat constructor.
  - exists s. split; [exact Hp|]. split; [exact Hlen|].
    vm_compute in Hp. inversion Hp. repeat split; reflexivity.
Defined.

(** The loop of [parse] returns when the pattern matches every line. *)
Lemma add_lines_returns (lines : list string) :
  (forall l, In l lines -> rmatch INDENT_REGEX_PATTERN l <> None) ->
  exists s stack, add_lines lines ([mk (-1) "" []], [0]) = Ok (s, stack).
Proof.
  intros Hall.
  destruct (add_lines_built lines [] _ _ built_initial)
    as (s0 & stack & Hadd & _).
  { intros l Hl Hr. apply (Hall l Hl). now apply split_line_raise. }
  now exists s0, stack.
Qed.

(** [parse] under a limit: the tree of [parse], unless a node is nested
    too deep for the calls that the limit allows. *)
Lemma parse_within_spec (limit : nat) (lines : list string) :
  (forall l, In l lines -> rmatch INDENT_REGEX_PATTERN l <> None) ->
  exists s,
    parse lines = Ok s
    /\ ((forall x nd, nth_error s x = Some nd ->
           (indent nd + 1 < Z.of_nat limit)%Z) ->
        parse_within limit lines = Ok s)
    /\ (forall x nd,
          nth_error s x = Some nd -> (Z.of_nat limit <= indent nd + 1)%Z ->
          parse_within limit lines = Raise RecursionError).
Proof.
  intros Hall.
  destruct (add_lines_built lines [] _ _ built_initial)
    as (s0 & stack & Hadd & Hb).
  { intros l Hl Hr. apply (Hall l Hl). now apply split_line_raise. }
  cbn [app] in Hb.
  unfold parse, parse_within, store in *. rewrite Hadd.
  destruct (built_tree _ _ _ _ Hb) as (Hlt & Hpar & Hreach).
  assert (Hpos : 0 < List.length s0).
  { rewrite <- (length_map indent), (b_indent _ _ _ _ Hb). cbn. lia. }
  destruct (normalize_spec (kids s0) (List.length s0) Hlt Hpar
              (b_nodup _ _ _ _ Hb) (List.length s0) 0 (-1)%Z s0)
    as (s & Hrun & [Hlen Hk] & _ & _ & Hroot & Hnorm);
    [now split|lia|lia|].
  assert (Hdepth : forall x d nd,
    below (kids s0) 0 x d -> nth_error s x = Some nd ->
    (indent nd + 1)%Z = Z.of_nat d).
  { intros x d nd Hx E.
    pose proof (normalized_below _ _ _ _ _ Hnorm Hx) as Hi.
    rewrite Hroot in Hi. unfold ind in Hi.
    rewrite (indent_rawi _ _ _ E) in Hi. lia. }
  exists s. split; [exact Hrun|]. split.
  - intros Hsmall.
    destruct (normalize_returns (kids s0) (List.length s0) Hlt limit 0
                (-1)%Z s0) as (s' & Hrun' & _); [now split|lia| |].
    + intros x d Hx.
      assert (Hxl : x < List.length s)
        by (rewrite Hlen; exact (below_lt _ _ Hlt _ _ _ Hpos Hx)).
      destruct (nth_error s x) as [nd|] eqn:E;
        [|apply nth_error_None in E; lia].
      specialize (Hsmall x nd E). rewrite (Hdepth x d nd Hx E) in Hsmall. lia.
    + destruct (normalize_limit limit (Nat.max limit (List.length s0)) 0
                  (-1)%Z s0 ltac:(lia)) as [E|E];
        [rewrite Hrun' in E; discriminate|].
      destruct (normalize_limit (List.length s0)
                  (Nat.max limit (List.length s0)) 0 (-1)%Z s0 ltac:(lia))
        as [E'|E']; [rewrite Hrun in E'; discriminate|].
      rewrite E, <- E'. exact Hrun.
  - intros x nd E Hdeep.
    assert (Hxl : x < List.length s0).
    { rewrite <- Hlen. apply nth_error_Some. congruence. }
    destruct (desc_below _ _ _ (Hreach x Hxl)) as (d & Hx).
    apply (normalize_raises (kids s0) (List.length s0) Hlt limit 0 (-1)%Z s0
             x d); [now split|lia|exact Hx|].
    rewrite (Hdepth x d nd Hx E) in Hdeep. lia.
Qed.

(** The lines [x], [ x], [  x], ...: each is nested in the one before. *)
Fixpoint spaces (n : nat) : string :=
  match n with
  | 0 => ""
  | S n' => String " " (spaces n')
  end.

Definition stairs (n : nat) : list string :=
  map (fun i => (spaces i ++ "x")%string) (seq 0 n).

Lemma stairs_line (i : nat) :
  lf_free (spaces i ++ "x") = true
  /\ raw_indent (spaces i ++ "x") = Z.of_nat i.
Proof.
  assert (Hskip : skip space (spaces i ++ "x") = "x")
    by (induction i as [|i IH]; [reflexivity|exact IH]).
  assert (Hlen : String.length (spaces i ++ "x") = S i)
    by (induction i as [|i IH]; cbn; [reflexivity|now rewrite IH]).
  split.
  - induction i as [|i IH]; [reflexivity|]. cbn [spaces append lf_free].
    rewrite IH; [reflexivity| |].
    + clear. induction i as [|i IH]; [reflexivity|exact IH].
    + clear. induction i as [|i IH]; cbn; [reflexivity|now rewrite IH].
  - unfold raw_indent. rewrite Hskip, Hlen. cbn. f_equal. lia.
Qed.

Lemma stairs_single (n : nat) :
  Forall (fun l => single_line l = true) (stairs n).
Proof.
  apply Forall_forall. intros l Hl. apply in_map_iff in Hl as (i & <- & _).
  apply lf_free_single_line, stairs_line.
Qed.

Lemma stairs_raws (n x : nat) :
  x <= n -> rawi (raws (stairs n)) x = (Z.of_nat x - 1)%Z.
Proof.
  intros Hx. rewrite (proj1 (raws_single _ (stairs_single n))).
  unfold rawi, stairs. destruct x as [|y]; [reflexivity|]. cbn [nth].
  rewrite map_map.
  rewrite (map_ext _ Z.of_nat) by (intros i; apply stairs_line).
  change 0%Z with (Z.of_nat 0). rewrite map_nth, seq_nth by lia. lia.
Qed.

(** In the tree of [stairs n] the node of line [x] is [x] levels below
    the root. *)
Lemma stairs_depth (n : nat) :
  exists s,
    parse (stairs n) = Ok s
    /\ List.length s = S n
    /\ forall x, x <= n -> ind s x = (Z.of_nat x - 1)%Z.
Proof.
  destruct (parse_built (stairs n)) as (s & Hp & Hlen & _ & Hk & _ & Hr & Hc).
  { intros l Hl. apply single_line_matches.
    pose proof (stairs_single n) as H. rewrite Forall_forall in H.
    now apply H. }
  assert (Hn : List.length (stairs n) = n)
    by (unfold stairs; now rewrite length_map, length_seq).
  rewrite Hn in Hlen, Hk.
  exists s. split; [exact Hp|]. split; [exact Hlen|].
  induction x as [|y IH]; intros Hx; [rewrite Hr; lia|].
  assert (Hin : In (S y) (kids s y)).
  { apply Hk. split; [exact Hx|]. split; [lia|].
    rewrite !stairs_raws by lia. split; [lia|]. intros z Hz. lia. }
  rewrite (Hc y (S y) Hin), IH by lia. lia.
Qed.

Lemma parse_within_stairs (limit n : nat) :
  (n < limit -> exists s, parse_within limit (stairs n) = Ok s)
  /\ (limit <= n -> parse_within limit (stairs n) = Raise RecursionError).
Proof.
  destruct (stairs_depth n) as (s & Hp & Hlen & Hd).
  destruct (parse_within_spec limit (stairs n)) as (s' & Hp' & Hok & Hdeep).
  { intros l Hl. apply single_line_matches.
    pose proof (stairs_single n) as H. rewrite Forall_forall in H.
    now apply H. }
  rewrite Hp in Hp'. inversion Hp'; subst s'. clear Hp'.
  assert (Hind : forall x nd, nth_error s x = Some nd ->
            x <= n /\ (indent nd + 1)%Z = Z.of_nat x).
  { intros x nd E.
    assert (Hx : x < List.length s) by (apply nth_error_Some; congruence).
    split; [lia|]. rewrite <- (indent_rawi _ _ _ E).
    fold (ind s x). rewrite Hd by lia. lia. }
  split.
  - intros Hlt. exists s. apply Hok. intros x nd E.
    destruct (Hind x nd E) as [Hx ->]. lia.
  - intros Hle.
    destruct (nth_error s n) as [nd|] eqn:E;
      [|apply nth_error_None in E; lia].
    apply (Hdeep n nd E). destruct (Hind n nd E) as [_ ->]. lia.
Qed.

(** C9, as the code has it.  The loop of [parse] never fails on
    [stack[-1]]: a raw indent is at least 0 and the root keeps -1 below
    the stack, so the loop returns whenever the pattern matches every line,
    which it does on every string without a line feed, and raises only the
    [TypeError] of subscripting the [None] of a failed match.  After the
    loop [normalize_indentation] is called once a level of nesting: under a
    limit of nested calls [parse] returns the tree when every node is less
    than that many levels below the root, and raises [RecursionError] when
    a node is not; it raises nothing else. *)
Theorem parse_raises_on_unmatched_line_or_depth :
  (forall lines,
     (forall l, In l lines -> rmatch INDENT_REGEX_PATTERN l <> None) ->
     exists s stack, add_lines lines ([mk (-1) "" []], [0]) = Ok (s, stack))
  /\ (forall lines e,
        add_lines lines ([mk (-1) "" []], [0]) = Raise e ->
        e = TypeError
        /\ exists l, In l lines /\ rmatch INDENT_REGEX_PATTERN l = None)
  /\ (forall limit lines,
        (forall l, In l lines -> rmatch INDENT_REGEX_PATTERN l <> None) ->
        exists s,
          parse lines = Ok s
          /\ ((forall x nd, nth_error s x = Some nd ->
                 (indent nd + 1 < Z.of_nat limit)%Z) ->
              parse_within limit lines = Ok s)
          /\ (forall x nd,
                nth_error s x = Some nd ->
                (Z.of_nat limit <= indent nd + 1)%Z ->
                parse_within limit lines = Raise RecursionError))
  /\ (forall limit lines e,
        parse_within limit lines = Raise e ->
        (e = TypeError
         /\ exists l, In l lines /\ rmatch INDENT_REGEX_PATTERN l = None)
        \/ (e = RecursionError
            /\ forall l, In l lines -> rmatch INDENT_REGEX_PATTERN l <> None))
  /\ (forall line, lf_free line = true ->
        rmatch INDENT_REGEX_PATTERN line <> None)
  /\ (forall line i tx, split_line line = Ok (i, tx) -> (0 <= i)%Z)
  /\ (forall limit n,
        (forall l, In l (stairs n) -> lf_free l = true)
        /\ (n < limit -> exists s, parse_within limit (stairs n) = Ok s)
        /\ (limit <= n ->
            parse_within limit (stairs n) = Raise RecursionError)).
Proof.
  assert (Hraise : forall lines e,
    add_lines lines ([mk (-1) "" []], [0]) = Raise e ->
    e = TypeError
    /\ exists l, In l lines /\ rmatch INDENT_REGEX_PATTERN l = None).
  { intros lines e Hadd.
    destruct (add_lines_raise _ _ _ _ _ built_initial Hadd)
      as (He & l & Hl & Hs).
    split; [exact He|]. exists l. split; [exact Hl|].
    now apply split_line_raise. }
  split; [exact add_lines_returns|]. split; [exact Hraise|].
  split; [intros limit lines; apply parse_within_spec|].
  split; [|split; [|split]].
  - intros limit lines e Hr. unfold parse_within in Hr.
    destruct (add_lines lines ([mk (-1) "" []], [0])) as [[s0 stack]|e0]
      eqn:Hadd.
    + right.
      assert (Hall : forall l, In l lines ->
                rmatch INDENT_REGEX_PATTERN l <> None).
      { intros l Hl Hn. apply split_line_raise in Hn.
        eapply (add_lines_ok_matched _ _ _ _ _ built_initial Hadd);
          eassumption. }
      split; [|exact Hall].
      destruct (parse_built lines Hall) as (s & Hp & _).
      unfold parse in Hp. rewrite Hadd in Hp.
      destruct (normalize_limit limit (Nat.max limit (List.length s0)) 0
                  (-1)%Z s0 ltac:(lia)) as [E|E];
        [rewrite Hr in E; now inversion E|].
      destruct (normalize_limit (List.length s0)
                  (Nat.max limit (List.length s0)) 0 (-1)%Z s0 ltac:(lia))
        as [E'|E']; [rewrite Hp in E'; discriminate|].
      rewrite E, <- E', Hp in Hr. discriminate.
    + left. inversion Hr; subst. now apply Hraise.
  - intros line H. apply single_line_matches. now apply lf_free_single_line.
  - intros line i tx H.
    destruct (split_line_cases line) as [Hr|(n & tx' & Hok)]; [congruence|].
    rewrite Hok in H. inversion H. lia.
  - intros limit n. split; [|apply parse_within_stairs].
    intros l Hl. apply in_map_iff in Hl as (i & <- & _). apply stairs_line.
Qed.

Lemma parse_raises_on_unmatched_line_or_depth_witness :
  (exists s stack,
     add_lines ["a"; "  b"; "c "] ([mk (-1) "" []], [0]) = Ok (s, stack))
  /\ (exists s,
        parse ["a"; "  b"; "c "] = Ok s
        /\ parse_within 1000 ["a"; "  b"; "c "] = Ok s).
Proof.
  assert (Hall : forall l, In l ["a"; "  b"; "c "] ->
            rmatch INDENT_REGEX_PATTERN l <> None)
    by (intros l [<-|[<-|[<-|[]]]]; vm_compute; discriminate).
  split.
  - exact (proj1 parse_raises_on_unmatched_line_or_depth _ Hall).
  - destruct (proj1 (proj2 (proj2 parse_raises_on_unmatched_line_or_depth))
                1000 _ Hall) as (s & Hp & Hok & _).
    exists s. split; [exact Hp|]. apply Hok.
    vm_compute in Hp. inversion Hp; subst s.
    intros x nd E.
    do 4 (destruct x as [|x];
          [inversion E; subst; vm_compute; reflexivity|]).
    destruct x; discriminate.
Defined.

(** C9, as the claim has it, fails: the pattern does not match a string
    with a line feed before more text, and [parse] raises on it. *)
Lemma parse_fails_on_line_feed :
  rmatch INDENT_REGEX_PATTERN two_lines = None
  /\ parse [two_lines] = Raise TypeError.
Proof. split; reflexivity. Qed.

End IndentationTreeFacts.

(** ** Dictionaries *)
Section DictFacts.
Context {V : Type}.

(** The keys of a [dict] are distinct. *)
Definition dict_ok (d : dict V) : Prop := NoDup (map fst d).

Lemma dict_get_In (k : string) (v : V) (d : dict V) :
  dict_get k d = Some v -> In (k, v) d.
Proof.
  induction d as [|[k' v'] d IH]; cbn; [discriminate|].
  destruct (String.eqb_spec k' k) as [->|Hne].
  - intros H. inversion H. now left.
  - intros H. right. auto.
Qed.

Lemma dict_get_None (k : string) (d : dict V) :
  dict_get k d = None <-> ~ In k (map fst d).
Proof.
  induction d as [|[k' v'] d IH]; cbn.
  - split; [intros _ []|reflexivity].
  - destruct (String.eqb_spec k' k) as [->|Hne].
    + split; [discriminate|]. intros H. exfalso. apply H. now left.
    + rewrite IH. split.
      * intros H [E|Hin]; [congruence|contradiction].
      * intros H Hin. apply H. now right.
Qed.

Lemma In_dict_get (k : string) (v : V) (d : dict V) :
  dict_ok d -> In (k, v) d -> dict_get k d = Some v.
Proof.
  unfold dict_ok. induction d as [|[k' v'] d IH]; cbn; [intros _ []|].
  intros Hnd Hin. inversion Hnd as [|? ? Hnotin Hnd']; subst.
  destruct (String.eqb_spec k' k) as [->|Hne].
  - destruct Hin as [E|Hin]; [now inversion E|].
    exfalso. apply Hnotin. now apply (in_map fst) in Hin.
  - destruct Hin as [E|Hin]; [inversion E; congruence|auto].
Qed.

Lemma dict_get_set (n k : string) (v : V) (d : dict V) :
  dict_get n (dict_set k v d) =
  if String.eqb k n then Some v else dict_get n d.
Proof.
  induction d as [|[k' v'] d IH]; cbn.
  - reflexivity.
  - destruct (String.eqb_spec k' k) as [->|Hne]; cbn.
    + destruct (String.eqb_spec k n); reflexivity.
    + rewrite IH. destruct (String.eqb_spec k' n) as [->|]; [|reflexivity].
      destruct (String.eqb_spec k n); [congruence|reflexivity].
Qed.

Lemma keys_set (k : string) (v : V) (d : dict V) :
  map fst (dict_set k v d) =
  if dict_mem k d then map fst d else map fst d ++ [k].
Proof.
  unfold dict_mem. induction d as [|[k' v'] d IH]; cbn; [reflexivity|].
  destruct (String.eqb_spec k' k) as [->|Hne]; cbn; [reflexivity|].
  rewrite IH. now destruct (dict_get k d).
Qed.

Lemma dict_ok_set (k : string) (v : V) (d : dict V) :
  dict_ok d -> dict_ok (dict_set k v d).
Proof.
  unfold dict_ok. intros H. rewrite keys_set. unfold dict_mem.
  destruct (dict_get k d) eqn:E; [exact H|].
  apply dict_get_None in E.
  apply NoDup_app; [exact H|repeat constructor; intros []|].
  intros x Hx [<-|[]]. contradiction.
Qed.

Lemma dict_ok_update (p items : dict V) :
  dict_ok p -> dict_ok (dict_update p items).
Proof.
  unfold dict_update. revert p.
  induction items as [|[k v] items IH]; intros p Hp; cbn; [exact Hp|].
  apply IH. now apply dict_ok_set.
Qed.

(** Overlaying [items] on [p]: an entry of [items] wins. *)
Lemma dict_get_update (n : string) (p items : dict V) :
  dict_ok items ->
  dict_get n (dict_update p items) =
  match dict_get n items with
  | Some c => Some c
  | None => dict_get n p
  end.
Proof.
  unfold dict_update, dict_ok. revert p.
  induction items as [|[k v] items IH]; intros p Hok; cbn; [reflexivity|].
  inversion Hok as [|? ? Hnotin Hok']; subst.
  rewrite (IH _ Hok'). rewrite dict_get_set.
  destruct (String.eqb_spec k n) as [->|Hne]; [|reflexivity].
  cbn in Hnotin. apply dict_get_None in Hnotin. now rewrite Hnotin.
Qed.

Lemma In_dict_set (k : string) (v : V) (d : dict V) (x : string * V) :
  In x (dict_set k v d) -> x = (k, v) \/ In x d.
Proof.
  induction d as [|[k' v'] d IH]; cbn.
  - intros [<-|[]]. now left.
  - destruct (String.eqb_spec k' k) as [->|Hne]; cbn.
    + intros [<-|H]; [now left|now right; right].
    + intros [<-|H]; [now right; left|].
      destruct (IH H) as [->|H']; [now left|now right; right].
Qed.

Lemma In_dict_update (p items : dict V) (x : string * V) :
  In x (dict_update p items) -> In x p \/ In x items.
Proof.
  unfold dict_update. revert p.
  induction items as [|[k v] items IH]; intros p; cbn; [now left|].
  intros H. destruct (IH _ H) as [H1|H1]; [|now right; right].
  destruct (In_dict_set _ _ _ _ H1) as [->|H2]; [right; now left|now left].
Qed.

End DictFacts.

(** ** Property bags *)
Module PropertyBagFacts.
Import PropertyBag.

(** Every base of a bag was constructed before the bag: the constructor
    takes its bases from the bags that exist, and nothing in the class
    changes [_bases] afterwards. *)
Definition bases_older (h : list t) : Prop :=
  forall r b, nth_error h r = Some b -> Forall (fun x => x < r) (bases b).

Definition children_ok (h : list t) : Prop :=
  forall r b, nth_error h r = Some b -> dict_ok (children b).

(** The entry under [n] in the last of the maps that has one. *)
Fixpoint last_entry (n : string) (ds : list (dict ref)) : option ref :=
  match ds with
  | [] => None
  | items :: ds' =>
      match last_entry n ds' with
      | Some c => Some c
      | None => dict_get n items
      end
  end.

Lemma dict_get_overlay (n : string) (ds : list (dict ref)) (acc : dict ref) :
  Forall dict_ok ds ->
  dict_get n (fold_left dict_update ds acc) =
  match last_entry n ds with
  | Some c => Some c
  | None => dict_get n acc
  end.
Proof.
  revert acc. induction ds as [|items ds IH]; intros acc Hok; cbn;
    [reflexivity|].
  inversion Hok as [|? ? Hi Hds]; subst.
  rewrite (IH _ Hds). destruct (last_entry n ds); [reflexivity|].
  now apply dict_get_update.
Qed.

Lemma dict_ok_overlay (ds : list (dict ref)) (acc : dict ref) :
  dict_ok acc -> dict_ok (fold_left dict_update ds acc).
Proof.
  revert acc. induction ds as [|items ds IH]; intros acc Hok; cbn;
    [exact Hok|].
  apply IH. now apply dict_ok_update.
Qed.

(** The loop over [_bases] in [flatten_properties]. *)
Definition merge_base (fuel : nat) (h : list t) (base_prop : ref)
    (properties : dict ref) : Res (dict ref) :=
  match flatten_properties fuel h base_prop with
  | Raise e => Raise e
  | Ok items => Ok (dict_update properties items)
  end.

Lemma flatten_unfold (fuel : nat) (h : list t) (self : ref) (b : t) :
  nth_error h self = Some b ->
  flatten_properties (S fuel) h self =
  match for_each (merge_base fuel h) (bases b) [] with
  | Raise e => Raise e
  | Ok properties => Ok (dict_update properties (children b))
  end.
Proof. intros E. cbn [flatten_properties]. now rewrite E. Qed.

Lemma merge_loop (fuel : nat) (h : list t) (bs : list ref) (ds : list (dict ref))
    (acc : dict ref) :
  Forall2 (fun x d => flatten_properties fuel h x = Ok d) bs ds ->
  for_each (merge_base fuel h) bs acc = Ok (fold_left dict_update ds acc).
Proof.
  intros H. revert acc. induction H as [|x d bs ds Hx _ IH]; intros acc; cbn;
    [reflexivity|].
  unfold merge_base at 1. rewrite Hx. apply IH.
Qed.

(** The flattened view does not depend on the depth allowed, once that
    is enough. *)
Lemma flatten_fuel (h : list t) :
  bases_older h ->
  forall r, r < List.length h ->
  exists d, forall fuel, r < fuel -> flatten_properties fuel h r = Ok d.
Proof.
  intros Hwf r. induction r as [r IH] using lt_wf_ind. intros Hr.
  destruct (nth_error h r) as [b|] eqn:E;
    [|apply nth_error_None in E; lia].
  pose proof (Hwf r b E) as Hb.
  assert (Hds : exists ds,
    Forall2 (fun x d => forall fuel, x < fuel ->
                          flatten_properties fuel h x = Ok d) (bases b) ds).
  { induction Hb as [|x bs Hx _ IHbs].
    - exists []. constructor.
    - destruct IHbs as (ds & Hds).
      destruct (IH x Hx ltac:(lia)) as (d & Hd).
      exists (d :: ds). now constructor. }
  destruct Hds as (ds & Hds).
  exists (dict_update (fold_left dict_update ds []) (children b)).
  intros [|fuel] Hfuel; [lia|].
  rewrite (flatten_unfold _ _ _ _ E).
  rewrite (merge_loop fuel h (bases b) ds); [reflexivity|].
  clear - Hds Hb Hfuel.
  induction Hds as [|x d bs ds Hx _ IHds]; constructor.
  - inversion Hb; subst. apply Hx. lia.
  - inversion Hb; subst. auto.
Qed.

(** The flattened view of the bag at [r]. *)
Definition flat (h : list t) (r : ref) : dict ref :=
  match flatten_properties (S r) h r with
  | Ok d => d
  | Raise _ => []
  end.

Lemma flatten_flat (h : list t) (r fuel : nat) :
  bases_older h -> r < List.length h -> r < fuel ->
  flatten_properties fuel h r = Ok (flat h r).
Proof.
  intros Hwf Hr Hfuel. destruct (flatten_fuel h Hwf r Hr) as (d & Hd).
  unfold flat. rewrite (Hd (S r)) by lia. now apply Hd.
Qed.

Lemma flat_eq (h : list t) (r : ref) (b : t) :
  bases_older h -> nth_error h r = Some b ->
  flat h r =
  dict_update (fold_left dict_update (map (flat h) (bases b)) []) (children b).
Proof.
  intros Hwf E.
  assert (Hr : r < List.length h) by (apply nth_error_Some; congruence).
  pose proof (flatten_flat h r (S r) Hwf Hr ltac:(lia)) as H.
  rewrite (flatten_unfold _ _ _ _ E) in H.
  rewrite (merge_loop r h (bases b) (map (flat h) (bases b))) in H.
  - now inversion H.
  - pose proof (Hwf r b E) as Hb. clear - Hb Hwf Hr.
    induction Hb as [|x bs Hx _ IH]; cbn; constructor; [|exact IH].
    apply flatten_flat; [exact Hwf|lia|lia].
Qed.

Lemma merge_loop_ok (fuel : nat) (h : list t) (bs : list ref)
    (acc d : dict ref) :
  for_each (merge_base fuel h) bs acc = Ok d -> dict_ok acc -> dict_ok d.
Proof.
  revert acc. induction bs as [|x bs IH]; intros acc; cbn.
  - intros E. now inversion E; subst.
  - unfold merge_base at 1.
    destruct (flatten_properties fuel h x) as [items|]; [|discriminate].
    intros E Hacc. apply (IH _ E). now apply dict_ok_update.
Qed.

Lemma flat_ok (h : list t) (r : ref) : dict_ok (flat h r).
Proof.
  unfold flat. destruct (nth_error h r) as [b|] eqn:E.
  - rewrite (flatten_unfold _ _ _ _ E).
    destruct (for_each (merge_base r h) (bases b) []) as [d|] eqn:E1;
      [|constructor].
    apply dict_ok_update. apply (merge_loop_ok _ _ _ _ _ E1). constructor.
  - cbn [flatten_properties]. rewrite E. constructor.
Qed.

(** Reading the property in a state. *)
Lemma flattened_flat (st : state) (self : ref) :
  bases_older (heap st) -> self < List.length (heap st) ->
  flattened self st = Ok (flat (heap st) self, st).
Proof.
  intros Hwf Hself. unfold flattened.
  now rewrite (flatten_flat _ _ _ Hwf Hself Hself).
Qed.

(** What the flattened view holds under a name. *)
Lemma flat_get (h : list t) (r : ref) (b : t) (n : string) :
  bases_older h -> nth_error h r = Some b -> dict_ok (children b) ->
  dict_get n (flat h r) =
  match dict_get n (children b) with
  | Some c => Some c
  | None => last_entry n (map (flat h) (bases b))
  end.
Proof.
  intros Hwf E Hok. rewrite (flat_eq _ _ _ Hwf E).
  rewrite dict_get_update by exact Hok.
  destruct (dict_get n (children b)); [reflexivity|].
  rewrite dict_get_overlay.
  - now destruct (last_entry n (map (flat h) (bases b))).
  - apply Forall_forall. intros d Hd. apply in_map_iff in Hd as (x & <- & _).
    apply flat_ok.
Qed.

(** *** The caches *)

Lemma key_eqb_eq (k1 k2 : key) : key_eqb k1 k2 = true <-> k1 = k2.
Proof.
  unfold key_eqb. destruct k1 as [r1 n1], k2 as [r2 n2]. cbn.
  rewrite andb_true_iff, Nat.eqb_eq, String.eqb_eq.
  split; [intros [-> ->]; reflexivity|intros H; now inversion H].
Qed.

Lemma key_eqb_refl (k : key) : key_eqb k k = true.
Proof. now apply key_eqb_eq. Qed.

Section LruFacts.
Context {V : Type}.

Lemma lru_find_In (k : key) (v : V) (c : lru V) :
  lru_find k c = Some v -> In (k, v) c.
Proof.
  induction c as [|[k' v'] c IH]; cbn; [discriminate|].
  destruct (key_eqb k' k) eqn:E.
  - apply key_eqb_eq in E as ->. intros H. inversion H. now left.
  - intros H. right. auto.
Qed.

Lemma lru_find_None (k : key) (c : lru V) :
  lru_find k c = None <-> forall v, ~ In (k, v) c.
Proof.
  induction c as [|[k' v'] c IH]; cbn.
  - split; [intros _ v []|reflexivity].
  - destruct (key_eqb k' k) eqn:E.
    + apply key_eqb_eq in E as ->.
      split; [discriminate|]. intros H. exfalso. apply (H v'). now left.
    + rewrite IH. split.
      * intros H v [Heq|Hin]; [|now apply (H v)].
        inversion Heq; subst. rewrite key_eqb_refl in E. discriminate.
      * intros H v Hin. apply (H v). now right.
Qed.

Lemma In_lru_remove (k : key) (c : lru V) (x : key * V) :
  In x (lru_remove k c) -> In x c.
Proof. unfold lru_remove. intros H. now apply filter_In in H. Qed.

Lemma In_lru_hit (k : key) (v : V) (c : lru V) (x : key * V) :
  In x (lru_hit k v c) -> x = (k, v) \/ In x c.
Proof.
  unfold lru_hit. rewrite in_app_iff. cbn.
  intros [H|[H|[]]]; [right; eapply In_lru_remove; eassumption|now left].
Qed.

Lemma In_tl (c : lru V) (x : key * V) : In x (tl c) -> In x c.
Proof. destruct c; cbn; auto. Qed.

Lemma In_lru_store (maxsize : nat) (k : key) (v : V) (c : lru V)
    (x : key * V) :
  In x (lru_store maxsize k v c) -> x = (k, v) \/ In x c.
Proof.
  unfold lru_store. destruct (List.length c <? maxsize)%nat;
    rewrite in_app_iff; cbn; intros [H|[H|[]]]; auto.
  right. now apply In_tl.
Qed.

Lemma lru_find_app_new (k : key) (v : V) (c : lru V) :
  lru_find k c = None -> lru_find k (c ++ [(k, v)]) = Some v.
Proof.
  induction c as [|[k' v'] c IH]; cbn.
  - now rewrite key_eqb_refl.
  - destruct (key_eqb k' k); [discriminate|auto].
Qed.

Lemma lru_find_tl (k : key) (c : lru V) :
  lru_find k c = None -> lru_find k (tl c) = None.
Proof.
  destruct c as [|[k' v'] c]; cbn; [auto|].
  destruct (key_eqb k' k); [discriminate|auto].
Qed.

Lemma lru_find_store (maxsize : nat) (k : key) (v : V) (c : lru V) :
  lru_find k c = None -> lru_find k (lru_store maxsize k v c) = Some v.
Proof.
  intros H. unfold lru_store. destruct (List.length c <? maxsize)%nat.
  - now apply lru_find_app_new.
  - apply lru_find_app_new. now apply lru_find_tl.
Qed.

Lemma lru_find_remove (k : key) (c : lru V) :
  lru_find k (lru_remove k c) = None.
Proof.
  apply lru_find_None. intros v Hin. unfold lru_remove in Hin.
  apply filter_In in Hin as [_ H]. cbn in H.
  now rewrite key_eqb_refl in H.
Qed.

Lemma lru_find_remove_other (k k' : key) (c : lru V) :
  k' <> k -> lru_find k (lru_remove k' c) = lru_find k c.
Proof.
  intros Hne. unfold lru_remove.
  induction c as [|[k0 v0] c IH]; cbn; [reflexivity|].
  destruct (key_eqb k0 k') eqn:E'; cbn.
  - apply key_eqb_eq in E' as ->.
    destruct (key_eqb k' k) eqn:E; [apply key_eqb_eq in E; congruence|exact IH].
  - destruct (key_eqb k0 k); [reflexivity|exact IH].
Qed.

Lemma lru_find_app_other (k k' : key) (v : V) (c : lru V) :
  k' <> k -> lru_find k (c ++ [(k', v)]) = lru_find k c.
Proof.
  intros Hne. induction c as [|[k0 v0] c IH]; cbn.
  - destruct (key_eqb k' k) eqn:E; [apply key_eqb_eq in E; congruence|reflexivity].
  - destruct (key_eqb k0 k); [reflexivity|exact IH].
Qed.

Lemma lru_find_hit (k : key) (v : V) (c : lru V) :
  lru_find k (lru_hit k v c) = Some v.
Proof. unfold lru_hit. apply lru_find_app_new, lru_find_remove. Qed.

End LruFacts.

(** No cached answer differs from what the bags hold now. *)
Definition coherent (st : state) : Prop :=
  (forall k b, In (k, b) (contains_cache st) ->
     fst k < List.length (heap st)
     /\ b = dict_mem (snd k) (flat (heap st) (fst k)))
  /\ (forall k v, In (k, v) (getitem_cache st) ->
        fst k < List.length (heap st)
        /\ v = dict_get (snd k) (flat (heap st) (fst k))).

(** The state but for the caches. *)
Definition same_bags (st st' : state) : Prop :=
  heap st' = heap st /\ warnings st' = warnings st.

Lemma same_bags_refl (st : state) : same_bags st st.
Proof. now split. Qed.

Lemma same_bags_trans (st1 st2 st3 : state) :
  same_bags st1 st2 -> same_bags st2 st3 -> same_bags st1 st3.
Proof. intros [H1 H2] [H3 H4]. split; congruence. Qed.

Lemma contains_unfold (self : ref) (item : string) (st : state) :
  __contains__ self item st =
  match lru_find (self, item) (contains_cache st) with
  | Some v =>
      Ok (v, set_contains_cache
               (lru_hit (self, item) v (contains_cache st)) st)
  | None =>
      match flatten_properties (List.length (heap st)) (heap st) self with
      | Raise e => Raise e
      | Ok d =>
          Ok (dict_mem item d,
              set_contains_cache
                (lru_store 16 (self, item) (dict_mem item d)
                   (contains_cache st)) st)
      end
  end.
Proof.
  unfold __contains__, lru_cache.
  destruct (lru_find (self, item) (contains_cache st)) eqn:E; [reflexivity|].
  unfold bind, flattened, ret. cbn [fst snd].
  destruct (flatten_properties _ _ self); [|reflexivity].
  now rewrite E.
Qed.

(** The membership test of a state without stale answers. *)
Lemma contains_coherent (self : ref) (item : string) (st : state) :
  bases_older (heap st) -> coherent st -> self < List.length (heap st) ->
  exists st',
    __contains__ self item st
    = Ok (dict_mem item (flat (heap st) self), st')
    /\ same_bags st st'
    /\ getitem_cache st' = getitem_cache st
    /\ coherent st'.
Proof.
  intros Hwf [Hc Hg] Hself. rewrite contains_unfold.
  destruct (lru_find (self, item) (contains_cache st)) as [v|] eqn:E.
  - destruct (Hc _ _ (lru_find_In _ _ _ E)) as [_ ->]. cbn [fst snd].
    eexists. split; [reflexivity|]. split; [now split|]. split; [reflexivity|].
    split; [|exact Hg]. cbn. intros k b Hin.
    apply In_lru_hit in Hin as [Heq|Hin]; [|now apply Hc].
    inversion Heq; subst. now split.
  - rewrite (flatten_flat _ _ _ Hwf Hself Hself).
    eexists. split; [reflexivity|]. split; [now split|]. split; [reflexivity|].
    split; [|exact Hg]. cbn. intros k b Hin.
    apply In_lru_store in Hin as [Heq|Hin]; [|now apply Hc].
    inversion Heq; subst. now split.
Qed.

(** The first of the maps that has an entry under [n]. *)
Fixpoint first_entry (n : string) (ds : list (dict ref)) : option ref :=
  match ds with
  | [] => None
  | items :: ds' =>
      match dict_get n items with
      | Some c => Some c
      | None => first_entry n ds'
      end
  end.

Lemma first_entry_app (n : string) (ds1 ds2 : list (dict ref)) :
  first_entry n (ds1 ++ ds2) =
  match first_entry n ds1 with
  | Some c => Some c
  | None => first_entry n ds2
  end.
Proof.
  induction ds1 as [|d ds1 IH]; cbn; [reflexivity|].
  now destruct (dict_get n d).
Qed.

Lemma last_entry_rev (n : string) (ds : list (dict ref)) :
  last_entry n ds = first_entry n (rev ds).
Proof.
  induction ds as [|d ds IH]; cbn; [reflexivity|].
  rewrite first_entry_app, <- IH. cbn.
  now destruct (dict_get n d), (last_entry n ds).
Qed.

(** The body of [__getitem__]. *)
Definition getitem_body (fuel : nat) (k : key) : M state (option ref) :=
  fun st =>
    match fuel with
    | 0 => Raise RecursionError
    | S fuel' =>
        match nth_error (heap st) (fst k) with
        | None => Raise Dangling
        | Some b =>
            match dict_get (snd k) (children b) with
            | Some c => Ok (Some c, st)
            | None => from_bases (getitem fuel') (snd k) (rev (bases b)) st
            end
        end
    end.

Lemma getitem_unfold (fuel : nat) (k : key) :
  getitem fuel k =
  lru_cache 32 getitem_cache set_getitem_cache (getitem_body fuel) k.
Proof. destruct fuel; reflexivity. Qed.

(** The indexer of a state without stale answers: the entry of the
    flattened view. *)
Lemma getitem_coherent (fuel : nat) :
  forall (self : ref) (item : string) (st : state),
    bases_older (heap st) -> children_ok (heap st) -> coherent st ->
    self < List.length (heap st) -> self < fuel ->
    exists st',
      getitem fuel (self, item) st
      = Ok (dict_get item (flat (heap st) self), st')
      /\ same_bags st st'
      /\ coherent st'.
Proof.
  induction fuel as [|fuel IH]; intros self item st Hwf Hok Hco Hself Hfuel;
    [lia|].
  rewrite getitem_unfold. unfold lru_cache.
  destruct (lru_find (self, item) (getitem_cache st)) as [v|] eqn:E.
  - destruct Hco as [Hc Hg].
    destruct (Hg _ _ (lru_find_In _ _ _ E)) as [_ ->]. cbn [fst snd].
    eexists. split; [reflexivity|]. split; [now split|].
    split; [exact Hc|]. cbn. intros k v Hin.
    apply In_lru_hit in Hin as [Heq|Hin]; [|now apply Hg].
    inversion Heq; subst. now split.
  - assert (Hbody : exists st1,
      getitem_body (S fuel) (self, item) st
      = Ok (dict_get item (flat (heap st) self), st1)
      /\ same_bags st st1 /\ coherent st1).
    { unfold getitem_body. cbn [fst snd].
      destruct (nth_error (heap st) self) as [b|] eqn:Eb;
        [|apply nth_error_None in Eb; lia].
      rewrite (flat_get _ _ _ item Hwf Eb (Hok _ _ Eb)).
      destruct (dict_get item (children b)) as [c|].
      - exists st. split; [reflexivity|]. split; [apply same_bags_refl|exact Hco].
      - rewrite last_entry_rev, <- map_rev.
        assert (Hbs : Forall (fun x => x < self) (rev (bases b)))
          by (apply Forall_rev; exact (Hwf _ _ Eb)).
        clear Eb E. revert Hbs st Hwf Hok Hco Hself.
        induction (rev (bases b)) as [|x bs IHbs];
          intros Hbs st Hwf Hok Hco Hself.
        + exists st. split; [reflexivity|].
          split; [apply same_bags_refl|exact Hco].
        + inversion Hbs as [|? ? Hx Hbs']; subst.
          cbn [from_bases map first_entry]. unfold bind.
          destruct (contains_coherent x item st Hwf Hco ltac:(lia))
            as (st1 & Hrun & [Hh Hw] & Hgc & Hco1).
          rewrite Hrun. unfold dict_mem.
          destruct (dict_get item (flat (heap st) x)) as [c|] eqn:Ex.
          * destruct (IH x item st1) as (st2 & Hrun2 & Hsb2 & Hco2);
              try rewrite Hh; auto; try lia.
            rewrite Hrun2, Hh, Ex. exists st2.
            split; [reflexivity|]. split; [|exact Hco2].
            eapply same_bags_trans; [split; eassumption|exact Hsb2].
          * destruct (IHbs Hbs' st1) as (st2 & Hrun2 & Hsb2 & Hco2);
              try rewrite Hh; auto.
            rewrite Hrun2, Hh. exists st2.
            split; [reflexivity|]. split; [|exact Hco2].
            eapply same_bags_trans; [split; eassumption|exact Hsb2]. }
    destruct Hbody as (st1 & Hrun & [Hh Hw] & [Hc1 Hg1]).
    rewrite Hrun.
    destruct (lru_find (self, item) (getitem_cache st1)).
    + exists st1. split; [reflexivity|]. split; [now split|now split].
    + eexists. split; [reflexivity|]. split; [now split|].
      split; [exact Hc1|]. cbn. intros k v Hin.
      apply In_lru_store in Hin as [Heq|Hin]; [|now apply Hg1].
      inversion Heq; subst. cbn [fst snd]. rewrite Hh. now split.
Qed.

(** *** Checking a concrete heap *)

Definition bases_olderb (h : list t) : bool :=
  forallb
    (fun rb => forallb (fun x => (x <? fst rb)%nat) (bases (snd rb)))
    (combine (seq 0 (List.length h)) h).

Fixpoint nodupb (l : list string) : bool :=
  match l with
  | [] => true
  | x :: l' => negb (existsb (String.eqb x) l') && nodupb l'
  end.

Definition children_okb (h : list t) : bool :=
  forallb (fun b => nodupb (map fst (children b))) h.

Lemma In_combine_seq {A : Type} (l : list A) (a r : nat) (x : A) :
  nth_error l r = Some x -> In (a + r, x) (combine (seq a (List.length l)) l).
Proof.
  revert a r. induction l as [|y l IH]; intros a [|r] E; cbn in *;
    try discriminate.
  - inversion E. left. f_equal. lia.
  - right. replace (a + S r) with (S a + r) by lia. now apply IH.
Qed.

Lemma bases_olderb_sound (h : list t) :
  bases_olderb h = true -> bases_older h.
Proof.
  unfold bases_olderb. rewrite forallb_forall. intros H r b E.
  specialize (H _ (In_combine_seq h 0 r b E)). cbn in H.
  rewrite forallb_forall in H. apply Forall_forall. intros x Hx.
  now apply Nat.ltb_lt, H.
Qed.

Lemma nodupb_sound (l : list string) : nodupb l = true -> NoDup l.
Proof.
  induction l as [|x l IH]; cbn; [constructor|].
  rewrite andb_true_iff, negb_true_iff. intros [Hx Hl]. constructor; [|auto].
  intros Hin. assert (existsb (String.eqb x) l = true); [|congruence].
  apply existsb_exists. exists x. split; [exact Hin|apply String.eqb_refl].
Qed.

Lemma children_okb_sound (h : list t) :
  children_okb h = true -> children_ok h.
Proof.
  unfold children_okb. rewrite forallb_forall. intros H r b E.
  apply nodupb_sound, H. eapply nth_error_In; eassumption.
Qed.


Definition option_ref_eqb (a b : option ref) : bool :=
  match a, b with
  | Some x, Some y => Nat.eqb x y
  | None, None => true
  | _, _ => false
  end.

Lemma option_ref_eqb_eq (a b : option ref) :
  option_ref_eqb a b = true -> a = b.
Proof.
  destruct a, b; cbn; try discriminate; [|reflexivity].
  intros H. apply Nat.eqb_eq in H. now subst.
Qed.

Definition coherentb (st : state) : bool :=
  forallb
    (fun e =>
       (fst (fst e) <? List.length (heap st))%nat
       && Bool.eqb (snd e) (dict_mem (snd (fst e)) (flat (heap st) (fst (fst e)))))
    (contains_cache st)
  && forallb
       (fun e =>
          (fst (fst e) <? List.length (heap st))%nat
          && option_ref_eqb (snd e)
               (dict_get (snd (fst e)) (flat (heap st) (fst (fst e)))))
       (getitem_cache st).

Lemma coherentb_sound (st : state) : coherentb st = true -> coherent st.
Proof.
  unfold coherentb. rewrite andb_true_iff, !forallb_forall.
  intros [Hc Hg]. split.
  - intros k b Hin. specialize (Hc _ Hin). cbn in Hc.
    apply andb_true_iff in Hc as [Hlt Heq].
    split; [now apply Nat.ltb_lt|now apply Bool.eqb_prop].
  - intros k v Hin. specialize (Hg _ Hin). cbn in Hg.
    apply andb_true_iff in Hg as [Hlt Heq].
    split; [now apply Nat.ltb_lt|now apply option_ref_eqb_eq].
Qed.

(** *** The flattened view *)

(** The bags [a], [b] and [c] of the specification's example, built
    through the constructor and [add]; the result is [c]. *)
Definition example_abc : M state ref :=
  (a <- new "a" "" [] ;;
   foo_a <- new "foo" "from a" [] ;; add a foo_a ;;;
   bar_a <- new "bar" "from a" [] ;; add a bar_a ;;;
   b <- new "b" "" [] ;;
   foo_b <- new "foo" "from b" [] ;; add b foo_b ;;;
   baz_b <- new "baz" "from b" [] ;; add b baz_b ;;;
   c <- new "c" "" [a; b] ;;
   sprang <- new "sprang" "from c" [] ;; add c sprang ;;;
   ret c)%call.

(** The state that [example_abc] leaves, and the view of [c] in it. *)
Definition abc_state : state :=
  Eval vm_compute in
    match example_abc empty with Ok (_, st) => st | Raise _ => empty end.

Definition abc_view : dict ref := Eval vm_compute in flat (heap abc_state) 6.

(** The names of a view with the values of the bags under them. *)
Definition values_of (st : state) (d : dict ref) : list (string * string) :=
  map (fun kv =>
         (fst kv,
          match nth_error (heap st) (snd kv) with
          | Some b => value b
          | None => ""
          end)) d.

(** C1: reading [flatten_properties] returns, for a bag whose bases were
    built before it, a view in which a name has the entry of the bag's own
    children if they have one, and else the entry of the last base, in the
    declared order, whose own flattened view has one; for the bags [a], [b]
    and [c] of the example, the view of [c] is the four entries
    foo = from b, bar = from a, baz = from b, sprang = from c. *)
Theorem flattened_overlays_bases_then_children :
  (forall (st : state) (self : ref) (b : t),
     bases_older (heap st) -> children_ok (heap st) ->
     nth_error (heap st) self = Some b ->
     exists d ds,
       flattened self st = Ok (d, st)
       /\ Forall2 (fun base items => flattened base st = Ok (items, st))
            (bases b) ds
       /\ forall n,
            dict_get n d =
            match dict_get n (children b) with
            | Some c => Some c
            | None => last_entry n ds
            end)
  /\ exists c st d,
       example_abc empty = Ok (c, st)
       /\ flattened c st = Ok (d, st)
       /\ values_of st d =
          [("foo", "from b"); ("bar", "from a"); ("baz", "from b");
           ("sprang", "from c")].
Proof.
  split.
  - intros st self b Hwf Hok E.
    assert (Hself : self < List.length (heap st))
      by (apply nth_error_Some; congruence).
    exists (flat (heap st) self), (map (flat (heap st)) (bases b)).
    split; [now apply flattened_flat|]. split.
    + pose proof (Hwf _ _ E) as Hb. clear E.
      induction Hb as [|x bs Hx _ IH]; cbn; constructor; [|exact IH].
      apply flattened_flat; [exact Hwf|lia].
    + intros n. now apply flat_get; [|  |apply (Hok _ _ E)].
  - exists 6, abc_state, abc_view.
    split; [vm_compute; reflexivity|]. split; vm_compute; reflexivity.
Qed.

Lemma flattened_overlays_bases_then_children_witness :
  exists (d : dict ref) (ds : list (dict ref)),
    flattened 7 (mkState
      [mk "a" "" [] [("foo", 1); ("bar", 2)]; mk "foo" "from a" [] [];
       mk "bar" "from a" [] []; mk "b" "" [] [("foo", 4); ("baz", 5)];
       mk "foo" "from b" [] []; mk "baz" "from b" [] [];
       mk "sprang" "from c" [] []; mk "c" "" [0; 3] [("sprang", 6)]]
      [] [] [])
    = Ok (d, mkState
      [mk "a" "" [] [("foo", 1); ("bar", 2)]; mk "foo" "from a" [] [];
       mk "bar" "from a" [] []; mk "b" "" [] [("foo", 4); ("baz", 5)];
       mk "foo" "from b" [] []; mk "baz" "from b" [] [];
       mk "sprang" "from c" [] []; mk "c" "" [0; 3] [("sprang", 6)]]
      [] [] [])
    /\ List.length ds = 2
    /\ dict_get "foo" d = Some 4.
Proof.
  destruct (proj1 flattened_overlays_bases_then_children
    (mkState
      [mk "a" "" [] [("foo", 1); ("bar", 2)]; mk "foo" "from a" [] [];
       mk "bar" "from a" [] []; mk "b" "" [] [("foo", 4); ("baz", 5)];
       mk "foo" "from b" [] []; mk "baz" "from b" [] [];
       mk "sprang" "from c" [] []; mk "c" "" [0; 3] [("sprang", 6)]]
      [] [] []) 7 (mk "c" "" [0; 3] [("sprang", 6)]))
    as (d & ds & Hd & Hds & Hget).
  - apply bases_olderb_sound. reflexivity.
  - apply children_okb_sound. reflexivity.
  - reflexivity.
  - exists d, ds. split; [exact Hd|]. split.
    + apply Forall2_length in Hds. now rewrite <- Hds.
    + vm_compute in Hd. now inversion Hd.
Defined.

(** *** Membership and the indexer *)





(** *** The caches under mutation *)

(** What changes the bags: [add] and the constructor. *)
Inductive mutation : Type :=
| Add (self prop : ref)
| New (name value : string) (base_props : list ref)
| Bases (self : ref) (bs : list ref).

Definition mutate (m : mutation) : M state unit :=
  match m with
  | Add self prop => add self prop
  | New name value base_props => (new name value base_props ;;; ret tt)%call
  | Bases self bs => set_bases self bs
  end.

Fixpoint mutations (ms : list mutation) : M state unit :=
  match ms with
  | [] => ret tt
  | m :: ms' => (mutate m ;;; mutations ms')%call
  end.

Lemma mutate_caches (m : mutation) (st st' : state) (u : unit) :
  mutate m st = Ok (u, st') ->
  contains_cache st' = contains_cache st
  /\ getitem_cache st' = getitem_cache st.
Proof.
  destruct m as [self prop|name value base_props|self bs]; cbn.
  - unfold add. destruct (nth_error (heap st) self); [|discriminate].
    destruct (nth_error (heap st) prop); [|discriminate].
    intros H. inversion H. now split.
  - unfold bind, new, ret. intros H. inversion H. now split.
  - unfold set_bases. destruct (nth_error (heap st) self); [|discriminate].
    intros H. inversion H. now split.
Qed.

Lemma mutations_caches (ms : list mutation) (st st' : state) (u : unit) :
  mutations ms st = Ok (u, st') ->
  contains_cache st' = contains_cache st
  /\ getitem_cache st' = getitem_cache st.
Proof.
  revert st. induction ms as [|m ms IH]; intros st; cbn.
  - unfold ret. intros H. inversion H. now split.
  - unfold bind. destruct (mutate m st) as [[u1 st1]|] eqn:E; [|discriminate].
    intros H. destruct (IH _ H) as [H1 H2].
    destruct (mutate_caches _ _ _ _ E) as [H3 H4]. split; congruence.
Qed.

Lemma contains_frame (self : ref) (item : string) (st st' : state) (b : bool) :
  __contains__ self item st = Ok (b, st') ->
  same_bags st st' /\ getitem_cache st' = getitem_cache st.
Proof.
  rewrite contains_unfold.
  destruct (lru_find (self, item) (contains_cache st)).
  - intros H. inversion H. repeat split.
  - destruct (flatten_properties _ _ self); [|discriminate].
    intros H. inversion H. repeat split.
Qed.

Lemma contains_cached_after (self : ref) (item : string) (st st' : state)
    (b : bool) :
  __contains__ self item st = Ok (b, st') ->
  lru_find (self, item) (contains_cache st') = Some b.
Proof.
  rewrite contains_unfold.
  destruct (lru_find (self, item) (contains_cache st)) eqn:E.
  - intros H. inversion H. cbn. apply lru_find_hit.
  - destruct (flatten_properties _ _ self); [|discriminate].
    intros H. inversion H. cbn. now apply lru_find_store.
Qed.

Lemma contains_hit (self : ref) (item : string) (st : state) (b : bool) :
  lru_find (self, item) (contains_cache st) = Some b ->
  exists st', __contains__ self item st = Ok (b, st').
Proof. intros H. rewrite contains_unfold, H. eexists. reflexivity. Qed.

Lemma getitem_hit (fuel : nat) (k : key) (st : state) (v : option ref) :
  lru_find k (getitem_cache st) = Some v ->
  exists st', getitem fuel k st = Ok (v, st').
Proof.
  intros H. rewrite getitem_unfold. unfold lru_cache. rewrite H.
  eexists. reflexivity.
Qed.

(** The keys that a call adds to the cache of the indexer. *)
Definition adds_keys (bound : nat -> Prop) (st st' : state) : Prop :=
  heap st' = heap st
  /\ forall e, In e (getitem_cache st') ->
       In e (getitem_cache st) \/ bound (fst (fst e)).

Lemma from_bases_keys (lookup : key -> M state (option ref)) (item : string)
    (x : ref) (bs : list ref) :
  (forall y st st' v,
     y < x -> bases_older (heap st) -> lookup (y, item) st = Ok (v, st') ->
     adds_keys (fun r => r <= y) st st') ->
  Forall (fun y => y < x) bs ->
  forall st st1 v,
    bases_older (heap st) ->
    from_bases lookup item bs st = Ok (v, st1) ->
    adds_keys (fun r => r < x) st st1.
Proof.
  intros Hlookup. induction 1 as [|y bs Hy _ IH]; intros st st1 v Hwf.
  - cbn. unfold ret. intros H. inversion H. split; [reflexivity|now left].
  - cbn [from_bases]. unfold bind.
    destruct (__contains__ y item st) as [[found st2]|] eqn:Ec; [|discriminate].
    destruct (contains_frame _ _ _ _ _ Ec) as [[Hh Hw] Hg].
    destruct found; intros H.
    + destruct (Hlookup y st2 st1 v Hy ltac:(now rewrite Hh) H) as [Hh1 He1].
      split; [congruence|]. intros e He.
      destruct (He1 e He) as [H1|H1]; [left; congruence|right; lia].
    + destruct (IH st2 st1 v ltac:(now rewrite Hh) H) as [Hh1 He1].
      split; [congruence|]. intros e He.
      destruct (He1 e He) as [H1|H1]; [left; congruence|now right].
Qed.

Lemma getitem_body_keys (fuel : nat) (x : ref) (item : string)
    (st st1 : state) (v : option ref) :
  (forall y st st' v,
     y < x -> bases_older (heap st) ->
     getitem (pred fuel) (y, item) st = Ok (v, st') ->
     adds_keys (fun r => r <= y) st st') ->
  bases_older (heap st) ->
  getitem_body fuel (x, item) st = Ok (v, st1) ->
  adds_keys (fun r => r < x) st st1.
Proof.
  intros Hlookup Hwf. unfold getitem_body. cbn [fst snd].
  destruct fuel as [|fuel]; [discriminate|].
  destruct (nth_error (heap st) x) as [b|] eqn:Eb; [|discriminate].
  destruct (dict_get item (children b)).
  - intros H. inversion H. split; [reflexivity|now left].
  - apply from_bases_keys; [exact Hlookup| |exact Hwf].
    apply Forall_rev. exact (Hwf _ _ Eb).
Qed.

(** A call of the indexer caches keys of the bag and of the bags behind
    its bases only. *)
Lemma getitem_keys (fuel : nat) :
  forall (x : ref) (item : string) (st st' : state) (v : option ref),
    bases_older (heap st) ->
    getitem fuel (x, item) st = Ok (v, st') ->
    adds_keys (fun r => r <= x) st st'.
Proof.
  induction fuel as [|fuel IH]; intros x item st st' v Hwf;
    rewrite getitem_unfold; unfold lru_cache;
    destruct (lru_find (x, item) (getitem_cache st)) as [w|] eqn:E.
  - intros H. inversion H. split; [reflexivity|]. cbn. intros e He.
    apply In_lru_hit in He as [->|He]; [right; cbn; lia|now left].
  - discriminate.
  - intros H. inversion H. split; [reflexivity|]. cbn. intros e He.
    apply In_lru_hit in He as [->|He]; [right; cbn; lia|now left].
  - destruct (getitem_body (S fuel) (x, item) st) as [[v1 st1]|] eqn:Eb;
      [|discriminate].
    destruct (getitem_body_keys (S fuel) x item st st1 v1
                (fun y st st' v _ => IH y item st st' v) Hwf Eb) as [Hh He].
    destruct (lru_find (x, item) (getitem_cache st1)).
    + intros H. inversion H; subst. split; [exact Hh|].
      intros e Hin. destruct (He e Hin); [now left|right; lia].
    + intros H. inversion H; subst. split; [exact Hh|]. cbn. intros e Hin.
      apply In_lru_store in Hin as [->|Hin]; [right; cbn; lia|].
      destruct (He e Hin); [now left|right; lia].
Qed.

(** When the indexer returns, its answer is cached under its arguments. *)
Lemma getitem_cached_after (fuel : nat) (self : ref) (item : string)
    (st st' : state) (v : option ref) :
  bases_older (heap st) ->
  getitem fuel (self, item) st = Ok (v, st') ->
  lru_find (self, item) (getitem_cache st') = Some v.
Proof.
  intros Hwf. rewrite getitem_unfold. unfold lru_cache.
  destruct (lru_find (self, item) (getitem_cache st)) as [w|] eqn:E.
  - intros H. inversion H. cbn. apply lru_find_hit.
  - destruct (getitem_body fuel (self, item) st) as [[v1 st1]|] eqn:Eb;
      [|discriminate].
    destruct (getitem_body_keys fuel self item st st1 v1
                (fun y st st' v _ => getitem_keys (pred fuel) y item st st' v)
                Hwf Eb) as [Hh He].
    assert (Hnone : lru_find (self, item) (getitem_cache st1) = None).
    { apply lru_find_None. intros w Hin.
      destruct (He _ Hin) as [Hold|Hlt]; [|cbn in Hlt; lia].
      rewrite lru_find_None in E. now apply (E w). }
    rewrite Hnone. intros H. inversion H; subst. cbn.
    now apply lru_find_store.
Qed.

(** *** What a call leaves of a cache *)

Section Kept.
Context {V : Type}.

(** A cache as [lru_cache] keeps it: one entry a key, and no more than
    [n] entries. *)
Definition lru_ok (n : nat) (c : lru V) : Prop :=
  NoDup (map fst c) /\ List.length c <= n.

(** What a call makes of a cache: every entry is still there, unless the
    cache is full. *)
Definition kept (n : nat) (c c' : lru V) : Prop :=
  lru_ok n c'
  /\ List.length c <= List.length c'
  /\ forall k v,
       lru_find k c = Some v ->
       lru_find k c' = Some v \/ List.length c' = n.

Lemma kept_refl (n : nat) (c : lru V) : lru_ok n c -> kept n c c.
Proof. intros H. split; [exact H|]. split; [lia|]. intros k v Hk. now left. Qed.

Lemma kept_trans (n : nat) (c1 c2 c3 : lru V) :
  kept n c1 c2 -> kept n c2 c3 -> kept n c1 c3.
Proof.
  intros (Hok2 & Hl12 & H12) (Hok3 & Hl23 & H23).
  split; [exact Hok3|]. split; [lia|]. intros k v Hk.
  destruct (H12 k v Hk) as [H|H]; [now apply H23|].
  right. destruct Hok3 as [_ H3]. lia.
Qed.

Lemma lru_find_keys (k : key) (c : lru V) :
  lru_find k c = None <-> ~ In k (map fst c).
Proof.
  rewrite lru_find_None. split.
  - intros H Hin. apply in_map_iff in Hin as ([k' v] & Hk & Hin).
    cbn in Hk. subst k'. now apply (H v).
  - intros H v Hin. apply H. apply in_map_iff. now exists (k, v).
Qed.

Lemma keys_lru_remove (k : key) (c : lru V) :
  NoDup (map fst c) ->
  NoDup (map fst (lru_remove k c)) /\ ~ In k (map fst (lru_remove k c)).
Proof.
  intros H. split.
  - unfold lru_remove. induction c as [|[k' v'] c IH]; cbn; [constructor|].
    inversion H as [|? ? Hn Hd]; subst.
    destruct (key_eqb k' k); cbn; [now apply IH|].
    constructor; [|now apply IH].
    intros Hin. apply Hn. apply in_map_iff in Hin as (x & Hx & Hin).
    apply filter_In in Hin as [Hin _]. apply in_map_iff. now exists x.
  - apply lru_find_keys, lru_find_remove.
Qed.

Lemma length_lru_remove (k : key) (v : V) (c : lru V) :
  NoDup (map fst c) -> lru_find k c = Some v ->
  S (List.length (lru_remove k c)) = List.length c.
Proof.
  unfold lru_remove. induction c as [|[k' v'] c IH]; cbn; [discriminate|].
  intros Hd Hk. inversion Hd as [|? ? Hn Hd']; subst.
  destruct (key_eqb k' k) eqn:E; cbn.
  - apply key_eqb_eq in E as ->. f_equal.
    assert (Hall : forall x, In x c -> negb (key_eqb (fst x) k) = true).
    { intros [k0 v0] Hin. cbn. apply negb_true_iff.
      destruct (key_eqb k0 k) eqn:E0; [|reflexivity].
      apply key_eqb_eq in E0 as ->. exfalso. apply Hn.
      apply in_map_iff. now exists (k, v0). }
    clear -Hall. induction c as [|x c IH]; cbn; [reflexivity|].
    rewrite (Hall x) by now left. cbn. f_equal. apply IH.
    intros y Hy. apply Hall. now right.
  - f_equal. now apply IH.
Qed.

Lemma keys_snoc (k : key) (v : V) (c : lru V) :
  NoDup (map fst c) -> ~ In k (map fst c) -> NoDup (map fst (c ++ [(k, v)])).
Proof.
  intros Hd Hn. rewrite map_app. cbn. apply NoDup_app; repeat split.
  - exact Hd.
  - repeat constructor. intros [].
  - intros x Hx [<-|[]]. contradiction.
Qed.

Lemma kept_hit (n : nat) (k : key) (v : V) (c : lru V) :
  lru_ok n c -> lru_find k c = Some v -> kept n c (lru_hit k v c).
Proof.
  intros [Hd Hn] Hk.
  destruct (keys_lru_remove k c Hd) as [Hd' Hnot].
  pose proof (length_lru_remove k v c Hd Hk) as Hlen.
  assert (Hl : List.length (lru_hit k v c) = List.length c)
    by (unfold lru_hit; rewrite length_app; cbn; lia).
  split; [|split; [lia|]].
  - split; [|lia]. unfold lru_hit. now apply keys_snoc.
  - intros k' v' Hk'. left.
    destruct (key_eqb k k') eqn:E.
    + apply key_eqb_eq in E as <-. rewrite lru_find_hit. congruence.
    + assert (Hne : k <> k') by (intros ->; now rewrite key_eqb_refl in E).
      unfold lru_hit. rewrite lru_find_app_other by exact Hne.
      now rewrite lru_find_remove_other.
Qed.

Lemma keys_tl (c : lru V) : NoDup (map fst c) -> NoDup (map fst (tl c)).
Proof. destruct c; cbn; [auto|]. intros H. now inversion H. Qed.

Lemma kept_store (n : nat) (k : key) (v : V) (c : lru V) :
  0 < n -> lru_ok n c -> lru_find k c = None -> kept n c (lru_store n k v c).
Proof.
  intros Hpos [Hd Hn] Hk. unfold lru_store.
  destruct (List.length c <? n)%nat eqn:E.
  - apply Nat.ltb_lt in E. split; [|split].
    + split; [|rewrite length_app; cbn; lia].
      apply keys_snoc; [exact Hd|now apply lru_find_keys].
    + rewrite length_app. lia.
    + intros k' v' Hk'. left.
      rewrite lru_find_app_other; [exact Hk'|]. intros ->. congruence.
  - apply Nat.ltb_ge in E.
    assert (Hl : List.length (tl c ++ [(k, v)]) = n).
    { rewrite length_app. destruct c; cbn in *; lia. }
    split; [|split; [lia|]].
    + split; [|lia]. apply keys_snoc; [now apply keys_tl|].
      apply lru_find_keys, lru_find_tl, Hk.
    + intros k' v' _. now right.
Qed.

End Kept.

(** The membership test. *)
Lemma contains_kept (self : ref) (item : string) (st st' : state) (b : bool) :
  lru_ok 16 (contains_cache st) ->
  __contains__ self item st = Ok (b, st') ->
  kept 16 (contains_cache st) (contains_cache st')
  /\ getitem_cache st' = getitem_cache st.
Proof.
  intros Hok. rewrite contains_unfold.
  destruct (lru_find (self, item) (contains_cache st)) as [w|] eqn:E.
  - intros H. inversion H. cbn.
    split; [apply kept_hit; [exact Hok|congruence]|reflexivity].
  - destruct (flatten_properties _ _ self); [|discriminate].
    intros H. inversion H. cbn. split; [apply kept_store; auto; lia|reflexivity].
Qed.

(** The indexer, with the calls that it makes for the bases. *)
Lemma getitem_kept (fuel : nat) :
  forall (k : key) (st st' : state) (v : option ref),
    lru_ok 16 (contains_cache st) -> lru_ok 32 (getitem_cache st) ->
    getitem fuel k st = Ok (v, st') ->
    kept 16 (contains_cache st) (contains_cache st')
    /\ kept 32 (getitem_cache st) (getitem_cache st').
Proof.
  assert (Hwrap : forall f k st st' v,
    (forall st st1 v1,
       lru_ok 16 (contains_cache st) -> lru_ok 32 (getitem_cache st) ->
       getitem_body f k st = Ok (v1, st1) ->
       kept 16 (contains_cache st) (contains_cache st1)
       /\ kept 32 (getitem_cache st) (getitem_cache st1)) ->
    lru_ok 16 (contains_cache st) -> lru_ok 32 (getitem_cache st) ->
    getitem f k st = Ok (v, st') ->
    kept 16 (contains_cache st) (contains_cache st')
    /\ kept 32 (getitem_cache st) (getitem_cache st')).
  { intros f k st st' v Hbody Hc Hg. rewrite getitem_unfold.
    unfold lru_cache.
    destruct (lru_find k (getitem_cache st)) as [w|] eqn:E.
    - intros H. inversion H. cbn.
      split; [now apply kept_refl|apply kept_hit; [exact Hg|congruence]].
    - destruct (getitem_body f k st) as [[v1 st1]|] eqn:Eb; [|discriminate].
      destruct (Hbody _ _ _ Hc Hg Eb) as [Hc1 Hg1].
      destruct (lru_find k (getitem_cache st1)) eqn:E1.
      + intros H. inversion H; subst. now split.
      + intros H. inversion H; subst. cbn. split; [exact Hc1|].
        eapply kept_trans; [exact Hg1|].
        apply kept_store; [lia|apply Hg1|exact E1]. }
  induction fuel as [|fuel IH]; intros k st st' v Hc Hg.
  - apply Hwrap; [|exact Hc|exact Hg]. intros s0 s1 v1 _ _ H. discriminate.
  - apply Hwrap; [|exact Hc|exact Hg]. clear st st' v Hc Hg.
    intros st st1 v1 Hc Hg. unfold getitem_body.
    destruct (nth_error (heap st) (fst k)) as [b|]; [|discriminate].
    destruct (dict_get (snd k) (children b)).
    + intros H. inversion H; subst. split; now apply kept_refl.
    + generalize (rev (bases b)). intros bs. revert st Hc Hg.
      induction bs as [|x bs IHbs]; intros st Hc Hg; cbn [from_bases].
      * unfold ret. intros H. inversion H; subst. split; now apply kept_refl.
      * unfold bind.
        destruct (__contains__ x (snd k) st) as [[found st2]|] eqn:Ec;
          [|discriminate].
        destruct (contains_kept _ _ _ _ _ Hc Ec) as [Hc2 Hg2].
        assert (Hg2' : lru_ok 32 (getitem_cache st2)) by now rewrite Hg2.
        destruct found; intros H.
        -- destruct (IH _ _ _ _ (proj1 Hc2) Hg2' H) as [Hc3 Hg3].
           split; [eapply kept_trans; eassumption|].
           now rewrite <- Hg2.
        -- destruct (IHbs _ (proj1 Hc2) Hg2' H) as [Hc3 Hg3].
           split; [eapply kept_trans; eassumption|].
           now rewrite <- Hg2.
Qed.

(** The names [0], [1], ... below [n]. *)
Definition numbers (n : nat) : list string := map str_of_nat (seq 0 n).

(** [for name in names: name in self] *)
Fixpoint ask_all (self : ref) (names : list string) : M state unit :=
  match names with
  | [] => ret tt
  | name :: names' => (__contains__ self name ;;; ask_all self names')%call
  end.

(** [for name in names: self[name]] *)
Fixpoint index_all (self : ref) (names : list string) : M state unit :=
  match names with
  | [] => ret tt
  | name :: names' => (__getitem__ self name ;;; index_all self names')%call
  end.

(** A bag [p] that is asked for [x], is given [x], and is then asked for
    [n] other names and for [x] again; the result is the two answers for
    [x]. *)
Definition asked_again_after (n : nat) : M state (bool * bool) :=
  (p <- new "p" "" [] ;;
   before <- __contains__ p "x" ;;
   x <- new "x" "" [] ;;
   add p x ;;;
   ask_all p (numbers n) ;;;
   after <- __contains__ p "x" ;;
   ret (before, after))%call.

(** The same with the indexer. *)
Definition indexed_again_after (n : nat)
    : M state (option ref * option ref) :=
  (p <- new "p" "" [] ;;
   before <- __getitem__ p "x" ;;
   x <- new "x" "" [] ;;
   add p x ;;;
   index_all p (numbers n) ;;;
   after <- __getitem__ p "x" ;;
   ret (before, after))%call.

(** C10, as the code has it.  No mutation touches the caches, neither
    [add], the constructor nor a change of a list of bases, so the answer
    of the membership test, and of the indexer on a bag whose bases are
    older than it, is what the next call with the same arguments returns
    after any run of them, whatever they have made of the bag.  An answer
    is lost by eviction only: the caches hold no more than 16 and 32
    entries, and a call of either method leaves every entry where it is
    unless the cache is full afterwards.  A hit moves its entry to the
    most recently used end; a membership test that misses, and a call of
    the indexer that misses on a bag holding the name itself, puts its
    entry there and a full cache gives up the entry at its other end.  A
    call that misses is evaluated on the bags as they are then. *)
Theorem cached_answers_outlive_mutations :
  (forall m st st' u,
     mutate m st = Ok (u, st') ->
     contains_cache st' = contains_cache st
     /\ getitem_cache st' = getitem_cache st)
  /\ (forall st self item b st1 ms st2 u,
        __contains__ self item st = Ok (b, st1) ->
        mutations ms st1 = Ok (u, st2) ->
        exists st3, __contains__ self item st2 = Ok (b, st3))
  /\ (forall st self item v st1 ms st2 u,
        bases_older (heap st) ->
        __getitem__ self item st = Ok (v, st1) ->
        mutations ms st1 = Ok (u, st2) ->
        exists st3, __getitem__ self item st2 = Ok (v, st3))
  /\ (forall st self item,
        lru_ok 16 (contains_cache st) -> lru_ok 32 (getitem_cache st) ->
        (forall b st',
           __contains__ self item st = Ok (b, st') ->
           kept 16 (contains_cache st) (contains_cache st')
           /\ getitem_cache st' = getitem_cache st)
        /\ (forall v st',
              __getitem__ self item st = Ok (v, st') ->
              kept 16 (contains_cache st) (contains_cache st')
              /\ kept 32 (getitem_cache st) (getitem_cache st')))
  /\ (forall st self item b st',
        __contains__ self item st = Ok (b, st') ->
        contains_cache st'
        = match lru_find (self, item) (contains_cache st) with
          | Some _ =>
              lru_remove (self, item) (contains_cache st)
                ++ [((self, item), b)]
          | None =>
              (if (List.length (contains_cache st) <? 16)%nat
               then contains_cache st else tl (contains_cache st))
                ++ [((self, item), b)]
          end
        /\ (lru_find (self, item) (contains_cache st) = None ->
            exists d,
              flattened self st = Ok (d, st) /\ b = dict_mem item d))
  /\ (forall st (self : ref) item bag c v st',
        nth_error (heap st) self = Some bag ->
        dict_get item (children bag) = Some c ->
        __getitem__ self item st = Ok (v, st') ->
        contains_cache st' = contains_cache st
        /\ getitem_cache st'
           = match lru_find (self, item) (getitem_cache st) with
             | Some _ =>
                 lru_remove (self, item) (getitem_cache st)
                   ++ [((self, item), v)]
             | None =>
                 (if (List.length (getitem_cache st) <? 32)%nat
                  then getitem_cache st else tl (getitem_cache st))
                   ++ [((self, item), v)]
             end
        /\ (lru_find (self, item) (getitem_cache st) = None -> v = Some c))
  /\ (exists st, indexed_again_after 31 empty = Ok ((None, None), st))
  /\ (exists st, indexed_again_after 32 empty = Ok ((None, Some 1), st)).
Proof.
  split; [|split; [|split; [|split; [|split; [|split; [|split]]]]]].
  - intros m st st' u. apply mutate_caches.
  - intros st self item b st1 ms st2 u Hc Hm.
    apply contains_hit. destruct (mutations_caches _ _ _ _ Hm) as [-> _].
    eapply contains_cached_after; eassumption.
  - intros st self item v st1 ms st2 u Hwf Hg Hm.
    apply getitem_hit. destruct (mutations_caches _ _ _ _ Hm) as [_ ->].
    eapply getitem_cached_after; eassumption.
  - intros st self item Hc Hg. split.
    + intros b st' H. now apply (contains_kept self item st st' b).
    + intros v st' H. now apply (getitem_kept _ _ _ _ _ Hc Hg H).
  - intros st self item b st'. rewrite contains_unfold.
    destruct (lru_find (self, item) (contains_cache st)) as [w|] eqn:E.
    + intros H. inversion H; subst. cbn. split; [reflexivity|discriminate].
    + unfold flattened.
      destruct (flatten_properties _ _ self) as [d|]; [|discriminate].
      intros H. inversion H; subst.
      cbn [contains_cache set_contains_cache]. unfold lru_store. split.
      * now destruct (List.length (contains_cache st) <? 16)%nat.
      * intros _. now exists d.
  - intros st self item bag c v st' Eb Ec. unfold __getitem__.
    assert (Hlen : self < List.length (heap st))
      by (apply nth_error_Some; congruence).
    destruct (List.length (heap st)) as [|n] eqn:En; [lia|].
    rewrite getitem_unfold. unfold lru_cache. cbv beta.
    destruct (lru_find (self, item) (getitem_cache st)) as [w|] eqn:E.
    + intros H. inversion H; subst. cbn.
      split; [reflexivity|]. split; [reflexivity|discriminate].
    + unfold getitem_body. cbn [fst snd]. rewrite Eb, Ec, E.
      intros H. inversion H; subst.
      cbn [contains_cache getitem_cache set_getitem_cache]. unfold lru_store.
      split; [reflexivity|]. split; [|reflexivity].
      now destruct (List.length (getitem_cache st) <? 32)%nat.
  - eexists. vm_compute. reflexivity.
  - eexists. vm_compute. reflexivity.
Qed.

Lemma cached_answers_outlive_mutations_witness :
  (exists st3,
     __contains__ 0 "x"
       (mkState [mk "p" "" [1] [("x", 1)]; mk "x" "" [] []]
          [((0, "x"), false)] [] [])
     = Ok (false, st3))
  /\ (forall b st',
        __contains__ 0 "x" (mkState [mk "p" "" [] []] [] [] []) = Ok (b, st') ->
        kept 16 [] (contains_cache st') /\ getitem_cache st' = []).
Proof.
  split.
  - apply (proj1 (proj2 cached_answers_outlive_mutations)
             (mkState [mk "p" "" [] []] [] [] []) 0 "x" false
             (mkState [mk "p" "" [] []] [((0, "x"), false)] [] [])
             [New "x" "" []; Add 0 1; Bases 0 [1]]
             (mkState [mk "p" "" [1] [("x", 1)]; mk "x" "" [] []]
                [((0, "x"), false)] [] []) tt); reflexivity.
  - apply (proj1 (proj1 (proj2 (proj2 (proj2 cached_answers_outlive_mutations)))
             (mkState [mk "p" "" [] []] [] [] []) 0 "x"
             ltac:(split; [constructor|cbn; lia])
             ltac:(split; [constructor|cbn; lia]))).
Defined.

(** C10, as the claim has it, fails: sixteen membership tests with other
    names take the answer for [x] out of the cache, and the next test for
    [x] answers from the bag as [add] left it. *)
Lemma cached_answer_evicted :
  exists st, asked_again_after 16 empty = Ok ((false, true), st).
Proof. eexists. vm_compute. reflexivity. Qed.

End PropertyBagFacts.

(** ** The state through the calls of the parser *)
Module StateFacts.
Import PropertyBag PropertyBagFacts.

(** [_children] of the bag at [r]. *)
Definition children_of (h : list t) (r : ref) : dict ref :=
  match nth_error h r with
  | Some b => children b
  | None => []
  end.

Definition name_of (h : list t) (r : ref) : option string :=
  option_map name (nth_error h r).

Lemma name_of_lt (h : list t) (r : ref) (n : string) :
  name_of h r = Some n -> r < List.length h.
Proof.
  unfold name_of. intros H. apply nth_error_Some.
  destruct (nth_error h r); [discriminate|discriminate H].
Qed.

(** What every state that the constructor, [add] and the two cached reads
    produce has: the bases of a bag are older than the bag, a bag is
    filed in [_children] under its own name, and so is every bag that the
    indexer has cached. *)
Record wf (st : state) : Prop := {
  wf_bases : bases_older (heap st);
  wf_dicts : children_ok (heap st);
  wf_children : forall r b n c,
      nth_error (heap st) r = Some b -> In (n, c) (children b) ->
      name_of (heap st) c = Some n;
  wf_cache : forall k c,
      In (k, Some c) (getitem_cache st) ->
      name_of (heap st) c = Some (snd k)
}.


(** No bag and no cached answer refers to the bag at [x]. *)
Definition unreferenced (st : state) (x : ref) : Prop :=
  (forall r b, nth_error (heap st) r = Some b ->
     ~ In x (bases b) /\ forall n, ~ In (n, x) (children b))
  /\ forall k, ~ In (k, Some x) (getitem_cache st).

Definition valid (st : state) (refs : list ref) : Prop :=
  Forall (fun r => r < List.length (heap st)) refs.

Lemma valid_mono (st st' : state) (refs : list ref) :
  List.length (heap st) <= List.length (heap st') ->
  valid st refs -> valid st' refs.
Proof.
  intros Hle. unfold valid. apply Forall_impl. intros r Hr. lia.
Qed.

(** *** The constructor *)

Lemma new_eq (n v : string) (bs : list ref) (st : state) :
  new n v bs st =
  Ok (List.length (heap st), set_heap (heap st ++ [mk n v bs []]) st).
Proof. reflexivity. Qed.

Lemma name_of_app (h : list t) (b : t) (r : ref) (n : string) :
  name_of h r = Some n -> name_of (h ++ [b]) r = Some n.
Proof.
  intros H. pose proof (name_of_lt _ _ _ H) as Hr.
  unfold name_of in *. now rewrite nth_error_app1.
Qed.

Lemma nth_error_snoc (h : list t) (b b' : t) (r : ref) :
  nth_error (h ++ [b]) r = Some b' ->
  (r < List.length h /\ nth_error h r = Some b')
  \/ (r = List.length h /\ b' = b).
Proof.
  intros H.
  destruct (Nat.lt_trichotomy r (List.length h)) as [Hr|[Hr|Hr]].
  - left. split; [exact Hr|]. now rewrite nth_error_app1 in H.
  - right. subst r. rewrite nth_error_app2, Nat.sub_diag in H by lia.
    cbn in H. inversion H. now split.
  - assert (Hn : nth_error (h ++ [b]) r = None)
      by (apply nth_error_None; rewrite length_app; cbn; lia).
    congruence.
Qed.

Lemma new_wf (n v : string) (bs : list ref) (st : state) :
  wf st -> valid st bs ->
  wf (set_heap (heap st ++ [mk n v bs []]) st).
Proof.
  intros [Hb Hd Hc Hg] Hbs. constructor; cbn.
  - intros r b E. apply nth_error_snoc in E as [[Hr E]|[-> ->]].
    + now apply Hb.
    + exact Hbs.
  - intros r b E. apply nth_error_snoc in E as [[Hr E]|[-> ->]].
    + now apply (Hd r).
    + constructor.
  - intros r b m c E Hin. apply nth_error_snoc in E as [[Hr E]|[-> ->]].
    + apply name_of_app. eapply Hc; eassumption.
    + destruct Hin.
  - intros k c Hin. apply name_of_app. now apply Hg.
Qed.

Lemma new_unreferenced (n v : string) (bs : list ref) (st : state) (x : ref) :
  unreferenced st x -> ~ In x bs ->
  unreferenced (set_heap (heap st ++ [mk n v bs []]) st) x.
Proof.
  intros [Hu Hg] Hbs. split; cbn; [|exact Hg].
  intros r b E. apply nth_error_snoc in E as [[Hr E]|[-> ->]].
  - exact (Hu _ _ E).
  - split; [exact Hbs|intros m []].
Qed.

(** A bag that was just constructed is referred to by nothing. *)
Lemma new_fresh (n v : string) (bs : list ref) (st : state) :
  wf st -> valid st bs ->
  unreferenced (set_heap (heap st ++ [mk n v bs []]) st)
    (List.length (heap st)).
Proof.
  intros [Hb Hd Hc Hg] Hbs. split; cbn.
  - intros r b E. apply nth_error_snoc in E as [[Hr E]|[-> ->]].
    + split.
      * intros Hin. pose proof (Hb _ _ E) as Hall.
        rewrite Forall_forall in Hall. specialize (Hall _ Hin). lia.
      * intros m Hin. apply (Hc _ _ _ _ E) in Hin.
        apply name_of_lt in Hin. lia.
    + split; [|intros m []].
      intros Hin. unfold valid in Hbs. rewrite Forall_forall in Hbs.
      specialize (Hbs _ Hin). lia.
  - intros k Hin. apply Hg in Hin. apply name_of_lt in Hin. lia.
Qed.

(** *** [add] *)

Lemma set_children_length (self : ref) (d : dict ref) (h : list t) :
  List.length (set_children self d h) = List.length h.
Proof.
  unfold set_children. destruct (nth_error h self) eqn:E; [|reflexivity].
  apply update_length. apply nth_error_Some. congruence.
Qed.

Lemma nth_error_set_children (self : ref) (d : dict ref) (h : list t)
    (b : t) (r : ref) :
  nth_error h self = Some b ->
  nth_error (set_children self d h) r =
  if Nat.eqb r self then Some (mk (name b) (value b) (bases b) d)
  else nth_error h r.
Proof.
  intros E. unfold set_children. rewrite E.
  assert (Hself : self < List.length h) by (apply nth_error_Some; congruence).
  destruct (Nat.eqb_spec r self) as [->|Hne].
  - now apply nth_error_update_eq.
  - apply nth_error_update_neq; [exact Hself|congruence].
Qed.

Lemma name_of_set_children (self : ref) (d : dict ref) (h : list t) (r : ref) :
  name_of (set_children self d h) r = name_of h r.
Proof.
  unfold name_of. destruct (nth_error h self) as [b|] eqn:E.
  - rewrite (nth_error_set_children _ _ _ _ _ E).
    destruct (Nat.eqb_spec r self) as [->|Hne]; [|reflexivity].
    now rewrite E.
  - unfold set_children. now rewrite E.
Qed.

Lemma add_eq (self prop : ref) (st : state) (b p : t) :
  nth_error (heap st) self = Some b -> nth_error (heap st) prop = Some p ->
  add self prop st =
  Ok (tt, set_heap
            (set_children self (dict_set (name p) prop (children b)) (heap st))
            st).
Proof. intros Eb Ep. unfold add. now rewrite Eb, Ep. Qed.

Lemma add_wf (self prop : ref) (st : state) (b p : t) :
  nth_error (heap st) self = Some b -> nth_error (heap st) prop = Some p ->
  wf st ->
  wf (set_heap
        (set_children self (dict_set (name p) prop (children b)) (heap st)) st).
Proof.
  intros Eb Ep [Hb Hd Hc Hg]. constructor; cbn.
  - intros r b' E. rewrite (nth_error_set_children _ _ _ _ _ Eb) in E.
    destruct (Nat.eqb_spec r self) as [->|Hne].
    + inversion E; subst. cbn. now apply Hb.
    + now apply Hb.
  - intros r b' E. rewrite (nth_error_set_children _ _ _ _ _ Eb) in E.
    destruct (Nat.eqb_spec r self) as [->|Hne].
    + inversion E; subst. cbn. apply dict_ok_set. now apply (Hd self).
    + now apply (Hd r).
  - intros r b' m c E Hin. rewrite name_of_set_children.
    rewrite (nth_error_set_children _ _ _ _ _ Eb) in E.
    destruct (Nat.eqb_spec r self) as [->|Hne].
    + inversion E; subst. cbn in Hin.
      apply In_dict_set in Hin as [Heq|Hin].
      * inversion Heq; subst. unfold name_of. rewrite Ep. reflexivity.
      * eapply Hc; [exact Eb|exact Hin].
    + eapply Hc; [exact E|exact Hin].
  - intros k c Hin. rewrite name_of_set_children. now apply Hg.
Qed.

Lemma add_unreferenced (self prop : ref) (st : state) (b p : t) (x : ref) :
  nth_error (heap st) self = Some b ->
  unreferenced st x -> x <> prop ->
  unreferenced
    (set_heap
       (set_children self (dict_set (name p) prop (children b)) (heap st)) st)
    x.
Proof.
  intros Eb [Hu Hg] Hne. split; cbn; [|exact Hg].
  intros r b' E. rewrite (nth_error_set_children _ _ _ _ _ Eb) in E.
  destruct (Nat.eqb_spec r self) as [->|Hr].
  - inversion E; subst. cbn. split; [exact (proj1 (Hu _ _ Eb))|].
    intros m Hin. apply In_dict_set in Hin as [Heq|Hin].
    + inversion Heq. congruence.
    + now apply (proj2 (Hu _ _ Eb) m).
  - exact (Hu _ _ E).
Qed.

(** *** The cached reads *)

Lemma wf_same (st st' : state) :
  heap st' = heap st -> getitem_cache st' = getitem_cache st ->
  wf st -> wf st'.
Proof.
  intros Hh Hg [H1 H2 H3 H4]. constructor; rewrite ?Hh, ?Hg; assumption.
Qed.

Lemma unreferenced_same (st st' : state) (x : ref) :
  heap st' = heap st -> getitem_cache st' = getitem_cache st ->
  unreferenced st x -> unreferenced st' x.
Proof.
  intros Hh Hg [H1 H2]. split; rewrite ?Hh, ?Hg; assumption.
Qed.

Lemma contains_total (self : ref) (item : string) (st : state) :
  wf st -> self < List.length (heap st) ->
  exists b st',
    __contains__ self item st = Ok (b, st')
    /\ same_bags st st'
    /\ getitem_cache st' = getitem_cache st.
Proof.
  intros Hwf Hself. rewrite contains_unfold.
  destruct (lru_find (self, item) (contains_cache st)) as [v|].
  - eexists _, _. split; [reflexivity|]. repeat split.
  - rewrite (flatten_flat _ _ _ (wf_bases _ Hwf) Hself Hself).
    eexists _, _. split; [reflexivity|]. repeat split.
Qed.

(** What an answer of the indexer is, whatever the caches hold: a bag
    filed under the name asked for, and no bag that nothing refers to. *)
Definition answer_ok (st : state) (item : string) (v : option ref)
    (st' : state) : Prop :=
  same_bags st st'
  /\ wf st'
  /\ (forall c, v = Some c -> name_of (heap st) c = Some item)
  /\ (forall x, unreferenced st x -> unreferenced st' x /\ v <> Some x).

Lemma answer_ok_after_contains (st st1 st2 : state) (item : string)
    (v : option ref) :
  same_bags st st1 -> getitem_cache st1 = getitem_cache st ->
  answer_ok st1 item v st2 -> answer_ok st item v st2.
Proof.
  intros [Hh Hw] Hg ([Hh2 Hw2] & Hwf2 & Hname & Hun).
  split; [split; congruence|]. split; [exact Hwf2|]. split.
  - intros c Hc. rewrite <- Hh. now apply Hname.
  - intros x Hx. apply Hun. now apply (unreferenced_same st).
Qed.

Lemma getitem_total (fuel : nat) :
  forall (self : ref) (item : string) (st : state),
    wf st -> self < List.length (heap st) -> self < fuel ->
    exists v st',
      getitem fuel (self, item) st = Ok (v, st')
      /\ answer_ok st item v st'.
Proof.
  induction fuel as [|fuel IH]; intros self item st Hwf Hself Hfuel; [lia|].
  rewrite getitem_unfold. unfold lru_cache.
  destruct (lru_find (self, item) (getitem_cache st)) as [w|] eqn:E.
  - apply lru_find_In in E.
    eexists _, _. split; [reflexivity|]. split; [now split|]. split; [|split].
    + destruct Hwf as [H1 H2 H3 H4]. constructor; cbn; try assumption.
      intros k c Hin. apply In_lru_hit in Hin as [Heq|Hin]; [|now apply H4].
      inversion Heq; subst. now apply (H4 (self, item)).
    + intros c ->. now apply (wf_cache _ Hwf (self, item)).
    + intros x [Hu Hg]. split.
      * split; [exact Hu|]. cbn. intros k Hin.
        apply In_lru_hit in Hin as [Heq|Hin]; [|now apply (Hg k)].
        inversion Heq; subst. now apply (Hg (self, item)).
      * intros ->. now apply (Hg (self, item)).
  - assert (Hbody : exists v st1,
      getitem_body (S fuel) (self, item) st = Ok (v, st1)
      /\ answer_ok st item v st1).
    { unfold getitem_body. cbn [fst snd].
      destruct (nth_error (heap st) self) as [b|] eqn:Eb;
        [|apply nth_error_None in Eb; lia].
      destruct (dict_get item (children b)) as [c|] eqn:Ec.
      - exists (Some c), st. split; [reflexivity|].
        apply dict_get_In in Ec.
        split; [apply same_bags_refl|]. split; [exact Hwf|]. split.
        + intros c' Hc'. inversion Hc'; subst.
          eapply (wf_children _ Hwf); eassumption.
        + intros x Hx. split; [exact Hx|]. intros Heq. inversion Heq; subst.
          destruct Hx as [Hu _]. now apply (proj2 (Hu _ _ Eb) item).
      - assert (Hbs : Forall (fun x => x < self) (rev (bases b)))
          by (apply Forall_rev; exact (wf_bases _ Hwf _ _ Eb)).
        clear Eb Ec E. revert Hbs st Hwf Hself.
        induction (rev (bases b)) as [|y bs IHbs]; intros Hbs st Hwf Hself.
        + exists None, st. split; [reflexivity|].
          split; [apply same_bags_refl|]. split; [exact Hwf|].
          split; [discriminate|]. intros x Hx. split; [exact Hx|discriminate].
        + inversion Hbs as [|? ? Hy Hbs']; subst.
          cbn [from_bases]. unfold bind.
          destruct (contains_total y item st Hwf ltac:(lia))
            as (found & st1 & Hrun & [Hh Hw] & Hg).
          rewrite Hrun.
          assert (Hwf1 : wf st1) by (now apply (wf_same st)).
          destruct found.
          * destruct (IH y item st1 Hwf1) as (v & st2 & Hrun2 & Hok);
              [rewrite Hh; lia|lia|].
            exists v, st2. split; [exact Hrun2|].
            eapply answer_ok_after_contains; [split| |]; eassumption.
          * destruct (IHbs Hbs' st1 Hwf1) as (v & st2 & Hrun2 & Hok);
              [rewrite Hh; lia|].
            exists v, st2. split; [exact Hrun2|].
            eapply answer_ok_after_contains; [split| |]; eassumption. }
    destruct Hbody as (v & st1 & Hrun & [Hh Hw] & Hwf1 & Hname & Hun).
    rewrite Hrun.
    destruct (lru_find (self, item) (getitem_cache st1)).
    + exists v, st1. split; [reflexivity|]. split; [now split|].
      split; [exact Hwf1|]. split; [exact Hname|exact Hun].
    + eexists _, _. split; [reflexivity|]. split; [now split|]. split; [|split].
      * destruct Hwf1 as [H1 H2 H3 H4]. constructor; cbn; try assumption.
        intros k c Hin. apply In_lru_store in Hin as [Heq|Hin]; [|now apply H4].
        inversion Heq; subst. cbn. rewrite Hh. now apply Hname.
      * exact Hname.
      * intros x Hx. destruct (Hun x Hx) as [[Hu Hg] Hne]. split; [|exact Hne].
        split; [exact Hu|]. cbn. intros k Hin.
        apply In_lru_store in Hin as [Heq|Hin]; [|now apply (Hg k)].
        inversion Heq; subst. now apply Hne.
Qed.

Lemma getitem_top (self : ref) (item : string) (st : state) :
  wf st -> self < List.length (heap st) ->
  exists v st',
    __getitem__ self item st = Ok (v, st') /\ answer_ok st item v st'.
Proof. intros Hwf Hself. now apply getitem_total. Qed.

End StateFacts.

(** ** The parser *)
Module ParserFacts.
Import Regex RegexFacts PropertyBag PropertyBagFacts StateFacts.
Import PropertyBagParser.

(** *** Reading a line *)

Lemma name_group_set (text : string) (m : captures) :
  rmatch LINE_REGEX_PATTERN text = Some m ->
  exists n, group "name" m = Some n.
Proof.
  unfold rmatch, LINE_REGEX_PATTERN. rewrite run_cat. intros H.
  apply run_grows in H as (s1 & more1 & H).
  rewrite run_cat, run_grp in H.
  apply run_grows in H as (s2 & more2 & H).
  apply run_grows in H as (s3 & more3 & H).
  inversion H as [Hm]. eapply group_set.
  apply in_or_app. left. apply in_or_app. right. now left.
Qed.

(** What [_parse_tree] reads off a matched line, given the name group and
    the [count] of the parent. *)
Definition line_of (matches : captures) (n : string) (count : nat) : line :=
  let name := if truthy (strip n) then strip n else str_of_nat count in
  mkLine
    (group_bool "abstract" matches)
    name
    (map (inherit_name name) (all_captures "inherits" matches))
    (group_bool "equals" matches)
    (group_bool "value" matches)
    (if group_bool "value" matches
     then match group "value" matches with
          | Some v => strip v
          | None => ""
          end
     else "").

Lemma read_line_eq (text : string) (parent_prop : ref) (st : state)
    (m : captures) (n : string) :
  rmatch LINE_REGEX_PATTERN text = Some m -> group "name" m = Some n ->
  bases_older (heap st) -> parent_prop < List.length (heap st) ->
  read_line text parent_prop st
  = Ok (line_of m n (List.length (flat (heap st) parent_prop)), st).
Proof.
  intros Hm Hn Hwf Hp. unfold read_line, line_of. rewrite Hm, Hn.
  destruct (truthy (strip n)); [reflexivity|].
  unfold bind, count, ret. unfold bind. now rewrite flattened_flat.
Qed.

(** *** Looking a base up *)

Lemma search_total (base_name : string) (props : list ref) :
  forall st, wf st -> valid st props ->
  exists v st',
    search base_name props st = Ok (v, st')
    /\ answer_ok st base_name v st'.
Proof.
  induction props as [|p rest IH]; intros st Hwf Hv.
  - exists None, st. split; [reflexivity|].
    split; [apply same_bags_refl|]. split; [exact Hwf|].
    split; [discriminate|]. intros x Hx. split; [exact Hx|discriminate].
  - inversion Hv as [|? ? Hp Hrest]; subst.
    cbn [search]. unfold bind.
    destruct (contains_total p base_name st Hwf Hp)
      as (found & st1 & Hrun & [Hh Hw] & Hg).
    rewrite Hrun.
    assert (Hwf1 : wf st1) by (now apply (wf_same st)).
    destruct found.
    + destruct (getitem_top p base_name st1 Hwf1) as (v & st2 & Hrun2 & Hok);
        [rewrite Hh; exact Hp|].
      exists v, st2. split; [exact Hrun2|].
      eapply answer_ok_after_contains; [split| |]; eassumption.
    + destruct (IH st1 Hwf1) as (v & st2 & Hrun2 & Hok).
      { unfold valid. now rewrite Hh. }
      exists v, st2. split; [exact Hrun2|].
      eapply answer_ok_after_contains; [split| |]; eassumption.
Qed.

Lemma answer_ok_trans (st st1 st2 : state) (n : string) (v : option ref) :
  answer_ok st n None st1 -> answer_ok st1 n v st2 -> answer_ok st n v st2.
Proof.
  intros ([Hh Hw] & Hwf1 & _ & Hun1) ([Hh2 Hw2] & Hwf2 & Hname & Hun2).
  split; [split; congruence|]. split; [exact Hwf2|]. split.
  - intros c Hc. rewrite <- Hh. now apply Hname.
  - intros x Hx. apply Hun2. now apply Hun1.
Qed.

Lemma find_base_total (base_name : string) (parents abstract_props : list ref)
    (st : state) :
  wf st -> valid st parents -> valid st abstract_props ->
  exists v st',
    find_base base_name parents abstract_props st = Ok (v, st')
    /\ answer_ok st base_name v st'.
Proof.
  intros Hwf Hp Ha. unfold find_base, bind.
  destruct (search_total base_name parents st Hwf Hp) as (v & st1 & Hrun & Hok).
  rewrite Hrun. destruct v as [b|].
  - exists (Some b), st1. now split.
  - pose proof Hok as ([Hh Hw] & Hwf1 & Hrest).
    destruct (search_total base_name abstract_props st1 Hwf1)
      as (v & st2 & Hrun2 & Hok2).
    { unfold valid. now rewrite Hh. }
    exists v, st2. split; [exact Hrun2|].
    eapply answer_ok_trans; [exact Hok|exact Hok2].
Qed.

(** The searches of a state without stale answers: the first bag of the
    stack whose flattened view has the name supplies the base. *)
Lemma search_coherent (base_name : string) (props : list ref) :
  forall st,
    bases_older (heap st) -> children_ok (heap st) -> coherent st ->
    valid st props ->
    exists st',
      search base_name props st
      = Ok (first_entry base_name (map (flat (heap st)) props), st')
      /\ same_bags st st' /\ coherent st'.
Proof.
  induction props as [|p rest IH]; intros st Hwf Hok Hco Hv.
  - exists st. split; [reflexivity|]. split; [apply same_bags_refl|exact Hco].
  - inversion Hv as [|? ? Hp Hrest]; subst.
    cbn [search map first_entry]. unfold bind.
    destruct (contains_coherent p base_name st Hwf Hco Hp)
      as (st1 & Hrun & [Hh Hw] & _ & Hco1).
    rewrite Hrun. unfold dict_mem.
    destruct (dict_get base_name (flat (heap st) p)) as [c|] eqn:E.
    + destruct (getitem_coherent (List.length (heap st1)) p base_name st1)
        as (st2 & Hrun2 & Hsb & Hco2); try rewrite Hh; auto.
      rewrite Hh, E in Hrun2. exists st2.
      split; [unfold __getitem__; rewrite Hh; exact Hrun2|].
      split; [|exact Hco2].
      eapply same_bags_trans; [split; eassumption|exact Hsb].
    + destruct (IH st1 ltac:(now rewrite Hh) ltac:(now rewrite Hh) Hco1
                  ltac:(unfold valid; now rewrite Hh))
        as (st2 & Hrun2 & Hsb & Hco2).
      rewrite Hh in Hrun2. exists st2. split; [exact Hrun2|].
      split; [|exact Hco2].
      eapply same_bags_trans; [split; eassumption|exact Hsb].
Qed.

(** The base that the concrete stack, and failing it the abstract one,
    holds under a name in the flattened views of their bags. *)
Definition visible_base (h : list t) (base_name : string)
    (parents abstract_props : list ref) : option ref :=
  match first_entry base_name (map (flat h) parents) with
  | Some b => Some b
  | None => first_entry base_name (map (flat h) abstract_props)
  end.

Lemma find_base_coherent (base_name : string)
    (parents abstract_props : list ref) (st : state) :
  bases_older (heap st) -> children_ok (heap st) -> coherent st ->
  valid st parents -> valid st abstract_props ->
  exists st',
    find_base base_name parents abstract_props st
    = Ok (visible_base (heap st) base_name parents abstract_props, st')
    /\ same_bags st st' /\ coherent st'.
Proof.
  intros Hwf Hok Hco Hp Ha. unfold find_base, bind, visible_base.
  destruct (search_coherent base_name parents st Hwf Hok Hco Hp)
    as (st1 & Hrun & [Hh Hw] & Hco1).
  rewrite Hrun.
  destruct (first_entry base_name (map (flat (heap st)) parents)) as [b|].
  - exists st1. split; [reflexivity|]. split; [now split|exact Hco1].
  - destruct (search_coherent base_name abstract_props st1
                ltac:(now rewrite Hh) ltac:(now rewrite Hh) Hco1
                ltac:(unfold valid; now rewrite Hh))
      as (st2 & Hrun2 & Hsb & Hco2).
    rewrite Hh in Hrun2. exists st2. split; [exact Hrun2|].
    split; [|exact Hco2].
    eapply same_bags_trans; [split; eassumption|exact Hsb].
Qed.

(** *** The bases of a declaration *)

(** The warnings of [st'] are those of [st] and more. *)
Definition grows (st st' : state) : Prop :=
  exists added, warnings st' = warnings st ++ added.

Lemma grows_refl (st : state) : grows st st.
Proof. exists []. now rewrite app_nil_r. Qed.

Lemma grows_trans (st1 st2 st3 : state) :
  grows st1 st2 -> grows st2 st3 -> grows st1 st3.
Proof.
  intros [a1 H1] [a2 H2]. exists (a1 ++ a2). now rewrite H2, H1, app_assoc.
Qed.

(** The state with one warning more. *)
Definition warned (msg : string) (st : state) : state :=
  mkState (heap st) (contains_cache st) (getitem_cache st)
    (warnings st ++ [msg]).

Lemma warn_eq (msg : string) (st : state) :
  warn msg st = Ok (tt, warned msg st).
Proof. reflexivity. Qed.

(** The bases that a list of clauses is bound to: in the order of the
    clauses, a bag of the heap that bears the name of the clause, or
    nothing for the clause. *)
Inductive bound (h : list t) : list string -> list ref -> Prop :=
| bound_nil : bound h [] []
| bound_base (n : string) (rest : list string) (b : ref) (bs : list ref) :
    name_of h b = Some n -> bound h rest bs -> bound h (n :: rest) (b :: bs)
| bound_none (n : string) (rest : list string) (bs : list ref) :
    bound h rest bs -> bound h (n :: rest) bs.

Lemma bound_lt (h : list t) (inherits : list string) (found : list ref) :
  bound h inherits found -> Forall (fun b => b < List.length h) found.
Proof.
  induction 1 as [|n rest b bs Hb _ IH|n rest bs _ IH];
    [constructor| |exact IH].
  constructor; [|exact IH]. eapply name_of_lt; eassumption.
Qed.

(** What the loop over the inheritance clauses returns: bags that
    existed before it, each filed under the name of its clause. *)
Definition bases_found (st : state) (inherits : list string)
    (found : list ref) (st' : state) : Prop :=
  heap st' = heap st
  /\ wf st'
  /\ bound (heap st) inherits found
  /\ (forall x, unreferenced st x -> unreferenced st' x /\ ~ In x found)
  /\ grows st st'.

Lemma find_bases_total (inherits : list string) (name : string)
    (parents abstract_props : list ref) :
  forall st, wf st -> valid st parents -> valid st abstract_props ->
  exists found st',
    find_bases inherits name parents abstract_props st = Ok (found, st')
    /\ bases_found st inherits found st'.
Proof.
  induction inherits as [|base_name rest IH]; intros st Hwf Hp Ha.
  - exists [], st. split; [reflexivity|]. split; [reflexivity|].
    split; [exact Hwf|]. split; [constructor|].
    split; [|apply grows_refl]. intros x Hx. split; [exact Hx|intros []].
  - cbn [find_bases]. unfold bind.
    destruct (find_base_total base_name parents abstract_props st Hwf Hp Ha)
      as (v & st1 & Hrun & [Hh Hw] & Hwf1 & Hname & Hun).
    rewrite Hrun. destruct v as [b|].
    + destruct (IH st1 Hwf1) as (found & st2 & Hrun2 & Hh2 & Hwf2 & Hall & Hun2 & Hg2).
      { unfold valid. now rewrite Hh. }
      { unfold valid. now rewrite Hh. }
      rewrite Hrun2. exists (b :: found), st2. split; [reflexivity|].
      split; [congruence|]. split; [exact Hwf2|]. split; [|split].
      * constructor; [now apply Hname|now rewrite <- Hh].
      * intros x Hx. destruct (Hun x Hx) as [Hx1 Hne].
        destruct (Hun2 x Hx1) as [Hx2 Hnotin]. split; [exact Hx2|].
        intros [->|Hin]; [now apply Hne|contradiction].
      * destruct Hg2 as [added Hadd]. exists added. now rewrite Hadd, Hw.
    + rewrite warn_eq.
      destruct (IH (warned (could_not_find base_name name) st1))
        as (found & st2 & Hrun2 & Hh2 & Hwf2 & Hall & Hun2 & Hg2).
      { now apply (wf_same st1). }
      { unfold valid. cbn. now rewrite Hh. }
      { unfold valid. cbn. now rewrite Hh. }
      rewrite Hrun2. exists found, st2. split; [reflexivity|].
      cbn in Hh2. split; [congruence|]. split; [exact Hwf2|]. split; [|split].
      * constructor. cbn in Hall. now rewrite <- Hh.
      * intros x Hx. destruct (Hun x Hx) as [Hx1 _].
        apply Hun2. now apply (unreferenced_same st1).
      * destruct Hg2 as [added Hadd]. cbn in Hadd.
        exists ([could_not_find base_name name] ++ added).
        now rewrite Hadd, Hw, app_assoc.
Qed.

(** *** Declaring a bag *)

(** The heap after [prop = PropertyBag(n, v, bs)] and [target.add(prop)]. *)
Definition declared (n v : string) (bs : list ref) (target : ref)
    (h : list t) : list t :=
  set_children target (dict_set n (List.length h) (children_of h target))
    (h ++ [mk n v bs []]).

Lemma new_add (n v : string) (bs : list ref) (target : ref) (st : state)
    (A : Type) (f : ref -> A) :
  wf st -> valid st bs -> target < List.length (heap st) ->
  exists st',
    (prop <- new n v bs ;; add target prop ;;; ret (f prop))%call st
    = Ok (f (List.length (heap st)), st')
    /\ heap st' = declared n v bs target (heap st)
    /\ List.length (heap st') = S (List.length (heap st))
    /\ contains_cache st' = contains_cache st
    /\ getitem_cache st' = getitem_cache st
    /\ warnings st' = warnings st
    /\ wf st'
    /\ forall x, unreferenced st x -> x < List.length (heap st) ->
         ~ In x bs -> unreferenced st' x.
Proof.
  intros Hwf Hbs Htarget. unfold bind. rewrite new_eq.
  destruct (nth_error (heap st) target) as [b|] eqn:Eb;
    [|apply nth_error_None in Eb; lia].
  set (st1 := set_heap (heap st ++ [mk n v bs []]) st).
  assert (Eb1 : nth_error (heap st1) target = Some b)
    by (cbn; now rewrite nth_error_app1).
  assert (Ep1 : nth_error (heap st1) (List.length (heap st))
                = Some (mk n v bs []))
    by (cbn; now rewrite nth_error_app2, Nat.sub_diag by lia).
  rewrite (add_eq _ _ _ _ _ Eb1 Ep1). unfold ret. eexists. split; [reflexivity|].
  split; [|split; [|split; [|split; [|split; [|split]]]]].
  - cbn. unfold declared, children_of. now rewrite Eb.
  - cbn. rewrite set_children_length, length_app. cbn. lia.
  - reflexivity.
  - reflexivity.
  - reflexivity.
  - apply (add_wf _ _ st1 _ _ Eb1 Ep1). now apply new_wf.
  - intros x Hx Hlt Hnotin.
    apply (add_unreferenced _ _ st1 _ _ _ Eb1); [|lia].
    now apply new_unreferenced.
Qed.

Lemma bound_nothing (h : list t) (inherits : list string) :
  bound h inherits [].
Proof. induction inherits; now constructor. Qed.

Lemma bases_found_none (st : state) (inherits : list string) :
  wf st -> bases_found st inherits [] st.
Proof.
  intros Hwf. split; [reflexivity|]. split; [exact Hwf|].
  split; [apply bound_nothing|].
  split; [|apply grows_refl]. intros x Hx. split; [exact Hx|intros []].
Qed.

(** The value that a declaration with [=] gives its bag. *)
Definition text_value (l : line) (text_children : list tree) : string :=
  if has_value l then value l else join_children (value l) text_children.

(** One round of the loop of [_parse_tree] on a line that the pattern
    matches, up to the recursive call. *)
Lemma declare_spec (i : Z) (text : string) (cs : list tree)
    (parent : ref) (ps : list ref) (holder : ref) (hs : list ref)
    (st : state) (m : captures) (n : string) :
  rmatch LINE_REGEX_PATTERN text = Some m -> group "name" m = Some n ->
  wf st -> valid st (parent :: ps) -> valid st (holder :: hs) ->
  let l := line_of m n (List.length (flat (heap st) parent)) in
  exists found st1 st',
    declare (IndentationTree.Node i text cs) (parent :: ps) (holder :: hs) st
    = Ok (if has_equals l then None else Some (List.length (heap st)), st')
    /\ (if has_equals l then found = [] /\ st1 = st
        else find_bases (inherits l) (name l) (parent :: ps) (holder :: hs) st
             = Ok (found, st1))
    /\ bases_found st (inherits l) found st1
    /\ heap st'
       = declared (name l)
           (if has_equals l then text_value l cs else "") found
           (if has_equals l then parent
            else if is_abstract l then holder else parent)
           (heap st)
    /\ List.length (heap st') = S (List.length (heap st))
    /\ contains_cache st' = contains_cache st1
    /\ getitem_cache st' = getitem_cache st1
    /\ warnings st' = warnings st1
    /\ wf st'
    /\ forall x, unreferenced st x -> x < List.length (heap st) ->
         unreferenced st' x.
Proof.
  intros Hm Hn Hwf Hp Ha l.
  assert (Hparent : parent < List.length (heap st)) by (now inversion Hp).
  assert (Hholder : holder < List.length (heap st)) by (now inversion Ha).
  unfold declare.
  change (fun st0 => ?f st0) with f.
  unfold bind at 1.
  rewrite (read_line_eq _ _ _ _ _ Hm Hn (wf_bases _ Hwf) Hparent).
  fold l. unfold text_value.
  destruct (has_equals l) eqn:He; cbn [andb].
  - destruct (has_value l) eqn:Hv.
    + destruct (new_add (name l) (value l) [] parent st _ (fun _ => @None ref)
                  Hwf ltac:(constructor) Hparent)
        as (st' & Hrun & Hh & Hlen & Hcc & Hgc & Hw & Hwf' & Hun).
      exists [], st, st'. split; [exact Hrun|]. split; [now split|].
      split; [now apply bases_found_none|]. split; [exact Hh|].
      split; [exact Hlen|]. split; [exact Hcc|]. split; [exact Hgc|].
      split; [exact Hw|]. split; [exact Hwf'|].
      intros x Hx Hlt. apply Hun; auto.
    + destruct (new_add (name l) (join_children (value l) cs) [] parent st _
                  (fun _ => @None ref) Hwf ltac:(constructor) Hparent)
        as (st' & Hrun & Hh & Hlen & Hcc & Hgc & Hw & Hwf' & Hun).
      exists [], st, st'. split; [exact Hrun|]. split; [now split|].
      split; [now apply bases_found_none|]. split; [exact Hh|].
      split; [exact Hlen|]. split; [exact Hcc|]. split; [exact Hgc|].
      split; [exact Hw|]. split; [exact Hwf'|].
      intros x Hx Hlt. apply Hun; auto.
  - destruct (find_bases_total (inherits l) (name l) (parent :: ps)
                (holder :: hs) st Hwf Hp Ha)
      as (found & st1 & Hrun1 & Hfound).
    pose proof Hfound as (Hh1 & Hwf1 & Hall & Hun1 & Hg1).
    unfold bind at 1. rewrite Hrun1.
    assert (Hvalid : valid st1 found).
    { unfold valid. rewrite Hh1. eapply bound_lt; exact Hall. }
    destruct (new_add (name l) "" found
                (if is_abstract l then holder else parent) st1 _
                (fun prop => Some prop) Hwf1 Hvalid)
      as (st' & Hrun & Hh & Hlen & Hcc & Hgc & Hw & Hwf' & Hun).
    { rewrite Hh1. now destruct (is_abstract l). }
    rewrite Hh1 in Hrun, Hh, Hlen.
    exists found, st1, st'. split; [exact Hrun|]. split; [reflexivity|].
    split; [exact Hfound|]. split; [exact Hh|].
    split; [exact Hlen|]. split; [exact Hcc|]. split; [exact Hgc|].
    split; [exact Hw|]. split; [exact Hwf'|].
    intros x Hx Hlt. destruct (Hun1 x Hx) as [Hx1 Hnotin].
    apply Hun; [exact Hx1|now rewrite Hh1|exact Hnotin].
Qed.

(** *** The whole tree *)

Lemma tree_induction (P : tree -> Prop) :
  (forall i tx cs, Forall P cs -> P (IndentationTree.Node i tx cs)) ->
  forall t, P t.
Proof.
  intros H. fix IH 1. intros [i tx cs]. apply H.
  induction cs as [|c cs IHcs]; constructor; [apply IH|exact IHcs].
Qed.

Definition text_of (t : tree) : string :=
  match t with IndentationTree.Node _ tx _ => tx end.

(** The line pattern matches the text. *)
Definition matched (text : string) : bool :=
  match rmatch LINE_REGEX_PATTERN text with
  | Some _ => true
  | None => false
  end.

(** The line pattern matches the text of every node below the root. *)
Fixpoint lines_match (t : tree) : bool :=
  match t with
  | IndentationTree.Node _ _ cs =>
      forallb (fun c => matched (text_of c) && lines_match c) cs
  end.

(** What [_parse_tree] needs of the state and the two stacks, and
    keeps: the stacks hold bags of the heap, and nothing refers to an
    abstract holder. *)
Definition scoped (st : state) (parents abstract_props : list ref) : Prop :=
  wf st /\ valid st parents /\ valid st abstract_props
  /\ Forall (unreferenced st) abstract_props.

(** The bags of [st] are bags of [st'], under their names, and the
    warnings of [st] are warnings of [st']. *)
Definition later (st st' : state) : Prop :=
  List.length (heap st) <= List.length (heap st')
  /\ (forall r n, name_of (heap st) r = Some n ->
        name_of (heap st') r = Some n)
  /\ grows st st'.

Lemma later_refl (st : state) : later st st.
Proof. split; [lia|]. split; [auto|apply grows_refl]. Qed.

Lemma later_trans (st1 st2 st3 : state) :
  later st1 st2 -> later st2 st3 -> later st1 st3.
Proof.
  intros (H1 & N1 & G1) (H2 & N2 & G2). split; [lia|].
  split; [auto|eapply grows_trans; eassumption].
Qed.

Lemma name_of_declared (n v : string) (bs : list ref) (target : ref)
    (h : list t) (r : ref) (m : string) :
  name_of h r = Some m -> name_of (declared n v bs target h) r = Some m.
Proof.
  intros H. unfold declared. rewrite name_of_set_children.
  now apply name_of_app.
Qed.

Lemma declare_scoped (c : tree) (parent : ref) (ps : list ref)
    (holder : ref) (hs : list ref) (st : state) :
  matched (text_of c) = true ->
  scoped st (parent :: ps) (holder :: hs) ->
  exists r st',
    declare c (parent :: ps) (holder :: hs) st = Ok (r, st')
    /\ scoped st' (parent :: ps) (holder :: hs)
    /\ later st st'
    /\ forall prop, r = Some prop ->
         scoped st' (prop :: parent :: ps) (holder :: hs).
Proof.
  destruct c as [i text cs]. unfold matched. cbn [text_of].
  destruct (rmatch LINE_REGEX_PATTERN text) as [m|] eqn:Hm; [|discriminate].
  intros _ (Hwf & Hp & Ha & Hun).
  destruct (name_group_set _ _ Hm) as (n & Hn).
  destruct (declare_spec i text cs parent ps holder hs st m n Hm Hn Hwf Hp Ha)
    as (found & st1 & st' & Hrun & _ & (Hh1 & _ & _ & _ & Hg1) & Hh & Hlen
        & _ & _ & Hw & Hwf' & Hun').
  assert (Hle : List.length (heap st) <= List.length (heap st')) by lia.
  assert (Hsc : scoped st' (parent :: ps) (holder :: hs)).
  { split; [exact Hwf'|]. split; [now apply (valid_mono st)|].
    split; [now apply (valid_mono st)|].
    rewrite Forall_forall in *. intros x Hx. apply Hun'; [now apply Hun|].
    unfold valid in Ha. rewrite Forall_forall in Ha. now apply Ha. }
  eexists _, st'. split; [exact Hrun|]. split; [exact Hsc|]. split.
  - split; [exact Hle|]. split.
    + intros r k Hr. rewrite Hh. now apply name_of_declared.
    + destruct Hg1 as [added Hadd]. exists added. congruence.
  - intros prop Hprop. destruct Hsc as (H1 & H2 & H3 & H4).
    split; [exact H1|]. split; [|now split].
    constructor; [|exact H2].
    destruct (has_equals _); inversion Hprop; subst. lia.
Qed.

Lemma each_child_total (cs : list tree) :
  Forall
    (fun c =>
       lines_match c = true ->
       forall parent ps abs st,
         scoped st (parent :: ps) abs ->
         exists st',
           _parse_tree c (parent :: ps) abs st = Ok ((ps, abs), st')
           /\ scoped st' ps abs /\ later st st') cs ->
  forallb (fun c => matched (text_of c) && lines_match c) cs = true ->
  forall parent ps holder hs st,
    scoped st (parent :: ps) (holder :: hs) ->
    exists st',
      each_child _parse_tree cs (parent :: ps) (holder :: hs) st
      = Ok ((ps, hs), st')
      /\ scoped st' (parent :: ps) (holder :: hs) /\ later st st'.
Proof.
  induction 1 as [|c cs Hc _ IH]; intros Hall parent ps holder hs st Hsc.
  - exists st. split; [reflexivity|]. split; [exact Hsc|apply later_refl].
  - cbn [forallb] in Hall. apply andb_true_iff in Hall as [Hmc Hall].
    apply andb_true_iff in Hmc as [Hmatched Hlines].
    cbn [each_child]. unfold bind at 1.
    destruct (declare_scoped c parent ps holder hs st Hmatched Hsc)
      as (r & st1 & Hrun & Hsc1 & Hl1 & Hprop).
    rewrite Hrun. destruct r as [prop|].
    + unfold bind at 1.
      destruct (Hc Hlines prop (parent :: ps) (holder :: hs) st1
                  (Hprop prop eq_refl)) as (st2 & Hrun2 & Hsc2 & Hl2).
      rewrite Hrun2. cbn [fst snd].
      destruct (IH Hall parent ps holder hs st2 Hsc2)
        as (st3 & Hrun3 & Hsc3 & Hl3).
      exists st3. split; [exact Hrun3|]. split; [exact Hsc3|].
      eapply later_trans; [exact Hl1|]. eapply later_trans; eassumption.
    + destruct (IH Hall parent ps holder hs st1 Hsc1)
        as (st3 & Hrun3 & Hsc3 & Hl3).
      exists st3. split; [exact Hrun3|]. split; [exact Hsc3|].
      eapply later_trans; eassumption.
Qed.

(** [_parse_tree] returns on every tree whose lines the pattern matches,
    with its two stacks popped. *)
Lemma parse_tree_total (t : tree) :
  lines_match t = true ->
  forall parent ps abs st,
    scoped st (parent :: ps) abs ->
    exists st',
      _parse_tree t (parent :: ps) abs st = Ok ((ps, abs), st')
      /\ scoped st' ps abs /\ later st st'.
Proof.
  induction t as [i tx cs IH] using tree_induction.
  intros Hall parent ps abs st (Hwf & Hp & Ha & Hun).
  cbn [_parse_tree]. unfold bind at 1. rewrite new_eq.
  set (st1 := set_heap (heap st ++ [mk "abstract" "" [] []]) st).
  assert (Hlen1 : List.length (heap st1) = S (List.length (heap st)))
    by (cbn; rewrite length_app; cbn; lia).
  assert (Hsc1 : scoped st1 (parent :: ps) (List.length (heap st) :: abs)).
  { split; [apply new_wf; [exact Hwf|constructor]|].
    split; [apply (valid_mono st); [lia|exact Hp]|]. split.
    - constructor; [lia|]. apply (valid_mono st); [lia|exact Ha].
    - constructor; [apply new_fresh; [exact Hwf|constructor]|].
      eapply Forall_impl; [|exact Hun].
      intros x Hx. now apply new_unreferenced. }
  destruct (each_child_total cs IH Hall parent ps (List.length (heap st)) abs
              st1 Hsc1)
    as (st' & Hrun & (Hwf' & Hp' & Ha' & Hun') & Hle & Hn & Hg).
  exists st'. split; [exact Hrun|]. split.
  - split; [exact Hwf'|]. split; [now inversion Hp'|].
    split; [now inversion Ha'|now inversion Hun'].
  - split; [lia|]. split; [|exact Hg].
    intros r k Hr. apply Hn. cbn. now apply name_of_app.
Qed.

(** [parse] returns on every such tree, from any state that the class
    can be in. *)
Lemma parse_total (t : tree) (st : state) :
  lines_match t = true -> wf st ->
  exists st',
    PropertyBagParser.parse t st = Ok (List.length (heap st), st')
    /\ wf st' /\ later st st'
    /\ name_of (heap st') (List.length (heap st)) = Some "root".
Proof.
  intros Hall Hwf.
  set (st1 := set_heap (heap st ++ [mk "root" "" [] []]) st).
  assert (Hsc1 : scoped st1 [List.length (heap st)] []).
  { split; [apply new_wf; [exact Hwf|constructor]|].
    split; [|split; constructor].
    constructor; [|constructor]. cbn. rewrite length_app. cbn. lia. }
  destruct (parse_tree_total t Hall _ _ _ _ Hsc1)
    as (st' & Hrun & (Hwf' & _) & Hle & Hn & Hg).
  exists st'. split; [|split; [exact Hwf'|split]].
  - unfold PropertyBagParser.parse, bind. rewrite new_eq. fold st1.
    match goal with
    | |- match ?x with _ => _ end = _ =>
        replace x with (@Ok (list ref * list ref * state) (([], []), st'))
          by (symmetry; exact Hrun)
    end.
    reflexivity.
  - split; [cbn in Hle; rewrite length_app in Hle; cbn in Hle; lia|].
    split; [|exact Hg].
    intros r k Hr. apply Hn. cbn. now apply name_of_app.
  - apply Hn. unfold name_of. cbn.
    now rewrite nth_error_app2, Nat.sub_diag by lia.
Qed.

(** *** The order of the search *)

(** The lines of a bag [derived] that inherits [x] from [base] and does
    not declare it. *)
Definition inherited_x : list string :=
  ["base"; "  x"; "derived :: base"].

(** The search as the specification words it: the direct children of
    each bag of the two stacks. *)
Definition direct_base (h : list t) (base_name : string)
    (parents abstract_props : list ref) : option ref :=
  match first_entry base_name (map (children_of h) parents) with
  | Some b => Some b
  | None => first_entry base_name (map (children_of h) abstract_props)
  end.

(** C2, as the code has it: in a state whose caches hold no stale
    answer, the base of an inheritance clause is the entry under the base
    name in the flattened view (the direct children and all that is
    inherited) of the first bag that has one, going through the concrete
    stack from the current parent out to the root and, only if no concrete
    bag has one, through the abstract holders from the current level out;
    no base is found when no view has the name. *)
Theorem base_is_first_in_flattened_views (st : state) (base_name : string)
    (parents abstract_props : list ref) :
  bases_older (heap st) -> children_ok (heap st) -> coherent st ->
  valid st parents -> valid st abstract_props ->
  exists st',
    find_base base_name parents abstract_props st
    = Ok (match first_entry base_name (map (flat (heap st)) parents) with
          | Some b => Some b
          | None => first_entry base_name (map (flat (heap st)) abstract_props)
          end, st')
    /\ heap st' = heap st /\ warnings st' = warnings st /\ coherent st'.
Proof.
  intros Hwf Hok Hco Hp Ha.
  destruct (find_base_coherent base_name parents abstract_props st
              Hwf Hok Hco Hp Ha) as (st' & Hrun & [Hh Hw] & Hco').
  exists st'. split; [exact Hrun|]. split; [exact Hh|].
  split; [exact Hw|exact Hco'].
Qed.

(** The state in which the lines of [inherited_x] leave the parser. *)
Definition inherited_x_state : state :=
  Eval vm_compute in
    match parse_lines inherited_x empty with
    | Ok (_, st) => st
    | Raise _ => empty
    end.

Lemma base_is_first_in_flattened_views_witness :
  exists st',
    find_base "x" [6; 0] [7; 1] inherited_x_state = Ok (Some 4, st')
    /\ heap st' = heap inherited_x_state.
Proof.
  destruct (base_is_first_in_flattened_views inherited_x_state "x"
              [6; 0] [7; 1]) as (st' & Hrun & Hh & _ & _).
  - apply bases_olderb_sound. vm_compute. reflexivity.
  - apply children_okb_sound. vm_compute. reflexivity.
  - apply coherentb_sound. vm_compute. reflexivity.
  - repeat constructor.
  - repeat constructor.
  - exists st'. split; [|exact Hh]. rewrite Hrun. f_equal.
Defined.

(** The state in which the four lines leave the parser. *)
Definition inherited_y_state : state :=
  Eval vm_compute in
    match parse_lines (inherited_x ++ ["  y :: x"]) empty with
    | Ok (_, st) => st
    | Raise _ => empty
    end.

(** C2, as the claim has it, fails: [derived] has no child [x] of its
    own, nor has the root or a holder, and a search of the direct children
    finds nothing; the code finds the [x] that [derived] inherits from
    [base], and the clause [y :: x] under [derived] gets it as its base. *)
Lemma base_found_among_inherited :
  parse_lines inherited_x empty = Ok (0, inherited_x_state)
  /\ direct_base (heap inherited_x_state) "x" [6; 0] [7; 1] = None
  /\ result (find_base "x" [6; 0] [7; 1] inherited_x_state) = Some (Some 4)
  /\ parse_lines (inherited_x ++ ["  y :: x"]) empty
     = Ok (0, inherited_y_state)
  /\ option_map PropertyBag.name (nth_error (heap inherited_y_state) 8)
     = Some "y"
  /\ option_map bases (nth_error (heap inherited_y_state) 8) = Some [4].
Proof. repeat split; vm_compute; reflexivity. Qed.

(** *** Clauses without a base *)

Lemma first_entry_none (n : string) (ds : list (dict ref)) :
  (forall d, In d ds -> dict_get n d = None) -> first_entry n ds = None.
Proof.
  induction ds as [|d ds IH]; intros H; cbn; [reflexivity|].
  rewrite (H d) by now left. apply IH. intros d' Hd'. apply H. now right.
Qed.

Lemma nth_error_declared_new (n v : string) (bs : list ref) (target : ref)
    (h : list t) :
  target < List.length h ->
  nth_error (declared n v bs target h) (List.length h) = Some (mk n v bs []).
Proof.
  intros Ht. unfold declared.
  destruct (nth_error (h ++ [mk n v bs []]) target) as [b|] eqn:E.
  - rewrite (nth_error_set_children _ _ _ _ _ E).
    destruct (Nat.eqb_spec (List.length h) target); [lia|].
    now rewrite nth_error_app2, Nat.sub_diag by lia.
  - apply nth_error_None in E. rewrite length_app in E. cbn in E. lia.
Qed.

Lemma children_of_declared (n v : string) (bs : list ref) (target : ref)
    (h : list t) (r : ref) :
  target < List.length h -> r < List.length h ->
  children_of (declared n v bs target h) r =
  if Nat.eqb r target then dict_set n (List.length h) (children_of h target)
  else children_of h r.
Proof.
  intros Ht Hr. unfold declared, children_of at 1.
  destruct (nth_error (h ++ [mk n v bs []]) target) as [b|] eqn:E.
  - rewrite (nth_error_set_children _ _ _ _ _ E).
    destruct (Nat.eqb_spec r target) as [->|Hne]; [reflexivity|].
    unfold children_of. now rewrite nth_error_app1.
  - apply nth_error_None in E. rewrite length_app in E. cbn in E. lia.
Qed.








(** *** Checking a concrete state *)

Definition filedb (h : list t) (kv : string * ref) : bool :=
  match nth_error h (snd kv) with
  | Some c => String.eqb (PropertyBag.name c) (fst kv)
  | None => false
  end.

Definition wfb (st : state) : bool :=
  bases_olderb (heap st) && children_okb (heap st)
  && forallb (fun b => forallb (filedb (heap st)) (children b)) (heap st)
  && forallb
       (fun e =>
          match snd e with
          | Some c => filedb (heap st) (snd (fst e), c)
          | None => true
          end) (getitem_cache st).

Lemma filedb_sound (h : list t) (n : string) (c : ref) :
  filedb h (n, c) = true -> name_of h c = Some n.
Proof.
  unfold filedb, name_of. cbn. destruct (nth_error h c); [|discriminate].
  intros H. apply String.eqb_eq in H. cbn. now rewrite H.
Qed.

Lemma wfb_sound (st : state) : wfb st = true -> wf st.
Proof.
  unfold wfb. rewrite !andb_true_iff, !forallb_forall.
  intros [[[Hb Hd] Hc] Hg]. constructor.
  - now apply bases_olderb_sound.
  - now apply children_okb_sound.
  - intros r b n c E Hin. apply filedb_sound.
    pose proof (Hc b (nth_error_In _ _ E)) as H.
    rewrite forallb_forall in H. now apply H.
  - intros k c Hin. apply filedb_sound. now apply (Hg (k, Some c)).
Qed.


Definition unreferencedb (st : state) (x : ref) : bool :=
  forallb
    (fun b =>
       negb (existsb (Nat.eqb x) (bases b))
       && negb (existsb (fun kv => Nat.eqb x (snd kv)) (children b)))
    (heap st)
  && forallb (fun e => negb (option_ref_eqb (snd e) (Some x)))
       (getitem_cache st).

Lemma unreferencedb_sound (st : state) (x : ref) :
  unreferencedb st x = true -> unreferenced st x.
Proof.
  unfold unreferencedb. rewrite andb_true_iff, !forallb_forall.
  intros [Hh Hg]. split.
  - intros r b E. specialize (Hh b (nth_error_In _ _ E)).
    apply andb_true_iff in Hh as [H1 H2].
    apply negb_true_iff in H1, H2. split.
    + intros Hin. assert (existsb (Nat.eqb x) (bases b) = true); [|congruence].
      apply existsb_exists. exists x. split; [exact Hin|apply Nat.eqb_refl].
    + intros n Hin.
      assert (existsb (fun kv => Nat.eqb x (snd kv)) (children b) = true);
        [|congruence].
      apply existsb_exists. exists (n, x). split; [exact Hin|apply Nat.eqb_refl].
  - intros k Hin. specialize (Hg _ Hin). cbn in Hg.
    now rewrite Nat.eqb_refl in Hg.
Qed.

(** *** Flattened views across a declaration *)

(** The view of a bag does not change when a bag that none of the bags
    inherits from is given children, and bags are constructed. *)
Lemma flat_ext (h h' : list t) (x : ref) :
  bases_older h -> bases_older h' ->
  (forall y, y < List.length h -> y <> x -> nth_error h' y = nth_error h y) ->
  (forall y b, nth_error h y = Some b -> ~ In x (bases b)) ->
  forall r, r < List.length h -> r <> x -> flat h' r = flat h r.
Proof.
  intros Hwf Hwf' Hsame Hnot r.
  induction r as [r IH] using lt_wf_ind. intros Hr Hne.
  destruct (nth_error h r) as [b|] eqn:E;
    [|apply nth_error_None in E; lia].
  assert (E' : nth_error h' r = Some b) by (now rewrite Hsame).
  rewrite (flat_eq _ _ _ Hwf E), (flat_eq _ _ _ Hwf' E').
  f_equal. f_equal. apply map_ext_in. intros y Hy.
  pose proof (Hwf _ _ E) as Hb. rewrite Forall_forall in Hb.
  specialize (Hb _ Hy). apply IH; [exact Hb|lia|].
  intros ->. now apply (Hnot _ _ E).
Qed.

Lemma In_overlay (ds : list (dict ref)) (acc : dict ref) (e : string * ref) :
  In e (fold_left dict_update ds acc) ->
  In e acc \/ exists d, In d ds /\ In e d.
Proof.
  revert acc. induction ds as [|d ds IH]; intros acc; cbn; [now left|].
  intros H. destruct (IH _ H) as [H1|(d' & Hd' & He)].
  - destruct (In_dict_update _ _ _ H1) as [H2|H2]; [now left|].
    right. exists d. split; [now left|exact H2].
  - right. exists d'. split; [now right|exact He].
Qed.

(** An entry of a view is an entry of the children of some bag. *)
Lemma flat_entries (h : list t) :
  bases_older h ->
  forall r e, r < List.length h -> In e (flat h r) ->
  exists y b, nth_error h y = Some b /\ In e (children b).
Proof.
  intros Hwf r. induction r as [r IH] using lt_wf_ind. intros e Hr Hin.
  destruct (nth_error h r) as [b|] eqn:E;
    [|apply nth_error_None in E; lia].
  rewrite (flat_eq _ _ _ Hwf E) in Hin.
  destruct (In_dict_update _ _ _ Hin) as [H|H]; [|now exists r, b].
  destruct (In_overlay _ _ _ H) as [[]|(d & Hd & He)].
  apply in_map_iff in Hd as (y & <- & Hy).
  pose proof (Hwf _ _ E) as Hb. rewrite Forall_forall in Hb.
  specialize (Hb _ Hy). apply (IH y Hb e); [lia|exact He].
Qed.

Lemma first_entry_some (n : string) (ds : list (dict ref)) (b : ref) :
  first_entry n ds = Some b -> exists d, In d ds /\ dict_get n d = Some b.
Proof.
  induction ds as [|d ds IH]; cbn; [discriminate|].
  destruct (dict_get n d) as [c|] eqn:E.
  - intros H. inversion H; subst. exists d. split; [now left|exact E].
  - intros H. destruct (IH H) as (d' & Hd' & He).
    exists d'. split; [now right|exact He].
Qed.

Lemma declared_same (n v : string) (bs : list ref) (target : ref)
    (h : list t) (y : ref) :
  target < List.length h -> y < List.length h -> y <> target ->
  nth_error (declared n v bs target h) y = nth_error h y.
Proof.
  intros Ht Hy Hne. unfold declared.
  destruct (nth_error (h ++ [mk n v bs []]) target) as [b|] eqn:E.
  - rewrite (nth_error_set_children _ _ _ _ _ E).
    destruct (Nat.eqb_spec y target); [congruence|].
    now apply nth_error_app1.
  - apply nth_error_None in E. rewrite length_app in E. cbn in E. lia.
Qed.

(** *** Abstract declarations *)

(** The lines of the abstract bags [a] and [b] and of the bag [c] that
    inherits from both. *)
Definition two_abstract_bases : list string :=
  [":: a"; "  foo = from a"; "  bar = from a";
   ":: b"; "  foo = from b"; "  baz = from b";
   "c :: a :: b"; "  sprang = from c"].

Definition two_abstract_bases_state : state :=
  Eval vm_compute in
    match parse_lines two_abstract_bases empty with
    | Ok (_, st) => st
    | Raise _ => empty
    end.

(** The state of the parser before the first line, and what the pattern
    captures in an abstract collection line. *)
Definition before_lines : state :=
  mkState [mk "root" "" [] []; mk "abstract" "" [] []] [] [] [].

Definition abstract_t : captures :=
  Eval vm_compute in
    match rmatch LINE_REGEX_PATTERN ":: t" with
    | Some m => m
    | None => []
    end.

(** C5, as the code has it: a collection declaration (one without [=])
    whose leading [::] the pattern takes as the abstract marker makes a
    bag that is filed under its name with the holder of the current level;
    the children and the flattened view of the concrete parent stay as
    they were and do not hold the bag; and, the caches holding no stale
    answer, a later clause with that name is bound to the bag from the
    level of the holder or below, when no concrete bag of the stack and no
    holder further in has the name in its flattened view. *)
Theorem abstract_collection_is_filed_with_holder :
  (forall i text cs parent ps holder hs st m n,
     rmatch LINE_REGEX_PATTERN text = Some m -> group "name" m = Some n ->
     wf st -> valid st (parent :: ps) -> valid st (holder :: hs) ->
     parent <> holder -> unreferenced st holder ->
     let l := line_of m n (List.length (flat (heap st) parent)) in
     let prop := List.length (heap st) in
     has_equals l = false -> is_abstract l = true ->
     exists st',
       declare (IndentationTree.Node i text cs) (parent :: ps) (holder :: hs) st
       = Ok (Some prop, st')
       /\ dict_get (name l) (children_of (heap st') holder) = Some prop
       /\ children_of (heap st') parent = children_of (heap st) parent
       /\ flat (heap st') parent = flat (heap st) parent
       /\ (forall k, ~ In (k, prop) (children_of (heap st') parent))
       /\ (forall k, ~ In (k, prop) (flat (heap st') parent)))
  /\ (forall st base_name parents inner holder outer prop,
        bases_older (heap st) -> children_ok (heap st) -> coherent st ->
        valid st parents -> valid st (inner ++ holder :: outer) ->
        (forall p, In p (parents ++ inner) ->
           dict_get base_name (flat (heap st) p) = None) ->
        dict_get base_name (children_of (heap st) holder) = Some prop ->
        exists st',
          find_base base_name parents (inner ++ holder :: outer) st
          = Ok (Some prop, st'))
  /\ (parse_lines two_abstract_bases empty = Ok (0, two_abstract_bases_state)
      /\ children_of (heap two_abstract_bases_state) 0 = [("c", 10)]
      /\ children_of (heap two_abstract_bases_state) 1 = [("a", 2); ("b", 6)]
      /\ option_map bases (nth_error (heap two_abstract_bases_state) 10)
         = Some [2; 6]
      /\ map fst (flat (heap two_abstract_bases_state) 0) = ["c"]).
Proof.
  split; [|split].
  - intros i text cs parent ps holder hs st m n Hm Hn Hwf Hp Ha Hne Hun
      l prop He Habs.
    destruct (declare_spec i text cs parent ps holder hs st m n Hm Hn Hwf Hp Ha)
      as (found & st1 & st' & Hrun & _ & _ & Hh & _ & _ & _ & _ & Hwf' & _).
    fold l in Hrun, Hh. rewrite He in Hrun, Hh. rewrite Habs in Hh.
    assert (Hparent : parent < List.length (heap st)) by (now inversion Hp).
    assert (Hholder : holder < List.length (heap st)) by (now inversion Ha).
    assert (Hold : forall k, ~ In (k, prop) (children_of (heap st) parent)).
    { intros k Hin. unfold children_of in Hin.
      destruct (nth_error (heap st) parent) as [b|] eqn:E; [|destruct Hin].
      apply (wf_children _ Hwf _ _ _ _ E) in Hin.
      apply name_of_lt in Hin. unfold prop in Hin. lia. }
    assert (Hflat : flat (heap st') parent = flat (heap st) parent).
    { rewrite Hh. apply (flat_ext (heap st) _ holder).
      - exact (wf_bases _ Hwf).
      - rewrite <- Hh. exact (wf_bases _ Hwf').
      - intros y Hy Hyne. now apply declared_same.
      - intros y b E. exact (proj1 (proj1 Hun _ _ E)).
      - exact Hparent.
      - exact Hne. }
    exists st'. split; [exact Hrun|]. split; [|split; [|split; [|split]]].
    + rewrite Hh, children_of_declared by assumption.
      rewrite Nat.eqb_refl, dict_get_set. now rewrite String.eqb_refl.
    + rewrite Hh, children_of_declared by assumption.
      destruct (Nat.eqb_spec parent holder); [contradiction|reflexivity].
    + exact Hflat.
    + rewrite Hh, children_of_declared by assumption.
      destruct (Nat.eqb_spec parent holder); [contradiction|exact Hold].
    + rewrite Hflat. intros k Hin.
      destruct (flat_entries _ (wf_bases _ Hwf) parent _ Hparent Hin)
        as (y & b & E & Hb).
      apply (wf_children _ Hwf _ _ _ _ E) in Hb.
      apply name_of_lt in Hb. unfold prop in Hb. lia.
  - intros st base_name parents inner holder outer prop Hwf Hok Hco Hp Ha
      Hnone Hget.
    destruct (find_base_coherent base_name parents (inner ++ holder :: outer)
                st Hwf Hok Hco Hp Ha) as (st' & Hrun & _).
    exists st'. rewrite Hrun. f_equal. f_equal. unfold visible_base.
    rewrite first_entry_none.
    + rewrite map_app, first_entry_app, first_entry_none.
      * cbn [map first_entry].
        assert (Hh : holder < List.length (heap st)).
        { unfold valid in Ha. rewrite Forall_forall in Ha. apply Ha.
          apply in_or_app. right. now left. }
        unfold children_of in Hget.
        destruct (nth_error (heap st) holder) as [b|] eqn:E;
          [|discriminate Hget].
        rewrite (flat_get _ _ _ base_name Hwf E (Hok _ _ E)).
        now rewrite Hget.
      * intros d Hd. apply in_map_iff in Hd as (p & <- & Hin).
        apply Hnone. apply in_or_app. now right.
    + intros d Hd. apply in_map_iff in Hd as (p & <- & Hin).
      apply Hnone. apply in_or_app. now left.
  - repeat split; vm_compute; reflexivity.
Qed.

Lemma abstract_collection_is_filed_with_holder_witness :
  exists st',
    declare (IndentationTree.Node 0 ":: t" []) [0] [1] before_lines
    = Ok (Some 2, st')
    /\ dict_get "t" (children_of (heap st') 1) = Some 2
    /\ children_of (heap st') 0 = []
    /\ flat (heap st') 0 = [].
Proof.
  destruct (proj1 abstract_collection_is_filed_with_holder 0%Z ":: t" []
              0 [] 1 [] before_lines abstract_t " t")
    as (st' & Hrun & Hget & Hch & Hflat & _).
  - vm_compute. reflexivity.
  - vm_compute. reflexivity.
  - apply wfb_sound. vm_compute. reflexivity.
  - repeat constructor.
  - repeat constructor.
  - discriminate.
  - apply unreferencedb_sound. vm_compute. reflexivity.
  - vm_compute. reflexivity.
  - vm_compute. reflexivity.
  - exists st'. split; [exact Hrun|]. split; [exact Hget|].
    split; [exact Hch|exact Hflat].
Defined.

Definition abstract_value_state : state :=
  Eval vm_compute in
    match parse_lines ["::x = 1"] empty with
    | Ok (_, st) => st
    | Raise _ => empty
    end.

(** The lines of a clause that names [t] before [t] is declared, of the
    abstract [t], and of a clause that names it afterwards. *)
Definition asked_before_declared : list string :=
  ["y :: t"; ":: t"; "z :: t"].

Definition asked_before_declared_state : state :=
  Eval vm_compute in
    match parse_lines asked_before_declared empty with
    | Ok (_, st) => st
    | Raise _ => empty
    end.

(** C5, as the claim has it, fails: a declaration with [=] that begins
    with [::] is filed with the concrete parent, and shows in its
    flattened view, and the holder stays empty; and an abstract bag whose
    name was asked for before it was declared is not found by the clause
    that follows its declaration: the membership test still answers from
    its cache. *)
Lemma abstract_value_is_filed_with_parent :
  (group_bool "abstract"
     (match rmatch LINE_REGEX_PATTERN "::x = 1" with
      | Some m => m
      | None => []
      end) = true
   /\ parse_lines ["::x = 1"] empty = Ok (0, abstract_value_state)
   /\ children_of (heap abstract_value_state) 0 = [("x", 2)]
   /\ children_of (heap abstract_value_state) 1 = []
   /\ flat (heap abstract_value_state) 0 = [("x", 2)])
  /\ (parse_lines asked_before_declared empty
      = Ok (0, asked_before_declared_state)
      /\ children_of (heap asked_before_declared_state) 1 = [("t", 4)]
      /\ nth_error (heap asked_before_declared_state) 6
         = Some (mk "z" "" [] [])
      /\ warnings asked_before_declared_state
         = [could_not_find "t" "y"; could_not_find "t" "z"]).
Proof. repeat split; vm_compute; reflexivity. Qed.

(** *** Clauses without a name *)

(** The lines of the test of the repository: [foo ::] under [a] and
    under [b], with a [foo] at the root. *)
Definition same_name : list string :=
  ["foo"; "  bar = in base"; "a"; "  foo ::"; "    bar = overridden";
   "b"; "  foo ::"].

Definition same_name_state : state :=
  Eval vm_compute in
    match parse_lines same_name empty with
    | Ok (_, st) => st
    | Raise _ => empty
    end.

(** C3: a clause whose base name is empty stands for the name of its
    declaration; the bag that a search returns bears the name searched for
    and was constructed before the search; the bag of a collection
    declaration is constructed after its clauses were searched, with bases
    that are, clause by clause, nothing or an older bag of the name of the
    clause; and, the caches holding no stale answer, the base is the entry
    under that name in the flattened view of a bag of the two stacks. *)
Theorem self_named_clause_binds_older_bag :
  (forall name inherit, strip inherit = "" -> inherit_name name inherit = name)
  /\ (forall st base_name parents abstract_props b st1,
        wf st -> valid st parents -> valid st abstract_props ->
        find_base base_name parents abstract_props st = Ok (Some b, st1) ->
        name_of (heap st) b = Some base_name
        /\ b < List.length (heap st)
        /\ heap st1 = heap st)
  /\ (forall i text cs parent ps holder hs st m n,
        rmatch LINE_REGEX_PATTERN text = Some m -> group "name" m = Some n ->
        wf st -> valid st (parent :: ps) -> valid st (holder :: hs) ->
        let l := line_of m n (List.length (flat (heap st) parent)) in
        has_equals l = false ->
        exists found st',
          declare (IndentationTree.Node i text cs) (parent :: ps)
            (holder :: hs) st
          = Ok (Some (List.length (heap st)), st')
          /\ nth_error (heap st') (List.length (heap st))
             = Some (mk (name l) "" found [])
          /\ bound (heap st)
               (map (inherit_name (name l)) (all_captures "inherits" m))
               found
          /\ Forall (fun b => b < List.length (heap st)) found)
  /\ (forall st base_name parents abstract_props b st1,
        bases_older (heap st) -> children_ok (heap st) -> coherent st ->
        valid st parents -> valid st abstract_props ->
        find_base base_name parents abstract_props st = Ok (Some b, st1) ->
        exists p,
          In p (parents ++ abstract_props)
          /\ dict_get base_name (flat (heap st) p) = Some b)
  /\ (parse_lines same_name empty = Ok (0, same_name_state)
      /\ nth_error (heap same_name_state) 2
         = Some (mk "foo" "" [] [("bar", 4)])
      /\ nth_error (heap same_name_state) 7
         = Some (mk "foo" "" [2] [("bar", 9)])
      /\ nth_error (heap same_name_state) 12 = Some (mk "foo" "" [2] [])
      /\ children_of (heap same_name_state) 0
         = [("foo", 2); ("a", 5); ("b", 10)]).
Proof.
  split; [|split; [|split; [|split]]].
  - intros name inherit H. unfold inherit_name. now rewrite H.
  - intros st base_name parents abstract_props b st1 Hwf Hp Ha Hrun.
    destruct (find_base_total base_name parents abstract_props st Hwf Hp Ha)
      as (v & st1' & Hrun' & [Hh Hw] & _ & Hname & _).
    rewrite Hrun in Hrun'. inversion Hrun'; subst v st1'.
    pose proof (Hname b eq_refl) as Hb.
    split; [exact Hb|]. split; [eapply name_of_lt; exact Hb|exact Hh].
  - intros i text cs parent ps holder hs st m n Hm Hn Hwf Hp Ha l He.
    destruct (declare_spec i text cs parent ps holder hs st m n Hm Hn Hwf Hp Ha)
      as (found & st1 & st' & Hrun & _ & (_ & _ & Hb & _) & Hh & _).
    fold l in Hrun, Hh, Hb. rewrite He in Hrun, Hh.
    assert (Htarget : (if is_abstract l then holder else parent)
                      < List.length (heap st))
      by (destruct (is_abstract l); [now inversion Ha|now inversion Hp]).
    exists found, st'. split; [exact Hrun|]. split; [|split].
    + rewrite Hh. now apply nth_error_declared_new.
    + exact Hb.
    + eapply bound_lt. exact Hb.
  - intros st base_name parents abstract_props b st1 Hwf Hok Hco Hp Ha Hrun.
    destruct (find_base_coherent base_name parents abstract_props st
                Hwf Hok Hco Hp Ha) as (st' & Hrun' & _).
    rewrite Hrun in Hrun'. inversion Hrun' as [[Hv Hst]].
    unfold visible_base in Hv.
    destruct (first_entry base_name (map (flat (heap st)) parents))
      as [c|] eqn:E.
    + inversion Hv; subst c.
      apply first_entry_some in E as (d & Hd & Hget).
      apply in_map_iff in Hd as (p & <- & Hin).
      exists p. split; [apply in_or_app; now left|exact Hget].
    + symmetry in Hv. apply first_entry_some in Hv as (d & Hd & Hget).
      apply in_map_iff in Hd as (p & <- & Hin).
      exists p. split; [apply in_or_app; now right|exact Hget].
  - repeat split; vm_compute; reflexivity.
Qed.

Lemma self_named_clause_binds_older_bag_witness :
  name_of (heap inherited_x_state) 4 = Some "x"
  /\ 4 < List.length (heap inherited_x_state)
  /\ heap inherited_x_state = heap inherited_x_state.
Proof.
  assert (Hrun : exists st1,
             find_base "x" [6; 0] [7; 1] inherited_x_state
             = Ok (Some 4, st1))
    by (eexists; vm_compute; reflexivity).
  destruct Hrun as (st1 & Hrun).
  destruct (proj1 (proj2 self_named_clause_binds_older_bag)
              inherited_x_state "x" [6; 0] [7; 1] 4 st1)
    as (Hn & Hlt & _).
  - apply wfb_sound. vm_compute. reflexivity.
  - repeat constructor.
  - repeat constructor.
  - exact Hrun.
  - split; [exact Hn|]. split; [exact Hlt|reflexivity].
Defined.

(** *** Values over several lines *)

(** The texts without the empty ones that lead them. *)
Fixpoint skip_empty (texts : list string) : list string :=
  match texts with
  | tx :: texts' => if truthy tx then texts else skip_empty texts'
  | [] => []
  end.

Lemma append_assoc (a b c : string) :
  ((a ++ b) ++ c = a ++ (b ++ c))%string.
Proof. induction a as [|x a IH]; cbn; [reflexivity|now rewrite IH]. Qed.

Lemma truthy_append (a b : string) :
  truthy a = true -> truthy (a ++ b)%string = true.
Proof. destruct a; [discriminate|reflexivity]. Qed.

Lemma join_children_from (v : string) (cs : list tree) :
  truthy v = true ->
  join_children v cs = String.concat " " (v :: map text_of cs).
Proof.
  revert v. induction cs as [|[i tx cs'] cs IH]; intros v Hv.
  - reflexivity.
  - unfold join_children in *. cbn [fold_left map text_of]. rewrite Hv.
    rewrite IH by (rewrite append_assoc; now apply truthy_append).
    cbn [String.concat].
    destruct (map text_of cs); now rewrite !append_assoc.
Qed.

Lemma join_children_spaces (cs : list tree) :
  join_children "" cs = String.concat " " (skip_empty (map text_of cs)).
Proof.
  induction cs as [|[i tx cs'] cs IH]; [reflexivity|].
  cbn [map text_of skip_empty].
  destruct (truthy tx) eqn:E.
  - unfold join_children. cbn [fold_left truthy]. cbn [append].
    now apply join_children_from.
  - destruct tx; [|discriminate]. exact IH.
Qed.

Definition two_lines_value_state : state :=
  Eval vm_compute in
    match parse_lines ["m ="; "  x"; "  y"] empty with
    | Ok (_, st) => st
    | Raise _ => empty
    end.

(** C6, as the code has it: a line that the pattern splits at an [=]
    with nothing after it makes a bag without children and bases, filed
    with the parent, whose value is the texts of the direct children of
    the line in the shape tree, in their order, with a single space
    between them, the empty texts that lead them left out; no bag is made
    for a nested line; in particular the lines [m =], [x], [y] give a root
    with the one child [m] of value [x y]. *)
Theorem multiline_value_joins_direct_children :
  (forall cs,
     join_children "" cs = String.concat " " (skip_empty (map text_of cs)))
  /\ (forall i text cs parent ps holder hs st m n,
        rmatch LINE_REGEX_PATTERN text = Some m -> group "name" m = Some n ->
        wf st -> valid st (parent :: ps) -> valid st (holder :: hs) ->
        let l := line_of m n (List.length (flat (heap st) parent)) in
        has_equals l = true -> has_value l = false ->
        exists st',
          declare (IndentationTree.Node i text cs) (parent :: ps)
            (holder :: hs) st
          = Ok (None, st')
          /\ nth_error (heap st') (List.length (heap st))
             = Some (mk (name l) (join_children "" cs) [] [])
          /\ dict_get (name l) (children_of (heap st') parent)
             = Some (List.length (heap st))
          /\ List.length (heap st') = S (List.length (heap st)))
  /\ (parse_lines ["m ="; "  x"; "  y"] empty = Ok (0, two_lines_value_state)
      /\ children_of (heap two_lines_value_state) 0 = [("m", 2)]
      /\ nth_error (heap two_lines_value_state) 2 = Some (mk "m" "x y" [] [])
      /\ List.length (heap two_lines_value_state) = 3).
Proof.
  split; [exact join_children_spaces|split].
  - intros i text cs parent ps holder hs st m n Hm Hn Hwf Hp Ha l He Hv.
    destruct (declare_spec i text cs parent ps holder hs st m n Hm Hn Hwf Hp Ha)
      as (found & st1 & st' & Hrun & Hfound & _ & Hh & Hlen & _).
    fold l in Hrun, Hfound, Hh. rewrite He in Hrun, Hfound, Hh.
    destruct Hfound as [-> ->].
    assert (Hvalue : text_value l cs = join_children "" cs).
    { unfold text_value. rewrite Hv. f_equal.
      unfold l, line_of in *. cbn [value has_value] in *. now rewrite Hv. }
    rewrite Hvalue in Hh.
    assert (Hparent : parent < List.length (heap st)) by (now inversion Hp).
    exists st'. split; [exact Hrun|]. split; [|split; [|exact Hlen]].
    + rewrite Hh. now apply nth_error_declared_new.
    + rewrite Hh, children_of_declared by assumption.
      rewrite Nat.eqb_refl, dict_get_set. now rewrite String.eqb_refl.
  - repeat split; vm_compute; reflexivity.
Qed.

Definition value_m : captures :=
  Eval vm_compute in
    match rmatch LINE_REGEX_PATTERN "m =" with
    | Some m => m
    | None => []
    end.

Lemma multiline_value_joins_direct_children_witness :
  exists st',
    declare
      (IndentationTree.Node 0 "m ="
         [IndentationTree.Node 1 "x" []; IndentationTree.Node 1 "y" []])
      [0] [1] before_lines
    = Ok (None, st')
    /\ nth_error (heap st') 2 = Some (mk "m" "x y" [] [])
    /\ dict_get "m" (children_of (heap st') 0) = Some 2.
Proof.
  destruct (proj1 (proj2 multiline_value_joins_direct_children) 0%Z "m ="
              [IndentationTree.Node 1 "x" []; IndentationTree.Node 1 "y" []]
              0 [] 1 [] before_lines value_m "m ")
    as (st' & Hrun & Hnew & Hget & _).
  - vm_compute. reflexivity.
  - vm_compute. reflexivity.
  - apply wfb_sound. vm_compute. reflexivity.
  - repeat constructor.
  - repeat constructor.
  - vm_compute. reflexivity.
  - vm_compute. reflexivity.
  - exists st'. split; [exact Hrun|]. split; [exact Hnew|exact Hget].
Defined.

(** The lines of a value with a line nested under one of its lines, and
    of a declaration that ends in [=] after an inheritance clause. *)
Definition nested_fragment : list string :=
  ["m ="; "  x"; "    y"; "  z"].

Definition nested_fragment_state : state :=
  Eval vm_compute in
    match parse_lines nested_fragment empty with
    | Ok (_, st) => st
    | Raise _ => empty
    end.

Definition clause_then_equals : list string := ["a :: b ="; "  x"; "  y"].

Definition clause_then_equals_state : state :=
  Eval vm_compute in
    match parse_lines clause_then_equals empty with
    | Ok (_, st) => st
    | Raise _ => empty
    end.

(** C6, as the claim has it, fails: a line nested under a line of the
    value is no part of the value; and a line that ends in [=] after a
    [::] is a collection declaration, whose nested lines become bags. *)
Lemma nested_fragment_is_dropped :
  (parse_lines nested_fragment empty = Ok (0, nested_fragment_state)
   /\ nth_error (heap nested_fragment_state) 2 = Some (mk "m" "x z" [] []))
  /\ (parse_lines clause_then_equals empty
      = Ok (0, clause_then_equals_state)
      /\ nth_error (heap clause_then_equals_state) 2
         = Some (mk "a" "" [] [("x", 4); ("y", 6)])
      /\ warnings clause_then_equals_state = [could_not_find "b =" "a"]).
Proof. repeat split; vm_compute; reflexivity. Qed.

End ParserFacts.

(** ** Reading and changing a bag *)
Module BagFacts.
Import PropertyBag PropertyBagFacts StateFacts ParserFacts.

(** *** Storing under a key *)
Section DictSet.
Context {V : Type}.

Lemma dict_set_twice (k : string) (v w : V) (d : dict V) :
  dict_set k v (dict_set k w d) = dict_set k v d.
Proof.
  induction d as [|[k0 v0] d IH]; cbn.
  - now rewrite String.eqb_refl.
  - destruct (String.eqb_spec k0 k) as [->|Hne]; cbn.
    + now rewrite String.eqb_refl.
    + destruct (String.eqb_spec k0 k); [congruence|]. now rewrite IH.
Qed.

Lemma dict_mem_set (n k : string) (v : V) (d : dict V) :
  dict_mem n (dict_set k v d) = String.eqb k n || dict_mem n d.
Proof.
  unfold dict_mem. rewrite dict_get_set.
  now destruct (String.eqb k n), (dict_get n d).
Qed.

(** Two stores under different keys, one of which the dictionary holds,
    can be made in either order. *)
Lemma dict_set_swap (k k' : string) (v v' : V) (d : dict V) :
  k <> k' -> dict_mem k d = true ->
  dict_set k' v' (dict_set k v d) = dict_set k v (dict_set k' v' d).
Proof.
  intros Hne. unfold dict_mem.
  induction d as [|[k0 v0] d IH]; cbn; [discriminate|].
  destruct (String.eqb_spec k0 k) as [->|H0].
  - intros _. cbn. destruct (String.eqb_spec k k'); [congruence|]. cbn.
    now rewrite String.eqb_refl.
  - intros Hm. destruct (String.eqb_spec k0 k') as [->|H1]; cbn.
    + rewrite String.eqb_refl. now destruct (String.eqb_spec k' k); [congruence|].
    + destruct (String.eqb_spec k0 k'); [congruence|].
      destruct (String.eqb_spec k0 k); [congruence|].
      now rewrite IH.
Qed.

Lemma overlay_set_present (n : string) (v : V) (items d : dict V) :
  ~ In n (map fst items) -> dict_mem n d = true ->
  dict_update (dict_set n v d) items = dict_set n v (dict_update d items).
Proof.
  unfold dict_update. revert d.
  induction items as [|[k w] items IH]; intros d Hnot Hm; cbn; [reflexivity|].
  cbn in Hnot.
  assert (Hk : n <> k) by (intros ->; apply Hnot; now left).
  rewrite (dict_set_swap n k v w d Hk Hm).
  apply IH; [intros H; apply Hnot; now right|].
  rewrite dict_mem_set, Hm. apply orb_true_r.
Qed.

(** Overlaying a dictionary in which a key was stored is storing the key
    in the overlay. *)
Lemma dict_update_set (n : string) (v : V) (p items : dict V) :
  dict_ok items ->
  dict_update p (dict_set n v items) = dict_set n v (dict_update p items).
Proof.
  unfold dict_ok. revert p.
  induction items as [|[k w] items IH]; intros p Hok; [reflexivity|].
  inversion Hok as [|? ? Hnot Hok']; subst. cbn [dict_set].
  destruct (String.eqb_spec k n) as [->|Hne].
  - change (dict_update (dict_set n v p) items
            = dict_set n v (dict_update (dict_set n w p) items)).
    rewrite <- (overlay_set_present n v items (dict_set n w p)).
    + now rewrite dict_set_twice.
    + exact Hnot.
    + rewrite dict_mem_set, String.eqb_refl. reflexivity.
  - change (dict_update (dict_set k w p) (dict_set n v items)
            = dict_set n v (dict_update (dict_set k w p) items)).
    now apply IH.
Qed.

Lemma dict_set_length (k : string) (v : V) (d : dict V) :
  List.length (dict_set k v d) =
  if dict_mem k d then List.length d else S (List.length d).
Proof.
  unfold dict_mem. induction d as [|[k0 v0] d IH]; cbn; [reflexivity|].
  destruct (String.eqb_spec k0 k) as [->|Hne]; cbn; [reflexivity|].
  rewrite IH. now destruct (dict_get k d).
Qed.

End DictSet.

Lemma last_entry_ext (n : string) (f g : ref -> dict ref) (bs : list ref) :
  (forall x, In x bs -> dict_get n (f x) = dict_get n (g x)) ->
  last_entry n (map f bs) = last_entry n (map g bs).
Proof.
  induction bs as [|x bs IH]; intros H; cbn; [reflexivity|].
  rewrite IH by (intros y Hy; apply H; now right).
  rewrite (H x) by now left. reflexivity.
Qed.

(** *** The bags after [add] *)
Section Added.
Variables (h : list t) (self prop : ref) (b : t) (n : string).
Hypothesis Hwf : bases_older h.
Hypothesis Hok : children_ok h.
Hypothesis Eb : nth_error h self = Some b.

Let h' : list t := set_children self (dict_set n prop (children b)) h.

Lemma added_bases_older : bases_older h'.
Proof.
  intros r b' E. unfold h' in E.
  rewrite (nth_error_set_children _ _ _ _ _ Eb) in E.
  destruct (Nat.eqb_spec r self) as [->|Hne].
  - inversion E; subst. cbn. now apply Hwf.
  - now apply Hwf.
Qed.

Lemma added_children_ok : children_ok h'.
Proof.
  intros r b' E. unfold h' in E.
  rewrite (nth_error_set_children _ _ _ _ _ Eb) in E.
  destruct (Nat.eqb_spec r self) as [->|Hne].
  - inversion E; subst. cbn. apply dict_ok_set. now apply (Hok self).
  - now apply (Hok r).
Qed.

Lemma added_length : List.length h' = List.length h.
Proof. apply set_children_length. Qed.

(** A bag that was built before [self] does not inherit from it. *)
Lemma flat_added_below (r : ref) : r < self -> flat h' r = flat h r.
Proof.
  induction r as [r IH] using lt_wf_ind. intros Hr.
  assert (Hself : self < List.length h) by (apply nth_error_Some; congruence).
  destruct (nth_error h r) as [b0|] eqn:E;
    [|apply nth_error_None in E; lia].
  assert (E' : nth_error h' r = Some b0).
  { unfold h'. rewrite (nth_error_set_children _ _ _ _ _ Eb).
    destruct (Nat.eqb_spec r self); [lia|exact E]. }
  rewrite (flat_eq _ _ _ added_bases_older E'), (flat_eq _ _ _ Hwf E).
  f_equal. f_equal. apply map_ext_in. intros y Hy.
  pose proof (Hwf _ _ E) as Hb. rewrite Forall_forall in Hb.
  specialize (Hb _ Hy). apply IH; lia.
Qed.

Lemma flat_added_self : flat h' self = dict_set n prop (flat h self).
Proof.
  assert (E' : nth_error h' self
               = Some (mk (name b) (value b) (bases b)
                         (dict_set n prop (children b)))).
  { unfold h'. rewrite (nth_error_set_children _ _ _ _ _ Eb).
    now rewrite Nat.eqb_refl. }
  rewrite (flat_eq _ _ _ added_bases_older E'), (flat_eq _ _ _ Hwf Eb).
  cbn [bases children].
  replace (map (flat h') (bases b)) with (map (flat h) (bases b)).
  - apply dict_update_set. now apply (Hok self).
  - apply map_ext_in. intros y Hy. symmetry. apply flat_added_below.
    pose proof (Hwf _ _ Eb) as Hb. rewrite Forall_forall in Hb. now apply Hb.
Qed.

Lemma flat_out_of_range (g : list t) (r : ref) :
  List.length g <= r -> flat g r = [].
Proof.
  intros Hr. unfold flat. cbn [flatten_properties].
  now rewrite (proj2 (nth_error_None g r) Hr).
Qed.

(** What any bag holds under another name is what it held. *)
Lemma flat_added_other (item : string) :
  item <> n ->
  forall r, dict_get item (flat h' r) = dict_get item (flat h r).
Proof.
  intros Hne r. induction r as [r IH] using lt_wf_ind.
  destruct (nth_error h r) as [b0|] eqn:E.
  - assert (E' : exists b1,
        nth_error h' r = Some b1 /\ bases b1 = bases b0
        /\ dict_get item (children b1) = dict_get item (children b0)).
    { unfold h'. rewrite (nth_error_set_children _ _ _ _ _ Eb).
      destruct (Nat.eqb_spec r self) as [->|Hr].
      - eexists. split; [reflexivity|]. cbn.
        rewrite E in Eb. inversion Eb; subst. split; [reflexivity|].
        rewrite dict_get_set.
        destruct (String.eqb_spec n item); [congruence|reflexivity].
      - exists b0. now split. }
    destruct E' as (b1 & E1 & Hb1 & Hc1).
    rewrite (flat_get _ _ _ item added_bases_older E1 (added_children_ok _ _ E1)).
    rewrite (flat_get _ _ _ item Hwf E (Hok _ _ E)).
    rewrite Hc1, Hb1. destruct (dict_get item (children b0)); [reflexivity|].
    apply last_entry_ext. intros x Hx. apply IH.
    pose proof (Hwf _ _ E) as Hb. rewrite Forall_forall in Hb. now apply Hb.
  - apply nth_error_None in E.
    rewrite !flat_out_of_range; [reflexivity|exact E|].
    now rewrite added_length.
Qed.

End Added.

(** A bag [derived] that inherits from [base], which holds [x] and [y],
    and a second bag of the name [y], which no bag holds; the result is
    [derived]. *)
Definition derived_of_base : M state ref :=
  (base <- new "base" "" [] ;;
   x <- new "x" "1" [] ;; add base x ;;;
   y <- new "y" "2" [] ;; add base y ;;;
   new "y" "3" [] ;;;
   new "derived" "" [base])%call.

Definition derived_state : state :=
  Eval vm_compute in
    match derived_of_base empty with Ok (_, st) => st | Raise _ => empty end.

(** [add] stores the bag under its name in the flattened view of the bag
    it is added to: in place when the view has the name, from the bag's own
    children or from a base, and at the end otherwise.  The views of the
    bags built before are as they were, and so is what any bag holds under
    another name. *)
Theorem add_stores_in_flattened_view (st : state) (self prop : ref)
    (b p : t) :
  bases_older (heap st) -> children_ok (heap st) ->
  nth_error (heap st) self = Some b -> nth_error (heap st) prop = Some p ->
  exists st',
    add self prop st = Ok (tt, st')
    /\ flat (heap st') self = dict_set (name p) prop (flat (heap st) self)
    /\ (forall r, r < self -> flat (heap st') r = flat (heap st) r)
    /\ (forall r item, item <> name p ->
          dict_get item (flat (heap st') r) = dict_get item (flat (heap st) r))
    /\ bases_older (heap st') /\ children_ok (heap st').
Proof.
  intros Hwf Hok Eb Ep. eexists. split; [exact (add_eq _ _ _ _ _ Eb Ep)|]. cbn [heap set_heap].
  split; [now apply flat_added_self|].
  split; [intros r Hr; now apply flat_added_below|].
  split; [intros r item Hne; now apply flat_added_other|].
  split; [now apply added_bases_older|now apply added_children_ok].
Qed.

Lemma add_stores_in_flattened_view_witness :
  exists st',
    add 4 3 derived_state = Ok (tt, st')
    /\ flat (heap st') 4 = [("x", 1); ("y", 3)]
    /\ flat (heap derived_state) 4 = [("x", 1); ("y", 2)].
Proof.
  destruct (add_stores_in_flattened_view derived_state 4 3
              (mk "derived" "" [0] []) (mk "y" "3" [] []))
    as (st' & Hrun & Hself & _).
  - apply bases_olderb_sound. vm_compute. reflexivity.
  - apply children_okb_sound. vm_compute. reflexivity.
  - reflexivity.
  - reflexivity.
  - exists st'. split; [exact Hrun|]. split; [|vm_compute; reflexivity].
    rewrite Hself. vm_compute. reflexivity.
Defined.

(** [count] after [add]: one more when the flattened view did not have
    the name, and the same when it had, whether from the bag's own children
    or from a base. *)
Theorem count_after_add (st : state) (self prop : ref) (b p : t) :
  bases_older (heap st) -> children_ok (heap st) ->
  nth_error (heap st) self = Some b -> nth_error (heap st) prop = Some p ->
  exists c st',
    count self st = Ok (c, st)
    /\ add self prop st = Ok (tt, st')
    /\ count self st'
       = Ok (if dict_mem (name p) (flat (heap st) self) then c else S c, st').
Proof.
  intros Hwf Hok Eb Ep.
  assert (Hself : self < List.length (heap st))
    by (apply nth_error_Some; congruence).
  exists (List.length (flat (heap st) self)). eexists.
  split; [|split; [exact (add_eq _ _ _ _ _ Eb Ep)|]].
  - unfold count, bind, ret. now rewrite flattened_flat.
  - unfold count, bind, ret. rewrite flattened_flat; cbn [heap set_heap].
    + rewrite (flat_added_self _ _ _ _ _ Hwf Hok Eb), dict_set_length.
      now destruct (dict_mem (name p) (flat (heap st) self)).
    + now apply added_bases_older.
    + now rewrite added_length.
Qed.

Lemma count_after_add_witness :
  exists c st',
    count 4 derived_state = Ok (c, derived_state)
    /\ add 4 3 derived_state = Ok (tt, st')
    /\ count 4 st' = Ok (c, st').
Proof.
  destruct (count_after_add derived_state 4 3
              (mk "derived" "" [0] []) (mk "y" "3" [] []))
    as (c & st' & Hc & Hrun & Hc').
  - apply bases_olderb_sound. vm_compute. reflexivity.
  - apply children_okb_sound. vm_compute. reflexivity.
  - reflexivity.
  - reflexivity.
  - exists c, st'. split; [exact Hc|]. split; [exact Hrun|exact Hc'].
Defined.

(** No cached answer is about the name [n]. *)
Definition unasked (st : state) (n : string) : Prop :=
  (forall k v, In (k, v) (contains_cache st) -> snd k <> n)
  /\ (forall k v, In (k, v) (getitem_cache st) -> snd k <> n).

(** [add] and the two reads: when the caches hold no stale answer and no
    answer about the name of the bag that is added, they hold no stale
    answer afterwards, the indexer returns the bag under its name and the
    membership test is true, also where a base had another bag under the
    name. *)
Theorem added_bag_is_found (st : state) (self prop : ref) (b p : t) :
  bases_older (heap st) -> children_ok (heap st) -> coherent st ->
  nth_error (heap st) self = Some b -> nth_error (heap st) prop = Some p ->
  unasked st (name p) ->
  exists st1 st2 st3,
    add self prop st = Ok (tt, st1)
    /\ coherent st1
    /\ __getitem__ self (name p) st1 = Ok (Some prop, st2)
    /\ __contains__ self (name p) st1 = Ok (true, st3).
Proof.
  intros Hwf Hok [Hc Hg] Eb Ep [Hnc Hng].
  assert (Hself : self < List.length (heap st))
    by (apply nth_error_Some; congruence).
  set (st1 := set_heap
                (set_children self (dict_set (name p) prop (children b))
                   (heap st)) st).
  assert (Hwf1 : bases_older (heap st1)) by (now apply added_bases_older).
  assert (Hok1 : children_ok (heap st1)) by (now apply added_children_ok).
  assert (Hlen1 : List.length (heap st1) = List.length (heap st))
    by (apply added_length).
  assert (Hother : forall item r, item <> name p ->
            dict_get item (flat (heap st1) r)
            = dict_get item (flat (heap st) r)).
  { intros item r Hne. subst st1. cbn [heap set_heap].
    now apply flat_added_other. }
  assert (Hco1 : coherent st1).
  { split.
    - intros k v Hin. destruct (Hc _ _ Hin) as [Hlt ->].
      split; [now rewrite Hlen1|].
      unfold dict_mem. now rewrite (Hother _ _ (Hnc _ _ Hin)).
    - intros k v Hin. destruct (Hg _ _ Hin) as [Hlt ->].
      split; [now rewrite Hlen1|].
      now rewrite (Hother _ _ (Hng _ _ Hin)). }
  assert (Hget : dict_get (name p) (flat (heap st1) self) = Some prop).
  { subst st1. cbn [heap set_heap].
    rewrite (flat_added_self _ _ _ _ _ Hwf Hok Eb), dict_get_set.
    now rewrite String.eqb_refl. }
  destruct (getitem_coherent (List.length (heap st1)) self (name p) st1
              Hwf1 Hok1 Hco1) as (st2 & Hrun2 & _); [lia|lia|].
  destruct (contains_coherent self (name p) st1 Hwf1 Hco1) as (st3 & Hrun3 & _);
    [lia|].
  exists st1, st2, st3. split; [exact (add_eq _ _ _ _ _ Eb Ep)|]. split; [exact Hco1|].
  split.
  - unfold __getitem__. now rewrite Hrun2, Hget.
  - rewrite Hrun3. unfold dict_mem. now rewrite Hget.
Qed.

Lemma added_bag_is_found_witness :
  exists st1 st2 st3,
    add 4 3 derived_state = Ok (tt, st1)
    /\ coherent st1
    /\ __getitem__ 4 "y" st1 = Ok (Some 3, st2)
    /\ __contains__ 4 "y" st1 = Ok (true, st3).
Proof.
  apply (added_bag_is_found derived_state 4 3
           (mk "derived" "" [0] []) (mk "y" "3" [] [])).
  - apply bases_olderb_sound. vm_compute. reflexivity.
  - apply children_okb_sound. vm_compute. reflexivity.
  - apply coherentb_sound. vm_compute. reflexivity.
  - reflexivity.
  - reflexivity.
  - split; intros k v [].
Defined.

(** *** [get], [getint] and [convert] *)

(** An entry of a flattened view is a bag of the heap, of that name. *)
Lemma flat_entry_bag (st : state) (r : ref) (n : string) (c : ref) :
  wf st -> r < List.length (heap st) ->
  dict_get n (flat (heap st) r) = Some c ->
  exists bag, nth_error (heap st) c = Some bag /\ name bag = n.
Proof.
  intros Hwf Hr Hget. apply dict_get_In in Hget.
  destruct (flat_entries _ (wf_bases _ Hwf) r _ Hr Hget) as (y & b & E & Hin).
  pose proof (wf_children _ Hwf _ _ _ _ E Hin) as Hn.
  unfold name_of in Hn. destruct (nth_error (heap st) c) as [bag|];
    [|discriminate].
  exists bag. split; [reflexivity|]. cbn in Hn. now inversion Hn.
Qed.

(** The value of the bag that the flattened view of [self] has under
    [n]. *)
Definition entry_value (h : list t) (self : ref) (n : string)
    : option string :=
  match dict_get n (flat h self) with
  | Some c => option_map value (nth_error h c)
  | None => None
  end.

Lemma entry_value_none (st : state) (self : ref) (n : string) :
  wf st -> self < List.length (heap st) ->
  entry_value (heap st) self n = None <->
  dict_get n (flat (heap st) self) = None.
Proof.
  intros Hwf Hself. unfold entry_value.
  destruct (dict_get n (flat (heap st) self)) as [c|] eqn:E;
    [|split; reflexivity].
  destruct (flat_entry_bag _ _ _ _ Hwf Hself E) as (bag & -> & _).
  split; discriminate.
Qed.

Lemma convert_coherent {A D : Type} (st : state) (self : ref) (n : string)
    (convertor : string -> A) (default : D) :
  wf st -> coherent st -> self < List.length (heap st) ->
  exists st',
    convert self n convertor default st
    = Ok (match entry_value (heap st) self n with
          | Some v => inl (convertor v)
          | None => inr default
          end, st')
    /\ same_bags st st' /\ coherent st'.
Proof.
  intros Hwf Hco Hself. unfold convert, bind.
  destruct (contains_coherent self n st (wf_bases _ Hwf) Hco Hself)
    as (st1 & Hrun1 & [Hh1 Hw1] & _ & Hco1).
  rewrite Hrun1. unfold dict_mem, entry_value.
  destruct (dict_get n (flat (heap st) self)) as [c|] eqn:E.
  - destruct (getitem_coherent (List.length (heap st1)) self n st1)
      as (st2 & Hrun2 & [Hh2 Hw2] & Hco2);
      try rewrite Hh1; try apply Hwf; auto.
    unfold __getitem__. rewrite Hrun2, Hh1, E.
    destruct (flat_entry_bag _ _ _ _ Hwf Hself E) as (bag & Ebag & _).
    unfold value_of_item. rewrite Hh2, Hh1, Ebag. cbn.
    exists st2. split; [reflexivity|]. split; [split; congruence|exact Hco2].
  - exists st1. split; [reflexivity|]. split; [now split|exact Hco1].
Qed.

(** A bag with the child [n] of value [12] and the state with it. *)
Definition one_number : M state ref :=
  (p <- new "p" "" [] ;;
   c <- new "n" "12" [] ;; add p c ;;;
   ret p)%call.

Definition one_number_state : state :=
  Eval vm_compute in
    match one_number empty with Ok (_, st) => st | Raise _ => empty end.

(** [get] in a state whose caches hold no stale answer: the value of the
    bag that the flattened view has under the name, from the bag's own
    children or from its bases, and [default] when the view has none; the
    bags stay as they are and the caches stay without stale answers. *)
Theorem get_reads_flattened_view {D : Type} (st : state) (self : ref)
    (n : string) (default : D) :
  wf st -> coherent st -> self < List.length (heap st) ->
  exists st',
    get self n default st
    = Ok (match entry_value (heap st) self n with
          | Some v => inl v
          | None => inr default
          end, st')
    /\ (entry_value (heap st) self n = None <->
        dict_get n (flat (heap st) self) = None)
    /\ same_bags st st' /\ coherent st'.
Proof.
  intros Hwf Hco Hself.
  destruct (convert_coherent st self n (fun v => v) default Hwf Hco Hself)
    as (st' & Hrun & Hsame & Hco').
  exists st'. split; [exact Hrun|].
  split; [now apply entry_value_none|]. now split.
Qed.

Lemma get_reads_flattened_view_witness :
  exists st',
    get 0 "n" false one_number_state = Ok (inl "12", st')
    /\ same_bags one_number_state st'.
Proof.
  destruct (get_reads_flattened_view one_number_state 0 "n" false)
    as (st' & Hrun & _ & Hsame & _).
  - apply wfb_sound. vm_compute. reflexivity.
  - apply coherentb_sound. vm_compute. reflexivity.
  - vm_compute. lia.
  - exists st'. split; [exact Hrun|exact Hsame].
Defined.

(** [convert] and [getint] in a state whose caches hold no stale answer:
    the outcome of the convertor, or of [int], on the value of the bag that
    the flattened view has under the name; when the view has none, the
    result is [default] and the convertor has no part in it. *)
Theorem convert_applies_to_flattened_value {A D : Type} (st : state)
    (self : ref) (n : string) (convertor : string -> A) (default : D) :
  wf st -> coherent st -> self < List.length (heap st) ->
  (exists st',
     convert self n convertor default st
     = Ok (match entry_value (heap st) self n with
           | Some v => inl (convertor v)
           | None => inr default
           end, st')
     /\ same_bags st st' /\ coherent st')
  /\ (exists st',
        getint convertor self n default st
        = Ok (match entry_value (heap st) self n with
              | Some v => inl (convertor v)
              | None => inr default
              end, st')
        /\ same_bags st st' /\ coherent st').
Proof.
  intros Hwf Hco Hself. split.
  - now apply convert_coherent.
  - exact (convert_coherent st self n convertor default Hwf Hco Hself).
Qed.

Lemma convert_applies_to_flattened_value_witness :
  exists st',
    convert 0 "n" String.length 0 one_number_state = Ok (inl 2, st')
    /\ same_bags one_number_state st'.
Proof.
  destruct (proj1 (convert_applies_to_flattened_value one_number_state 0 "n"
                     String.length 0
                     ltac:(apply wfb_sound; vm_compute; reflexivity)
                     ltac:(apply coherentb_sound; vm_compute; reflexivity)
                     ltac:(vm_compute; lia)))
    as (st' & Hrun & Hsame & _).
  exists st'. split; [exact Hrun|exact Hsame].
Defined.

(** *** [get] after a stale answer of the indexer *)

(** The membership tests that a call caches are about bags for which
    [bound] holds. *)
Definition asks (bound : nat -> Prop) (st st' : state) : Prop :=
  heap st' = heap st
  /\ forall e, In e (contains_cache st') ->
       In e (contains_cache st) \/ bound (fst (fst e)).

Lemma contains_asks (self : ref) (item : string) (st st' : state) (v : bool) :
  __contains__ self item st = Ok (v, st') ->
  asks (fun r => r = self) st st'.
Proof.
  rewrite contains_unfold.
  destruct (lru_find (self, item) (contains_cache st)).
  - intros H. inversion H. split; [reflexivity|]. cbn. intros e He.
    apply In_lru_hit in He as [->|He]; [now right|now left].
  - destruct (flatten_properties _ _ self); [|discriminate].
    intros H. inversion H. split; [reflexivity|]. cbn. intros e He.
    apply In_lru_store in He as [->|He]; [now right|now left].
Qed.

(** A call of the indexer asks the bags behind the bases of its bag, and
    not the bag. *)
Lemma getitem_asks (fuel : nat) :
  forall (x : ref) (item : string) (st st' : state) (v : option ref),
    bases_older (heap st) ->
    getitem fuel (x, item) st = Ok (v, st') ->
    asks (fun r => r < x) st st'.
Proof.
  induction fuel as [|fuel IH]; intros x item st st' v Hwf;
    rewrite getitem_unfold; unfold lru_cache;
    destruct (lru_find (x, item) (getitem_cache st)) as [w|] eqn:E.
  - intros H. inversion H. split; [reflexivity|]. now left.
  - discriminate.
  - intros H. inversion H. split; [reflexivity|]. now left.
  - destruct (getitem_body (S fuel) (x, item) st) as [[v1 st1]|] eqn:Eb;
      [|discriminate].
    assert (Hbody : asks (fun r => r < x) st st1).
    { revert Eb. unfold getitem_body. cbn [fst snd].
      destruct (nth_error (heap st) x) as [b|] eqn:Ex; [|discriminate].
      destruct (dict_get item (children b)).
      - intros H. inversion H. split; [reflexivity|now left].
      - assert (Hbs : Forall (fun y => y < x) (rev (bases b)))
          by (apply Forall_rev; exact (Hwf _ _ Ex)).
        clear Ex E. revert st Hwf.
        induction Hbs as [|y bs Hy _ IHbs]; intros st Hwf.
        + cbn. unfold ret. intros H. inversion H.
          split; [reflexivity|now left].
        + cbn [from_bases]. unfold bind.
          destruct (__contains__ y item st) as [[found st2]|] eqn:Ec;
            [|discriminate].
          destruct (contains_asks _ _ _ _ _ Ec) as [Hh2 He2].
          assert (Hwf2 : bases_older (heap st2)) by (now rewrite Hh2).
          destruct found; intros H.
          * destruct (IH y item st2 st1 v1 Hwf2 H) as [Hh1 He1].
            split; [congruence|]. intros e He.
            destruct (He1 e He) as [H1|H1]; [|right; lia].
            destruct (He2 e H1) as [H3|H3]; [now left|right; lia].
          * destruct (IHbs st2 Hwf2 H) as [Hh1 He1].
            split; [congruence|]. intros e He.
            destruct (He1 e He) as [H1|H1]; [|now right].
            destruct (He2 e H1) as [H3|H3]; [now left|right; lia]. }
    destruct Hbody as [Hh He].
    destruct (lru_find (x, item) (getitem_cache st1)); intros H;
      inversion H; subst; split; auto.
Qed.

(** A bag that is asked for [x] by the indexer before [x] is added. *)
Definition indexed_then_added : M state ref :=
  (p <- new "p" "" [] ;;
   x <- new "x" "1" [] ;;
   __getitem__ p "x" ;;;
   ret p)%call.

Definition indexed_state : state :=
  Eval vm_compute in
    match indexed_then_added empty with Ok (_, st) => st | Raise _ => empty end.

(** [get] after a stale answer of the indexer: when the indexer has
    returned [None] for a name, the membership test has no cached answer
    for it, and a bag of that name is added, [get] raises the
    [AttributeError] of [None.value]: the membership test is evaluated on
    the bag as it is, and the indexer answers from its cache. *)
Theorem get_raises_after_stale_index {D : Type} (st st1 st2 : state)
    (self c : ref) (n : string) (default : D) :
  wf st -> self < List.length (heap st) ->
  lru_find (self, n) (contains_cache st) = None ->
  __getitem__ self n st = Ok (None, st1) ->
  name_of (heap st) c = Some n ->
  add self c st1 = Ok (tt, st2) ->
  get self n default st2 = Raise AttributeError.
Proof.
  intros Hwf Hself Hnone Hrun Hc Hadd.
  pose proof (getitem_cached_after _ _ _ _ _ _ (wf_bases _ Hwf) Hrun) as Hcached.
  destruct (getitem_asks _ _ _ _ _ _ (wf_bases _ Hwf) Hrun) as [Hh1 Hasks].
  assert (Hnone1 : lru_find (self, n) (contains_cache st1) = None).
  { apply lru_find_None. intros v Hin.
    destruct (Hasks _ Hin) as [Hold|Hlt]; [|cbn in Hlt; lia].
    rewrite lru_find_None in Hnone. now apply (Hnone v). }
  destruct (nth_error (heap st) self) as [b|] eqn:Eb;
    [|apply nth_error_None in Eb; lia].
  unfold name_of in Hc.
  destruct (nth_error (heap st) c) as [p|] eqn:Ep; [|discriminate].
  cbn in Hc. assert (Hn : name p = n) by congruence. subst n. clear Hc.
  rewrite <- Hh1 in Eb, Ep.
  rewrite (add_eq _ _ _ _ _ Eb Ep) in Hadd. inversion Hadd as [Hst2].
  rewrite Hh1 in Eb, Ep.
  subst st2.
  set (h2 := set_children self (dict_set (name p) c (children b)) (heap st1)).
  assert (Hwf2 : bases_older h2).
  { unfold h2. rewrite Hh1. apply added_bases_older; [apply Hwf|exact Eb]. }
  assert (Hlen2 : List.length h2 = List.length (heap st)).
  { unfold h2. rewrite Hh1. apply added_length. }
  assert (Hflat : dict_get (name p) (flat h2 self) = Some c).
  { unfold h2. rewrite Hh1.
    rewrite (flat_added_self _ _ _ _ _ (wf_bases _ Hwf) (wf_dicts _ Hwf) Eb).
    rewrite dict_get_set. now rewrite String.eqb_refl. }
  unfold get, bind. rewrite contains_unfold.
  cbn [contains_cache heap set_heap]. fold h2.
  rewrite Hnone1.
  rewrite (flatten_flat h2 self (List.length h2) Hwf2) by lia.
  unfold dict_mem. rewrite Hflat.
  unfold __getitem__. rewrite getitem_unfold. unfold lru_cache.
  cbn [getitem_cache set_contains_cache set_heap].
  rewrite Hcached. reflexivity.
Qed.

Lemma get_raises_after_stale_index_witness :
  get 0 "x" false
    (mkState [mk "p" "" [] [("x", 1)]; mk "x" "1" [] []] []
       [((0, "x"), None)] [])
  = Raise AttributeError.
Proof.
  apply (get_raises_after_stale_index
           (mkState [mk "p" "" [] []; mk "x" "1" [] []] [] [] [])
           indexed_state
           (mkState [mk "p" "" [] [("x", 1)]; mk "x" "1" [] []] []
              [((0, "x"), None)] [])
           0 1 "x" false).
  - apply wfb_sound. vm_compute. reflexivity.
  - vm_compute. lia.
  - reflexivity.
  - vm_compute. reflexivity.
  - reflexivity.
  - vm_compute. reflexivity.
Defined.

End BagFacts.

(** ** The line and comment patterns *)
Module LineFacts.
Import Regex RegexFacts IndentationTree IndentationTreeFacts.
Import PropertyBag PropertyBagFacts StateFacts PropertyBagParser ParserFacts.

(** *** Lazy runs *)

Lemma run_star_lazy_chr (cls : ascii -> bool) (s : string) (caps : captures)
    (k : string -> captures -> option captures) :
  run (Star false (Chr cls)) s caps k =
  match k s caps with
  | Some c => Some c
  | None =>
      match s with
      | String a s' =>
          if cls a then run (Star false (Chr cls)) s' caps k else None
      | EmptyString => None
      end
  end.
Proof.
  destruct s as [|a s'].
  - cbn. now destruct (k "" caps).
  - cbn [run String.length rounds].
    destruct (k (String a s') caps); [reflexivity|].
    destruct (cls a); [|reflexivity].
    assert (Hlt : (String.length s' <? S (String.length s'))%nat = true)
      by (apply Nat.ltb_lt; lia).
    now rewrite Hlt.
Qed.

(** A lazy run of [.] stops where what follows first matches, at the
    latest where the characters that [.] matches end. *)
Lemma lazy_run_reaches (s : string) (caps : captures)
    (k : string -> captures -> option captures) :
  k (skip dot s) caps <> None ->
  run (Star false (Chr dot)) s caps k <> None.
Proof.
  induction s as [|a s IH]; intros Hk; rewrite run_star_lazy_chr.
  - cbn in Hk. now destruct (k "" caps).
  - cbn [skip] in Hk. destruct (k (String a s) caps) eqn:E; [discriminate|].
    destruct (dot a); [now apply IH|congruence].
Qed.

(** *** What a match takes from the string *)

(** Every class of the pattern is within [.]. *)
Fixpoint within_dot (r : re) : Prop :=
  match r with
  | Eps | Eol => True
  | Chr cls => forall a, cls a = true -> dot a = true
  | Cat r1 r2 | Alt r1 r2 => within_dot r1 /\ within_dot r2
  | Star _ r1 | Grp _ r1 => within_dot r1
  end.

Lemma lf_free_app (s1 s2 : string) :
  lf_free (s1 ++ s2) = lf_free s1 && lf_free s2.
Proof.
  induction s1 as [|a s1 IH]; cbn; [reflexivity|].
  now rewrite IH, andb_assoc.
Qed.

Lemma string_app_nil (s : string) : (s ++ "")%string = s.
Proof. induction s as [|a s IH]; cbn; [reflexivity|now rewrite IH]. Qed.

(** A match of such a pattern takes characters without a line feed. *)
Lemma run_takes (r : re) :
  within_dot r ->
  forall (s : string) (caps m : captures)
         (k : string -> captures -> option captures),
    run r s caps k = Some m ->
    exists pre s' caps',
      s = (pre ++ s')%string /\ lf_free pre = true /\ k s' caps' = Some m.
Proof.
  induction r as [|cls|r1 IH1 r2 IH2|r1 IH1 r2 IH2|greedy r1 IH1|g r1 IH1|];
    intros Hr s caps m k H.
  - exists "", s, caps. now repeat split.
  - cbn in H. destruct s as [|a s']; [discriminate|].
    destruct (cls a) eqn:Ea; [|discriminate].
    exists (String a ""), s', caps. cbn. rewrite (Hr a Ea). now repeat split.
  - destruct Hr as [Hr1 Hr2]. rewrite run_cat in H.
    apply (IH1 Hr1) in H as (p1 & s1 & c1 & -> & Hp1 & H).
    apply (IH2 Hr2) in H as (p2 & s2 & c2 & -> & Hp2 & H).
    exists (p1 ++ p2)%string, s2, c2.
    rewrite append_assoc, lf_free_app, Hp1, Hp2. now repeat split.
  - destruct Hr as [Hr1 Hr2]. cbn [run] in H.
    destruct (run r1 s caps k) eqn:E.
    + inversion H; subst. now apply (IH1 Hr1) in E.
    + now apply (IH2 Hr2) in H.
  - cbn [run] in H. cbn in Hr. revert H. generalize (String.length s).
    intros n. revert s caps. induction n as [|n IHn]; intros s caps H.
    + exists "", s, caps. now repeat split.
    + assert (Hmore :
        run r1 s caps
          (fun s1 c1 =>
             if (String.length s1 <? String.length s)%nat
             then rounds (run r1) greedy k n s1 c1 else None) = Some m ->
        exists pre s' caps',
          s = (pre ++ s')%string /\ lf_free pre = true /\ k s' caps' = Some m).
      { intros Hm. apply (IH1 Hr) in Hm as (p1 & s1 & c1 & -> & Hp1 & Hm).
        destruct (String.length s1 <? String.length (p1 ++ s1))%nat;
          [|discriminate].
        apply IHn in Hm as (p2 & s2 & c2 & -> & Hp2 & Hm).
        exists (p1 ++ p2)%string, s2, c2.
        rewrite append_assoc, lf_free_app, Hp1, Hp2. now repeat split. }
      cbn [rounds] in H. cbv zeta in H. destruct greedy.
      * match type of H with
        | match ?x with _ => _ end = _ => destruct x eqn:E
        end.
        -- inversion H; subst. now apply Hmore.
        -- exists "", s, caps. now repeat split.
      * destruct (k s caps) eqn:E.
        -- inversion H; subst. exists "", s, caps. now repeat split.
        -- now apply Hmore.
  - rewrite run_grp in H. cbn in Hr.
    apply (IH1 Hr) in H as (p1 & s1 & c1 & -> & Hp1 & H).
    eexists p1, s1, _. split; [reflexivity|]. split; [exact Hp1|exact H].
  - rewrite run_eol in H. destruct (at_eol s); [|discriminate].
    exists "", s, caps. now repeat split.
Qed.

Lemma skip_dot_app (pre s : string) :
  lf_free pre = true -> skip dot (pre ++ s) = skip dot s.
Proof.
  induction pre as [|a pre IH]; cbn; [reflexivity|].
  intros H. apply andb_prop in H as [Ha Hp]. rewrite Ha. auto.
Qed.

Lemma at_eol_skip (s : string) : at_eol s = true -> skip dot s = s.
Proof.
  destruct s as [|a [|b s]]; cbn; try discriminate; [reflexivity|].
  intros H. apply Ascii.eqb_eq in H as ->. reflexivity.
Qed.

(** *** The line pattern *)

(** A line with a first character that is no line feed, and no line feed
    but one that ends it. *)
Definition one_line (s : string) : bool :=
  match s with
  | String a _ => dot a && at_eol (skip dot s)
  | EmptyString => false
  end.

Lemma within_dot_lit (c : ascii) :
  Ascii.eqb c LF = false -> forall a, lit c a = true -> dot a = true.
Proof.
  intros Hc a Ha. unfold lit in Ha. apply Ascii.eqb_eq in Ha as ->.
  unfold dot. now rewrite Hc.
Qed.

Lemma matched_one_line (s : string) : matched s = true -> one_line s = true.
Proof.
  unfold matched. destruct (rmatch LINE_REGEX_PATTERN s) as [m|] eqn:E;
    [intros _|discriminate].
  unfold rmatch, LINE_REGEX_PATTERN in E. rewrite run_cat in E.
  apply run_takes in E as (p1 & s1 & c1 & -> & Hp1 & E);
    [|cbn; repeat split; now apply within_dot_lit].
  rewrite run_cat, run_grp in E. unfold some_lazy in E. rewrite run_cat in E.
  cbn [run] in E. destruct s1 as [|a s1]; [discriminate|].
  destruct (dot a) eqn:Ea; [|discriminate].
  change (run (Star false (Chr dot)) s1 c1
            (fun s2 c2 =>
               run (Cat
                      (Alt (Cat (Grp "equals" (Chr (lit "=")))
                              (Opt (Grp "value" some_lazy)))
                         (Alt (Star true
                                 (Cat colons
                                    (Grp "inherits" (Star false (Chr dot)))))
                            Eps)) Eol) s2
                 (c2 ++ [("name",
                          substring 0
                            (String.length (String a s1) - String.length s2)
                            (String a s1))])
                 (fun _ c => Some c)) = Some m) in E.
  apply run_takes in E as (p2 & s2 & c2 & -> & Hp2 & E); [|exact (fun a H => H)].
  rewrite run_cat in E.
  apply run_takes in E as (p3 & s3 & c3 & -> & Hp3 & E);
    [|cbn; repeat split; auto; now apply within_dot_lit].
  rewrite run_eol in E. destruct (at_eol s3) eqn:E3; [|discriminate].
  assert (Hskip : skip dot (p1 ++ String a (p2 ++ p3 ++ s3)) = s3).
  { rewrite skip_dot_app by exact Hp1. cbn [skip]. rewrite Ea.
    rewrite skip_dot_app by exact Hp2. rewrite skip_dot_app by exact Hp3.
    now apply at_eol_skip. }
  unfold one_line. destruct p1 as [|b p1].
  - cbn [append]. cbn [append] in Hskip. now rewrite Ea, Hskip, E3.
  - cbn [append]. cbn [append] in Hskip. cbn in Hp1.
    apply andb_prop in Hp1 as [Hb _]. now rewrite Hb, Hskip, E3.
Qed.

Lemma one_line_matched (s : string) : one_line s = true -> matched s = true.
Proof.
  unfold one_line, matched. destruct s as [|a s]; [discriminate|].
  intros H. apply andb_prop in H as [Ha Heol]. cbn [skip] in Heol.
  rewrite Ha in Heol.
  assert (Hk : run (Cat (Grp "name" some_lazy)
                      (Cat
                         (Alt (Cat (Grp "equals" (Chr (lit "=")))
                                 (Opt (Grp "value" some_lazy)))
                            (Alt (Star true
                                    (Cat colons
                                       (Grp "inherits" (Star false (Chr dot)))))
                               Eps)) Eol)) (String a s) []
                 (fun _ c => Some c) <> None).
  { rewrite run_cat, run_grp. unfold some_lazy. rewrite run_cat.
    cbn [run]. rewrite Ha.
    apply lazy_run_reaches.
    destruct (skip dot s) as [|x [|y t]]; [| |discriminate].
    - cbn. discriminate.
    - cbn in Heol. apply Ascii.eqb_eq in Heol as ->. cbn. discriminate. }
  unfold rmatch, LINE_REGEX_PATTERN. rewrite run_cat. unfold Opt at 1.
  cbn [run].
  match goal with
  | |- match match ?x with _ => _ end with _ => _ end = true =>
      destruct x; [reflexivity|]
  end.
  match goal with
  | |- match ?x with _ => _ end = true =>
      destruct x eqn:E; [reflexivity|]
  end.
  exfalso. apply Hk. rewrite <- E. reflexivity.
Qed.

Lemma matched_is_one_line (s : string) : matched s = one_line s.
Proof.
  destruct (one_line s) eqn:E; [now apply one_line_matched|].
  destruct (matched s) eqn:E'; [|reflexivity].
  apply matched_one_line in E'. congruence.
Qed.

(** The line pattern matches a text exactly when the text is not empty
    and has no line feed but one that ends it; on any other text, the empty
    text of a blank line among them, the loop of [_parse_tree] raises the
    [TypeError] of subscripting [None], whatever the state and the
    stacks. *)
Theorem line_pattern_matches_one_line :
  (forall s, rmatch LINE_REGEX_PATTERN s <> None <-> one_line s = true)
  /\ (forall i text cs parent ps abstract_props st,
        one_line text = false ->
        declare (IndentationTree.Node i text cs) (parent :: ps)
          abstract_props st
        = Raise TypeError).
Proof.
  split.
  - intros s. rewrite <- matched_is_one_line. unfold matched.
    destruct (rmatch LINE_REGEX_PATTERN s); split; congruence.
  - intros i text cs parent ps abstract_props st H.
    rewrite <- matched_is_one_line in H. unfold matched in H.
    unfold declare, bind, read_line.
    destruct (rmatch LINE_REGEX_PATTERN text); [discriminate|reflexivity].
Qed.

Lemma line_pattern_matches_one_line_witness :
  declare (IndentationTree.Node 0 "" []) [0] [1] before_lines
  = Raise TypeError.
Proof.
  apply (proj2 line_pattern_matches_one_line 0%Z "" [] 0 [] [1] before_lines).
  reflexivity.
Defined.

(** [_get_line_content] returns the content of no line: the line pattern
    has no group [content], so the call raises [IndexError] on every line
    that the pattern matches, and returns the empty string on the others. *)
Theorem get_line_content_never_returns_content (line : string) :
  _get_line_content line
  = if one_line line then Raise IndexError else Ok (Some "").
Proof.
  rewrite <- matched_is_one_line. unfold _get_line_content, matched.
  destruct (rmatch LINE_REGEX_PATTERN line); reflexivity.
Qed.

(** *** The comment pattern *)

(** No line feed but one that ends the string. *)
Definition unbroken (s : string) : bool := at_eol (skip dot s).

Definition starts_comment (s : string) : bool :=
  match s with
  | String a (String b _) => lit "/" a && lit "/" b
  | _ => false
  end.

(** The characters before the first [//], and before a line feed. *)
Fixpoint before_comment (s : string) : string :=
  match s with
  | String a s' =>
      if starts_comment s then ""
      else if dot a then String a (before_comment s') else ""
  | EmptyString => ""
  end.

Fixpoint has_comment (s : string) : bool :=
  match s with
  | String a s' => starts_comment s || has_comment s'
  | EmptyString => false
  end.

Lemma length_string_app (s1 s2 : string) :
  String.length (s1 ++ s2) = String.length s1 + String.length s2.
Proof. induction s1 as [|a s1 IH]; cbn; [reflexivity|now rewrite IH]. Qed.

Lemma substring_prefix (pre s : string) :
  substring 0 (String.length (pre ++ s) - String.length s) (pre ++ s) = pre.
Proof.
  rewrite length_string_app, Nat.add_sub.
  induction pre as [|a pre IH]; cbn.
  - now destruct s.
  - now rewrite IH.
Qed.

(** What follows the group [content]: the optional group [comment], and
    [$]. *)
Definition after_content (s : string) (c : captures) : option captures :=
  run (Cat (Opt (Grp "comment" (Cat slashes (Star true (Chr dot))))) Eol)
    s c (fun _ c0 => Some c0).

Lemma run_alt (r1 r2 : re) (s : string) (caps : captures)
    (k : string -> captures -> option captures) :
  run (Alt r1 r2) s caps k =
  match run r1 s caps k with
  | Some c => Some c
  | None => run r2 s caps k
  end.
Proof. reflexivity. Qed.

Lemma run_chr (cls : ascii -> bool) (s : string) (caps : captures)
    (k : string -> captures -> option captures) :
  run (Chr cls) s caps k =
  match s with
  | String a s' => if cls a then k s' caps else None
  | EmptyString => None
  end.
Proof. reflexivity. Qed.

Lemma run_eps (s : string) (caps : captures)
    (k : string -> captures -> option captures) :
  run Eps s caps k = k s caps.
Proof. reflexivity. Qed.

Lemma after_content_spec (s : string) (c : captures) :
  unbroken s = true ->
  after_content s c =
  if starts_comment s
  then Some (c ++ [("comment",
                    substring 0 (String.length s - String.length (skip dot s)) s)])
  else if at_eol s then Some c else None.
Proof.
  unfold unbroken, after_content. intros Hs.
  rewrite run_cat. unfold Opt. rewrite run_alt, run_eps, run_eol.
  rewrite run_grp. unfold slashes. rewrite !run_cat, run_chr.
  destruct s as [|a [|b s]].
  - reflexivity.
  - cbn [starts_comment]. destruct (lit "/" a); [|reflexivity].
    now rewrite run_chr.
  - cbn [starts_comment]. destruct (lit "/" a) eqn:Ea; [|reflexivity].
    rewrite run_chr. destruct (lit "/" b) eqn:Eb; [|reflexivity].
    cbn [andb].
    assert (Hda : dot a = true) by (now apply (within_dot_lit "/")).
    assert (Hdb : dot b = true) by (now apply (within_dot_lit "/")).
    cbn [skip] in Hs |- *. rewrite Hda, Hdb in Hs |- *.
    rewrite run_star_greedy_skip; rewrite run_eol, Hs;
      [reflexivity|discriminate].
Qed.

Lemma comment_run (s : string) :
  forall pre : string,
    lf_free pre = true -> unbroken s = true ->
    exists more,
      run (Star false (Chr dot)) s []
        (fun s1 c1 =>
           after_content s1
             (c1 ++ [("content",
                      substring 0
                        (String.length (pre ++ s) - String.length s1)
                        (pre ++ s))]))
      = Some (("content", (pre ++ before_comment s)%string) :: more)
      /\ (more = [] \/ exists c, more = [("comment", c)]).
Proof.
  induction s as [|a s IH]; intros pre Hpre Hs; rewrite run_star_lazy_chr;
    rewrite substring_prefix, after_content_spec by exact Hs.
  - cbn. rewrite string_app_nil. exists []. split; [reflexivity|now left].
  - cbn [before_comment].
    destruct (starts_comment (String a s)) eqn:E.
    + rewrite string_app_nil. eexists. split; [reflexivity|].
      right. eexists. reflexivity.
    + destruct (at_eol (String a s)) eqn:Eeol.
      * destruct s as [|b s]; [|discriminate]. cbn in Eeol.
        apply Ascii.eqb_eq in Eeol as ->. cbn. rewrite string_app_nil.
        exists []. split; [reflexivity|now left].
      * destruct (dot a) eqn:Ea.
        -- unfold unbroken in Hs. cbn [skip] in Hs. rewrite Ea in Hs.
           destruct (IH (pre ++ String a "")%string) as (more & Hrun & Hmore).
           { rewrite lf_free_app, Hpre. cbn. now rewrite Ea. }
           { exact Hs. }
           rewrite !append_assoc in Hrun. cbn [append] in Hrun.
           exists more. split; [exact Hrun|exact Hmore].
        -- unfold unbroken in Hs. cbn [skip] in Hs. rewrite Ea in Hs.
           congruence.
Qed.

Lemma comment_content_spec (l : string) :
  comment_content l
  = if unbroken l then Ok (Some (before_comment l)) else Raise TypeError.
Proof.
  unfold comment_content. destruct (unbroken l) eqn:E.
  - destruct (comment_run l "" eq_refl E) as (more & Hrun & Hmore).
    cbn [append] in Hrun.
    assert (Hm : rmatch COMMENT_REGEX_PATTERN l
                 = Some (("content", before_comment l) :: more)).
    { rewrite <- Hrun. unfold rmatch, COMMENT_REGEX_PATTERN.
      rewrite run_cat, run_grp. reflexivity. }
    rewrite Hm. destruct Hmore as [->|(c & ->)]; reflexivity.
  - destruct (rmatch COMMENT_REGEX_PATTERN l) as [m|] eqn:Hm; [|reflexivity].
    exfalso. unfold rmatch, COMMENT_REGEX_PATTERN in Hm.
    rewrite run_cat in Hm.
    apply run_takes in Hm as (p1 & s1 & c1 & -> & Hp1 & Hm);
      [|exact (fun a H => H)].
    rewrite run_cat in Hm.
    apply run_takes in Hm as (p2 & s2 & c2 & -> & Hp2 & Hm);
      [|cbn; repeat split; auto; now apply within_dot_lit].
    rewrite run_eol in Hm. destruct (at_eol s2) eqn:E2; [|discriminate].
    unfold unbroken in E.
    rewrite !skip_dot_app, (at_eol_skip _ E2) in E by assumption.
    congruence.
Qed.

Lemma lf_free_unbroken (s : string) : lf_free s = true -> unbroken s = true.
Proof. intros H. unfold unbroken. now rewrite lf_free_skip_dot. Qed.

Lemma before_comment_head (s : string) (a : ascii) (t : string) :
  before_comment s = String a t -> exists s', s = String a s'.
Proof.
  destruct s as [|b s]; cbn [before_comment]; [discriminate|].
  destruct (starts_comment (String b s)); [discriminate|].
  destruct (dot b); [|discriminate].
  intros H. inversion H; subst. now exists s.
Qed.

Lemma before_comment_clean (s : string) :
  lf_free (before_comment s) = true
  /\ has_comment (before_comment s) = false.
Proof.
  induction s as [|a s [IH1 IH2]]; cbn [before_comment]; [now split|].
  destruct (starts_comment (String a s)) eqn:E; [now split|].
  destruct (dot a) eqn:Ea; [|now split].
  cbn [lf_free has_comment]. rewrite Ea, IH1, IH2. split; [reflexivity|].
  rewrite orb_false_r.
  destruct (before_comment s) as [|b t] eqn:Eb; [reflexivity|].
  apply before_comment_head in Eb as (s' & ->). exact E.
Qed.

Lemma before_comment_prefix (s : string) :
  exists rest, s = (before_comment s ++ rest)%string.
Proof.
  induction s as [|a s (rest & IH)]; cbn [before_comment]; [now exists ""|].
  destruct (starts_comment (String a s)); [now eexists|].
  destruct (dot a); [|now eexists].
  exists rest. cbn. now rewrite <- IH.
Qed.

Lemma before_comment_fixed (s : string) :
  lf_free s = true -> has_comment s = false -> before_comment s = s.
Proof.
  induction s as [|a s IH]; [reflexivity|].
  cbn [lf_free has_comment before_comment]. intros Hl Hc.
  apply andb_prop in Hl as [Ha Hl]. apply orb_false_elim in Hc as [Hs Hc].
  rewrite Hs, Ha, IH by assumption. reflexivity.
Qed.

Lemma strip_comments_cuts_at_slashes_aux :
  (forall lines,
     Forall (fun l => unbroken l = true) lines ->
     strip_comments lines = Ok (map (fun l => Some (before_comment l)) lines))
  /\ (forall done l rest,
        Forall (fun l => unbroken l = true) done -> unbroken l = false ->
        strip_comments (done ++ l :: rest) = Raise TypeError).
Proof.
  split.
  - intros lines H. unfold strip_comments.
    induction H as [|l lines Hl _ IH]; [reflexivity|].
    cbn [map_res map]. now rewrite comment_content_spec, Hl, IH.
  - intros done l rest H Hl. unfold strip_comments.
    induction H as [|l0 done Hl0 _ IH]; cbn [app map_res].
    + now rewrite comment_content_spec, Hl.
    + now rewrite comment_content_spec, Hl0, IH.
Qed.

(** [strip_comments] on lines without a line feed, but for one that ends
    the line: each line gives its characters before the first [//], without
    the line feed; the result has no [//] and no line feed, is the start of
    the line, and is what [strip_comments] makes of it again.  On a line
    with a line feed before its end the comment pattern fails, and the
    generator raises the [TypeError] of subscripting [None]. *)
Theorem strip_comments_cuts_at_slashes :
  (forall lines,
     Forall (fun l => unbroken l = true) lines ->
     strip_comments lines = Ok (map (fun l => Some (before_comment l)) lines))
  /\ (forall l,
        lf_free (before_comment l) = true
        /\ has_comment (before_comment l) = false
        /\ (exists rest, l = (before_comment l ++ rest)%string)
        /\ strip_comments [before_comment l] = Ok [Some (before_comment l)])
  /\ (forall done l rest,
        Forall (fun l => unbroken l = true) done -> unbroken l = false ->
        strip_comments (done ++ l :: rest) = Raise TypeError).
Proof.
  split; [|split].
  - apply strip_comments_cuts_at_slashes_aux.
  - intros l. destruct (before_comment_clean l) as [H1 H2].
    split; [exact H1|]. split; [exact H2|].
    split; [apply before_comment_prefix|].
    unfold strip_comments. cbn [map_res].
    rewrite comment_content_spec, (lf_free_unbroken _ H1).
    now rewrite (before_comment_fixed _ H1 H2).
  - apply strip_comments_cuts_at_slashes_aux.
Qed.

Lemma strip_comments_cuts_at_slashes_witness :
  strip_comments ["stuff before // comment // with comment"; "single / slash"]
  = Ok [Some "stuff before "; Some "single / slash"].
Proof.
  apply (proj1 strip_comments_cuts_at_slashes
           ["stuff before // comment // with comment"; "single / slash"]).
  repeat constructor.
Defined.

(** *** Blank lines *)

(** Every character is whitespace. *)
Fixpoint blank (s : string) : bool :=
  match s with
  | String a s' => isspace a && blank s'
  | EmptyString => true
  end.

Lemma lstrip_blank (s : string) : blank s = true -> lstrip s = "".
Proof.
  induction s as [|a s IH]; cbn; [reflexivity|].
  intros H. apply andb_prop in H as [Ha Hs]. rewrite Ha. auto.
Qed.

Lemma lstrip_not_blank (s : string) :
  blank s = false ->
  exists a t, lstrip s = String a t /\ isspace a = false.
Proof.
  induction s as [|a s IH]; cbn; [discriminate|].
  destruct (isspace a) eqn:Ea; cbn; [exact IH|].
  intros _. now exists a, s.
Qed.

Lemma rstrip_head (a : ascii) (t : string) :
  isspace a = false -> rstrip (String a t) <> "".
Proof.
  intros Ha. cbn. destruct (rstrip t); [now rewrite Ha|discriminate].
Qed.

Lemma strip_length (s : string) :
  (0 <? String.length (strip s))%nat = negb (blank s).
Proof.
  unfold strip. destruct (blank s) eqn:E.
  - now rewrite (lstrip_blank _ E).
  - destruct (lstrip_not_blank _ E) as (a & t & -> & Ha).
    pose proof (rstrip_head a t Ha) as Hne.
    destruct (rstrip (String a t)); [congruence|reflexivity].
Qed.

Lemma strip_empty_lines_filter (lines : list string) :
  strip_empty_lines lines = filter (fun l => negb (blank l)) lines.
Proof.
  unfold strip_empty_lines. apply filter_ext. intros l. apply strip_length.
Qed.

(** [strip_empty_lines] yields the lines that have a character that is
    not whitespace, as they are, with their leading and trailing
    whitespace, and in their order; a second pass changes nothing. *)
Theorem strip_empty_lines_drops_blank_lines :
  (forall lines l,
     In l (strip_empty_lines lines) <-> In l lines /\ blank l = false)
  /\ (forall before after,
        strip_empty_lines (before ++ after)
        = strip_empty_lines before ++ strip_empty_lines after)
  /\ (forall l,
        strip_empty_lines [l] = if blank l then [] else [l])
  /\ (forall lines,
        strip_empty_lines (strip_empty_lines lines) = strip_empty_lines lines).
Proof.
  split; [|split; [|split]].
  - intros lines l. rewrite strip_empty_lines_filter, filter_In.
    now rewrite negb_true_iff.
  - intros before after. rewrite !strip_empty_lines_filter.
    apply filter_app.
  - intros l. rewrite strip_empty_lines_filter. cbn.
    now destruct (blank l).
  - intros lines. rewrite !strip_empty_lines_filter.
    induction lines as [|l lines IH]; cbn; [reflexivity|].
    destruct (blank l) eqn:E; cbn; [exact IH|]. now rewrite E, IH.
Qed.

(** *** From lines to bags *)






End LineFacts.

(** ** The tree as a string and as a list of lines *)
Module TreeFacts.
Import Regex RegexFacts IndentationTree IndentationTreeFacts.
Import ParserFacts LineFacts.

(** *** [build_string] *)

(** The loop over the children. *)
Definition add_children (indent : string) (cs : list tree) (sb : string)
    : string :=
  fold_left (fun sb child => (sb ++ build_string child sb indent)%string)
    cs sb.

Lemma build_string_eq (i : Z) (tx : string) (cs : list tree)
    (sb indent : string) :
  build_string (Node i tx cs) sb indent =
  add_children indent cs
    (if (i >? -1)%Z then (sb ++ indent ++ tx)%string else sb).
Proof. reflexivity. Qed.

(** What was built stays at the start of what is returned. *)
Lemma build_string_keeps (t : tree) :
  forall sb indent,
    exists rest, build_string t sb indent = (sb ++ rest)%string.
Proof.
  revert t.
  apply (tree_induction
           (fun t => forall sb indent,
                       exists rest,
                         build_string t sb indent = (sb ++ rest)%string)).
  intros i tx cs IH sb indent.
  rewrite build_string_eq.
  assert (Hloop : forall sb0,
            exists rest, add_children indent cs sb0 = (sb0 ++ rest)%string).
  { induction IH as [|c cs Hc _ IHcs]; intros sb0.
    - exists "". cbn. now rewrite string_app_nil.
    - cbn [add_children fold_left].
      destruct (IHcs (sb0 ++ build_string c sb0 indent)%string) as (r & Hr).
      unfold add_children in Hr. rewrite Hr.
      eexists. now rewrite append_assoc. }
  destruct (i >? -1)%Z.
  - destruct (Hloop (sb ++ indent ++ tx)%string) as (r & ->).
    eexists. now rewrite append_assoc.
  - apply Hloop.
Qed.

Definition indent_of (t : tree) : Z :=
  match t with Node i _ _ => i end.

(** Below the root, a node adds to the string at least its text. *)
Lemma build_string_grows (t : tree) (sb indent : string) :
  (indent_of t > -1)%Z ->
  String.length sb + String.length (text_of t)
  <= String.length (build_string t sb indent).
Proof.
  destruct t as [i tx cs]. cbn [indent_of text_of]. intros Hi.
  rewrite build_string_eq.
  assert (Hgt : (i >? -1)%Z = true) by (apply Z.gtb_lt; lia).
  rewrite Hgt.
  assert (Hloop : forall sb0,
            String.length sb0 <= String.length (add_children indent cs sb0)).
  { induction cs as [|c cs IHcs]; intros sb0; [cbn; lia|].
    cbn [add_children fold_left].
    specialize (IHcs (sb0 ++ build_string c sb0 indent)%string).
    unfold add_children in IHcs. rewrite length_string_app in IHcs. lia. }
  specialize (Hloop (sb ++ indent ++ tx)%string).
  rewrite !length_string_app in Hloop. lia.
Qed.

Lemma add_children_doubles (indent : string) (cs : list tree) :
  Forall (fun c => (indent_of c > -1)%Z /\ text_of c <> "") cs ->
  forall sb,
    2 ^ List.length cs * (String.length sb + 1)
    <= String.length (add_children indent cs sb) + 1.
Proof.
  induction 1 as [|c cs [Hi Ht] _ IH]; intros sb.
  - cbn. lia.
  - cbn [add_children fold_left List.length].
    specialize (IH (sb ++ build_string c sb indent)%string).
    unfold add_children in IH. rewrite length_string_app in IH.
    pose proof (build_string_grows c sb indent Hi) as Hg.
    assert (Hne : 1 <= String.length (text_of c))
      by (destruct (text_of c); [congruence|cbn; lia]).
    rewrite Nat.pow_succ_r'.
    assert (H2 : 2 * (String.length sb + 1)
                 <= String.length sb
                    + String.length (build_string c sb indent) + 1) by lia.
    etransitivity; [|exact IH].
    rewrite <- Nat.mul_assoc, (Nat.mul_comm 2), <- Nat.mul_assoc.
    apply Nat.mul_le_mono_l. lia.
Qed.

(** A line without nested lines, after the indentation is normalized. *)
Definition leaf (tx : string) : tree := Node 0 tx [].

Lemma add_leaves (texts : list string) :
  forall sb,
    add_children "" (map leaf texts) sb
    = fold_left (fun sb t => (sb ++ sb ++ t)%string) texts sb.
Proof.
  induction texts as [|t texts IH]; intros sb; [reflexivity|].
  cbn [map add_children fold_left]. unfold add_children in IH.
  now rewrite <- IH.
Qed.

(** [__str__] does not give the lines back.  A node without children adds
    the indent given and its text to the string built so far; whatever a
    node adds comes after that string; but the loop over the children adds
    to the string what a child returns, which starts with that string
    again: for lines without nested lines, each line doubles what the lines
    before it have made and adds its text, and for any root with [k]
    children below it that have a text, the string has at least [2^k - 1]
    characters. *)
Theorem str_repeats_what_was_built :
  (forall i tx sb indent,
     (i > -1)%Z ->
     build_string (Node i tx []) sb indent = (sb ++ indent ++ tx)%string)
  /\ (forall t sb indent,
        exists rest, build_string t sb indent = (sb ++ rest)%string)
  /\ (forall tx texts,
        __str__ (Node (-1) tx (map leaf texts))
        = fold_left (fun sb t => (sb ++ sb ++ t)%string) texts "")
  /\ (forall tx cs,
        Forall (fun c => (indent_of c > -1)%Z /\ text_of c <> "") cs ->
        2 ^ List.length cs <= String.length (__str__ (Node (-1) tx cs)) + 1).
Proof.
  split; [|split; [|split]].
  - intros i tx sb indent Hi. rewrite build_string_eq.
    assert (Hgt : (i >? -1)%Z = true) by (apply Z.gtb_lt; lia).
    now rewrite Hgt.
  - intros t sb indent. apply build_string_keeps.
  - intros tx texts. unfold __str__. rewrite build_string_eq.
    change ((-1 >? -1)%Z) with false. cbv iota. apply add_leaves.
  - intros tx cs H. unfold __str__. rewrite build_string_eq.
    change ((-1 >? -1)%Z) with false. cbv iota.
    pose proof (add_children_doubles "" cs H "") as Hd.
    cbn [String.length] in Hd. lia.
Qed.

Lemma str_repeats_what_was_built_witness :
  build_string (Node 0 "b" []) "a" "" = "ab"
  /\ 2 ^ 3 <= String.length
                (__str__ (Node (-1) "" [leaf "a"; leaf "b"; leaf "c"])) + 1.
Proof.
  split.
  - apply (proj1 str_repeats_what_was_built 0%Z "b" "a" ""). lia.
  - apply (proj2 (proj2 (proj2 str_repeats_what_was_built)) ""
             [leaf "a"; leaf "b"; leaf "c"]).
    repeat constructor; cbn; (lia || discriminate).
Defined.

(** *** The lines of the tree *)

(** The texts of a node and of the nodes below it, a node before its
    children and the children in their order. *)
Fixpoint preorder (t : tree) : list string :=
  match t with
  | Node _ tx cs => tx :: flat_map preorder cs
  end.

(** The length of the longest run of numbers above [v] that [l] starts
    with. *)
Fixpoint run_above (v : Z) (l : list Z) : nat :=
  match l with
  | x :: l' => if (v <? x)%Z then S (run_above v l') else 0
  | [] => 0
  end.

Lemma run_above_le (v : Z) (l : list Z) : run_above v l <= List.length l.
Proof.
  induction l as [|x l IH]; cbn; [lia|]. destruct (v <? x)%Z; cbn; lia.
Qed.

Lemma run_above_inside (v : Z) (l : list Z) (i : nat) :
  i < run_above v l -> (v < nth i l 0)%Z.
Proof.
  revert i. induction l as [|x l IH]; intros i; cbn; [lia|].
  destruct (v <? x)%Z eqn:E; [|lia].
  destruct i as [|i]; [intros _; now apply Z.ltb_lt|].
  intros H. apply IH. lia.
Qed.

Lemma run_above_stop (v : Z) (l : list Z) :
  run_above v l < List.length l -> (nth (run_above v l) l 0 <= v)%Z.
Proof.
  induction l as [|x l IH]; cbn; [lia|].
  destruct (v <? x)%Z eqn:E.
  - intros H. apply IH. lia.
  - intros _. now apply Z.ltb_ge.
Qed.

Lemma run_above_all (v : Z) (l : list Z) :
  Forall (fun x => (v < x)%Z) l -> run_above v l = List.length l.
Proof.
  induction 1 as [|x l Hx _ IH]; [reflexivity|]. cbn.
  apply Z.ltb_lt in Hx. now rewrite Hx, IH.
Qed.

Lemma nth_skipn_Z (n i : nat) (l : list Z) :
  nth i (skipn n l) 0%Z = nth (n + i) l 0%Z.
Proof.
  revert l. induction n as [|n IH]; intros l; [reflexivity|].
  destruct l as [|x l]; [now destruct i|]. cbn. apply IH.
Qed.

Lemma map_nth_seq (l : list string) :
  map (fun x => nth x l "") (seq 0 (List.length l)) = l.
Proof.
  induction l as [|a l IH]; [reflexivity|].
  cbn [List.length seq map nth]. f_equal.
  rewrite <- seq_shift, map_map. exact IH.
Qed.

Lemma map_res_each {X Y : Type} (f : X -> Res Y) (xs : list X) (ys : list Y) :
  map_res f xs = Ok ys -> Forall2 (fun x y => f x = Ok y) xs ys.
Proof.
  revert ys. induction xs as [|x xs IH]; intros ys; cbn.
  - intros H. inversion H. constructor.
  - destruct (f x) as [y|] eqn:E; [|discriminate].
    destruct (map_res f xs) as [ys'|]; [|discriminate].
    intros H. inversion H. constructor; [exact E|now apply IH].
Qed.

Section Spans.
Variable rs : list Z.

(** Where the lines below the line [p] end: the first line after it that
    is not indented further. *)
Definition close (p : nat) : nat :=
  S p + run_above (rawi rs p) (skipn (S p) rs).

Lemma close_bounds (p : nat) :
  p < List.length rs -> p < close p <= List.length rs.
Proof.
  intros Hp. unfold close.
  pose proof (run_above_le (rawi rs p) (skipn (S p) rs)) as H.
  rewrite length_skipn in H. lia.
Qed.

Lemma close_inside (p x : nat) :
  p < x < close p -> (rawi rs p < rawi rs x)%Z.
Proof.
  unfold close. intros Hx.
  pose proof (run_above_inside (rawi rs p) (skipn (S p) rs) (x - S p)
                ltac:(lia)) as H.
  rewrite nth_skipn_Z in H. unfold rawi at 2.
  now replace (S p + (x - S p)) with x in H by lia.
Qed.

Lemma close_stop (p : nat) :
  close p < List.length rs -> (rawi rs (close p) <= rawi rs p)%Z.
Proof.
  unfold close. intros Hc.
  pose proof (run_above_stop (rawi rs p) (skipn (S p) rs)) as H.
  rewrite length_skipn, nth_skipn_Z in H. apply H. lia.
Qed.

Lemma kid_before_close (p c : nat) :
  p < List.length rs -> nearest rs p c -> c < List.length rs -> c < close p.
Proof.
  intros Hp (Hlt & Hr & Hb) Hc.
  destruct (Nat.lt_ge_cases c (close p)) as [H|H]; [exact H|].
  pose proof (close_bounds p Hp) as Hcb.
  assert (Hstop : (rawi rs (close p) <= rawi rs p)%Z)
    by (apply close_stop; lia).
  destruct (Nat.eq_dec (close p) c) as [E|E].
  - rewrite E in Hstop. lia.
  - specialize (Hb (close p) ltac:(lia)). lia.
Qed.

Lemma kid_close_le (p c : nat) :
  p < List.length rs -> nearest rs p c -> c < List.length rs ->
  close c <= close p.
Proof.
  intros Hp Hn Hc.
  pose proof (kid_before_close p c Hp Hn Hc) as Hlt.
  destruct (Nat.lt_ge_cases (close p) (close c)) as [H|H]; [|exact H].
  pose proof (close_bounds c Hc) as Hcb.
  pose proof (close_inside c (close p) ltac:(lia)) as Hin.
  pose proof (close_stop p ltac:(lia)) as Hstop.
  destruct Hn as (_ & Hr & _). lia.
Qed.

Lemma first_kid (p : nat) :
  S p < close p -> nearest rs p (S p).
Proof.
  intros H. split; [lia|]. split; [apply close_inside; lia|].
  intros x Hx. lia.
Qed.

Lemma next_kid (p c : nat) :
  p < List.length rs -> nearest rs p c -> c < List.length rs ->
  close c < close p -> nearest rs p (close c).
Proof.
  intros Hp Hn Hc Hlt.
  pose proof (close_bounds c Hc) as Hcb.
  pose proof (close_bounds p Hp) as Hpb.
  pose proof (close_stop c ltac:(lia)) as Hstop.
  destruct Hn as (Hpc & Hr & Hb).
  split; [lia|]. split; [apply close_inside; lia|].
  intros x Hx.
  destruct (Nat.lt_trichotomy x c) as [H|[->|H]].
  - specialize (Hb x ltac:(lia)). lia.
  - exact Hstop.
  - pose proof (close_inside c x ltac:(lia)). lia.
Qed.

Lemma kid_after_close (p c c' : nat) :
  c < List.length rs -> nearest rs p c -> nearest rs p c' -> c < c' ->
  close c <= c'.
Proof.
  intros Hc (Hpc & _ & _) (_ & _ & Hb') Hlt.
  destruct (Nat.lt_ge_cases c' (close c)) as [H|H]; [|exact H].
  pose proof (close_inside c c' ltac:(lia)) as Hin.
  specialize (Hb' c ltac:(lia)). lia.
Qed.

(** The children of [p] from [a] on, in their order, and the lines below
    them, are the lines from [a] to the end of [p]. *)
Lemma kids_cover (p : nat) (ks : list nat) :
  p < List.length rs ->
  forall a,
    StronglySorted lt ks ->
    (forall c, In c ks <-> nearest rs p c /\ c < List.length rs /\ a <= c) ->
    a = close p \/ (nearest rs p a /\ a < List.length rs) ->
    p < a ->
    List.concat (map (fun c => seq c (close c - c)) ks) = seq a (close p - a).
Proof.
  intros Hp. induction ks as [|c ks IH]; intros a Hs Hin Ha Hpa.
  - destruct Ha as [->|[Hn Hlt]].
    + now rewrite Nat.sub_diag.
    + exfalso. apply (proj2 (Hin a)).
      split; [exact Hn|split; [exact Hlt|lia]].
  - destruct (proj1 (Hin c) ltac:(now left)) as (Hnc & Hc & Hac).
    pose proof (kid_before_close p c Hp Hnc Hc) as Hcp.
    assert (Hsorted : forall x, In x ks -> c < x).
    { apply StronglySorted_inv in Hs as [_ Hall].
      now rewrite Forall_forall in Hall. }
    assert (Eac : a = c).
    { destruct Ha as [->|[Hn Hlt]]; [lia|].
      destruct (proj2 (Hin a) (conj Hn (conj Hlt (Nat.le_refl a))))
        as [E|Hx]; [now subst|].
      specialize (Hsorted a Hx). lia. }
    subst a. cbn [map List.concat].
    pose proof (close_bounds c Hc) as Hcb.
    pose proof (kid_close_le p c Hp Hnc Hc) as Hle.
    pose proof (close_bounds p Hp) as Hpb.
    rewrite (IH (close c)).
    + replace (close p - c) with ((close c - c) + (close p - close c)) by lia.
      rewrite seq_app. now replace (c + (close c - c)) with (close c) by lia.
    + now apply StronglySorted_inv in Hs.
    + intros x. split.
      * intros Hx. destruct (proj1 (Hin x) ltac:(now right)) as (Hnx & Hxl & _).
        split; [exact Hnx|]. split; [exact Hxl|].
        apply (kid_after_close p c x Hc Hnc Hnx). now apply Hsorted.
      * intros (Hnx & Hxl & Hcx).
        assert (Hax : c <= x) by lia.
        destruct (proj2 (Hin x) (conj Hnx (conj Hxl Hax)))
          as [E|Hx]; [lia|exact Hx].
    + destruct (Nat.eq_dec (close c) (close p)) as [E|E]; [now left|].
      right. split; [apply next_kid; auto; lia|lia].
    + lia.
Qed.

End Spans.

Lemma tree_of_returns (s : store) :
  (forall p c, In c (kids s p) -> p < c < List.length s) ->
  forall fuel p,
    p < List.length s -> List.length s - p <= fuel ->
    exists t, tree_of fuel s p = Ok t.
Proof.
  intros Hk. induction fuel as [|fuel IH]; intros p Hp Hfuel; [lia|].
  cbn [tree_of].
  destruct (nth_error s p) as [nd|] eqn:E;
    [|apply nth_error_None in E; lia].
  assert (Hall : Forall (fun c => p < c < List.length s) (children nd)).
  { apply Forall_forall. intros c Hc. apply Hk. unfold kids. now rewrite E. }
  assert (Hts : exists ts, map_res (tree_of fuel s) (children nd) = Ok ts).
  { induction Hall as [|c cs Hc _ IHcs]; [now exists []|].
    destruct (IH c) as (t & Ht); [lia|lia|].
    destruct IHcs as (ts & Hts). exists (t :: ts). cbn. now rewrite Ht, Hts. }
  destruct Hts as (ts & ->). now eexists.
Qed.

(** The tree below a node holds the lines from the node to the end of
    its span, in their order. *)
Lemma preorder_span (s : store) (rs : list Z) :
  List.length rs = List.length s ->
  (forall p c, In c (kids s p) <-> c < List.length s /\ nearest rs p c) ->
  (forall p, StronglySorted lt (kids s p)) ->
  forall fuel p t,
    p < List.length s -> tree_of fuel s p = Ok t ->
    preorder t
    = map (fun x => nth x (map text s) "") (seq p (close rs p - p)).
Proof.
  intros Hlen Hk Hs. induction fuel as [|fuel IH]; intros p t Hp; [discriminate|].
  cbn [tree_of].
  destruct (nth_error s p) as [nd|] eqn:E; [|discriminate].
  destruct (map_res (tree_of fuel s) (children nd)) as [ts|] eqn:Ets;
    [|discriminate].
  intros H. inversion H; subst t. cbn [preorder].
  assert (Hkids : kids s p = children nd) by (unfold kids; now rewrite E).
  assert (Hflat : flat_map preorder ts
                  = map (fun x => nth x (map text s) "")
                      (List.concat (map (fun c => seq c (close rs c - c))
                                 (children nd)))).
  { apply map_res_each in Ets.
    assert (Hall : forall c, In c (children nd) -> c < List.length s).
    { intros c Hc. rewrite <- Hkids in Hc. now apply Hk in Hc. }
    clear Hkids H. induction Ets as [|c tc cs ts' Hc _ IHts]; [reflexivity|].
    cbn [flat_map map List.concat]. rewrite map_app.
    rewrite (IH c tc (Hall c ltac:(now left)) Hc).
    rewrite IHts; [reflexivity|]. intros x Hx. apply Hall. now right. }
  rewrite Hflat.
  pose proof (close_bounds rs p ltac:(lia)) as Hcb.
  rewrite (kids_cover rs p (children nd) ltac:(lia) (S p)).
  - replace (close rs p - p) with (S (close rs p - S p)) by lia.
    cbn [seq map]. f_equal.
    erewrite nth_error_nth; [reflexivity|]. now rewrite nth_error_map, E.
  - rewrite <- Hkids. apply Hs.
  - intros c. rewrite <- Hkids, Hk, Hlen. split.
    + intros [Hc Hn]. split; [exact Hn|]. split; [exact Hc|].
      destruct Hn as (Hpc & _). lia.
    + intros (Hn & Hc & _). now split.
  - destruct (Nat.eq_dec (S p) (close rs p)) as [Eq|Ne]; [now left|].
    right. split; [apply first_kid; lia|lia].
  - lia.
Qed.

(** The tree holds the lines in their order: listing the text of each
    node before the texts of the nodes below it, child by child, gives the
    text of the root and the texts of the lines as they were given; no line
    is left out, taken twice or moved. *)
Theorem parse_keeps_lines_in_order (lines : list string) :
  Forall (fun l => single_line l = true) lines ->
  exists s t,
    parse lines = Ok s
    /\ tree_of (List.length s) s 0 = Ok t
    /\ preorder t = "" :: map raw_text lines.
Proof.
  intros Hall.
  destruct (raws_single _ Hall) as [Hraws Htexts].
  destruct (parse_built lines) as (s & Hp & Hlen & Ht & Hk & Hs & _).
  { intros l Hl. apply single_line_matches.
    rewrite Forall_forall in Hall. now apply Hall. }
  assert (Hk' : forall p c,
            In c (kids s p) <-> c < List.length s /\ nearest (raws lines) p c).
  { intros p c. rewrite Hk, Hlen. split; intros [H1 H2]; split; auto; lia. }
  destruct (tree_of_returns s) with (fuel := List.length s) (p := 0)
    as (t & Htree); [|lia|lia|].
  { intros p c Hc. apply Hk' in Hc as [Hc (Hlt & _)]. lia. }
  assert (Hrlen : List.length (raws lines) = List.length s).
  { unfold raws. cbn. now rewrite length_map, Hlen. }
  exists s, t. split; [exact Hp|]. split; [exact Htree|].
  rewrite (preorder_span s (raws lines) Hrlen Hk' Hs _ 0 t ltac:(lia) Htree).
  assert (Hclose : close (raws lines) 0 = List.length s).
  { unfold close. rewrite Hraws. cbn [skipn rawi nth].
    rewrite run_above_all.
    - rewrite length_map. lia.
    - apply Forall_forall. intros x Hx. apply in_map_iff in Hx as (l & <- & _).
      unfold raw_indent. lia. }
  rewrite Hclose, Nat.sub_0_r, <- (length_map text s), map_nth_seq.
  now rewrite Ht, Htexts.
Qed.

Lemma parse_keeps_lines_in_order_witness :
  exists s t,
    parse ["a"; "    b"; "  c"; "d"] = Ok s
    /\ tree_of (List.length s) s 0 = Ok t
    /\ preorder t = [""; "a"; "b"; "c"; "d"].
Proof.
  apply (parse_keeps_lines_in_order ["a"; "    b"; "  c"; "d"]).
  repeat constructor.
Defined.

(** *** The indent and the text of a line *)

(** The longest run of characters of a class that [s] starts with. *)
Fixpoint leading (cls : ascii -> bool) (s : string) : string :=
  match s with
  | String a s' => if cls a then String a (leading cls s') else ""
  | EmptyString => ""
  end.

Lemma leading_skip (cls : ascii -> bool) (s : string) :
  s = (leading cls s ++ skip cls s)%string
  /\ String.length (leading cls s)
     = String.length s - String.length (skip cls s).
Proof.
  induction s as [|a s [IH1 IH2]]; [now split|].
  cbn [leading skip]. pose proof (skip_length cls s) as Hle.
  destruct (cls a); cbn [append String.length].
  - split; [now rewrite <- IH1|]. rewrite IH2. lia.
  - split; [reflexivity|lia].
Qed.

Fixpoint all_of (cls : ascii -> bool) (s : string) : bool :=
  match s with
  | String a s' => cls a && all_of cls s'
  | EmptyString => true
  end.

Lemma leading_all (cls : ascii -> bool) (s : string) :
  all_of cls (leading cls s) = true.
Proof.
  induction s as [|a s IH]; cbn; [reflexivity|].
  destruct (cls a) eqn:E; cbn; [now rewrite E|reflexivity].
Qed.

Lemma skip_head (cls : ascii -> bool) (s : string) (a : ascii) (t : string) :
  skip cls s = String a t -> cls a = false.
Proof.
  induction s as [|b s IH]; cbn; [discriminate|].
  destruct (cls b) eqn:E; [exact IH|]. intros H. now inversion H; subst.
Qed.

(** What [parse] reads off a line without a line feed: the indent is
    the number of whitespace characters that the line starts with, a tab
    counting as one, and the text is the rest of the line, with its
    trailing whitespace; the two make up the line, and the text does not
    start with whitespace. *)
Theorem split_line_cuts_leading_whitespace (line : string) :
  lf_free line = true ->
  split_line line
  = Ok (Z.of_nat (String.length (leading space line)), skip space line)
  /\ line = (leading space line ++ skip space line)%string
  /\ all_of space (leading space line) = true
  /\ (forall a t, skip space line = String a t -> space a = false).
Proof.
  intros Hl. destruct (leading_skip space line) as [Happ Hlen].
  split; [|split; [exact Happ|split; [apply leading_all|apply skip_head]]].
  rewrite (split_line_single _ (lf_free_single_line _ Hl)).
  unfold raw_indent, raw_text. cbv zeta. rewrite Hlen.
  rewrite (lf_free_skip_dot _ (lf_free_skip space _ Hl)). cbn [String.length].
  now rewrite Nat.sub_0_r, substring_all.
Qed.

Lemma split_line_cuts_leading_whitespace_witness :
  split_line (String (ascii_of_nat 9) " a b ") = Ok (2%Z, "a b ").
Proof.
  apply (proj1 (split_line_cuts_leading_whitespace
                  (String (ascii_of_nat 9) " a b ") eq_refl)).
Defined.

End TreeFacts.

(** ** Lines nested under a value *)
Module NestingFacts.
Import Regex PropertyBag PropertyBagFacts StateFacts PropertyBagParser.
Import ParserFacts BagFacts.

(** The line has an [=] that the pattern takes as such, and a value after
    it. *)
Definition with_equals (text : string) : bool :=
  match rmatch LINE_REGEX_PATTERN text with
  | Some m => group_bool "equals" m
  | None => false
  end.

Definition with_value (text : string) : bool :=
  match rmatch LINE_REGEX_PATTERN text with
  | Some m => group_bool "value" m
  | None => false
  end.

(** A node without the nodes below it. *)
Definition bare (t : tree) : tree :=
  match t with
  | IndentationTree.Node i tx _ => IndentationTree.Node i tx []
  end.

(** The tree without the lines that the parser does not read: those
    below a line with [=] and a value, and those more than one level below
    a line with [=] and no value. *)
Fixpoint prune (t : tree) : tree :=
  match t with
  | IndentationTree.Node i tx cs =>
      IndentationTree.Node i tx
        (if with_equals tx then
           if with_value tx then [] else map bare cs
         else map prune cs)
  end.

Lemma read_line_kind (text : string) (parent_prop : ref) (st st' : state)
    (l : line) :
  read_line text parent_prop st = Ok (l, st') ->
  has_equals l = with_equals text /\ has_value l = with_value text.
Proof.
  unfold read_line, with_equals, with_value.
  destruct (rmatch LINE_REGEX_PATTERN text) as [m|]; [|discriminate].
  destruct (group "name" m) as [n|]; [|discriminate].
  unfold bind, ret. destruct (truthy (strip n)).
  - intros H. inversion H. now split.
  - destruct (count parent_prop st) as [[c st1]|]; [|discriminate].
    intros H. inversion H. now split.
Qed.

Lemma join_children_bare (v : string) (cs : list tree) :
  join_children v (map bare cs) = join_children v cs.
Proof.
  unfold join_children. revert v.
  induction cs as [|[i tx cs'] cs IH]; intros v; [reflexivity|].
  cbn [map bare fold_left]. apply IH.
Qed.

Lemma bind_cong {A B : Type} (m m' : M state A) (f g : A -> M state B)
    (st : state) :
  m st = m' st ->
  (forall a st', m' st = Ok (a, st') -> f a st' = g a st') ->
  bind m f st = bind m' g st.
Proof.
  intros Hm Hf. unfold bind. rewrite Hm.
  destruct (m' st) as [[a st']|]; [now apply Hf|reflexivity].
Qed.

Lemma declare_pruned (c : tree) (parents abstract_props : list ref)
    (st : state) :
  declare (prune c) parents abstract_props st
  = declare c parents abstract_props st.
Proof.
  destruct c as [i tx cs]. cbn [prune]. unfold declare.
  destruct parents as [|parent_prop ps]; [reflexivity|].
  apply bind_cong; [reflexivity|]. intros l st1 E.
  destruct (read_line_kind _ _ _ _ _ E) as [He Hv].
  rewrite <- He, <- Hv.
  destruct (has_equals l); [|reflexivity].
  destruct (has_value l); cbn [andb]; [reflexivity|].
  now rewrite join_children_bare.
Qed.

Lemma declare_collection (c : tree) (parents abstract_props : list ref)
    (st st' : state) (prop : ref) :
  declare c parents abstract_props st = Ok (Some prop, st') ->
  with_equals (text_of c) = false.
Proof.
  destruct c as [i tx cs]. cbn [text_of]. unfold declare.
  destruct parents as [|parent_prop ps]; [discriminate|].
  unfold bind at 1.
  destruct (read_line tx parent_prop st) as [[l st1]|] eqn:E; [|discriminate].
  destruct (read_line_kind _ _ _ _ _ E) as [He _]. rewrite <- He.
  destruct (has_equals l); [|reflexivity].
  intros H. exfalso. revert H. unfold bind, new, add, ret. cbn.
  destruct (has_value l); cbn;
    repeat match goal with
           | |- context [match ?x with _ => _ end] => destruct x
           end; intros H; discriminate.
Qed.

Lemma each_child_pruned (cs : list tree) :
  Forall
    (fun c =>
       with_equals (text_of c) = false ->
       forall parents abstract_props st,
         _parse_tree (prune c) parents abstract_props st
         = _parse_tree c parents abstract_props st) cs ->
  forall parents abstract_props st,
    each_child _parse_tree (map prune cs) parents abstract_props st
    = each_child _parse_tree cs parents abstract_props st.
Proof.
  induction 1 as [|c cs Hc _ IH]; intros parents abstract_props st;
    [reflexivity|].
  cbn [map each_child]. apply bind_cong; [apply declare_pruned|].
  intros [prop|] st1 E; [|apply IH].
  apply bind_cong; [exact (Hc (declare_collection _ _ _ _ _ _ E) _ _ _)|].
  intros stacks st2 _. apply IH.
Qed.

Lemma parse_tree_pruned (t : tree) :
  with_equals (text_of t) = false ->
  forall parents abstract_props st,
    _parse_tree (prune t) parents abstract_props st
    = _parse_tree t parents abstract_props st.
Proof.
  induction t as [i tx cs IH] using tree_induction.
  cbn [text_of]. intros He parents abstract_props st.
  cbn [prune]. rewrite He. cbn [_parse_tree].
  apply bind_cong; [reflexivity|]. intros holder st1 _.
  now apply each_child_pruned.
Qed.

(** The lines below a line with [=] and a value, and the lines more than
    one level below a line with [=] and no value, have no part in the
    result: the parser leaves the same state and returns the same, or
    raises the same, with them and without them. *)
Theorem lines_below_a_value_are_ignored :
  (forall i tx cs parents abstract_props st,
     _parse_tree (IndentationTree.Node i tx (map prune cs))
       parents abstract_props st
     = _parse_tree (IndentationTree.Node i tx cs) parents abstract_props st)
  /\ (forall i tx cs st,
        PropertyBagParser.parse (IndentationTree.Node i tx (map prune cs)) st
        = PropertyBagParser.parse (IndentationTree.Node i tx cs) st)
  /\ (forall i tx cs parents abstract_props st,
        declare (IndentationTree.Node i tx cs) parents abstract_props st
        = declare
            (IndentationTree.Node i tx
               (if with_equals tx && with_value tx then [] else map bare cs))
            parents abstract_props st).
Proof.
  assert (Hloop : forall cs parents abstract_props st,
            each_child _parse_tree (map prune cs) parents abstract_props st
            = each_child _parse_tree cs parents abstract_props st).
  { intros cs. apply each_child_pruned. apply Forall_forall.
    intros c _ He. now apply parse_tree_pruned. }
  split; [|split].
  - intros i tx cs parents abstract_props st. cbn [_parse_tree].
    apply bind_cong; [reflexivity|]. intros holder st1 _. apply Hloop.
  - intros i tx cs st. unfold PropertyBagParser.parse.
    apply bind_cong; [reflexivity|]. intros root st1 _.
    apply bind_cong; [|reflexivity]. cbn [_parse_tree].
    apply bind_cong; [reflexivity|]. intros holder st2 _. apply Hloop.
  - intros i tx cs parents abstract_props st. unfold declare.
    destruct parents as [|parent_prop ps]; [reflexivity|].
    apply bind_cong; [reflexivity|]. intros l st1 E.
    destruct (read_line_kind _ _ _ _ _ E) as [He Hv].
    rewrite <- He, <- Hv.
    destruct (has_equals l); [|reflexivity].
    destruct (has_value l); cbn [andb]; [reflexivity|].
    now rewrite join_children_bare.
Qed.

(** *** Lines without a name *)

(** The flattened view of the bag that a new bag is filed with. *)
Lemma flat_declared (n v : string) (bs : list ref) (target : ref)
    (h : list t) :
  bases_older h -> children_ok h -> target < List.length h ->
  Forall (fun x => x < List.length h) bs ->
  flat (declared n v bs target h) target
  = dict_set n (List.length h) (flat h target).
Proof.
  intros Hwf Hok Ht Hbs.
  assert (Hwf1 : bases_older (h ++ [mk n v bs []])).
  { intros r b E. apply nth_error_snoc in E as [[Hr E]|[-> ->]];
      [now apply Hwf|exact Hbs]. }
  assert (Hok1 : children_ok (h ++ [mk n v bs []])).
  { intros r b E. apply nth_error_snoc in E as [[Hr E]|[-> ->]];
      [now apply (Hok r)|constructor]. }
  destruct (nth_error h target) as [b|] eqn:Eb;
    [|apply nth_error_None in Eb; lia].
  assert (Eb1 : nth_error (h ++ [mk n v bs []]) target = Some b)
    by (now rewrite nth_error_app1).
  unfold declared, children_of. rewrite Eb.
  rewrite (flat_added_self _ _ _ _ _ Hwf1 Hok1 Eb1). f_equal.
  apply (flat_ext h _ (List.length h) Hwf Hwf1); [| |exact Ht|lia].
  - intros y Hy _. now apply nth_error_app1.
  - intros y b0 E Hin. pose proof (Hwf _ _ E) as Hall.
    rewrite Forall_forall in Hall. specialize (Hall _ Hin).
    assert (y < List.length h) by (apply nth_error_Some; congruence). lia.
Qed.

Definition numbered_items : list string :=
  ["list"; "  :: = a"; "  :: = b"].

Definition numbered_items_state : state :=
  Eval vm_compute in
    match parse_lines numbered_items empty with
    | Ok (_, st) => st
    | Raise _ => empty
    end.

Definition blank_name_value : captures :=
  Eval vm_compute in
    match rmatch LINE_REGEX_PATTERN ":: = b" with
    | Some m => m
    | None => []
    end.

(** A line with [=] whose name is blank is filed under the number of
    entries that the flattened view of its parent has, in decimal: the new
    bag has that name, the view of the parent has the bag under it, and has
    one entry more unless it had that name before; so the lines [:: = a] and
    [:: = b] under [list] give it the children [0] and [1]. *)
Theorem blank_name_takes_the_count :
  (forall i text cs parent ps holder hs st m n,
     rmatch LINE_REGEX_PATTERN text = Some m -> group "name" m = Some n ->
     strip n = "" -> group_bool "equals" m = true ->
     wf st -> valid st (parent :: ps) -> valid st (holder :: hs) ->
     let k := List.length (flat (heap st) parent) in
     exists st',
       declare (IndentationTree.Node i text cs) (parent :: ps) (holder :: hs)
         st
       = Ok (None, st')
       /\ name_of (heap st') (List.length (heap st)) = Some (str_of_nat k)
       /\ flat (heap st') parent
          = dict_set (str_of_nat k) (List.length (heap st))
              (flat (heap st) parent)
       /\ List.length (flat (heap st') parent)
          = if dict_mem (str_of_nat k) (flat (heap st) parent) then k
            else S k)
  /\ (parse_lines numbered_items empty = Ok (0, numbered_items_state)
      /\ values_of numbered_items_state
           (children_of (heap numbered_items_state) 2)
         = [("0", "a"); ("1", "b")]).
Proof.
  split.
  - intros i text cs parent ps holder hs st m n Hm Hn Hblank He Hwf Hp Ha k.
    destruct (declare_spec i text cs parent ps holder hs st m n Hm Hn Hwf Hp Ha)
      as (found & st1 & st' & Hrun & Hfound & _ & Hh & _).
    set (l := line_of m n (List.length (flat (heap st) parent))) in *.
    assert (Hle : has_equals l = true) by exact He.
    assert (Hname : PropertyBagParser.name l = str_of_nat k).
    { unfold l, line_of. cbn [PropertyBagParser.name]. now rewrite Hblank. }
    rewrite Hle in Hrun, Hfound, Hh. destruct Hfound as [-> ->].
    rewrite Hname in Hh.
    assert (Hparent : parent < List.length (heap st)) by (now inversion Hp).
    exists st'. split; [exact Hrun|]. rewrite Hh. split; [|split].
    + unfold name_of. now rewrite nth_error_declared_new.
    + apply flat_declared; [apply Hwf|apply Hwf|exact Hparent|constructor].
    + rewrite flat_declared;
        [|apply Hwf|apply Hwf|exact Hparent|constructor].
      apply dict_set_length.
  - split; vm_compute; reflexivity.
Qed.

Lemma blank_name_takes_the_count_witness :
  exists st',
    declare (IndentationTree.Node 1 ":: = b" []) [2; 0] [3; 1]
      (mkState
         [mk "root" "" [] [("list", 2)]; mk "abstract" "" [] [];
          mk "list" "" [] [("0", 4)]; mk "abstract" "" [] [];
          mk "0" "a" [] []] [] [] [])
    = Ok (None, st')
    /\ name_of (heap st') 5 = Some "1".
Proof.
  destruct (proj1 blank_name_takes_the_count 1%Z ":: = b" [] 2 [0] 3 [1]
              (mkState
                 [mk "root" "" [] [("list", 2)]; mk "abstract" "" [] [];
                  mk "list" "" [] [("0", 4)]; mk "abstract" "" [] [];
                  mk "0" "a" [] []] [] [] [])
              blank_name_value " ")
    as (st' & Hrun & Hname & _).
  - vm_compute. reflexivity.
  - vm_compute. reflexivity.
  - vm_compute. reflexivity.
  - vm_compute. reflexivity.
  - apply wfb_sound. vm_compute. reflexivity.
  - repeat constructor.
  - repeat constructor.
  - exists st'. split; [exact Hrun|exact Hname].
Defined.

End NestingFacts.

(** ** The parts of a line *)
Module GrammarFacts.
Import Regex RegexFacts PropertyBag PropertyBagParser ParserFacts LineFacts.

(** *** Where a lazy run stops *)

(** The first place, from the start of [s] on, where [stop] holds, and
    the end of [s] when there is none. *)
Fixpoint first_stop (stop : string -> bool) (s : string) : string :=
  match s with
  | String a s' => if stop s then s else first_stop stop s'
  | EmptyString => ""
  end.

Lemma first_stop_lf_free (stop : string -> bool) (s : string) :
  lf_free s = true -> lf_free (first_stop stop s) = true.
Proof.
  induction s as [|a s IH]; cbn [first_stop]; [reflexivity|].
  intros H. destruct (stop (String a s)); [exact H|].
  cbn in H. apply andb_prop in H as [_ H]. auto.
Qed.

Lemma first_stop_length (stop : string -> bool) (s : string) :
  String.length (first_stop stop s) <= String.length s.
Proof.
  induction s as [|a s IH]; cbn [first_stop]; [lia|].
  destruct (stop (String a s)); cbn [String.length]; lia.
Qed.

Lemma first_stop_stops (stop : string -> bool) (s : string) :
  first_stop stop s = "" \/ stop (first_stop stop s) = true.
Proof.
  induction s as [|a s IH]; cbn [first_stop]; [now left|].
  destruct (stop (String a s)) eqn:E; [now right|exact IH].
Qed.

(** A lazy run of [.] goes on where what follows fails, and stops at the
    first place where it does not. *)
Lemma lazy_run_stops (stop : string -> bool) (caps : captures)
    (k : string -> captures -> option captures) (s : string) :
  lf_free s = true ->
  (forall t, lf_free t = true -> t <> "" -> stop t = false ->
             k t caps = None) ->
  k (first_stop stop s) caps <> None ->
  run (Star false (Chr dot)) s caps k = k (first_stop stop s) caps.
Proof.
  intros Hs Hk. induction s as [|a s IH]; intros Hstop;
    rewrite run_star_lazy_chr.
  - cbn. now destruct (k "" caps).
  - cbn [first_stop] in *. destruct (stop (String a s)) eqn:E.
    + destruct (k (String a s) caps); [reflexivity|congruence].
    + rewrite (Hk (String a s) Hs ltac:(discriminate) E).
      cbn in Hs. apply andb_prop in Hs as [Ha Hs]. rewrite Ha. now apply IH.
Qed.

(** *** The marks that end a name and a clause *)

Definition starts_colons (s : string) : bool :=
  match s with
  | String a (String b _) => lit ":" a && lit ":" b
  | _ => false
  end.

Definition starts_equals (s : string) : bool :=
  match s with
  | String a _ => lit "=" a
  | EmptyString => false
  end.

(** A name ends before an [=] and before a [::]; a clause before a
    [::]. *)
Definition ends_name (s : string) : bool := starts_equals s || starts_colons s.

Definition after_name (s : string) : string := first_stop ends_name s.

Definition after_clause (s : string) : string := first_stop starts_colons s.

(** The characters of [s] before its end [t]. *)
Definition before (t s : string) : string :=
  substring 0 (String.length s - String.length t) s.

(** The clauses of a run of [::] and clauses; [n] bounds their number,
    and the length of the string is enough. *)
Fixpoint clauses (n : nat) (u : string) : list string :=
  match n with
  | 0 => []
  | S n' =>
      match u with
      | String _ (String _ r) =>
          if starts_colons u
          then before (after_clause r) r :: clauses n' (after_clause r)
          else []
      | _ => []
      end
  end.

(** [$], after the line. *)
Definition at_end (s : string) (c : captures) : option captures :=
  run Eol s c (fun _ c0 => Some c0).

Lemma at_end_lf_free (s : string) (c : captures) :
  lf_free s = true ->
  at_end s c = match s with EmptyString => Some c | _ => None end.
Proof.
  unfold at_end. rewrite run_eol. destruct s as [|a s]; [reflexivity|].
  cbn [lf_free]. intros H. apply andb_prop in H as [Ha _]. unfold dot in Ha.
  apply negb_true_iff in Ha. cbn [at_eol].
  destruct s; [now rewrite Ha|reflexivity].
Qed.

(** *** The inheritance clauses *)

Definition clause : re :=
  Cat colons (Grp "inherits" (Star false (Chr dot))).

Lemma clause_fails (s : string) (c : captures)
    (k : string -> captures -> option captures) :
  starts_colons s = false -> run clause s c k = None.
Proof.
  intros H. unfold clause, colons. rewrite !run_cat, run_chr.
  destruct s as [|a s]; [reflexivity|].
  destruct (lit ":" a) eqn:Ea; [|reflexivity].
  rewrite run_chr. destruct s as [|b s]; [reflexivity|].
  cbn in H. rewrite Ea in H. cbn in H. now rewrite H.
Qed.

Lemma clauses_fail (n : nat) (u : string) (c : captures) :
  lf_free u = true -> u <> "" -> starts_colons u = false ->
  rounds (run clause) true at_end n u c = None.
Proof.
  intros Hu Hne Hs.
  assert (Hend : at_end u c = None)
    by (rewrite at_end_lf_free by exact Hu; destruct u; congruence).
  destruct n as [|n]; [exact Hend|].
  cbn [rounds]. cbv zeta. now rewrite clause_fails, Hend.
Qed.

Lemma clauses_run (n : nat) :
  forall (u : string) (c : captures),
    lf_free u = true -> String.length u <= n ->
    u = "" \/ starts_colons u = true ->
    rounds (run clause) true at_end n u c
    = Some (c ++ map (pair "inherits") (clauses n u)).
Proof.
  induction n as [|n IH]; intros u c Hu Hlen Hstart.
  - destruct u; [|cbn in Hlen; lia]. cbn. now rewrite app_nil_r.
  - destruct Hstart as [->|Hs].
    + cbn [rounds clauses]. cbv zeta. rewrite clause_fails by reflexivity.
      cbn. now rewrite app_nil_r.
    + destruct u as [|a [|b r]]; try discriminate.
      cbn [rounds clauses]. cbv zeta. rewrite Hs.
      pose proof Hs as Hab. cbn in Hab. apply andb_prop in Hab as [Ea Eb].
      assert (Hr : lf_free r = true).
      { cbn in Hu. apply andb_prop in Hu as [_ Hu].
        now apply andb_prop in Hu as [_ Hu]. }
      unfold clause at 1, colons. rewrite !run_cat, run_chr, Ea, run_chr, Eb.
      rewrite run_grp.
      pose proof (first_stop_lf_free starts_colons r Hr) as Hlf.
      pose proof (first_stop_length starts_colons r) as Hle.
      fold (after_clause r) in Hlf, Hle.
      assert (Hlt : (String.length (after_clause r)
                     <? String.length (String a (String b r)))%nat = true)
        by (apply Nat.ltb_lt; cbn [String.length]; lia).
      rewrite (lazy_run_stops starts_colons); fold (after_clause r).
      * rewrite Hlt, IH.
        -- rewrite <- app_assoc. reflexivity.
        -- exact Hlf.
        -- cbn [String.length] in Hlen. lia.
        -- apply first_stop_stops.
      * exact Hr.
      * intros t Ht Hne Hst.
        destruct (String.length t <? String.length (String a (String b r)))%nat;
          [|reflexivity].
        now apply clauses_fail.
      * rewrite Hlt, IH; [discriminate|exact Hlf| |apply first_stop_stops].
        cbn [String.length] in Hlen. lia.
Qed.

(** *** What follows the name *)

(** The alternatives after the name, and [$]. *)
Definition line_tail : re :=
  Cat (Alt (Cat (Grp "equals" (Chr (lit "="))) (Opt (Grp "value" some_lazy)))
         (Alt (Star true clause) Eps))
      Eol.

(** What the alternatives capture on what follows the name. *)
Definition tail_captures (t : string) : captures :=
  match t with
  | EmptyString => []
  | String a r =>
      if lit "=" a then
        ("equals", "=") :: match r with
                           | EmptyString => []
                           | _ => [("value", r)]
                           end
      else map (pair "inherits") (clauses (String.length t) t)
  end.

Lemma substring_whole (s : string) :
  substring 0 (String.length s - 0) s = s.
Proof. rewrite Nat.sub_0_r. apply substring_all. Qed.

Lemma line_tail_fails (t : string) (c : captures) :
  lf_free t = true -> t <> "" -> ends_name t = false ->
  run line_tail t c (fun _ c0 => Some c0) = None.
Proof.
  intros Ht Hne He. unfold ends_name in He.
  apply orb_false_elim in He as [Heq Hco].
  unfold line_tail. rewrite run_cat, run_alt, run_cat, run_grp, run_chr.
  destruct t as [|a t]; [congruence|]. cbn in Heq. rewrite Heq.
  rewrite run_alt, run_eps.
  change (run (Star true clause) (String a t) c
            (fun s1 c1 => run Eol s1 c1 (fun _ c0 => Some c0)))
    with (rounds (run clause) true at_end (String.length (String a t))
            (String a t) c).
  rewrite clauses_fail by assumption.
  change (run Eol (String a t) c (fun _ c0 => Some c0))
    with (at_end (String a t) c).
  now rewrite at_end_lf_free.
Qed.

Lemma line_tail_captures (t : string) (c : captures) :
  lf_free t = true -> t = "" \/ ends_name t = true ->
  run line_tail t c (fun _ c0 => Some c0) = Some (c ++ tail_captures t).
Proof.
  intros Ht Hstop. unfold line_tail.
  rewrite run_cat, run_alt, run_cat, run_grp, run_chr.
  destruct t as [|a r].
  - rewrite run_alt.
    change (run (Star true clause) "" c
              (fun s1 c1 => run Eol s1 c1 (fun _ c0 => Some c0)))
      with (rounds (run clause) true at_end 0 "" c).
    cbn. now rewrite app_nil_r.
  - destruct Hstop as [Hstop|Hstop]; [discriminate|].
    cbn [tail_captures]. destruct (lit "=" a) eqn:Ea.
    + assert (Hcap : substring 0
                       (String.length (String a r) - String.length r)
                       (String a r) = "=").
      { unfold lit in Ea. apply Ascii.eqb_eq in Ea as ->.
        cbn [String.length]. replace (S (String.length r) - String.length r)
          with 1 by lia. cbn. now destruct r. }
      rewrite Hcap. unfold Opt. rewrite run_alt, run_grp, run_eps.
      unfold some_lazy. rewrite run_cat, run_chr.
      assert (Hr : lf_free r = true)
        by (cbn in Ht; now apply andb_prop in Ht as [_ Ht]).
      destruct r as [|b r].
      * reflexivity.
      * cbn in Hr. apply andb_prop in Hr as [Hb Hr]. rewrite Hb.
        rewrite (lazy_run_stops (fun _ => false)).
        -- assert (Hstop0 : first_stop (fun _ => false) r = "")
             by (clear; induction r as [|x r IH]; cbn; auto).
           rewrite Hstop0. rewrite substring_whole.
           cbn. now rewrite <- app_assoc.
        -- exact Hr.
        -- intros t Hlt Hne _.
           change (at_end t
                     ((c ++ [("equals", "=")])
                        ++ [("value",
                             substring 0
                               (String.length (String b r) - String.length t)
                               (String b r))]) = None).
           rewrite at_end_lf_free by exact Hlt. destruct t; congruence.
        -- assert (Hstop0 : first_stop (fun _ => false) r = "")
             by (clear; induction r as [|x r IH]; cbn; auto).
           rewrite Hstop0. cbn. discriminate.
    + unfold ends_name in Hstop. cbn [starts_equals] in Hstop.
      rewrite Ea in Hstop. cbn [orb] in Hstop.
      rewrite run_alt.
      change (run (Star true clause) (String a r) c
                (fun s1 c1 => run Eol s1 c1 (fun _ c0 => Some c0)))
        with (rounds (run clause) true at_end (String.length (String a r))
                (String a r) c).
      rewrite clauses_run; [reflexivity|exact Ht|lia|now right].
Qed.

(** *** The name and the abstract mark *)

(** What follows the optional [::] at the start: the name, the
    alternatives and [$]. *)
Definition line_body : re := Cat (Grp "name" some_lazy) line_tail.

Definition rest (s : string) : string :=
  match s with
  | String _ s' => s'
  | EmptyString => ""
  end.

Definition drop2 (s : string) : string := rest (rest s).

Lemma first_stop_suffix (stop : string -> bool) (s : string) :
  exists pre, s = (pre ++ first_stop stop s)%string.
Proof.
  induction s as [|a s (pre & IH)]; cbn [first_stop]; [now exists ""|].
  destruct (stop (String a s)); [now exists ""|].
  exists (String a pre). cbn. now rewrite <- IH.
Qed.

Lemma before_suffix (pre t : string) : before t (pre ++ t) = pre.
Proof. apply substring_prefix. Qed.

Lemma line_body_captures (r : string) (c : captures) :
  lf_free r = true -> r <> "" ->
  run line_body r c (fun _ c0 => Some c0)
  = Some (c ++ ("name", before (after_name (rest r)) r)
               :: tail_captures (after_name (rest r))).
Proof.
  intros Hr Hne. destruct r as [|a s]; [congruence|]. cbn [rest].
  cbn in Hr. apply andb_prop in Hr as [Ha Hs].
  unfold line_body, some_lazy. rewrite run_cat, run_grp, run_cat, run_chr, Ha.
  pose proof (first_stop_lf_free ends_name s Hs) as Hlf.
  fold (after_name s) in Hlf.
  rewrite (lazy_run_stops ends_name); fold (after_name s).
  - rewrite line_tail_captures.
    + now rewrite <- app_assoc.
    + exact Hlf.
    + apply first_stop_stops.
  - exact Hs.
  - intros t Ht Htne Hst. now apply line_tail_fails.
  - rewrite line_tail_captures; [discriminate|exact Hlf|apply first_stop_stops].
Qed.

(** The pattern takes a [::] at the start as the abstract mark when
    something follows it. *)
Definition takes_abstract (text : string) : bool :=
  starts_colons text && truthy (drop2 text).

(** What is left for the name and what follows it. *)
Definition named (text : string) : string :=
  if takes_abstract text then drop2 text else text.

Definition line_captures (text : string) : captures :=
  (if takes_abstract text then [("abstract", "::")] else [])
  ++ ("name", before (after_name (rest (named text))) (named text))
     :: tail_captures (after_name (rest (named text))).

Lemma line_pattern_body :
  LINE_REGEX_PATTERN = Cat (Opt (Grp "abstract" colons)) line_body.
Proof. reflexivity. Qed.

Lemma line_match (text : string) :
  lf_free text = true -> text <> "" ->
  rmatch LINE_REGEX_PATTERN text = Some (line_captures text).
Proof.
  intros Ht Hne. unfold rmatch. rewrite line_pattern_body, run_cat.
  unfold Opt. rewrite run_alt, run_eps, run_grp.
  unfold colons. rewrite run_cat, run_chr.
  unfold line_captures, named, takes_abstract.
  destruct text as [|a [|b r]]; [congruence| |].
  - cbn [starts_colons andb].
    assert (Hnone : (if lit ":" a
                     then run (Chr (lit ":")) "" []
                            (fun s1 c1 =>
                               run line_body s1
                                 (c1 ++ [("abstract",
                                          substring 0
                                            (String.length (String a "")
                                             - String.length s1)
                                            (String a ""))])
                                 (fun _ c => Some c))
                     else None) = None)
      by (destruct (lit ":" a); reflexivity).
    rewrite Hnone. now rewrite line_body_captures.
  - cbn [starts_colons drop2 rest]. destruct (lit ":" a) eqn:Ea;
      [|cbn [andb]; now rewrite line_body_captures].
    rewrite run_chr. destruct (lit ":" b) eqn:Eb;
      [|cbn [andb]; now rewrite line_body_captures].
    cbn [andb].
    assert (Hcap : substring 0
                     (String.length (String a (String b r)) - String.length r)
                     (String a (String b r)) = "::").
    { unfold lit in Ea, Eb. apply Ascii.eqb_eq in Ea as ->.
      apply Ascii.eqb_eq in Eb as ->. cbn [String.length].
      replace (S (S (String.length r)) - String.length r) with 2 by lia.
      cbn. now destruct r. }
    rewrite Hcap. destruct r as [|x r].
    + cbn [truthy]. unfold line_body at 1, some_lazy.
      rewrite run_cat, run_grp, run_cat, run_chr.
      now rewrite line_body_captures.
    + cbn [truthy].
      assert (Hr : lf_free (String x r) = true).
      { cbn in Ht. apply andb_prop in Ht as [_ Ht].
        now apply andb_prop in Ht as [_ Ht]. }
      now rewrite line_body_captures.
Qed.

Lemma all_captures_app (g : string) (m1 m2 : captures) :
  all_captures g (m1 ++ m2) = all_captures g m1 ++ all_captures g m2.
Proof. unfold all_captures. now rewrite filter_app, map_app. Qed.

Lemma all_captures_pairs (g h : string) (l : list string) :
  all_captures g (map (pair h) l) = if String.eqb h g then l else [].
Proof.
  unfold all_captures. induction l as [|x l IH]; cbn.
  - now destruct (String.eqb h g).
  - destruct (String.eqb h g) eqn:E; cbn; now rewrite IH.
Qed.

Lemma tail_captures_groups (t : string) :
  all_captures "abstract" (tail_captures t) = []
  /\ all_captures "name" (tail_captures t) = []
  /\ all_captures "equals" (tail_captures t)
     = (if starts_equals t then ["="] else [])
  /\ all_captures "value" (tail_captures t)
     = (if starts_equals t
        then match rest t with EmptyString => [] | v => [v] end
        else [])
  /\ all_captures "inherits" (tail_captures t)
     = (if starts_equals t then [] else clauses (String.length t) t).
Proof.
  destruct t as [|a r]; [now repeat split|].
  cbn [tail_captures starts_equals rest]. destruct (lit "=" a).
  - destruct r; now repeat split.
  - rewrite !all_captures_pairs. now repeat split.
Qed.

(** A line without a line feed is split at its first marks.  A [::] at
    the start is the abstract mark when something follows it.  The name is
    the first character after that and the characters up to the first [=]
    or [::].  After an [=], the value is all that follows, with any [=] and
    [::] in it; after a [::], the clauses are what stands between one [::]
    and the next, with any [=] in them, so that a line with a [::] before
    its first [=] declares a collection. *)
Theorem line_splits_at_first_mark (text : string) :
  lf_free text = true -> text <> "" ->
  let t := after_name (rest (named text)) in
  exists m,
    rmatch LINE_REGEX_PATTERN text = Some m
    /\ group_bool "abstract" m = takes_abstract text
    /\ group "name" m = Some (before t (named text))
    /\ named text = (before t (named text) ++ t)%string
    /\ group_bool "equals" m = starts_equals t
    /\ group "value" m
       = (if starts_equals t
          then match rest t with EmptyString => None | v => Some v end
          else None)
    /\ all_captures "inherits" m
       = (if starts_equals t then [] else clauses (String.length t) t).
Proof.
  intros Ht Hne t. exists (line_captures text).
  split; [now apply line_match|].
  destruct (tail_captures_groups t) as (Ha & Hn & He & Hv & Hi).
  fold t in Ha, Hn, He, Hv, Hi.
  assert (Hg : forall g,
            all_captures g (line_captures text)
            = (if takes_abstract text
               then all_captures g [("abstract", "::")] else [])
              ++ all_captures g [("name", before t (named text))]
              ++ all_captures g (tail_captures t)).
  { intros g. unfold line_captures. fold t.
    rewrite all_captures_app.
    change (("name", before t (named text)) :: tail_captures t)
      with ([("name", before t (named text))] ++ tail_captures t).
    rewrite all_captures_app. now destruct (takes_abstract text). }
  split; [|split; [|split; [|split; [|split]]]].
  - unfold group_bool, group. rewrite Hg, Ha.
    now destruct (takes_abstract text).
  - unfold group. rewrite Hg, Hn. now destruct (takes_abstract text).
  - assert (Hnamed : named text <> "").
    { unfold named, takes_abstract. destruct (starts_colons text); cbn [andb];
        [|exact Hne].
      destruct (drop2 text); [exact Hne|discriminate]. }
    destruct (named text) as [|a s] eqn:E; [congruence|].
    unfold t. cbn [rest]. unfold after_name.
    destruct (first_stop_suffix ends_name s) as (pre & Hpre).
    generalize dependent (first_stop ends_name s). intros u Hpre.
    rewrite Hpre.
    change (String a (pre ++ u)) with ((String a pre) ++ u)%string.
    now rewrite before_suffix.
  - unfold group_bool, group. rewrite Hg, He.
    destruct (takes_abstract text), (starts_equals t); reflexivity.
  - unfold group. rewrite Hg, Hv.
    destruct (takes_abstract text), (starts_equals t); try reflexivity;
      now destruct (rest t).
  - rewrite Hg, Hi. now destruct (takes_abstract text).
Qed.

Lemma line_splits_at_first_mark_witness :
  exists m,
    rmatch LINE_REGEX_PATTERN "a :: b =" = Some m
    /\ group "name" m = Some "a "
    /\ group_bool "equals" m = false
    /\ all_captures "inherits" m = [" b ="].
Proof.
  destruct (line_splits_at_first_mark "a :: b =" eq_refl)
    as (m & Hm & _ & Hn & _ & He & _ & Hi).
  - discriminate.
  - exists m. split; [exact Hm|]. split; [exact Hn|]. split; [exact He|exact Hi].
Defined.

End GrammarFacts.

(** ** Includes and files *)
Module IncludeFacts.
Import Regex RegexFacts IndentationTree IndentationTreeFacts.
Import PropertyBag PropertyBagFacts StateFacts PropertyBagParser ParserFacts.
Import LineFacts TreeFacts.

(** *** Generators *)

Lemma nothing_and_then (r : stream) : and_then nothing r = r.
Proof. now destruct r. Qed.

Lemma and_then_nothing (r : stream) : and_then r nothing = r.
Proof.
  destruct r as [ys ls [e|]]; unfold and_then; cbn; [reflexivity|].
  now rewrite !app_nil_r.
Qed.

Lemma and_then_assoc (r1 r2 r3 : stream) :
  and_then (and_then r1 r2) r3 = and_then r1 (and_then r2 r3).
Proof.
  destruct r1 as [y1 l1 [e1|]], r2 as [y2 l2 [e2|]]; unfold and_then; cbn;
    try reflexivity.
  now rewrite !app_assoc.
Qed.

Lemma for_yield_app {X : Type} (f : X -> stream) (xs ys : list X) :
  for_yield f (xs ++ ys) = and_then (for_yield f xs) (for_yield f ys).
Proof.
  induction xs as [|x xs IH]; cbn [for_yield app].
  - now rewrite nothing_and_then.
  - now rewrite IH, and_then_assoc.
Qed.

Lemma parse_includes_app (depth : nat) (fs : files) (base_path : base)
    (lines1 lines2 : list string) :
  parse_includes depth fs base_path (lines1 ++ lines2)
  = and_then (parse_includes depth fs base_path lines1)
      (parse_includes depth fs base_path lines2).
Proof.
  destruct depth as [|depth]; cbn [parse_includes]; [reflexivity|].
  destruct (negb (base_bool base_path)); [reflexivity|].
  apply for_yield_app.
Qed.

Lemma yielded_and_then (P : string -> Prop) (r1 r2 : stream) :
  Forall P (yielded r1) -> Forall P (yielded r2) ->
  Forall P (yielded (and_then r1 r2)).
Proof.
  intros H1 H2. unfold and_then. destruct (raised r1); [exact H1|].
  cbn. apply Forall_app. now split.
Qed.

Lemma yielded_for_yield {X : Type} (P : string -> Prop) (f : X -> stream)
    (xs : list X) :
  (forall x, In x xs -> Forall P (yielded (f x))) ->
  Forall P (yielded (for_yield f xs)).
Proof.
  induction xs as [|x xs IH]; intros H; cbn [for_yield]; [constructor|].
  apply yielded_and_then.
  - apply H. now left.
  - apply IH. intros y Hy. apply H. now right.
Qed.

(** *** [rstrip] *)

Lemma rstrip_rstrip (s : string) : rstrip (rstrip s) = rstrip s.
Proof.
  induction s as [|a s IH]; [reflexivity|]. cbn [rstrip].
  destruct (rstrip s) as [|b r] eqn:E.
  - destruct (isspace a) eqn:Ea; [reflexivity|]. cbn. now rewrite Ea.
  - change (rstrip (String a (String b r)))
      with (match rstrip (String b r) with
            | EmptyString =>
                if isspace a then EmptyString else String a EmptyString
            | String c t => String a (String c t)
            end).
    now rewrite IH.
Qed.



(** *** The include pattern *)

Definition starts_hash (s : string) : bool :=
  match s with
  | String a _ => lit "#" a
  | EmptyString => false
  end.

Lemma star_space_skips (s : string) (caps m : captures)
    (k : string -> captures -> option captures) :
  run (Star true (Chr space)) s caps k = Some m ->
  exists s', k s' caps = Some m /\ skip space s' = skip space s.
Proof.
  induction s as [|a s IH]; rewrite run_star_greedy_chr.
  - intros H. now exists "".
  - cbn [skip]. destruct (space a) eqn:Ea.
    + destruct (run (Star true (Chr space)) s caps k) as [c|] eqn:E.
      * intros H. inversion H; subst c. exact (IH eq_refl).
      * intros H. exists (String a s). split; [exact H|].
        cbn [skip]. now rewrite Ea.
    + intros H. exists (String a s). split; [exact H|].
      cbn [skip]. now rewrite Ea.
Qed.

(** A line whose first character after its white space is no [#] is no
    include. *)
Lemma no_hash_no_include (l : string) :
  starts_hash (skip space l) = false -> rmatch INCLUDE_REGEX_PATTERN l = None.
Proof.
  intros Hl. destruct (rmatch INCLUDE_REGEX_PATTERN l) as [m|] eqn:E;
    [|reflexivity].
  exfalso. unfold rmatch, INCLUDE_REGEX_PATTERN in E. rewrite run_cat in E.
  apply star_space_skips in E as (s' & Hk & Hs).
  change (word "#include") with (Cat (Chr (lit "#")) (word "include")) in Hk.
  rewrite !run_cat, run_chr in Hk.
  destruct s' as [|a t]; [discriminate|].
  destruct (lit "#" a) eqn:Ea; [|discriminate].
  assert (Hsp : space a = false).
  { unfold lit in Ea. apply Ascii.eqb_eq in Ea. now subst a. }
  cbn [skip] in Hs. rewrite Hsp in Hs. rewrite <- Hs in Hl.
  cbn [starts_hash] in Hl. congruence.
Qed.

Lemma run_word (w s : string) (caps : captures)
    (k : string -> captures -> option captures) :
  run (word w) (w ++ s) caps k = k s caps.
Proof.
  induction w as [|a w IH]; [reflexivity|].
  cbn [word append]. rewrite run_cat, run_chr.
  unfold lit at 1. now rewrite Ascii.eqb_refl.
Qed.

Lemma skip_all_of (cls : ascii -> bool) (p s : string) :
  all_of cls p = true -> skip cls (p ++ s) = skip cls s.
Proof.
  induction p as [|a p IH]; [reflexivity|]. cbn [all_of append skip].
  intros H. apply andb_prop in H as [Ha Hp]. rewrite Ha. auto.
Qed.

(** A greedy run of [.] that can go on after [p] does not stop inside
    [p]. *)
Lemma star_dot_app (p s : string) (caps : captures)
    (k : string -> captures -> option captures) :
  lf_free p = true ->
  run (Star true (Chr dot)) s caps k <> None ->
  run (Star true (Chr dot)) (p ++ s) caps k
  = run (Star true (Chr dot)) s caps k.
Proof.
  intros Hp Hs. induction p as [|a p IH]; [reflexivity|].
  cbn [lf_free] in Hp. apply andb_prop in Hp as [Ha Hp].
  cbn [append]. rewrite run_star_greedy_chr, Ha, (IH Hp).
  destruct (run (Star true (Chr dot)) s caps k); [reflexivity|congruence].
Qed.

(** An include line: [#include] and a path in double quotes, with white
    space before and between. *)
Definition include_line (indent gap path tail : string) : string :=
  (indent ++ "#include" ++ gap ++ dq ++ path ++ dq ++ tail)%string.

Lemma include_line_matches (indent gap path tail : string) :
  all_of space indent = true -> all_of space gap = true ->
  lf_free path = true -> at_eol tail = true ->
  rmatch INCLUDE_REGEX_PATTERN (include_line indent gap path tail)
  = Some [("path", path)].
Proof.
  intros Hi Hg Hp Ht. unfold rmatch, INCLUDE_REGEX_PATTERN, include_line.
  assert (Hpath :
    run (Cat (Grp "path" (Star true (Chr dot))) (Cat (word dq) Eol))
      (path ++ dq ++ tail) [] (fun _ c => Some c)
    = Some [("path", path)]).
  { rewrite run_cat, run_grp.
    assert (Hq :
      run (Star true (Chr dot)) (dq ++ tail) []
        (fun s1 c1 =>
           run (Cat (word dq) Eol) s1
             (c1 ++ [("path",
                      substring 0
                        (String.length (path ++ dq ++ tail) - String.length s1)
                        (path ++ dq ++ tail))])
             (fun _ c => Some c))
      = Some [("path", path)]).
    { change (dq ++ tail)%string with (String (ascii_of_nat 34) tail).
      rewrite run_star_greedy_chr.
      change (dot (ascii_of_nat 34)) with true. cbv iota.
      destruct tail as [|a [|b t]]; [| |discriminate].
      - cbn [run rounds String.length word at_eol].
        change (lit (ascii_of_nat 34) (ascii_of_nat 34)) with true. cbv iota.
        change (String (ascii_of_nat 34) "") with (dq ++ "")%string.
        now rewrite substring_prefix.
      - cbn [at_eol] in Ht. apply Ascii.eqb_eq in Ht. subst a.
        cbn [run rounds String.length word at_eol].
        change (dot LF) with false. cbv iota.
        change (lit (ascii_of_nat 34) LF) with false.
        change (lit (ascii_of_nat 34) (ascii_of_nat 34)) with true. cbv iota.
        change (Ascii.eqb LF LF) with true. cbv iota.
        change (String (ascii_of_nat 34) (String LF ""))
          with (dq ++ String LF "")%string.
        now rewrite substring_prefix. }
    rewrite star_dot_app; [exact Hq|exact Hp|]. rewrite Hq. discriminate. }
  assert (Hquote :
    run (Cat (word dq)
           (Cat (Grp "path" (Star true (Chr dot))) (Cat (word dq) Eol)))
      (dq ++ path ++ dq ++ tail) [] (fun _ c => Some c)
    = Some [("path", path)])
    by (now rewrite run_cat, run_word).
  assert (Hgap :
    run (Cat (Star true (Chr space))
           (Cat (word dq)
              (Cat (Grp "path" (Star true (Chr dot))) (Cat (word dq) Eol))))
      (gap ++ dq ++ path ++ dq ++ tail) [] (fun _ c => Some c)
    = Some [("path", path)]).
  { rewrite run_cat.
    assert (Hskip : skip space (gap ++ dq ++ path ++ dq ++ tail)
                    = (dq ++ path ++ dq ++ tail)%string)
      by (now rewrite skip_all_of).
    rewrite run_star_greedy_skip; rewrite Hskip, Hquote;
      [reflexivity|discriminate]. }
  rewrite run_cat.
  assert (Hskip :
    skip space (indent ++ "#include" ++ gap ++ dq ++ path ++ dq ++ tail)
    = ("#include" ++ gap ++ dq ++ path ++ dq ++ tail)%string)
    by (now rewrite skip_all_of).
  rewrite run_star_greedy_skip; rewrite Hskip, run_cat, run_word, Hgap;
    [reflexivity|discriminate].
Qed.

(** *** What the includes yield *)

Lemma yields_of (fs : files) (Q P : string -> Prop) :
  (forall l, Q l -> P (rstrip l)) ->
  (forall f ls, readlines fs f = inr ls -> Forall Q ls) ->
  forall depth base_path lines,
    Forall Q lines ->
    Forall P (yielded (parse_includes depth fs base_path lines)).
Proof.
  intros HQP Hfs. induction depth as [|depth IH]; intros base_path lines Hl;
    cbn [parse_includes]; [constructor|].
  destruct (negb (base_bool base_path)); [constructor|].
  apply yielded_for_yield. intros l Hin.
  destruct (rmatch INCLUDE_REGEX_PATTERN l) as [m|].
  - cbv zeta. destruct (isdir fs _).
    + destruct (listdir fs _) as [e|names]; [constructor|].
      apply yielded_for_yield. intros f _.
      destruct (readlines fs f) as [e|ls] eqn:E; [constructor|].
      apply IH. exact (Hfs _ _ E).
    + destruct (isfile fs _); [|constructor].
      destruct (readlines fs _) as [e|ls] eqn:E; [constructor|].
      apply IH. exact (Hfs _ _ E).
  - repeat constructor. apply HQP. rewrite Forall_forall in Hl. now apply Hl.
Qed.

(** Two files: [main.txt], which includes the other, and [./part.txt]. *)
Definition two_files : files :=
  mkFiles
    (fun _ => false)
    (fun p => String.eqb p "./part.txt")
    (fun _ => inl OSError)
    (fun p =>
       if String.eqb p "main.txt"
       then inr [("a :: b // the bag" ++ String LF "")%string;
                 include_line "  " " " "part.txt" (String LF "");
                 "  y = 2"]
       else if String.eqb p "./part.txt"
       then inr [("  x = 1" ++ String LF "")%string; String LF ""]
       else inl OSError).

(** A directory [.] that holds one file, [part.txt]. *)
Definition one_directory : files :=
  mkFiles
    (fun p => String.eqb p "./")
    (fun p => String.eqb p ".//part.txt")
    (fun p => if String.eqb p "./" then inr ["part.txt"] else inl OSError)
    (fun p =>
       if String.eqb p ".//part.txt" then inr ["x = 1"] else inl OSError).

(** Lines of which none has a [#] as the first character after its white
    space pass the includes with the white space at their ends cut off,
    and no file is looked at; with an empty base path the first step of
    the generator raises [ValueError]. *)
Theorem lines_without_include_pass_stripped (depth : nat) (fs : files)
    (base_path : base) (lines : list string) :
  Forall (fun l => starts_hash (skip space l) = false) lines ->
  parse_includes (S depth) fs base_path lines
  = if base_bool base_path
    then mkStream (map rstrip lines) [] None
    else fail ValueError.
Proof.
  intros Hl. cbn [parse_includes].
  destruct (base_bool base_path); [|reflexivity]. cbn [negb].
  induction Hl as [|l ls Hl _ IH]; [reflexivity|].
  cbn [for_yield map]. now rewrite (no_hash_no_include _ Hl), IH.
Qed.

Lemma lines_without_include_pass_stripped_witness :
  parse_includes 1 two_files (Str "dir") ["a :: b  "; "  x = # 1"]
  = mkStream ["a :: b"; "  x = # 1"] [] None
  /\ parse_includes 1 two_files (Str "") ["a :: b  "; "  x = # 1"]
     = fail ValueError.
Proof.
  split.
  - apply (lines_without_include_pass_stripped 0 two_files (Str "dir")
             ["a :: b  "; "  x = # 1"]).
    repeat constructor.
  - apply (lines_without_include_pass_stripped 0 two_files (Str "")
             ["a :: b  "; "  x = # 1"]).
    repeat constructor.
Defined.

(** Whatever the files hold, no line that the includes yield ends in
    white space: each is a line that [rstrip] leaves as it is. *)
Theorem includes_yield_stripped_lines (depth : nat) (fs : files)
    (base_path : base) (lines : list string) :
  Forall (fun l => rstrip l = l)
    (yielded (parse_includes depth fs base_path lines)).
Proof.
  apply (yields_of fs (fun _ => True) (fun l => rstrip l = l)).
  - intros l _. apply rstrip_rstrip.
  - intros f ls _. apply Forall_forall. now intros.
  - apply Forall_forall. now intros.
Qed.

Lemma include_line_alone (depth : nat) (fs : files) (base_path : base)
    (indent gap path tail : string) :
  base_bool base_path = true ->
  all_of space indent = true -> all_of space gap = true ->
  lf_free path = true -> at_eol tail = true ->
  parse_includes (S depth) fs base_path [include_line indent gap path tail]
  = let full_path := (base_str base_path ++ "/" ++ path)%string in
    if isdir fs full_path then
      match listdir fs full_path with
      | inl e => fail e
      | inr names =>
          for_yield
            (fun file_name =>
               match readlines fs file_name with
               | inl e => fail e
               | inr lines => parse_includes depth fs (Str path) lines
               end)
            (map (fun f => (full_path ++ "/" ++ f)%string)
               (filter (fun f => isfile fs (full_path ++ "/" ++ f)%string)
                  names))
      end
    else if isfile fs full_path then
      match readlines fs full_path with
      | inl e => fail e
      | inr lines => parse_includes depth fs base_path lines
      end
    else log_error (could_not_find_include path).
Proof.
  intros Hb Hi Hg Hp Ht.
  destruct depth as [|depth];
    cbn [parse_includes]; rewrite Hb; cbn [negb for_yield];
    rewrite (include_line_matches _ _ _ _ Hi Hg Hp Ht), and_then_nothing;
    change (group "path" [("path", path)]) with (Some path);
    reflexivity.
Qed.

(** An include line is not yielded.  In its place come, for a path that
    is a directory below the base path, the lines of the files of the
    directory, each read with the path of the include as its base path;
    for a path that is a file, the lines of the file, with the base path
    kept; for any other path nothing, and an error is logged.  The lines
    before and after are read as they are without the include. *)
Theorem include_line_is_replaced (depth : nat) (fs : files)
    (base_path : base) (indent gap path tail : string)
    (before after : list string) :
  base_bool base_path = true ->
  all_of space indent = true -> all_of space gap = true ->
  lf_free path = true -> at_eol tail = true ->
  parse_includes (S depth) fs base_path
    (before ++ include_line indent gap path tail :: after)
  = and_then (parse_includes (S depth) fs base_path before)
      (and_then
         (let full_path := (base_str base_path ++ "/" ++ path)%string in
          if isdir fs full_path then
            match listdir fs full_path with
            | inl e => fail e
            | inr names =>
                for_yield
                  (fun file_name =>
                     match readlines fs file_name with
                     | inl e => fail e
                     | inr lines => parse_includes depth fs (Str path) lines
                     end)
                  (map (fun f => (full_path ++ "/" ++ f)%string)
                     (filter (fun f => isfile fs (full_path ++ "/" ++ f)%string)
                        names))
            end
          else if isfile fs full_path then
            match readlines fs full_path with
            | inl e => fail e
            | inr lines => parse_includes depth fs base_path lines
            end
          else log_error (could_not_find_include path))
         (parse_includes (S depth) fs base_path after)).
Proof.
  intros Hb Hi Hg Hp Ht.
  change (before ++ include_line indent gap path tail :: after)
    with (before ++ [include_line indent gap path tail] ++ after).
  rewrite !parse_includes_app. f_equal. f_equal.
  now apply include_line_alone.
Qed.

Lemma include_line_is_replaced_witness :
  parse_includes 2 two_files (Str ".")
    ["a" ; include_line "  " " " "part.txt" (String LF "");
     include_line "" "" "none.txt" ""; "b"]
  = mkStream ["a"; "  x = 1"; ""; "b"]
      [could_not_find_include "none.txt"] None.
Proof.
  etransitivity.
  - exact (include_line_is_replaced 1 two_files (Str ".")
             "  " " " "part.txt" (String LF "") ["a"]
             [include_line "" "" "none.txt" ""; "b"]
             eq_refl eq_refl eq_refl eq_refl eq_refl).
  - reflexivity.
Defined.

(** An include of the empty path names the base directory.  Its files
    are read with the empty path as their base path: when the directory
    holds a file that can be read, the generator yields the lines before
    the include and then raises [ValueError]. *)
Theorem empty_include_path_raises (depth : nat) (fs : files)
    (base_path : base) (indent gap tail : string)
    (before after : list string) (names : list string)
    (file : string) (others : list string) (lines : list string) :
  base_bool base_path = true ->
  all_of space indent = true -> all_of space gap = true ->
  at_eol tail = true ->
  isdir fs (base_str base_path ++ "/")%string = true ->
  listdir fs (base_str base_path ++ "/")%string = inr names ->
  filter (fun f => isfile fs ((base_str base_path ++ "/") ++ "/" ++ f)%string)
    names = file :: others ->
  readlines fs ((base_str base_path ++ "/") ++ "/" ++ file)%string
  = inr lines ->
  parse_includes (S (S depth)) fs base_path
    (before ++ include_line indent gap "" tail :: after)
  = and_then (parse_includes (S (S depth)) fs base_path before)
      (fail ValueError).
Proof.
  intros Hb Hi Hg Ht Hd Hl Hf Hr.
  change (before ++ include_line indent gap "" tail :: after)
    with (before ++ [include_line indent gap "" tail] ++ after).
  rewrite !parse_includes_app.
  rewrite (include_line_alone (S depth) fs base_path indent gap "" tail
             Hb Hi Hg eq_refl Ht).
  cbv zeta. change ("/" ++ "")%string with "/".
  rewrite Hd, Hl, Hf. cbn [map for_yield]. rewrite Hr.
  change (parse_includes (S depth) fs (Str "") lines) with (fail ValueError).
  reflexivity.
Qed.

Lemma empty_include_path_raises_witness :
  parse_includes 2 one_directory (Str ".")
    ["a"; include_line "" " " "" ""; "b"]
  = mkStream ["a"] [] (Some ValueError).
Proof.
  etransitivity.
  - exact (empty_include_path_raises 0 one_directory (Str ".")
             "" " " "" ["a"] ["b"] ["part.txt"] "part.txt" [] ["x = 1"]
             eq_refl eq_refl eq_refl eq_refl eq_refl eq_refl eq_refl eq_refl).
  - reflexivity.
Defined.

(** *** [from_file] *)




End IncludeFacts.

(** ** The parser under a recursion limit *)
Module LimitFacts.
Import Regex RegexFacts IndentationTree IndentationTreeFacts.
Import PropertyBag PropertyBagFacts StateFacts PropertyBagParser ParserFacts.
Import LineFacts TreeFacts NestingFacts IncludeFacts.

Lemma bind_ok {A B : Type} (m : M state A) (f : A -> M state B)
    (st : state) (a : A) (st' : state) :
  m st = Ok (a, st') -> bind m f st = f a st'.
Proof. intros H. unfold bind. now rewrite H. Qed.

Lemma list_sum_cons (a : nat) (l : list nat) :
  list_sum (a :: l) = a + list_sum l.
Proof. reflexivity. Qed.

Section Within.
Variable limit : nat.

(** *** The calls of the class *)

Lemma flattened_within (self : ref) (st : state) :
  bases_older (heap st) -> self < List.length (heap st) ->
  List.length (heap st) <= limit ->
  Limited.flattened limit self st = flattened self st.
Proof.
  intros Hwf Hself Hlim. unfold Limited.flattened, flattened.
  now rewrite !flatten_flat by (assumption || lia).
Qed.

Lemma contains_within (self : ref) (item : string) (st : state) :
  bases_older (heap st) -> self < List.length (heap st) ->
  List.length (heap st) <= limit ->
  Limited.__contains__ limit self item st = __contains__ self item st.
Proof.
  intros Hwf Hself Hlim. unfold Limited.__contains__, __contains__, lru_cache.
  destruct (lru_find (self, item) (contains_cache st)); [reflexivity|].
  unfold bind. cbn [fst snd]. now rewrite flattened_within.
Qed.

Lemma getitem_within_unfold (fuel : nat) (k : key) :
  Limited.getitem limit fuel k =
  lru_cache 32 getitem_cache set_getitem_cache
    (fun k st =>
       match fuel with
       | 0 => Raise RecursionError
       | S fuel' =>
           match nth_error (heap st) (fst k) with
           | None => Raise Dangling
           | Some b =>
               match dict_get (snd k) (children b) with
               | Some c => Ok (Some c, st)
               | None =>
                   Limited.from_bases limit (Limited.getitem limit fuel')
                     (snd k) (rev (bases b)) st
               end
           end
       end) k.
Proof. destruct fuel; reflexivity. Qed.

Lemma getitem_within (fuel : nat) :
  forall (fuel' : nat) (self : ref) (item : string) (st : state),
    wf st -> self < List.length (heap st) ->
    self < fuel -> self < fuel' -> List.length (heap st) <= limit ->
    Limited.getitem limit fuel (self, item) st = getitem fuel' (self, item) st.
Proof.
  induction fuel as [|fuel IH]; intros fuel' self item st Hwf Hself Hf Hf' Hlim;
    [lia|].
  destruct fuel' as [|fuel']; [lia|].
  rewrite getitem_within_unfold, getitem_unfold. unfold lru_cache.
  assert (Hbody :
    match nth_error (heap st) (fst (self, item)) with
    | None => Raise Dangling
    | Some b =>
        match dict_get (snd (self, item)) (children b) with
        | Some c => Ok (Some c, st)
        | None =>
            Limited.from_bases limit (Limited.getitem limit fuel)
              (snd (self, item)) (rev (bases b)) st
        end
    end = getitem_body (S fuel') (self, item) st).
  { unfold getitem_body. cbn [fst snd].
    destruct (nth_error (heap st) self) as [b|] eqn:Eb; [|reflexivity].
    destruct (dict_get item (children b)); [reflexivity|].
    assert (Hbs : Forall (fun x => x < self) (rev (bases b)))
      by (apply Forall_rev; exact (wf_bases _ Hwf _ _ Eb)).
    clear Eb. revert st Hwf Hself Hlim.
    induction Hbs as [|x bs Hx _ IHbs]; intros st Hwf Hself Hlim;
      [reflexivity|].
    cbn [Limited.from_bases from_bases]. unfold bind.
    rewrite contains_within by (try apply wf_bases; assumption || lia).
    destruct (contains_total x item st Hwf ltac:(lia))
      as (found & st1 & Hrun & [Hh Hw] & Hg).
    rewrite Hrun.
    assert (Hwf1 : wf st1) by (now apply (wf_same st)).
    destruct found.
    - apply IH; try assumption; rewrite ?Hh; lia.
    - apply IHbs; try assumption; rewrite ?Hh; lia. }
  destruct (lru_find (self, item) (getitem_cache st)); [reflexivity|].
  now rewrite Hbody.
Qed.

Lemma getitem_top_within (self : ref) (item : string) (st : state) :
  wf st -> self < List.length (heap st) -> List.length (heap st) <= limit ->
  Limited.__getitem__ limit self item st = __getitem__ self item st.
Proof.
  intros Hwf Hself Hlim. unfold Limited.__getitem__, __getitem__.
  apply getitem_within; assumption || lia.
Qed.

(** *** The searches *)

Lemma search_within (base_name : string) (props : list ref) :
  forall st,
    wf st -> valid st props -> List.length (heap st) <= limit ->
    Limited.search limit base_name props st = search base_name props st.
Proof.
  induction props as [|p rest IH]; intros st Hwf Hv Hlim; [reflexivity|].
  inversion Hv as [|? ? Hp Hrest]; subst.
  cbn [Limited.search search]. unfold bind.
  rewrite contains_within by (try apply wf_bases; assumption).
  destruct (contains_total p base_name st Hwf Hp)
    as (found & st1 & Hrun & [Hh Hw] & Hg).
  rewrite Hrun.
  assert (Hwf1 : wf st1) by (now apply (wf_same st)).
  destruct found.
  - apply getitem_top_within; rewrite ?Hh; assumption.
  - apply IH; [exact Hwf1| |rewrite Hh; exact Hlim].
    unfold valid. now rewrite Hh.
Qed.

Lemma find_base_within (base_name : string) (parents abstract_props : list ref)
    (st : state) :
  wf st -> valid st parents -> valid st abstract_props ->
  List.length (heap st) <= limit ->
  Limited.find_base limit base_name parents abstract_props st
  = find_base base_name parents abstract_props st.
Proof.
  intros Hwf Hp Ha Hlim. unfold Limited.find_base, find_base, bind.
  rewrite search_within by assumption.
  destruct (search_total base_name parents st Hwf Hp)
    as (v & st1 & Hrun & [Hh Hw] & Hwf1 & _).
  rewrite Hrun. destruct v; [reflexivity|].
  apply search_within; [exact Hwf1| |rewrite Hh; exact Hlim].
  unfold valid. now rewrite Hh.
Qed.

Lemma find_bases_within (inherits : list string) (name : string)
    (parents abstract_props : list ref) :
  forall st,
    wf st -> valid st parents -> valid st abstract_props ->
    List.length (heap st) <= limit ->
    Limited.find_bases limit inherits name parents abstract_props st
    = find_bases inherits name parents abstract_props st.
Proof.
  induction inherits as [|base_name rest IH]; intros st Hwf Hp Ha Hlim;
    [reflexivity|].
  cbn [Limited.find_bases find_bases]. unfold bind.
  rewrite find_base_within by assumption.
  destruct (find_base_total base_name parents abstract_props st Hwf Hp Ha)
    as (v & st1 & Hrun & [Hh Hw] & Hwf1 & _).
  rewrite Hrun.
  assert (Hp1 : valid st1 parents) by (unfold valid; now rewrite Hh).
  assert (Ha1 : valid st1 abstract_props) by (unfold valid; now rewrite Hh).
  destruct v as [b|].
  - rewrite IH by (assumption || (rewrite Hh; exact Hlim)). reflexivity.
  - rewrite !warn_eq. apply IH.
    + now apply (wf_same st1).
    + exact Hp1.
    + exact Ha1.
    + cbn. rewrite Hh. exact Hlim.
Qed.

(** *** The declarations *)

Lemma read_line_within (text : string) (parent_prop : ref) (st : state) :
  bases_older (heap st) -> parent_prop < List.length (heap st) ->
  List.length (heap st) <= limit ->
  Limited.read_line limit text parent_prop st = read_line text parent_prop st.
Proof.
  intros Hwf Hp Hlim. unfold Limited.read_line, read_line.
  destruct (rmatch LINE_REGEX_PATTERN text) as [m|]; [|reflexivity].
  destruct (group "name" m) as [n|]; [|reflexivity].
  unfold bind. destruct (truthy (strip n)); [reflexivity|].
  unfold Limited.count, count, bind. now rewrite flattened_within.
Qed.

Lemma declare_within (c : tree) (parent : ref) (ps abs : list ref)
    (st : state) :
  wf st -> valid st (parent :: ps) -> valid st abs ->
  List.length (heap st) <= limit ->
  Limited.declare limit c (parent :: ps) abs st = declare c (parent :: ps) abs st.
Proof.
  intros Hwf Hp Ha Hlim. destruct c as [i text cs].
  assert (Hparent : parent < List.length (heap st)) by (now inversion Hp).
  unfold Limited.declare, declare. apply bind_cong.
  - apply read_line_within; [apply wf_bases| |]; assumption.
  - intros l st' Hl.
    assert (Hst : st' = st).
    { unfold read_line in Hl.
      destruct (rmatch LINE_REGEX_PATTERN text) as [m|] eqn:Hm;
        [|discriminate].
      destruct (name_group_set _ _ Hm) as (n & Hn).
      pose proof (read_line_eq text parent st m n Hm Hn (wf_bases _ Hwf)
                    Hparent) as Heq.
      unfold read_line in Heq. rewrite Hm in Heq. rewrite Heq in Hl.
      now inversion Hl. }
    subst st'.
    destruct (has_equals l && has_value l); [reflexivity|].
    destruct (has_equals l); [reflexivity|].
    apply bind_cong; [now apply find_bases_within|reflexivity].
Qed.

Lemma declare_grows (c : tree) (parent : ref) (ps : list ref)
    (holder : ref) (hs : list ref) (st st' : state) (r : option ref) :
  matched (text_of c) = true ->
  wf st -> valid st (parent :: ps) -> valid st (holder :: hs) ->
  declare c (parent :: ps) (holder :: hs) st = Ok (r, st') ->
  List.length (heap st') = S (List.length (heap st)).
Proof.
  destruct c as [i text cs]. unfold matched. cbn [text_of].
  destruct (rmatch LINE_REGEX_PATTERN text) as [m|] eqn:Hm; [|discriminate].
  intros _ Hwf Hp Ha Hrun.
  destruct (name_group_set _ _ Hm) as (n & Hn).
  destruct (declare_spec i text cs parent ps holder hs st m n Hm Hn Hwf Hp Ha)
    as (found & st1 & st2 & Hrun2 & _ & _ & _ & Hlen & _).
  rewrite Hrun in Hrun2. inversion Hrun2; subst. exact Hlen.
Qed.

(** The bags that [_parse_tree] can make of a tree: a holder for the
    node, a bag for each child, and those of the children. *)
Fixpoint weight (t : tree) : nat :=
  match t with
  | IndentationTree.Node _ _ cs => S (list_sum (map (fun c => S (weight c)) cs))
  end.

(** On a tree that is small enough, [_parse_tree] under the limit is
    [_parse_tree]. *)
Definition agrees (t : tree) : Prop :=
  lines_match t = true ->
  forall fuel parent ps abs st,
    scoped st (parent :: ps) abs ->
    weight t <= fuel -> List.length (heap st) + weight t <= limit ->
    exists st',
      _parse_tree t (parent :: ps) abs st = Ok ((ps, abs), st')
      /\ Limited._parse_tree limit fuel t (parent :: ps) abs st
         = Ok ((ps, abs), st')
      /\ scoped st' ps abs /\ later st st'
      /\ List.length (heap st') <= List.length (heap st) + weight t.

Lemma each_child_within (fuel : nat) (cs : list tree) :
  Forall agrees cs ->
  forallb (fun c => matched (text_of c) && lines_match c) cs = true ->
  Forall (fun c => weight c <= fuel) cs ->
  forall parent ps holder hs st,
    scoped st (parent :: ps) (holder :: hs) ->
    List.length (heap st) + list_sum (map (fun c => S (weight c)) cs)
    <= limit ->
    exists st',
      each_child _parse_tree cs (parent :: ps) (holder :: hs) st
      = Ok ((ps, hs), st')
      /\ Limited.each_child limit (Limited._parse_tree limit fuel) cs
           (parent :: ps) (holder :: hs) st
         = Ok ((ps, hs), st')
      /\ scoped st' (parent :: ps) (holder :: hs) /\ later st st'
      /\ List.length (heap st')
         <= List.length (heap st) + list_sum (map (fun c => S (weight c)) cs).
Proof.
  induction 1 as [|c cs Hc _ IH];
    intros Hall Hfuel parent ps holder hs st Hsc Hlim.
  - exists st. split; [reflexivity|]. split; [reflexivity|].
    split; [exact Hsc|]. split; [apply later_refl|]. cbn. lia.
  - cbn [forallb] in Hall. apply andb_true_iff in Hall as [Hmc Hall].
    apply andb_true_iff in Hmc as [Hmatched Hlines].
    inversion Hfuel as [|? ? Hfc Hfcs]; subst.
    cbn [map] in Hlim |- *. rewrite list_sum_cons in Hlim |- *.
    cbn [each_child Limited.each_child].
    pose proof Hsc as (Hwf & Hp & Ha & _).
    destruct (declare_scoped c parent ps holder hs st Hmatched Hsc)
      as (r & st1 & Hrun & Hsc1 & Hl1 & Hprop).
    pose proof (declare_grows _ _ _ _ _ _ _ _ Hmatched Hwf Hp Ha Hrun) as Hlen1.
    assert (Hrun' : Limited.declare limit c (parent :: ps) (holder :: hs) st
                    = Ok (r, st1))
      by (rewrite declare_within by (assumption || lia); exact Hrun).
    rewrite (bind_ok (declare c (parent :: ps) (holder :: hs)) _ st r st1 Hrun).
    rewrite (bind_ok (Limited.declare limit c (parent :: ps) (holder :: hs))
               _ st r st1 Hrun').
    destruct r as [prop|].
    + destruct (Hc Hlines fuel prop (parent :: ps) (holder :: hs) st1
                  (Hprop prop eq_refl) Hfc ltac:(lia))
        as (st2 & Hrun2 & Hrun2' & Hsc2 & Hl2 & Hlen2).
      rewrite (bind_ok _ _ st1 _ st2 Hrun2), (bind_ok _ _ st1 _ st2 Hrun2').
      cbn [fst snd].
      destruct (IH Hall Hfcs parent ps holder hs st2 Hsc2 ltac:(lia))
        as (st3 & Hrun3 & Hrun3' & Hsc3 & Hl3 & Hlen3).
      exists st3. split; [exact Hrun3|]. split; [exact Hrun3'|].
      split; [exact Hsc3|]. split; [|lia].
      eapply later_trans; [exact Hl1|]. eapply later_trans; eassumption.
    + destruct (IH Hall Hfcs parent ps holder hs st1 Hsc1 ltac:(lia))
        as (st3 & Hrun3 & Hrun3' & Hsc3 & Hl3 & Hlen3).
      exists st3. split; [exact Hrun3|]. split; [exact Hrun3'|].
      split; [exact Hsc3|]. split; [|lia].
      eapply later_trans; eassumption.
Qed.

Lemma weight_child (c : tree) (cs : list tree) :
  In c cs -> S (weight c) <= list_sum (map (fun c => S (weight c)) cs).
Proof.
  induction cs as [|c0 cs IH]; intros Hin; [destruct Hin|].
  cbn [map]. rewrite list_sum_cons. destruct Hin as [->|Hin]; [lia|].
  specialize (IH Hin). lia.
Qed.

Lemma parse_tree_within (t : tree) : agrees t.
Proof.
  induction t as [i tx cs IH] using tree_induction.
  intros Hall fuel parent ps abs st (Hwf & Hp & Ha & Hun) Hfuel Hlim.
  cbn [weight] in Hfuel, Hlim |- *.
  destruct fuel as [|fuel]; [lia|].
  cbn [_parse_tree Limited._parse_tree].
  set (st1 := set_heap (heap st ++ [mk "abstract" "" [] []]) st).
  rewrite !(bind_ok (new "abstract" "" []) _ st (List.length (heap st)) st1
              (new_eq _ _ _ _)).
  assert (Hlen1 : List.length (heap st1) = S (List.length (heap st)))
    by (cbn; rewrite length_app; cbn; lia).
  assert (Hsc1 : scoped st1 (parent :: ps) (List.length (heap st) :: abs)).
  { split; [apply new_wf; [exact Hwf|constructor]|].
    split; [apply (valid_mono st); [lia|exact Hp]|]. split.
    - constructor; [lia|]. apply (valid_mono st); [lia|exact Ha].
    - constructor; [apply new_fresh; [exact Hwf|constructor]|].
      eapply Forall_impl; [|exact Hun].
      intros x Hx. now apply new_unreferenced. }
  destruct (each_child_within fuel cs IH Hall) with
    (parent := parent) (ps := ps) (holder := List.length (heap st))
    (hs := abs) (st := st1)
    as (st' & Hrun & Hrun' & (Hwf' & Hp' & Ha' & Hun') & (Hle & Hn & Hg) & Hlen');
    [|exact Hsc1|lia|].
  { apply Forall_forall. intros c Hc. pose proof (weight_child c cs Hc). lia. }
  exists st'. split; [exact Hrun|]. split; [exact Hrun'|]. split; [|split].
  - split; [exact Hwf'|]. split; [now inversion Hp'|].
    split; [now inversion Ha'|now inversion Hun'].
  - split; [lia|]. split; [|exact Hg].
    intros r k Hr. apply Hn. cbn. now apply name_of_app.
  - lia.
Qed.

(** [parse] under the limit is [parse], on a tree that the limit has
    room for. *)
Lemma parse_within (t : tree) (st : state) :
  lines_match t = true -> wf st ->
  List.length (heap st) + S (weight t) <= limit ->
  exists st',
    Limited.parse limit t st = Ok (List.length (heap st), st')
    /\ PropertyBagParser.parse t st = Ok (List.length (heap st), st')
    /\ wf st'
    /\ name_of (heap st') (List.length (heap st)) = Some "root".
Proof.
  intros Hall Hwf Hlim.
  set (st1 := set_heap (heap st ++ [mk "root" "" [] []]) st).
  assert (Hlen1 : List.length (heap st1) = S (List.length (heap st)))
    by (cbn; rewrite length_app; cbn; lia).
  assert (Hsc1 : scoped st1 [List.length (heap st)] []).
  { split; [apply new_wf; [exact Hwf|constructor]|].
    split; [|split; constructor].
    constructor; [|constructor]. lia. }
  destruct (parse_tree_within t Hall limit _ _ _ _ Hsc1 ltac:(lia) ltac:(lia))
    as (st' & Hrun & Hrun' & (Hwf' & _) & (_ & Hn & _) & _).
  exists st'. split; [|split; [|split; [exact Hwf'|]]].
  - unfold Limited.parse.
    rewrite (bind_ok (new "root" "" []) _ st (List.length (heap st)) st1
               (new_eq _ _ _ _)).
    now rewrite (bind_ok _ _ st1 _ st' Hrun').
  - unfold PropertyBagParser.parse.
    rewrite (bind_ok (new "root" "" []) _ st (List.length (heap st)) st1
               (new_eq _ _ _ _)).
    now rewrite (bind_ok _ _ st1 _ st' Hrun).
  - apply Hn. unfold name_of. cbn.
    now rewrite nth_error_app2, Nat.sub_diag by lia.
Qed.

(** *** From the lines *)




End Within.







End LimitFacts.
